(** * Tarp: a shallow embedding of [Tarp.h] and the properties checked on it

    The embedding follows [src/Tarp/Tarp.h] function by function and keeps
    the names of the source.  The C type [tpFloat] is kept abstract behind the
    class [Arith]: every function of the embedding is written once, over any
    scalar type, and is then read

    - over the real numbers ([R_arith]), which is the arithmetic the
      properties on exact values are stated in, and
    - over IEEE 754 binary32 ([b32_arith], from the Standard Library's
      [SpecFloat]), which is the arithmetic the C code runs on and the only
      one in which infinities and NaN exist.

    The typed arrays of [Tarp/TarpArray.h] are lists; an append never fails
    (the allocation failure branch of the source is not modelled). *)

From Stdlib Require Import String Bool ZArith Reals Lra Lia Psatz List.
From Stdlib Require Import Sorted Permutation.
From Stdlib Require Import Floats.SpecFloat.
Import ListNotations.

Set Implicit Arguments.

(** ** Scalar arithmetic *)

(** The operations of C on [tpFloat] that the embedded functions use.
    Comparisons are boolean, as in C; [a > b] of the source is written
    [fltb b a], [a >= b] is [fleb b a] and [a != b] is [negb (feqb a b)]. *)
Class Arith (F : Type) : Type := {
  fconst : Z -> positive -> F;     (* the literal n/d *)
  fadd : F -> F -> F;
  fsub : F -> F -> F;
  fmul : F -> F -> F;
  fdiv : F -> F -> F;
  fneg : F -> F;
  fabs : F -> F;                   (* fabs, fabsf *)
  fsqrt : F -> F;                  (* sqrt, sqrtf *)
  feqb : F -> F -> bool;
  fltb : F -> F -> bool;
  fleb : F -> F -> bool
}.

(** The functions of <math.h> beyond the basic operations, and the
    conversion [(int)x]. *)
Class Libm (F : Type) : Type := {
  fsin : F -> F;
  fcos : F -> F;
  facos : F -> F;
  ffmod : F -> F -> F;
  ftoint : F -> Z
}.

Declare Scope tp_scope.
Delimit Scope tp_scope with tp.
Infix "+" := fadd : tp_scope.
Infix "-" := fsub : tp_scope.
Infix "*" := fmul : tp_scope.
Infix "/" := fdiv : tp_scope.
Notation "- a" := (fneg a) : tp_scope.
Infix "=?" := feqb : tp_scope.
Infix "<?" := fltb : tp_scope.
Infix "<=?" := fleb : tp_scope.
Notation "a >? b" := (fltb b a) : tp_scope.
Notation "a >=? b" := (fleb b a) : tp_scope.

(** *** Real numbers *)

Definition Reqb (a b : R) : bool := if Req_dec_T a b then true else false.
Definition Rltb (a b : R) : bool := if Rlt_dec a b then true else false.
Definition Rleb (a b : R) : bool := if Rle_dec a b then true else false.

(** Truncation toward zero, the conversion of C from a floating type to
    [int]. *)
Definition Rtrunc (a : R) : Z :=
  if Rle_dec 0 a then Int_part a else (- Int_part (- a))%Z.

(** [fmod x y] of C: [x - n*y] with [n] the quotient [x/y] truncated toward
    zero. *)
Definition Rfmod (a b : R) : R := (a - IZR (Rtrunc (a / b)) * b)%R.

#[export] Instance R_arith : Arith R := {|
  fconst := fun n d => (IZR n / IZR (Zpos d))%R;
  fadd := Rplus; fsub := Rminus; fmul := Rmult; fdiv := Rdiv;
  fneg := Ropp; fabs := Rabs; fsqrt := sqrt;
  feqb := Reqb; fltb := Rltb; fleb := Rleb
|}.

#[export] Instance R_libm : Libm R := {|
  fsin := sin; fcos := cos; facos := acos;
  ffmod := Rfmod; ftoint := Rtrunc
|}.

(** *** IEEE 754 binary32

    [tpFloat] is [float].  The instance evaluates every operation in single
    precision with round to nearest even. *)
Definition b32 : Type := spec_float.
Definition b32_prec : Z := 24.
Definition b32_emax : Z := 128.

(** The literal [n/d] rounded to the nearest binary32 value: the division
    of [SpecFloat] rounds the exact quotient of the two integers once. *)
Definition b32_of_Q (n : Z) (d : positive) : b32 :=
  match n with
  | Z0 => S754_zero false
  | Zpos p => SFdiv b32_prec b32_emax (S754_finite false p 0) (S754_finite false d 0)
  | Zneg p => SFdiv b32_prec b32_emax (S754_finite true p 0) (S754_finite false d 0)
  end.

Definition b32_is_finite (a : b32) : bool :=
  match a with
  | S754_zero _ | S754_finite _ _ _ => true
  | S754_infinity _ | S754_nan => false
  end.

#[export] Instance b32_arith : Arith b32 := {|
  fconst := b32_of_Q;
  fadd := SFadd b32_prec b32_emax;
  fsub := SFsub b32_prec b32_emax;
  fmul := SFmul b32_prec b32_emax;
  fdiv := SFdiv b32_prec b32_emax;
  fneg := SFopp; fabs := SFabs;
  fsqrt := SFsqrt b32_prec b32_emax;
  feqb := SFeqb; fltb := SFltb; fleb := SFleb
|}.

(** The C library decides the values of [sinf], [cosf], [acosf] and [fmodf];
    the instance takes them as they come. *)
Definition b32_libm (sinf cosf acosf : b32 -> b32) (fmodf : b32 -> b32 -> b32)
    (toint : b32 -> Z) : Libm b32 := {|
  fsin := sinf; fcos := cosf; facos := acosf; ffmod := fmodf; ftoint := toint
|}.

(** ** Basic types *)

Definition tpBool : Type := bool.
Definition tpTrue : tpBool := true.
Definition tpFalse : tpBool := false.

Record tpVec2 (F : Type) : Type := mkVec2 { vx : F; vy : F }.

(** [tpMat2]: [v] is the array of four floats, column after column. *)
Record tpMat2 (F : Type) : Type := mkMat2 { v0 : F; v1 : F; v2 : F; v3 : F }.

Record tpTransform (F : Type) : Type := mkTransform { tm : tpMat2 F; tt : tpVec2 F }.

Record tpSegment (F : Type) : Type := mkSegment {
  handleIn : tpVec2 F;
  position : tpVec2 F;
  handleOut : tpVec2 F
}.

Section Geometry.
Context {F : Type} {A : Arith F}.
Local Open Scope tp_scope.

Definition c0 : F := fconst 0 1.
Definition c1 : F := fconst 1 1.
Definition c2 : F := fconst 2 1.
Definition c3 : F := fconst 3 1.
Definition chalf : F := fconst 1 2.

Definition FLT_EPSILON : F := fconst 1 8388608.
Definition FLT_MAX : F :=
  fconst 340282346638528859811704183484516925440 1.

Definition TARP_MIN (a b : F) : F := if a <? b then a else b.
Definition TARP_MAX (a b : F) : F := if a >? b then a else b.

Definition tpVec2Make (x y : F) : tpVec2 F := mkVec2 x y.

Definition tpVec2Add (a b : tpVec2 F) : tpVec2 F :=
  mkVec2 (vx a + vx b) (vy a + vy b).

Definition tpVec2Sub (a b : tpVec2 F) : tpVec2 F :=
  mkVec2 (vx a - vx b) (vy a - vy b).

Definition tpVec2MultScalar (a : tpVec2 F) (b : F) : tpVec2 F :=
  mkVec2 (vx a * b) (vy a * b).

Definition tpVec2Equals (a b : tpVec2 F) : tpBool :=
  (vx a =? vx b) && (vy a =? vy b).

Definition tpVec2Length (a : tpVec2 F) : F :=
  fsqrt (vx a * vx a + vy a * vy a).

Definition tpVec2NormalizeSelf (a : tpVec2 F) : tpVec2 F :=
  let s := c1 / tpVec2Length a in
  mkVec2 (vx a * s) (vy a * s).

Definition tpVec2Perp (a : tpVec2 F) : tpVec2 F := mkVec2 (vy a) (- vx a).

Definition tpVec2Dot (a b : tpVec2 F) : F := vx a * vx b + vy a * vy b.

Definition tpVec2Cross (a b : tpVec2 F) : F := vx a * vy b - vy a * vx b.

Definition tpVec2Distance (a b : tpVec2 F) : F := tpVec2Length (tpVec2Sub a b).

Definition tpVec2Lerp (a b : tpVec2 F) (t : F) : tpVec2 F :=
  tpVec2Add (tpVec2MultScalar a (c1 - t)) (tpVec2MultScalar b t).

(** [tpMat2Make] stores [_b] in [v[2]] and [_c] in [v[1]]. *)
Definition tpMat2Make (a b c d : F) : tpMat2 F := mkMat2 a c b d.

Definition tpMat2MakeIdentity : tpMat2 F := tpMat2Make c1 c0 c0 c1.

Definition tpMat2MultVec2 (m : tpMat2 F) (p : tpVec2 F) : tpVec2 F :=
  mkVec2 (vx p * v0 m + vy p * v2 m) (vx p * v1 m + vy p * v3 m).

Definition tpMat2Mult (a b : tpMat2 F) : tpMat2 F :=
  mkMat2 (v0 b * v0 a + v1 b * v2 a)
         (v0 b * v1 a + v1 b * v3 a)
         (v2 b * v0 a + v3 b * v2 a)
         (v2 b * v1 a + v3 b * v3 a).

Definition tpTransformMake (a b x c d y : F) : tpTransform F :=
  mkTransform (tpMat2Make a b c d) (tpVec2Make x y).

Definition tpTransformMakeIdentity : tpTransform F :=
  mkTransform tpMat2MakeIdentity (tpVec2Make c0 c0).

Definition tpTransformApply (t : tpTransform F) (p : tpVec2 F) : tpVec2 F :=
  tpVec2Add (tpMat2MultVec2 (tm t) p) (tt t).

Definition tpTransformCombine (a b : tpTransform F) : tpTransform F :=
  mkTransform (tpMat2Mult (tm a) (tm b)) (tpTransformApply a (tt b)).

Definition tpSegmentMake (h0x h0y px py h1x h1y : F) : tpSegment F :=
  mkSegment (tpVec2Make h0x h0y) (tpVec2Make px py) (tpVec2Make h1x h1y).

End Geometry.

Section MathFunctions.
Context {F : Type} {A : Arith F} {L : Libm F}.
Local Open Scope tp_scope.

Definition TARP_PI : F := fconst 314159265358979323846 100000000000000000000.
Definition TARP_HALF_PI : F := TARP_PI * chalf.

Definition tpMat2MakeRotation (angle : F) : tpMat2 F :=
  let c := fcos angle in
  let s := fsin angle in
  tpMat2Make c (- s) s c.

End MathFunctions.

(** ** Paths and the builder API *)

Record _tpGLRect (F : Type) : Type := mkRect { rmin : tpVec2 F; rmax : tpVec2 F }.

Record _tpGLCurve (F : Type) : Type := mkCurve {
  p0 : tpVec2 F; h0 : tpVec2 F; h1 : tpVec2 F; p1 : tpVec2 F
}.

(** [_tpGLContour].  [bounds] is written by the flattener only and is [None]
    until then; the fields [length], [bLengthDirty] and the four vertex
    offsets and counts of the struct are never read by the functions
    embedded here and are left out. *)
Record _tpGLContour (F : Type) : Type := mkContour {
  segments : list (tpSegment F);
  bDirty : tpBool;
  bIsClosed : tpBool;
  lastSegmentIndex : Z;
  bounds : option (_tpGLRect F)
}.

(** [_tpGLPath], without the fields that only record the last draw
    (transform, gradient ids, paint transforms, the render cache pointer). *)
Record _tpGLPath (F : Type) : Type := mkPath {
  contours : list (_tpGLContour F);
  currentContourIndex : Z;
  bPathGeometryDirty : tpBool
}.

(** The thread local buffer [__g_error]. *)
Definition error_buffer : Type := string.

Definition _tpGLSetErrorMessage (message : string) (g_error : error_buffer)
  : error_buffer := message.

Section Arrays.
Context {T : Type}.

(** [_..ArrayAtPtr]: the element at an index of the array; outside the
    array the source has no defined behaviour and the model no element. *)
Definition AtPtr (l : list T) (i : Z) : option T :=
  if (0 <=? i)%Z && (i <? Z.of_nat (length l))%Z
  then nth_error l (Z.to_nat i) else None.

Definition LastPtr (l : list T) : option T :=
  AtPtr l (Z.of_nat (length l) - 1).

(** A write through the pointer that [AtPtr] returned. *)
Fixpoint set_nth (l : list T) (i : nat) (x : T) : list T :=
  match l, i with
  | [], _ => []
  | _ :: l', O => x :: l'
  | y :: l', S i' => y :: set_nth l' i' x
  end.

Definition SetAt (l : list T) (i : Z) (x : T) : list T :=
  if (0 <=? i)%Z then set_nth l (Z.to_nat i) x else l.

(** The [count] elements that [_..ArrayAppendCArray] reads from the pointer
    [_..ArrayAtPtr(src, from)]; [None] when they are not all in the array. *)
Definition ArrayRange (src : list T) (from count : Z) : option (list T) :=
  if (0 <=? from)%Z && (0 <=? count)%Z && (from + count <=? Z.of_nat (length src))%Z
  then Some (firstn (Z.to_nat count) (skipn (Z.to_nat from) src))
  else None.

(** [_..ArrayRemoveRange]: the array without the elements from [from] up to
    [to], [to] not included; [None] when the range is not in the array. *)
Definition RemoveRange (l : list T) (from to : Z) : option (list T) :=
  if (0 <=? from)%Z && (from <=? to)%Z && (to <=? Z.of_nat (length l))%Z
  then Some (firstn (Z.to_nat from) l ++ skipn (Z.to_nat to) l)
  else None.
End Arrays.

Section PathBuilder.
Context {F : Type} {A : Arith F} {L : Libm F}.
Local Open Scope tp_scope.

Definition tpPathCreate : _tpGLPath F :=
  mkPath [] (-1) tpTrue.

(** A pointer to the current contour, [None] for [NULL]. *)
Definition _tpGLCurrentContour (p : _tpGLPath F) : option (_tpGLContour F) :=
  if (currentContourIndex p =? -1)%Z then None
  else AtPtr (contours p) (currentContourIndex p).

(** The path after a write to its current contour. *)
Definition store_current (p : _tpGLPath F) (c : _tpGLContour F) : _tpGLPath F :=
  mkPath (SetAt (contours p) (currentContourIndex p) c)
         (currentContourIndex p) (bPathGeometryDirty p).

Definition _tpGLPathCreateNextContour (p : _tpGLPath F)
  : _tpGLPath F * _tpGLContour F :=
  let contour := mkContour [] tpTrue tpFalse (-1) None in
  (mkPath (contours p ++ [contour]) (Z.of_nat (length (contours p)))
          (bPathGeometryDirty p),
   contour).

Definition _tpGLPathNextEmptyContour (p : _tpGLPath F)
  : _tpGLPath F * _tpGLContour F :=
  match _tpGLCurrentContour p with
  | Some c =>
      match segments c with
      | [] => (p, c)
      | _ :: _ => _tpGLPathCreateNextContour p
      end
  | None => _tpGLPathCreateNextContour p
  end.

(** [_tpGLContourAddSegments] on the current contour [c] of [p]. *)
Definition _tpGLContourAddSegments (p : _tpGLPath F) (c : _tpGLContour F)
    (segs : list (tpSegment F)) : tpBool * _tpGLPath F :=
  let segs' := segments c ++ segs in
  let c' := mkContour segs' tpTrue (bIsClosed c)
                      (Z.of_nat (length segs') - 1) (bounds c) in
  let p' := store_current p c' in
  (tpFalse, mkPath (contours p') (currentContourIndex p') tpTrue).

Definition _tpGLContourAddSegment (p : _tpGLPath F) (c : _tpGLContour F)
    (h0x h0y px py h1x h1y : F) : tpBool * _tpGLPath F :=
  _tpGLContourAddSegments p c [tpSegmentMake h0x h0y px py h1x h1y].

Definition must_start_contour (fn : string) : string :=
  ("You have to start a contour before issuing this command (see " ++ fn ++ ").")%string.

Definition tpPathMoveTo (p : _tpGLPath F) (x y : F) (g_error : error_buffer)
  : tpBool * _tpGLPath F * error_buffer :=
  let '(p', c) := _tpGLPathNextEmptyContour p in
  (_tpGLContourAddSegment p' c x y x y x y, g_error).

Definition tpPathLineTo (p : _tpGLPath F) (x y : F) (g_error : error_buffer)
  : tpBool * _tpGLPath F * error_buffer :=
  match _tpGLCurrentContour p with
  | Some c =>
      if (lastSegmentIndex c =? -1)%Z
      then (tpTrue, p, _tpGLSetErrorMessage (must_start_contour "tpPathMoveTo") g_error)
      else (_tpGLContourAddSegment p c x y x y x y, g_error)
  | None => (tpTrue, p, _tpGLSetErrorMessage (must_start_contour "tpPathMoveTo") g_error)
  end.

(** The write [AtPtr(segments, lastSegmentIndex)->handleOut = h]. *)
Definition set_last_handleOut (c : _tpGLContour F) (h : tpVec2 F) : _tpGLContour F :=
  match AtPtr (segments c) (lastSegmentIndex c) with
  | Some s =>
      mkContour (SetAt (segments c) (lastSegmentIndex c)
                       (mkSegment (handleIn s) (position s) h))
                (bDirty c) (bIsClosed c) (lastSegmentIndex c) (bounds c)
  | None => c
  end.

Definition tpPathCubicCurveTo (p : _tpGLPath F) (h0x h0y h1x h1y px py : F)
    (g_error : error_buffer) : tpBool * _tpGLPath F * error_buffer :=
  match _tpGLCurrentContour p with
  | Some c =>
      if (lastSegmentIndex c =? -1)%Z
      then (tpTrue, p, _tpGLSetErrorMessage (must_start_contour "tpPathMoveTo") g_error)
      else
        let c' := set_last_handleOut c (tpVec2Make h0x h0y) in
        (_tpGLContourAddSegment (store_current p c') c' h1x h1y px py px py, g_error)
  | None => (tpTrue, p, _tpGLSetErrorMessage (must_start_contour "tpPathMoveTo") g_error)
  end.

Definition tpPathQuadraticCurveTo (p : _tpGLPath F) (hx hy px py : F)
    (g_error : error_buffer) : tpBool * _tpGLPath F * error_buffer :=
  match _tpGLCurrentContour p with
  | Some c =>
      if (lastSegmentIndex c =? -1)%Z
      then (tpTrue, p, _tpGLSetErrorMessage (must_start_contour "tpPathMoveTo") g_error)
      else
        let c' := set_last_handleOut c (tpVec2Make hx hy) in
        (_tpGLContourAddSegment (store_current p c') c' hx hy px py px py, g_error)
  | None => (tpTrue, p, _tpGLSetErrorMessage (must_start_contour "tpPathMoveTo") g_error)
  end.

Definition tpPathClose (p : _tpGLPath F) (g_error : error_buffer)
  : tpBool * _tpGLPath F * error_buffer :=
  let failed :=
    _tpGLSetErrorMessage
      "tpPathClose failed because the path has no contour or the current contour is empty."
      g_error in
  match _tpGLCurrentContour p with
  | Some c =>
      if (1 <? Z.of_nat (length (segments c)))%Z
      then
        let c' := mkContour (segments c) tpTrue tpTrue (lastSegmentIndex c) (bounds c) in
        (tpFalse, mkPath (contours (store_current p c')) (-1) tpTrue, g_error)
      else (tpFalse, p, failed)
  | None => (tpFalse, p, failed)
  end.

(** *** [tpPathArcTo] and the helpers taken from nanosvg *)

Definition nsvg__sqr (x : F) : F := x * x.
Definition nsvg__vmag (x y : F) : F := fsqrt (x * x + y * y).
Definition nsvg__vecrat (ux uy vx vy : F) : F :=
  (ux * vx + uy * vy) / (nsvg__vmag ux uy * nsvg__vmag vx vy).
Definition nsvg__vecang (ux uy vx vy : F) : F :=
  let r := nsvg__vecrat ux uy vx vy in
  let r := if r <? - c1 then - c1 else r in
  let r := if r >? c1 then c1 else r in
  (if ux * vy <? uy * vx then - c1 else c1) * facos r.

(** The six floats of [t]. *)
Definition nsvg__xformPoint (x y : F) (t : F * F * F * F * F * F) : F * F :=
  let '(t0, t1, t2, t3, t4, t5) := t in
  (x * t0 + y * t2 + t4, x * t1 + y * t3 + t5).
Definition nsvg__xformVec (x y : F) (t : F * F * F * F * F * F) : F * F :=
  let '(t0, t1, t2, t3, t4, t5) := t in
  (x * t0 + y * t2, x * t1 + y * t3).

(** The loop [for (i = 0; i <= ndivs; i++)] of [tpPathArcTo], with [n]
    iterations left; [prev] holds [px, py, ptanx, ptany]. *)
Fixpoint arc_loop (n : nat) (i ndivs : Z) (a1 da rx ry kappa : F)
    (t : F * F * F * F * F * F) (prev : F * F * F * F)
    (p : _tpGLPath F) (g_error : error_buffer)
  : tpBool * _tpGLPath F * error_buffer :=
  match n with
  | O => (tpFalse, p, g_error)
  | S n' =>
      let a := a1 + da * (fconst i 1 / fconst ndivs 1) in
      let dx := fcos a in
      let dy := fsin a in
      let '(x, y) := nsvg__xformPoint (dx * rx) (dy * ry) t in
      let '(tanx, tany) := nsvg__xformVec (- dy * rx * kappa) (dx * ry * kappa) t in
      let '(px, py, ptanx, ptany) := prev in
      let '(ret, p', e') :=
        if (0 <? i)%Z
        then tpPathCubicCurveTo p (px + ptanx) (py + ptany) (x - tanx) (y - tany) x y g_error
        else (tpFalse, p, g_error) in
      if ret then (ret, p', e')
      else arc_loop n' (i + 1)%Z ndivs a1 da rx ry kappa t (x, y, tanx, tany) p' e'
  end.

Definition tpPathArcTo (p : _tpGLPath F) (_rx _ry _rotx _fl _swfl _x _y : F)
    (g_error : error_buffer) : tpBool * _tpGLPath F * error_buffer :=
  let guard (c : _tpGLContour F) := (lastSegmentIndex c =? -1)%Z in
  match _tpGLCurrentContour p with
  | None => (tpTrue, p, _tpGLSetErrorMessage (must_start_contour "tpPathArcTo") g_error)
  | Some c =>
    if guard c
    then (tpTrue, p, _tpGLSetErrorMessage (must_start_contour "tpPathArcTo") g_error)
    else
      let rx := _rx in
      let ry := _ry in
      let rotx := _rotx / fconst 180 1 * fconst 314 100 in
      let fa := fabs _fl >? fconst 1 1000000 in
      let fs := fabs _swfl >? fconst 1 1000000 in
      let start :=
        match AtPtr (segments c) (lastSegmentIndex c) with
        | Some s => position s
        | None => tpVec2Make c0 c0
        end in
      let x1 := vx start in
      let y1 := vy start in
      let x2 := _x in
      let y2 := _y in
      let dx := x1 - x2 in
      let dy := y1 - y2 in
      let d := fsqrt (dx * dx + dy * dy) in
      if (d <? fconst 1 1000000) || (rx <? fconst 1 1000000) || (ry <? fconst 1 1000000)
      then tpPathLineTo p x2 y2 g_error
      else
        let sinrx := fsin rotx in
        let cosrx := fcos rotx in
        let x1p := cosrx * dx / c2 + sinrx * dy / c2 in
        let y1p := - sinrx * dx / c2 + cosrx * dy / c2 in
        let d := nsvg__sqr x1p / nsvg__sqr rx + nsvg__sqr y1p / nsvg__sqr ry in
        let '(rx, ry) :=
          if d >? c1 then (rx * fsqrt d, ry * fsqrt d) else (rx, ry) in
        let sa := nsvg__sqr rx * nsvg__sqr ry - nsvg__sqr rx * nsvg__sqr y1p
                  - nsvg__sqr ry * nsvg__sqr x1p in
        let sb := nsvg__sqr rx * nsvg__sqr y1p + nsvg__sqr ry * nsvg__sqr x1p in
        let sa := if sa <? c0 then c0 else sa in
        let s := if sb >? c0 then fsqrt (sa / sb) else c0 in
        let s := if Bool.eqb fa fs then - s else s in
        let cxp := s * rx * y1p / ry in
        let cyp := s * - ry * x1p / rx in
        let cx := (x1 + x2) / c2 + cosrx * cxp - sinrx * cyp in
        let cy := (y1 + y2) / c2 + sinrx * cxp + cosrx * cyp in
        let ux := (x1p - cxp) / rx in
        let uy := (y1p - cyp) / ry in
        let vx := (- x1p - cxp) / rx in
        let vy := (- y1p - cyp) / ry in
        let a1 := nsvg__vecang c1 c0 ux uy in
        let da := nsvg__vecang ux uy vx vy in
        let da :=
          if negb fs && (da >? c0) then da - c2 * TARP_PI
          else if fs && (da <? c0) then da + c2 * TARP_PI
          else da in
        let t := (cosrx, sinrx, - sinrx, cosrx, cx, cy) in
        let ndivs := ftoint (fabs da / TARP_HALF_PI + c1) in
        let hda := (da / fconst ndivs 1) / c2 in
        let kappa := fabs (fconst 4 1 / c3 * (c1 - fcos hda) / fsin hda) in
        let kappa := if da <? c0 then - kappa else kappa in
        arc_loop (Z.to_nat (ndivs + 1)) 0 ndivs a1 da rx ry kappa t
                 (c0, c0, c0, c0) p g_error
  end.

End PathBuilder.

(** ** The flattener *)

(** [_tpGLRenderCacheContour].  The two stroke fields are written by the
    stroker; the flattener leaves them as they are. *)
Record _tpGLRenderCacheContour : Type := mkRcContour {
  fillVertexOffset : Z;
  fillVertexCount : Z;
  strokeVertexOffset : Z;
  strokeVertexCount : Z;
  rc_bIsClosed : tpBool
}.

Definition TARP_MAX_CURVE_SUBDIVISIONS : Z := 16.

(** The locals of [_tpGLFlattenCurve] and the buffers it appends to.
    [fs_stack] holds [stack[0..stackIndex]] with the current curve
    [stack[stackIndex]] in front, so [stackIndex] is its length minus one
    and the loop runs while it is not empty. *)
Record flatten_state (F : Type) : Type := mkFlatten {
  fs_stack : list (_tpGLCurve F);
  fs_bFirstCurve : bool;
  fs_vertices : list (tpVec2 F);
  fs_joints : list tpBool;
  fs_bounds : _tpGLRect F;
  fs_vertexCount : Z
}.

Section Flattener.
Context {F : Type} {A : Arith F}.
Local Open Scope tp_scope.

Definition _tpGLIsClose (x y epsilon : F) : bool :=
  let maxXYOne := TARP_MAX c1 (TARP_MAX (fabs x) (fabs y)) in
  fabs (x - y) <=? epsilon * maxXYOne.

Definition _tpGLIsCurveLinear (c : _tpGLCurve F) : bool :=
  _tpGLIsClose (vx (p0 c)) (vx (h0 c)) FLT_EPSILON
  && _tpGLIsClose (vy (p0 c)) (vy (h0 c)) FLT_EPSILON
  && _tpGLIsClose (vx (p1 c)) (vx (h1 c)) FLT_EPSILON
  && _tpGLIsClose (vy (p1 c)) (vy (h1 c)) FLT_EPSILON.

Definition _tpGLIsCurveFlatEnough (c : _tpGLCurve F) (tolerance : F) : bool :=
  if _tpGLIsCurveLinear c then true
  else
    let ux := vx (h0 c) * c3 - vx (p0 c) * c2 - vx (p1 c) in
    let uy := vy (h0 c) * c3 - vy (p0 c) * c2 - vy (p1 c) in
    let vx' := vx (h1 c) * c3 - vx (p1 c) * c2 - vx (p0 c) in
    let vy' := vy (h1 c) * c3 - vy (p1 c) * c2 - vy (p0 c) in
    TARP_MAX (ux * ux) (vx' * vx') + TARP_MAX (uy * uy) (vy' * vy')
    <? fconst 10 1 * tolerance * tolerance.

(** The pair [(first, second)] that [_tpGLSubdivideCurve] writes to
    [_result]. *)
Definition _tpGLSubdivideCurve (c : _tpGLCurve F) (t : F)
  : _tpGLCurve F * _tpGLCurve F :=
  let p0h0 := tpVec2Lerp (p0 c) (h0 c) t in
  let h0h1 := tpVec2Lerp (h0 c) (h1 c) t in
  let h1p1 := tpVec2Lerp (h1 c) (p1 c) t in
  let p0h0h1 := tpVec2Lerp p0h0 h0h1 t in
  let h0h1p1 := tpVec2Lerp h0h1 h1p1 t in
  let p0h0h1p1 := tpVec2Lerp p0h0h1 h0h1p1 t in
  (mkCurve (p0 c) p0h0 p0h0h1 p0h0h1p1,
   mkCurve p0h0h1p1 h0h1p1 h1p1 (p1 c)).

Definition _tpGLEvaluatePointForBounds (p : tpVec2 F) (b : _tpGLRect F)
  : _tpGLRect F :=
  mkRect (mkVec2 (TARP_MIN (vx p) (vx (rmin b))) (TARP_MIN (vy p) (vy (rmin b))))
         (mkVec2 (TARP_MAX (vx p) (vx (rmax b))) (TARP_MAX (vy p) (vy (rmax b)))).

Definition _tpGLInitBounds : _tpGLRect F :=
  mkRect (mkVec2 FLT_MAX FLT_MAX) (mkVec2 (- FLT_MAX) (- FLT_MAX)).

Definition _tpGLMergeBounds (a b : _tpGLRect F) : _tpGLRect F :=
  _tpGLEvaluatePointForBounds (rmax b) (_tpGLEvaluatePointForBounds (rmin b) a).

(** One turn of the loop [while (stackIndex >= 0)] of [_tpGLFlattenCurve];
    [curve] is the curve the function was called on. *)
Definition flatten_step (curve : _tpGLCurve F) (angleTolerance : F)
    (bIsClosed bLastCurve : bool) (st : flatten_state F) : flatten_state F :=
  match fs_stack st with
  | [] => st
  | current :: below =>
      let stackIndex := (Z.of_nat (length (fs_stack st)) - 1)%Z in
      if (stackIndex <? TARP_MAX_CURVE_SUBDIVISIONS - 1)%Z
         && negb (_tpGLIsCurveFlatEnough current angleTolerance)
      then
        let cp := _tpGLSubdivideCurve current chalf in
        mkFlatten (fst cp :: snd cp :: below) (fs_bFirstCurve st)
                  (fs_vertices st) (fs_joints st) (fs_bounds st) (fs_vertexCount st)
      else if fs_bFirstCurve st then
        mkFlatten below false
          (fs_vertices st ++ [p0 current; p1 current])
          (fs_joints st
           ++ [tpFalse; tpVec2Equals (p1 current) (p1 curve) && negb bLastCurve])
          (_tpGLEvaluatePointForBounds (p1 current)
             (_tpGLEvaluatePointForBounds (p0 current) (fs_bounds st)))
          (fs_vertexCount st + 2)
      else
        mkFlatten below false
          (fs_vertices st ++ [p1 current])
          (fs_joints st
           ++ [if bIsClosed then tpVec2Equals (p1 current) (p1 curve)
               else tpVec2Equals (p1 current) (p1 curve) && negb bLastCurve])
          (_tpGLEvaluatePointForBounds (p1 current) (fs_bounds st))
          (fs_vertexCount st + 1)
  end.

(** The loop, with a bound on the number of turns: [None] when the bound
    is reached before the stack is empty. *)
Fixpoint flatten_loop (fuel : nat) (curve : _tpGLCurve F) (angleTolerance : F)
    (bIsClosed bLastCurve : bool) (st : flatten_state F)
  : option (flatten_state F) :=
  match fs_stack st with
  | [] => Some st
  | _ :: _ =>
      match fuel with
      | O => None
      | S fuel' =>
          flatten_loop fuel' curve angleTolerance bIsClosed bLastCurve
            (flatten_step curve angleTolerance bIsClosed bLastCurve st)
      end
  end.

Definition _tpGLFlattenCurve (fuel : nat) (curve : _tpGLCurve F) (angleTolerance : F)
    (bIsClosed bFirstCurve bLastCurve : bool)
    (outVertices : list (tpVec2 F)) (outJoints : list tpBool)
    (bounds : _tpGLRect F) (vertexCount : Z) : option (flatten_state F) :=
  flatten_loop fuel curve angleTolerance bIsClosed bLastCurve
    (mkFlatten [curve] bFirstCurve outVertices outJoints bounds vertexCount).

(** The curve between two consecutive segments, as [_tpGLFlattenContour]
    builds it; [viaLast] says whether [p0] is taken from
    [lastTransformedPos]. *)
Definition contour_curve (transform : option (tpTransform F)) (viaLast : bool)
    (lastTransformedPos : tpVec2 F) (last current : tpSegment F) : _tpGLCurve F :=
  match transform with
  | None => mkCurve (position last) (handleOut last) (handleIn current) (position current)
  | Some t =>
      mkCurve (if viaLast then lastTransformedPos else tpTransformApply t (position last))
              (tpTransformApply t (handleOut last))
              (tpTransformApply t (handleIn current))
              (tpTransformApply t (position current))
  end.

(** The loop [for (j = 1; j < segments.count; ++j)]: [rest] are the
    segments from index [j] on, [last] is the one before them.  The result
    carries the final values of [last] and [lastTransformedPos]. *)
Fixpoint flatten_segments (fuel : nat) (angleTolerance : F) (isClosed : bool)
    (transform : option (tpTransform F)) (j : Z) (last : tpSegment F)
    (rest : list (tpSegment F)) (lastTransformedPos : tpVec2 F)
    (st : flatten_state F)
  : option (tpSegment F * tpVec2 F * flatten_state F) :=
  match rest with
  | [] => Some (last, lastTransformedPos, st)
  | current :: rest' =>
      let curve := contour_curve transform (1 <? j)%Z lastTransformedPos last current in
      let lastTransformedPos' :=
        match transform with Some _ => p1 curve | None => lastTransformedPos end in
      match _tpGLFlattenCurve fuel curve angleTolerance isClosed (j =? 1)%Z tpFalse
              (fs_vertices st) (fs_joints st) (fs_bounds st) (fs_vertexCount st) with
      | None => None
      | Some st' =>
          flatten_segments fuel angleTolerance isClosed transform (j + 1)%Z
            current rest' lastTransformedPos' st'
      end
  end.

(** What [_tpGLFlattenContour] leaves behind: the contour with its bounds,
    the two output arrays, the merged bounds and the render contour (the
    function itself returns [tpFalse]). *)
Record flatten_result : Type := mkFlattenResult {
  fr_contour : _tpGLContour F;
  fr_vertices : list (tpVec2 F);
  fr_joints : list tpBool;
  fr_mergeBounds : _tpGLRect F;
  fr_outContour : _tpGLRenderCacheContour
}.

(** [_tpGLFlattenContour].  [uninit] is the value the local
    [lastTransformedPos] holds before its first assignment, and
    [outContour] the render contour the caller passes in. *)
Definition _tpGLFlattenContour (fuel : nat) (contour : _tpGLContour F)
    (angleTolerance : F) (transform : option (tpTransform F))
    (outVertices : list (tpVec2 F)) (outJoints : list tpBool)
    (mergeBounds : _tpGLRect F) (outContour : _tpGLRenderCacheContour)
    (uninit : tpVec2 F) : option flatten_result :=
  let off := Z.of_nat (length outVertices) in
  let st0 := mkFlatten [] false outVertices outJoints _tpGLInitBounds 0 in
  let finish (st : flatten_state F) :=
    mkFlattenResult
      (mkContour (segments contour) (bDirty contour) (bIsClosed contour)
                 (lastSegmentIndex contour) (Some (fs_bounds st)))
      (fs_vertices st) (fs_joints st)
      (_tpGLMergeBounds mergeBounds (fs_bounds st))
      (mkRcContour off (fs_vertexCount st) (strokeVertexOffset outContour)
                   (strokeVertexCount outContour) (bIsClosed contour)) in
  match segments contour with
  | [] => Some (finish st0)
  | first :: rest =>
      match flatten_segments fuel angleTolerance (bIsClosed contour) transform 1
              first rest uninit st0 with
      | None => None
      | Some (last, lastTransformedPos, st) =>
          if bIsClosed contour
             && (tpVec2Distance (position first) (position last) >? FLT_EPSILON)
          then
            let curve :=
              contour_curve transform true lastTransformedPos last first in
            match _tpGLFlattenCurve fuel curve angleTolerance (bIsClosed contour)
                    tpFalse tpTrue (fs_vertices st) (fs_joints st) (fs_bounds st)
                    (fs_vertexCount st) with
            | None => None
            | Some st' => Some (finish st')
            end
          else Some (finish st)
      end
  end.

End Flattener.

(** ** Styles *)

Inductive tpStrokeCap : Type := kTpStrokeCapRound | kTpStrokeCapSquare | kTpStrokeCapButt.
Inductive tpStrokeJoin : Type := kTpStrokeJoinMiter | kTpStrokeJoinRound | kTpStrokeJoinBevel.
Inductive tpFillRule : Type := kTpFillRuleEvenOdd | kTpFillRuleNonZero.

Record tpColor (F : Type) : Type := mkColor { cr : F; cg : F; cb : F; ca : F }.

(** [tpPaint]: the tag [type] with the member of the union it selects; a
    gradient is named by its [gradientID]. *)
Inductive tpPaint (F : Type) : Type :=
| kTpPaintTypeNone : tpPaint F
| kTpPaintTypeColor : tpColor F -> tpPaint F
| kTpPaintTypeGradient : Z -> tpPaint F.
Arguments kTpPaintTypeNone {F}.
Arguments kTpPaintTypeGradient {F} _.

Definition paint_is_none {F : Type} (p : tpPaint F) : bool :=
  match p with kTpPaintTypeNone => true | _ => false end.

(** [tpStyle]; [dashArray] holds the [dashCount] floats the pointer of the
    struct points to. *)
Record tpStyle (F : Type) : Type := mkStyle {
  fill : tpPaint F;
  stroke : tpPaint F;
  strokeWidth : F;
  strokeCap : tpStrokeCap;
  strokeJoin : tpStrokeJoin;
  fillRule : tpFillRule;
  dashArray : list F;
  dashOffset : F;
  miterLimit : F;
  scaleStroke : tpBool
}.

Definition dashCount {F : Type} (s : tpStyle F) : Z := Z.of_nat (length (dashArray s)).

Definition tpStyleMake {F : Type} {A : Arith F} : tpStyle F :=
  mkStyle (kTpPaintTypeColor (mkColor c1 c1 c1 c1))
          (kTpPaintTypeColor (mkColor c0 c0 c0 c1))
          c1 kTpStrokeCapButt kTpStrokeJoinBevel kTpFillRuleEvenOdd
          [] c0 (fconst 4 1) tpTrue.

(** ** The stroker *)

Section Stroker.
Context {F : Type} {A : Arith F} {L : Libm F}.
Local Open Scope tp_scope.

Definition _tpGLPushTriangle (vertices : list (tpVec2 F)) (a b c : tpVec2 F)
  : list (tpVec2 F) := vertices ++ [a; b; c].

Definition _tpGLPushQuad (vertices : list (tpVec2 F)) (a b c d : tpVec2 F)
  : list (tpVec2 F) := vertices ++ [a; b; c; c; d; a].

(** The loop [for (;;)] of [_tpGLMakeCircleSector], which ends at the first
    rotated radius that lies past [r1]; [None] when [fuel] turns do not reach
    it.  The result carries [last]. *)
Fixpoint circle_sector_loop (fuel : nat) (rot : tpMat2 F) (center r r1 last : tpVec2 F)
    (vertices : list (tpVec2 F)) : option (tpVec2 F * list (tpVec2 F)) :=
  match fuel with
  | O => None
  | S fuel' =>
      let r := tpMat2MultVec2 rot r in
      if tpVec2Cross r r1 <? c0 then Some (last, vertices)
      else
        let current := tpVec2Add center r in
        circle_sector_loop fuel' rot center r r1 current
          (_tpGLPushTriangle vertices center last current)
  end.

Definition _tpGLMakeCircleSector (fuel : nat) (center r0 r1 : tpVec2 F)
    (levelOfDetail : F) (outVertices : list (tpVec2 F)) : option (list (tpVec2 F)) :=
  let stepSize := TARP_PI / fconst 16 1 in
  let rot := tpMat2MakeRotation stepSize in
  match circle_sector_loop fuel rot center r0 r1 (tpVec2Add center r0) outVertices with
  | None => None
  | Some (last, vertices) =>
      Some (_tpGLPushTriangle vertices center last (tpVec2Add center r1))
  end.

Definition _tpGLMakeJoinBevel (lePrev rePrev le re : tpVec2 F) (cross : F)
    (outVertices : list (tpVec2 F)) : list (tpVec2 F) :=
  _tpGLPushTriangle outVertices lePrev (if cross <? c0 then le else re) rePrev.

(** [_tpGLIntersectLines]: the returned flag and the value of [*_outResult]
    after the call, which is [outResult], untouched, for parallel lines. *)
Definition _tpGLIntersectLines (p0 d0 p1 d1 outResult : tpVec2 F)
  : tpBool * tpVec2 F :=
  let delta := tpVec2Sub p0 p1 in
  let cross := tpVec2Cross d0 d1 in
  if cross =? c0 then (tpFalse, outResult)
  else
    let t := tpVec2Cross d1 delta / cross in
    let doff := tpVec2MultScalar d0 t in
    (tpTrue, tpVec2Add p0 doff).

(** [uninit] is the value of the local [intersection] before the call of
    [_tpGLIntersectLines]. *)
Definition _tpGLMakeJoinMiter (p e0 e1 dir0 dir1 : tpVec2 F) (cross : F)
    (outVertices : list (tpVec2 F)) (uninit : tpVec2 F) : list (tpVec2 F) :=
  let intersection := snd (_tpGLIntersectLines e0 dir0 e1 dir1 uninit) in
  _tpGLPushQuad outVertices p e0 intersection e1.

Definition _tpGLMakeJoin (fuel : nat) (type : tpStrokeJoin)
    (p dir0 dir1 perp0 perp1 lePrev rePrev le re : tpVec2 F) (cross miterLimit : F)
    (outVertices : list (tpVec2 F)) (uninit : tpVec2 F) : option (list (tpVec2 F)) :=
  let bevel := Some (_tpGLMakeJoinBevel lePrev rePrev le re cross outVertices) in
  match type with
  | kTpStrokeJoinRound =>
      let levelOfDetail := c0 in
      if cross <? c0
      then _tpGLMakeCircleSector fuel p perp0 perp1 levelOfDetail outVertices
      else
        let flippedPerp0 := tpVec2Make (- vx perp0) (- vy perp0) in
        let flippedPerp1 := tpVec2Make (- vx perp1) (- vy perp1) in
        _tpGLMakeCircleSector fuel p flippedPerp1 flippedPerp0 levelOfDetail outVertices
  | kTpStrokeJoinMiter =>
      let nperp0 := tpVec2Perp dir0 in
      let nperp1 := tpVec2Perp dir1 in
      let theta := facos (tpVec2Dot nperp0 nperp1) in
      let theta := if theta >? TARP_HALF_PI then TARP_PI - theta else theta in
      let miterLen := c1 / fsin (theta / c2) in
      if miterLen <? miterLimit
      then
        if cross <? c0
        then Some (_tpGLMakeJoinMiter p lePrev le dir0 dir1 cross outVertices uninit)
        else Some (_tpGLMakeJoinMiter p rePrev re dir0 dir1 cross outVertices uninit)
      else bevel
  | kTpStrokeJoinBevel => bevel
  end.

Definition _tpGLMakeCapSquare (p dir le re : tpVec2 F) (outVertices : list (tpVec2 F))
  : list (tpVec2 F) :=
  let a := tpVec2Add re dir in
  let b := tpVec2Add le dir in
  _tpGLPushQuad outVertices re a b le.

Definition _tpGLMakeCap (fuel : nat) (type : tpStrokeCap) (p dir perp le re : tpVec2 F)
    (bStart : tpBool) (outVertices : list (tpVec2 F)) : option (list (tpVec2 F)) :=
  match type with
  | kTpStrokeCapRound =>
      let levelOfDetail := c0 in
      let flippedPerp := tpVec2Make (- vx perp) (- vy perp) in
      _tpGLMakeCircleSector fuel p perp flippedPerp levelOfDetail outVertices
  | kTpStrokeCapSquare => Some (_tpGLMakeCapSquare p dir le re outVertices)
  | kTpStrokeCapButt => Some outVertices
  end.

(** The locals of [_tpGLRenderCacheContourContinousStrokeGeometry] that live
    across the turns of its loop. *)
Record stroke_locals : Type := mkStrokeLocals {
  sl_perpPrev : tpVec2 F; sl_dirPrev : tpVec2 F;
  sl_lePrev : tpVec2 F; sl_rePrev : tpVec2 F;
  sl_firstDir : tpVec2 F; sl_firstPerp : tpVec2 F;
  sl_firstLe : tpVec2 F; sl_firstRe : tpVec2 F
}.

(** One turn of the loop over the edges [j, j + 1] of the fill polyline. *)
Definition stroke_edge (fuel : nat) (contour : _tpGLRenderCacheContour)
    (style : tpStyle F) (halfSw : F) (j : Z) (loc : stroke_locals)
    (outVertices : list (tpVec2 F)) (outJoints : list tpBool) (uninit : tpVec2 F)
  : option (stroke_locals * list (tpVec2 F)) :=
  match AtPtr outVertices j, AtPtr outVertices (j + 1) with
  | Some p0, Some p1 =>
      let dir := tpVec2NormalizeSelf (tpVec2Sub p1 p0) in
      let perp := mkVec2 (vy dir * halfSw) (- vx dir * halfSw) in
      let le0 := tpVec2Add p0 perp in
      let re0 := tpVec2Sub p0 perp in
      let le1 := tpVec2Add p1 perp in
      let re1 := tpVec2Sub p1 perp in
      (* the first segment, or a join with the previous one *)
      let started :=
        if (j =? fillVertexOffset contour)%Z then
          if negb (rc_bIsClosed contour) then
            let firstDir := tpVec2MultScalar dir (- c1 * halfSw) in
            let firstPerp := mkVec2 (vy firstDir) (- vx firstDir) in
            match _tpGLMakeCap fuel (strokeCap style) p0 firstDir firstPerp le0 re0
                    tpTrue outVertices with
            | Some vs => Some (firstDir, firstPerp, sl_firstLe loc, sl_firstRe loc, vs)
            | None => None
            end
          else Some (dir, perp, le0, re0, outVertices)
        else
          let cross := tpVec2Cross perp (sl_perpPrev loc) in
          let keep vs :=
            Some (sl_firstDir loc, sl_firstPerp loc, sl_firstLe loc, sl_firstRe loc, vs) in
          match AtPtr outJoints j with
          | Some true =>
              match _tpGLMakeJoin fuel (strokeJoin style) p0 (sl_dirPrev loc) dir
                      (sl_perpPrev loc) perp (sl_lePrev loc) (sl_rePrev loc) le0 re0
                      cross (miterLimit style) outVertices uninit with
              | Some vs => keep vs
              | None => None
              end
          | Some false =>
              keep (_tpGLMakeJoinBevel (sl_lePrev loc) (sl_rePrev loc) le0 re0 cross
                      outVertices)
          | None => None
          end in
      match started with
      | None => None
      | Some (firstDir, firstPerp, firstLe, firstRe, vs) =>
          (* the quad of the segment *)
          let vs := _tpGLPushQuad vs le1 le0 re0 re1 in
          (* the end cap or the last join *)
          let ended :=
            if (j =? fillVertexOffset contour + fillVertexCount contour - 2)%Z
               || (fillVertexCount contour =? 2)%Z
            then
              match AtPtr outJoints (j + 1) with
              | Some jt =>
                  if jt && rc_bIsClosed contour then
                    let cross := tpVec2Cross firstPerp perp in
                    match _tpGLMakeJoin fuel (strokeJoin style) p1 dir firstDir perp
                            firstPerp le1 re1 firstLe firstRe cross (miterLimit style)
                            vs uninit with
                    | Some vs' => Some (firstDir, vs')
                    | None => None
                    end
                  else
                    let firstDir := tpVec2MultScalar dir halfSw in
                    match _tpGLMakeCap fuel (strokeCap style) p1 firstDir perp le1 re1
                            tpFalse vs with
                    | Some vs' => Some (firstDir, vs')
                    | None => None
                    end
              | None => None
              end
            else Some (firstDir, vs) in
          match ended with
          | None => None
          | Some (firstDir, vs) =>
              Some (mkStrokeLocals perp dir le1 re1 firstDir firstPerp firstLe firstRe, vs)
          end
      end
  | _, _ => None
  end.

(** The loop [for (j = fillVertexOffset; j < fillVertexOffset +
    fillVertexCount - 1; ++j)], with [n] turns left. *)
Fixpoint stroke_edges (n : nat) (fuel : nat) (contour : _tpGLRenderCacheContour)
    (style : tpStyle F) (halfSw : F) (j : Z) (loc : stroke_locals)
    (outVertices : list (tpVec2 F)) (outJoints : list tpBool) (uninit : tpVec2 F)
  : option (list (tpVec2 F)) :=
  match n with
  | O => Some outVertices
  | S n' =>
      match stroke_edge fuel contour style halfSw j loc outVertices outJoints uninit with
      | None => None
      | Some (loc', vs) =>
          stroke_edges n' fuel contour style halfSw (j + 1)%Z loc' vs outJoints uninit
      end
  end.

(** [_tpGLRenderCacheContourContinousStrokeGeometry]: the contour with its
    stroke offset and count, and the vertex array.  [uninit] is the value of
    the locals that the source reads only after it wrote them; [None] stands
    for a read outside the arrays or for a circle sector that [fuel] turns do
    not close. *)
Definition _tpGLRenderCacheContourContinousStrokeGeometry (fuel : nat)
    (contour : _tpGLRenderCacheContour) (style : tpStyle F)
    (outVertices : list (tpVec2 F)) (outJoints : list tpBool) (uninit : tpVec2 F)
  : option (_tpGLRenderCacheContour * list (tpVec2 F)) :=
  let voff := Z.of_nat (length outVertices) in
  let halfSw := strokeWidth style * chalf in
  let with_count (n : Z) :=
    mkRcContour (fillVertexOffset contour) (fillVertexCount contour) voff n
                (rc_bIsClosed contour) in
  if (fillVertexCount contour <=? 1)%Z then Some (with_count 0%Z, outVertices)
  else
    let loc := mkStrokeLocals uninit uninit uninit uninit uninit uninit uninit uninit in
    match stroke_edges (Z.to_nat (fillVertexCount contour - 1)) fuel contour style halfSw
            (fillVertexOffset contour) loc outVertices outJoints uninit with
    | None => None
    | Some vs => Some (with_count (Z.of_nat (length vs) - voff)%Z, vs)
    end.

End Stroker.

(** ** Dash start state, stroking a path, and the render cache *)

(** How a run of the model of a loop with reads from a C array can end. *)
Inductive outcome (T : Type) : Type :=
| Done : T -> outcome T
| ReadOutside : Z -> outcome T     (* a read at this index, outside the array *)
| NoFuel : outcome T.              (* the bound on the turns was reached *)
Arguments ReadOutside {T} _.
Arguments NoFuel {T}.

Record _tpGLDashStartState (F : Type) : Type := mkDashStart {
  startDashIndex : Z;
  bStartDashOn : tpBool;
  startDashLen : F
}.

(** [_tpGLRenderCache], without the gradient data, the texture vertices and
    the render matrix.  [strokeBoundsCache] is [None] until
    [_tpGLCacheBoundsGeometry] writes it. *)
Record _tpGLRenderCache (F : Type) : Type := mkRenderCache {
  cache_contours : list _tpGLRenderCacheContour;
  geometryCache : list (tpVec2 F);
  jointCache : list tpBool;
  boundsCache : _tpGLRect F;
  strokeBoundsCache : option (_tpGLRect F);
  cache_strokeVertexOffset : Z;
  cache_strokeVertexCount : Z;
  boundsVertexOffset : Z;
  cache_style : tpStyle F
}.

Section Stroke.
Context {F : Type} {A : Arith F} {L : Libm F}.
Local Open Scope tp_scope.

(** [while (startDashLen <= 0.0) { startDashLen += dashArray[startDashIndex];
    startDashIndex++; }] *)
Fixpoint dash_forward (fuel : nat) (dashes : list F) (len : F) (idx : Z)
  : outcome (F * Z) :=
  if len <=? c0 then
    match fuel with
    | O => NoFuel
    | S fuel' =>
        match AtPtr dashes idx with
        | Some d => dash_forward fuel' dashes (len + d) (idx + 1)%Z
        | None => ReadOutside idx
        end
    end
  else Done (len, idx).

(** [while (startDashLen > 0.0f) { startDashIndex--;
    startDashLen -= dashArray[startDashIndex]; }] *)
Fixpoint dash_backward (fuel : nat) (dashes : list F) (len : F) (idx : Z)
  : outcome (F * Z) :=
  if len >? c0 then
    match fuel with
    | O => NoFuel
    | S fuel' =>
        match AtPtr dashes (idx - 1)%Z with
        | Some d => dash_backward fuel' dashes (len - d) (idx - 1)%Z
        | None => ReadOutside (idx - 1)%Z
        end
    end
  else Done (len, idx).

Definition int_max (a b : Z) : Z := if (a >? b)%Z then a else b.

(** The block of [_tpGLStroke] that computes [dashStartState], entered when
    [dashCount] is not zero. *)
Definition dash_start_state (fuel : nat) (style : tpStyle F)
  : outcome (_tpGLDashStartState F) :=
  if dashOffset style =? c0 then
    match AtPtr (dashArray style) 0 with
    | Some d => Done (mkDashStart 0 tpTrue d)
    | None => ReadOutside 0
    end
  else
    let patternLen := fold_left fadd (dashArray style) c0 in
    let offsetIntoPattern := dashOffset style in
    let offsetIntoPattern :=
      if fabs offsetIntoPattern >=? patternLen
      then ffmod offsetIntoPattern patternLen else offsetIntoPattern in
    let len := - offsetIntoPattern in
    if dashOffset style >? c0 then
      match dash_forward fuel (dashArray style) len 0 with
      | Done (len, idx) =>
          let idx := int_max 0 (idx - 1) in
          Done (mkDashStart idx ((Z.rem idx 2 =? 0)%Z) len)
      | ReadOutside i => ReadOutside i
      | NoFuel => NoFuel
      end
    else
      match dash_backward fuel (dashArray style) len (dashCount style) with
      | Done (len, idx) =>
          let idx := int_max 0 idx in
          match AtPtr (dashArray style) idx with
          | Some d => Done (mkDashStart idx ((Z.rem idx 2 =? 0)%Z) (d + len))
          | None => ReadOutside idx
          end
      | ReadOutside i => ReadOutside i
      | NoFuel => NoFuel
      end.

(** [_tpGLRenderCacheContourDashedStrokeGeometry] is not embedded: the
    stroker takes it as it comes. *)
Variable _tpGLRenderCacheContourDashedStrokeGeometry :
  _tpGLRenderCacheContour -> tpStyle F -> _tpGLDashStartState F ->
  list (tpVec2 F) -> list tpBool ->
  option (_tpGLRenderCacheContour * list (tpVec2 F)).

(** The loop of [_tpGLStroke] over the contours, from index [i] on:
    [cs] and [rcs] are the contours of the path and of the cache that are
    left, [done_cs] and [done_rcs] those already handled. *)
Fixpoint stroke_contours (fuel : nat) (bIsRebuildingInternalCache : tpBool)
    (oldCache : option (_tpGLRenderCache F)) (style : tpStyle F)
    (dashStartState : option (_tpGLDashStartState F)) (i : Z)
    (cs : list (_tpGLContour F)) (rcs : list _tpGLRenderCacheContour)
    (done_cs : list (_tpGLContour F)) (done_rcs : list _tpGLRenderCacheContour)
    (vertices : list (tpVec2 F)) (joints : list tpBool) (count : Z)
    (uninit : tpVec2 F)
  : option (list (_tpGLContour F) * list _tpGLRenderCacheContour
            * list (tpVec2 F) * Z) :=
  match rcs, cs with
  | [], _ => Some (done_cs ++ cs, done_rcs, vertices, count)
  | rc :: rcs', c :: cs' =>
      let restroke :=
        bDirty c || match oldCache with None => true | Some _ => false end in
      if restroke then
        let c' :=
          if bIsRebuildingInternalCache
          then mkContour (segments c) tpFalse (bIsClosed c) (lastSegmentIndex c) (bounds c)
          else c in
        let stroked :=
          if (dashCount style =? 0)%Z
          then _tpGLRenderCacheContourContinousStrokeGeometry fuel rc style
                 vertices joints uninit
          else
            match dashStartState with
            | Some ds =>
                _tpGLRenderCacheContourDashedStrokeGeometry rc style ds vertices joints
            | None => None
            end in
        match stroked with
        | None => None
        | Some (rc', vertices') =>
            stroke_contours fuel bIsRebuildingInternalCache oldCache style
              dashStartState (i + 1)%Z cs' rcs' (done_cs ++ [c']) (done_rcs ++ [rc'])
              vertices' joints (count + strokeVertexCount rc')%Z uninit
        end
      else
        match oldCache with
        | Some old =>
            match AtPtr (cache_contours old) i with
            | Some orc =>
                match ArrayRange (geometryCache old) (strokeVertexOffset orc)
                        (strokeVertexCount orc) with
                | Some copied =>
                    stroke_contours fuel bIsRebuildingInternalCache oldCache style
                      dashStartState (i + 1)%Z cs' rcs' (done_cs ++ [c]) (done_rcs ++ [rc])
                      (vertices ++ copied) joints (count + strokeVertexCount orc)%Z uninit
                | None => None
                end
            | None => None
            end
        | None => None
        end
  | _ :: _, [] => None
  end.

(** [_tpGLStroke]: the contours of the path and of the cache, the vertex
    array and [*_outStrokeVertexCount] after the call. *)
Definition _tpGLStroke (fuel : nat) (path : _tpGLPath F)
    (rcContours : list _tpGLRenderCacheContour) (bIsRebuildingInternalCache : tpBool)
    (oldCache : option (_tpGLRenderCache F)) (style : tpStyle F)
    (vertices : list (tpVec2 F)) (joints : list tpBool) (uninit : tpVec2 F)
  : option (_tpGLPath F * list _tpGLRenderCacheContour * list (tpVec2 F) * Z) :=
  let dashStartState :=
    if (dashCount style =? 0)%Z then None
    else match dash_start_state fuel style with
         | Done ds => Some ds
         | _ => None
         end in
  match stroke_contours fuel bIsRebuildingInternalCache oldCache style dashStartState
          0 (contours path) rcContours [] [] vertices joints 0 uninit with
  | None => None
  | Some (cs, rcs, vs, n) =>
      Some (mkPath cs (currentContourIndex path) (bPathGeometryDirty path), rcs, vs, n)
  end.

Definition _tpGLCacheBoundsGeometry (cache : _tpGLRenderCache F) (style : tpStyle F)
  : _tpGLRenderCache F :=
  let offset := Z.of_nat (length (geometryCache cache)) in
  let with_bounds (b : _tpGLRect F) (sb : option (_tpGLRect F)) :=
    mkRenderCache (cache_contours cache)
      (geometryCache cache
       ++ [rmin b; tpVec2Make (vx (rmin b)) (vy (rmax b));
           tpVec2Make (vx (rmax b)) (vy (rmin b)); rmax b])
      (jointCache cache) (boundsCache cache) sb
      (cache_strokeVertexOffset cache) (cache_strokeVertexCount cache)
      offset (cache_style cache) in
  if negb (paint_is_none (stroke style)) then
    let b := boundsCache cache in
    let adder :=
      match strokeJoin style with
      | kTpStrokeJoinMiter => miterLimit style * strokeWidth style * chalf
      | _ => strokeWidth style
      end in
    let b' := mkRect (mkVec2 (vx (rmin b) - adder) (vy (rmin b) - adder))
                     (mkVec2 (vx (rmax b) + adder) (vy (rmax b) + adder)) in
    with_bounds b' (Some b')
  else with_bounds (boundsCache cache) (strokeBoundsCache cache).

(** The loop of [_tpGLCachePathImpl] over the contours of the path on a first
    build, when every contour is flattened anew (each one is dirty, or the
    old cache has no contour).  [Cache.flatten_contours], further down, is
    the loop with its two branches; lemma [flatten_contours_first] shows that
    the two agree on a first build. *)
Fixpoint flatten_contours (fuel : nat) (angleTolerance : F)
    (transform : option (tpTransform F)) (clearDirty : bool)
    (cs done_cs : list (_tpGLContour F)) (rcs : list _tpGLRenderCacheContour)
    (vertices : list (tpVec2 F)) (joints : list tpBool) (b : _tpGLRect F)
    (uninit : tpVec2 F)
  : option (list (_tpGLContour F) * list _tpGLRenderCacheContour
            * list (tpVec2 F) * list tpBool * _tpGLRect F) :=
  match cs with
  | [] => Some (done_cs, rcs, vertices, joints, b)
  | c :: cs' =>
      match _tpGLFlattenContour fuel c angleTolerance transform vertices joints b
              (mkRcContour 0 0 0 0 tpFalse) uninit with
      | None => None
      | Some r =>
          let c' := fr_contour r in
          let c' :=
            if clearDirty
            then mkContour (segments c') tpFalse (bIsClosed c') (lastSegmentIndex c')
                           (bounds c')
            else c' in
          flatten_contours fuel angleTolerance transform clearDirty cs' (done_cs ++ [c'])
            (rcs ++ [fr_outContour r]) (fr_vertices r) (fr_joints r) (fr_mergeBounds r)
            uninit
      end
  end.

(** [_tpGLCachePathImpl] when it builds the geometry of a cache for the
    first time ([_bGeometryDirty] and [_bStrokeDirty] are set and every
    contour is flattened and stroked anew).  [Cache._tpGLCachePathImpl],
    further down, is the function with the old cache and the two flags;
    lemma [_tpGLCachePathImpl_first] shows that it is this one on a first
    build.  The context gives its transform and [transformScale]; the copy
    of clip caches, the matrices and the gradient geometry are left out.  The
    function returns [tpFalse]. *)
Definition _tpGLCachePathImpl (fuel : nat) (ctx_transform : tpTransform F)
    (ctx_transformScale : F) (path : _tpGLPath F) (style : tpStyle F)
    (cache : _tpGLRenderCache F) (bIsPathRenderCache : bool) (uninit : tpVec2 F)
  : option (_tpGLPath F * _tpGLRenderCache F) :=
  match contours path with
  | [] =>
      Some (path, mkRenderCache [] [] [] (boundsCache cache) (strokeBoundsCache cache)
                    (cache_strokeVertexOffset cache) (cache_strokeVertexCount cache)
                    (boundsVertexOffset cache) (cache_style cache))
  | _ :: _ =>
      let bStyleHasStroke :=
        negb (paint_is_none (stroke style)) && (strokeWidth style >? c0) in
      let angleTolerance :=
        if negb (scaleStroke style) then fconst 15 100
        else fconst 15 100 / ctx_transformScale in
      let transform := if scaleStroke style then None else Some ctx_transform in
      match flatten_contours fuel angleTolerance transform
              (negb bStyleHasStroke && bIsPathRenderCache)
              (contours path) [] [] [] [] _tpGLInitBounds uninit with
      | None => None
      | Some (cs, rcs, vertices, joints, b) =>
          let path1 := mkPath cs (currentContourIndex path) (bPathGeometryDirty path) in
          let stroked :=
            if bStyleHasStroke then
              match _tpGLStroke fuel path1 rcs bIsPathRenderCache None style
                      vertices joints uninit with
              | None => None
              | Some (path2, rcs', vertices', n) =>
                  Some (path2, rcs', vertices', Z.of_nat (length vertices), n)
              end
            else Some (path1, rcs, vertices, cache_strokeVertexOffset cache,
                       cache_strokeVertexCount cache) in
          match stroked with
          | None => None
          | Some (path2, rcs', vertices', soff, scount) =>
              Some (path2,
                    _tpGLCacheBoundsGeometry
                      (mkRenderCache rcs' vertices' joints b (strokeBoundsCache cache)
                                     soff scount (boundsVertexOffset cache) style)
                      style)
          end
      end
  end.

End Stroke.

(** ** Gradients *)

Record tpColorStop (F : Type) : Type := mkColorStop {
  color : tpColor F;
  offset : F
}.

Inductive tpGradientType : Type := kTpGradientTypeLinear | kTpGradientTypeRadial.

(** [_tpGLGradient], without the handle of the ramp texture. *)
Record _tpGLGradient (F : Type) : Type := mkGradient {
  gradientID : Z;
  origin : tpVec2 F;
  destination : tpVec2 F;
  ratio : F;
  focal_point_offset : tpVec2 F;
  stops : list (tpColorStop F);
  gradientType : tpGradientType;
  gradient_bDirty : tpBool
}.

Section Sorting.
Context {T : Type}.

(** [qsort] of the C library with the comparison function [comp]: the
    elements are put in an order in which [comp] is negative from each one
    to the next.  The C standard leaves open where elements go that do not
    compare as ordered; the model keeps them in the order of the input. *)
Fixpoint qsort_insert (comp : T -> T -> Z) (x : T) (l : list T) : list T :=
  match l with
  | [] => [x]
  | y :: l' => if (comp x y <? 0)%Z then x :: y :: l' else y :: qsort_insert comp x l'
  end.

Fixpoint qsort (comp : T -> T -> Z) (l : list T) : list T :=
  match l with
  | [] => []
  | x :: l' => qsort_insert comp x (qsort comp l')
  end.
End Sorting.

Section Gradients.
Context {F : Type} {A : Arith F}.
Local Open Scope tp_scope.

Definition _tpGLColorStopComp (a b : tpColorStop F) : Z :=
  if offset a <? offset b then (-1)%Z else 1%Z.

(** The loop of [_tpGLFinalizeColorStops] that removes duplicates: [tmp] is
    [_ctx->tmpColorStops]. *)
Fixpoint remove_duplicates (rest tmp : list (tpColorStop F))
    (bHasStartStop bHasEndStop : tpBool)
  : list (tpColorStop F) * tpBool * tpBool :=
  match rest with
  | [] => (tmp, bHasStartStop, bHasEndStop)
  | current :: rest' =>
      let bHasStartStop' :=
        if offset current =? c0 then tpTrue else bHasStartStop in
      let bHasEndStop' :=
        if offset current =? c0 then bHasEndStop
        else if offset current =? c1 then tpTrue else bHasEndStop in
      let bAdd := negb (existsb (fun s => offset current =? offset s) tmp) in
      let tmp' :=
        if bAdd && (offset current >=? c0) && (offset current <=? c1)
        then tmp ++ [current] else tmp in
      remove_duplicates rest' tmp' bHasStartStop' bHasEndStop'
  end.

(** The gradient with [l] written to [stops]. *)
Definition with_stops (grad : _tpGLGradient F) (l : list (tpColorStop F)) : _tpGLGradient F :=
  mkGradient (gradientID grad) (origin grad) (destination grad) (ratio grad)
             (focal_point_offset grad) l (gradientType grad) (gradient_bDirty grad).

(** [_tpGLFinalizeColorStops]: the stops of the gradient after the call;
    [None] stands for a read of [tmpColorStops] outside the array. *)
Definition _tpGLFinalizeColorStops (grad : _tpGLGradient F) : option (_tpGLGradient F) :=
  match stops grad with
  | [] => Some grad
  | _ :: _ =>
      let '(tmp, bHasStartStop, bHasEndStop) :=
        remove_duplicates (stops grad) [] tpFalse tpFalse in
      let tmp := qsort _tpGLColorStopComp tmp in
      if negb bHasStartStop || negb bHasEndStop then
        let start :=
          if negb bHasStartStop then
            match AtPtr tmp 0 with
            | Some s => Some [mkColorStop (color s) c0]
            | None => None
            end
          else Some [] in
        let finish :=
          if negb bHasEndStop then
            match LastPtr tmp with
            | Some s => Some [mkColorStop (color s) c1]
            | None => None
            end
          else Some [] in
        match start, finish with
        | Some a, Some b => Some (with_stops grad (a ++ tmp ++ b))
        | _, _ => None
        end
      else Some (with_stops grad tmp)
  end.

End Gradients.

Section RealGradients.
Local Open Scope R_scope.

(** The order of the stops by offset. *)
Definition by_offset (a b : tpColorStop R) : Prop := offset a < offset b.

Definition in_unit_range (s : tpColorStop R) : Prop := 0 <= offset s <= 1.

(** A gradient with the stops as [tpGradientAddColorStop] left them: out of
    order, one offset twice, none at 0 or 1. *)
Definition ramp_stops : list (tpColorStop R) :=
  [ mkColorStop (mkColor 1 0 0 1) (1 / 2);
    mkColorStop (mkColor 0 0 1 1) (1 / 4);
    mkColorStop (mkColor 0 1 0 1) (1 / 2) ].

Definition gradient_of (l : list (tpColorStop R)) : _tpGLGradient R :=
  mkGradient 0 (mkVec2 0 0) (mkVec2 1 0) 1 (mkVec2 0 0) l kTpGradientTypeLinear tpTrue.

End RealGradients.

(** ** Clipping *)

Definition TARP_GL_MAX_CLIPPING_STACK_DEPTH : Z := 64.

Definition _kTpGLFillRasterStencilPlane : Z := 31.
Definition _kTpGLClippingStencilPlaneOne : Z := Z.shiftl 1 5.
Definition _kTpGLClippingStencilPlaneTwo : Z := Z.shiftl 1 6.
Definition _kTpGLStrokeRasterStencilPlane : Z := Z.shiftl 1 7.

Inductive GLenum : Type :=
| GL_ALWAYS | GL_EQUAL | GL_NOTEQUAL
| GL_KEEP | GL_ZERO | GL_INVERT | GL_INCR_WRAP | GL_DECR_WRAP
| GL_TRIANGLE_FAN | GL_TRIANGLE_STRIP
| GL_CULL_FACE | GL_BACK | GL_CW | GL_CCW
| GL_STENCIL_BUFFER_BIT.

(** The calls to OpenGL that the clipping functions make. *)
Inductive GLCall : Type :=
| glStencilMask (mask : Z)
| glClearStencil (s : Z)
| glClear (mask : GLenum)
| glStencilFunc (func : GLenum) (ref mask : Z)
| glStencilOp (sfail dpfail dppass : GLenum)
| glColorMask (red green blue alpha : bool)
| glEnable (cap : GLenum)
| glDisable (cap : GLenum)
| glCullFace (mode : GLenum)
| glFrontFace (mode : GLenum)
| glDrawArrays (mode : GLenum) (first count : Z).

(** The fields of [_tpGLContext] that the clipping functions read and write.
    [clippingStack] is the array of [TARP_GL_MAX_CLIPPING_STACK_DEPTH]
    pointers, [None] for a pointer that is not set; a slot holds the render
    cache as it was when it was pushed (the source replaces a cache on the
    stack by a deep copy before it rewrites the cache).  [glCalls] lists the
    calls to OpenGL, the oldest first. *)
Record _tpGLContext (F : Type) : Type := mkContext {
  clippingStack : list (option (_tpGLRenderCache F));
  clippingStackDepth : Z;
  currentClipStencilPlane : Z;
  bCanSwapStencilPlanes : tpBool;
  clippingStyle : tpStyle F;
  glCalls : list GLCall
}.

Section Clipping.
Context {F : Type} {A : Arith F}.

(** [p == _kTpGLClippingStencilPlaneOne ? _kTpGLClippingStencilPlaneTwo
    : _kTpGLClippingStencilPlaneOne], which the source writes out at each
    use. *)
Definition other_clip_plane (p : Z) : Z :=
  if (p =? _kTpGLClippingStencilPlaneOne)%Z
  then _kTpGLClippingStencilPlaneTwo else _kTpGLClippingStencilPlaneOne.

Definition gl (ctx : _tpGLContext F) (calls : list GLCall) : _tpGLContext F :=
  mkContext (clippingStack ctx) (clippingStackDepth ctx) (currentClipStencilPlane ctx)
            (bCanSwapStencilPlanes ctx) (clippingStyle ctx) (glCalls ctx ++ calls).

Definition set_clippingStack (ctx : _tpGLContext F)
    (stack : list (option (_tpGLRenderCache F))) (depth : Z) : _tpGLContext F :=
  mkContext stack depth (currentClipStencilPlane ctx)
            (bCanSwapStencilPlanes ctx) (clippingStyle ctx) (glCalls ctx).

Definition set_clip_planes (ctx : _tpGLContext F) (plane : Z) (bCanSwap : tpBool)
  : _tpGLContext F :=
  mkContext (clippingStack ctx) (clippingStackDepth ctx) plane bCanSwap
            (clippingStyle ctx) (glCalls ctx).

Definition set_clippingStyle_fillRule (ctx : _tpGLContext F) (rule : tpFillRule)
  : _tpGLContext F :=
  let s := clippingStyle ctx in
  mkContext (clippingStack ctx) (clippingStackDepth ctx) (currentClipStencilPlane ctx)
            (bCanSwapStencilPlanes ctx)
            (mkStyle (fill s) (stroke s) (strokeWidth s) (strokeCap s) (strokeJoin s)
                     rule (dashArray s) (dashOffset s) (miterLimit s) (scaleStroke s))
            (glCalls ctx).

(** The clipping fields after [tpContextCreate]. *)
Definition tpContextCreate : _tpGLContext F :=
  let s := tpStyleMake in
  mkContext (repeat None (Z.to_nat TARP_GL_MAX_CLIPPING_STACK_DEPTH)) 0
            _kTpGLClippingStencilPlaneOne tpTrue
            (mkStyle (fill s) kTpPaintTypeNone (strokeWidth s) (strokeCap s)
                     (strokeJoin s) (fillRule s) (dashArray s) (dashOffset s)
                     (miterLimit s) (scaleStroke s))
            [].

Definition draw_fans (cache : _tpGLRenderCache F) : list GLCall :=
  map (fun c => glDrawArrays GL_TRIANGLE_FAN (fillVertexOffset c) (fillVertexCount c))
      (cache_contours cache).

(** [_tpGLDrawRenderCacheImpl] with [_bIsClipPath] true, without the upload
    of the vertices and of the render matrix.  [None] is a failed
    assertion. *)
Definition _tpGLDrawRenderCacheImpl (ctx : _tpGLContext F) (cache : _tpGLRenderCache F)
  : option (tpBool * _tpGLContext F) :=
  match cache_contours cache with
  | [] => Some (tpFalse, ctx)
  | _ :: _ =>
      match geometryCache cache with
      | [] => None
      | _ :: _ =>
          let stencilPlaneToWriteTo := currentClipStencilPlane ctx in
          let stencilPlaneToTestAgainst := other_clip_plane (currentClipStencilPlane ctx) in
          let ctx :=
            gl ctx [glStencilFunc (if (clippingStackDepth ctx =? 0)%Z
                                   then GL_ALWAYS else GL_EQUAL)
                                  0 stencilPlaneToTestAgainst;
                    glColorMask false false false false] in
          match fillRule (cache_style cache) with
          | kTpFillRuleEvenOdd =>
              let ctx :=
                gl ctx ([glStencilMask stencilPlaneToWriteTo;
                         glStencilOp GL_KEEP GL_KEEP GL_INVERT]
                        ++ draw_fans cache
                        ++ [glColorMask true true true true]) in
              Some (tpFalse, ctx)
          | kTpFillRuleNonZero =>
              let ctx :=
                gl ctx ([glStencilMask _kTpGLFillRasterStencilPlane;
                         glStencilOp GL_KEEP GL_KEEP GL_INCR_WRAP;
                         glEnable GL_CULL_FACE;
                         glCullFace GL_BACK;
                         glFrontFace GL_CW]
                        ++ draw_fans cache
                        ++ [glFrontFace GL_CCW;
                            glStencilOp GL_KEEP GL_KEEP GL_DECR_WRAP]
                        ++ draw_fans cache
                        ++ [glDisable GL_CULL_FACE;
                            glFrontFace GL_CW;
                            glStencilMask stencilPlaneToWriteTo;
                            glStencilFunc GL_NOTEQUAL 0 _kTpGLFillRasterStencilPlane;
                            glStencilOp GL_KEEP GL_KEEP GL_ZERO;
                            glDrawArrays GL_TRIANGLE_STRIP (boundsVertexOffset cache) 4;
                            glStencilMask _kTpGLFillRasterStencilPlane;
                            glStencilOp GL_ZERO GL_ZERO GL_ZERO;
                            glDrawArrays GL_TRIANGLE_STRIP (boundsVertexOffset cache) 4;
                            glColorMask true true true true]) in
              Some (tpFalse, ctx)
          end
      end
  end.

(** [_tpGLGenerateClippingMaskForRenderCache]; [cache] is [None] for a null
    pointer.  [None] is a failed assertion or a write outside
    [clippingStack]. *)
Definition _tpGLGenerateClippingMaskForRenderCache (ctx : _tpGLContext F)
    (cache : option (_tpGLRenderCache F)) (bIsRebuilding : tpBool)
  : option (tpBool * _tpGLContext F) :=
  match cache with
  | None => None
  | Some c =>
      let pushed :=
        if negb bIsRebuilding then
          if (0 <=? clippingStackDepth ctx)%Z
             && (clippingStackDepth ctx <? Z.of_nat (length (clippingStack ctx)))%Z
          then Some (set_clippingStack ctx
                       (SetAt (clippingStack ctx) (clippingStackDepth ctx) (Some c))
                       (clippingStackDepth ctx + 1))
          else None
        else Some ctx in
      match pushed with
      | None => None
      | Some ctx =>
          let ctx := gl ctx [glStencilMask (currentClipStencilPlane ctx);
                             glClearStencil (-1);
                             glClear GL_STENCIL_BUFFER_BIT] in
          match _tpGLDrawRenderCacheImpl ctx c with
          | None => None
          | Some (drawResult, ctx) =>
              if drawResult then Some (tpTrue, ctx)
              else
                Some (tpFalse,
                      set_clip_planes ctx
                        (other_clip_plane (currentClipStencilPlane ctx))
                        (bCanSwapStencilPlanes ctx))
          end
      end
  end.

(** [_tpGLUpdateInternalPathCache] is not embedded: the clipping functions
    take its result and the render cache it leaves in the path. *)
Variable _tpGLUpdateInternalPathCache :
  _tpGLPath F -> tpStyle F -> tpBool -> tpBool * option (_tpGLRenderCache F).

Definition _tpGLGenerateClippingMask (ctx : _tpGLContext F) (path : _tpGLPath F)
    (rule : tpFillRule) : option (tpBool * _tpGLContext F) :=
  let ctx := set_clippingStyle_fillRule ctx rule in
  let '(failed, renderCache) :=
    _tpGLUpdateInternalPathCache path (clippingStyle ctx) tpTrue in
  if failed then Some (tpTrue, ctx)
  else _tpGLGenerateClippingMaskForRenderCache ctx renderCache tpFalse.

Definition tpBeginClippingWithFillRule (ctx : _tpGLContext F) (path : _tpGLPath F)
    (rule : tpFillRule) : option (tpBool * _tpGLContext F) :=
  _tpGLGenerateClippingMask ctx path rule.

Definition tpBeginClipping (ctx : _tpGLContext F) (path : _tpGLPath F)
  : option (tpBool * _tpGLContext F) :=
  tpBeginClippingWithFillRule ctx path kTpFillRuleEvenOdd.

Definition tpBeginClippingFromRenderCache (ctx : _tpGLContext F)
    (cache : option (_tpGLRenderCache F)) : option (tpBool * _tpGLContext F) :=
  _tpGLGenerateClippingMaskForRenderCache ctx cache tpFalse.

Definition clear_clip_planes : list GLCall :=
  [glStencilMask (Z.lor _kTpGLClippingStencilPlaneOne _kTpGLClippingStencilPlaneTwo);
   glClearStencil 0;
   glClear GL_STENCIL_BUFFER_BIT].

(** The loop of [tpEndClipping] that draws the masks of the stack again,
    [count] slots from slot [i]. *)
Fixpoint rebuild_clipping_masks (count : nat) (i : Z) (ctx : _tpGLContext F)
  : option (_tpGLContext F) :=
  match count with
  | O => Some ctx
  | S count' =>
      match AtPtr (clippingStack ctx) i with
      | None => None
      | Some cache =>
          match _tpGLGenerateClippingMaskForRenderCache ctx cache tpTrue with
          | None => None
          | Some (_, ctx) => rebuild_clipping_masks count' (i + 1) ctx
          end
      end
  end.

Definition tpEndClipping (ctx : _tpGLContext F) : option (tpBool * _tpGLContext F) :=
  if (clippingStackDepth ctx =? 0)%Z then None
  else
    let ctx := set_clippingStack ctx (clippingStack ctx) (clippingStackDepth ctx - 1) in
    if negb (clippingStackDepth ctx =? 0)%Z then
      if bCanSwapStencilPlanes ctx then
        Some (tpFalse,
              set_clip_planes ctx (other_clip_plane (currentClipStencilPlane ctx)) tpFalse)
      else
        let ctx := set_clip_planes ctx _kTpGLClippingStencilPlaneOne tpTrue in
        let ctx := gl ctx clear_clip_planes in
        match rebuild_clipping_masks (Z.to_nat (clippingStackDepth ctx)) 0 ctx with
        | None => None
        | Some ctx => Some (tpFalse, ctx)
        end
    else
      let ctx := set_clip_planes ctx _kTpGLClippingStencilPlaneOne tpTrue in
      Some (tpFalse, gl ctx clear_clip_planes).

Definition tpResetClipping (ctx : _tpGLContext F) : tpBool * _tpGLContext F :=
  let ctx := gl ctx clear_clip_planes in
  let ctx := set_clip_planes ctx _kTpGLClippingStencilPlaneOne tpTrue in
  (tpFalse, set_clippingStack ctx (clippingStack ctx) 0).

End Clipping.

(** *** Inputs of the examples on clipping *)

Section ClippingInputs.
Context {F : Type} {A : Arith F}.

(** The render cache of a triangle: the fan of its contour, then the four
    vertices of its bounds. *)
Definition triangle_cache : _tpGLRenderCache F :=
  mkRenderCache [mkRcContour 0 3 0 0 tpTrue]
                [mkVec2 c0 c0; mkVec2 c1 c0; mkVec2 c0 c1;
                 mkVec2 c0 c0; mkVec2 c0 c1; mkVec2 c1 c0; mkVec2 c1 c1]
                [false; true; true]
                (mkRect (mkVec2 c0 c0) (mkVec2 c1 c1)) None 0 0 3
                (clippingStyle tpContextCreate).

(** A stand-in for [_tpGLUpdateInternalPathCache] on a path without a render
    cache. *)
Definition no_internal_cache :
  _tpGLPath F -> tpStyle F -> tpBool -> tpBool * option (_tpGLRenderCache F) :=
  fun _ _ _ => (tpFalse, None).

(** The context after [tpBeginClippingFromRenderCache] with the triangle. *)
Definition begin_from (ctx : _tpGLContext F) : _tpGLContext F :=
  match tpBeginClippingFromRenderCache ctx (Some triangle_cache) with
  | Some (_, ctx') => ctx'
  | None => ctx
  end.

End ClippingInputs.

Definition clip_once : _tpGLContext b32 := begin_from tpContextCreate.

(** *** Bezier curves, as the specification describes them *)

Section Bezier.
Local Open Scope R_scope.

Definition lin (a b c d : R) (p q r s : tpVec2 R) : tpVec2 R :=
  mkVec2 (a * vx p + b * vx q + c * vx r + d * vx s)
         (a * vy p + b * vy q + c * vy r + d * vy s).

(** The point at parameter [t] of the cubic with control points
    [p0 c, h0 c, h1 c, p1 c]. *)
Definition cubic_point (c : _tpGLCurve R) (t : R) : tpVec2 R :=
  lin ((1 - t) * (1 - t) * (1 - t)) (3 * (1 - t) * (1 - t) * t)
      (3 * (1 - t) * t * t) (t * t * t) (p0 c) (h0 c) (h1 c) (p1 c).

(** The point at parameter [t] of the quadratic from [a] through the
    control point [h] to [b]. *)
Definition quadratic_point (a h b : tpVec2 R) (t : R) : tpVec2 R :=
  lin ((1 - t) * (1 - t)) (2 * (1 - t) * t) (t * t) 0 a h b b.
End Bezier.

(** The cubic that the last two segments of a contour imply, with the
    control points [_tpGLFlattenContour] reads for it. *)
Definition last_curve {F : Type} (c : _tpGLContour F) : option (_tpGLCurve F) :=
  match rev (segments c) with
  | cur :: last :: _ =>
      Some (mkCurve (position last) (handleOut last) (handleIn cur) (position cur))
  | _ => None
  end.

(** The state in which no [tpPathMoveTo] has started the current contour:
    the path has no current contour, or the current contour holds no segment
    yet. *)
Definition no_contour_started {F : Type} {A : Arith F} (p : _tpGLPath F) : Prop :=
  match _tpGLCurrentContour p with
  | None => True
  | Some c => lastSegmentIndex c = (-1)%Z
  end.

(** [tpPathMoveTo (0, 0)] followed by [tpPathQuadraticCurveTo] with the
    control point [(1, 0)] and the end point [(1, 1)], on a new path. *)
Definition quad_demo : _tpGLPath R :=
  snd (fst (tpPathQuadraticCurveTo
              (snd (fst (tpPathMoveTo tpPathCreate 0%R 0%R EmptyString)))
              1%R 0%R 1%R 1%R EmptyString)).

(** ** What the flattener appends *)

(** What one call of [_tpGLFlattenCurve] appends. *)
Record appended (F : Type) (st st' : flatten_state F) (nv : list (tpVec2 F)) (nj : list tpBool)
  : Prop := mkAppended {
  app_vertices : fs_vertices st' = fs_vertices st ++ nv;
  app_joints : fs_joints st' = fs_joints st ++ nj;
  app_length : length nv = length nj;
  app_count : fs_vertexCount st' = (fs_vertexCount st + Z.of_nat (length nv))%Z
}.


(** The point a contour stores for [p], under the optional transform of
    [_tpGLFlattenContour]. *)
Definition apply_opt {F : Type} {A : Arith F} (transform : option (tpTransform F))
    (p : tpVec2 F) : tpVec2 F :=
  match transform with
  | None => p
  | Some t => tpTransformApply t p
  end.

(** The test of [_tpGLFlattenContour] for flattening a closing curve: the
    contour is closed, it has a segment, and its first and last positions are
    more than [FLT_EPSILON] apart. *)
Definition closing_curve_needed {F : Type} {A : Arith F} (c : _tpGLContour F) : bool :=
  bIsClosed c
  && match segments c with
     | [] => false
     | first :: rest =>
         fltb FLT_EPSILON (tpVec2Distance (position first) (position (last rest first)))
     end.

(** A segment whose two handles lie on its position. *)
Definition is_corner (s : tpSegment R) : Prop :=
  handleIn s = position s /\ handleOut s = position s.

Section RealInputs.
Local Open Scope R_scope.

(** The closed contour that [tpPathMoveTo (0,0)], [tpPathLineTo (1,0)],
    [tpPathLineTo (0, 2^-24)] and [tpPathClose] build: its last position is
    closer than [FLT_EPSILON] to the first one, and differs from it. *)
Definition near_closed_path : _tpGLPath R :=
  let e := EmptyString in
  let p := snd (fst (tpPathMoveTo tpPathCreate 0 0 e)) in
  let p := snd (fst (tpPathLineTo p 1 0 e)) in
  let p := snd (fst (tpPathLineTo p 0 (1 / 16777216) e)) in
  snd (fst (tpPathClose p e)).

Definition near_closed_contour : _tpGLContour R :=
  mkContour [tpSegmentMake 0 0 0 0 0 0; tpSegmentMake 1 0 1 0 1 0;
             tpSegmentMake 0 (1 / 16777216) 0 (1 / 16777216) 0 (1 / 16777216)]
            tpTrue tpTrue 2 None.

End RealInputs.

(** A curve whose coordinates are all NaN. *)
Definition nan_point : tpVec2 b32 := mkVec2 S754_nan S754_nan.
Definition nan_curve : _tpGLCurve b32 :=
  mkCurve nan_point nan_point nan_point nan_point.

(** ** Bounding boxes, and the inputs of the examples on strokes *)

Section RealStrokes.
Local Open Scope R_scope.

(** The bounding box of a list of points, from an initial box. *)
Definition aabb (vs : list (tpVec2 R)) : _tpGLRect R :=
  fold_left (fun b v => _tpGLEvaluatePointForBounds v b) vs _tpGLInitBounds.

Definition expand_rect (b : _tpGLRect R) (d : R) : _tpGLRect R :=
  mkRect (mkVec2 (vx (rmin b) - d) (vy (rmin b) - d))
         (mkVec2 (vx (rmax b) + d) (vy (rmax b) + d)).

Definition rect_close (tol : R) (a b : _tpGLRect R) : Prop :=
  Rabs (vx (rmin a) - vx (rmin b)) <= tol /\ Rabs (vy (rmin a) - vy (rmin b)) <= tol
  /\ Rabs (vx (rmax a) - vx (rmax b)) <= tol /\ Rabs (vy (rmax a) - vy (rmax b)) <= tol.

(** The amount by which [_tpGLCacheBoundsGeometry] widens the fill bounds. *)
Definition stroke_adder (style : tpStyle R) : R :=
  match strokeJoin style with
  | kTpStrokeJoinMiter => miterLimit style * strokeWidth style / 2
  | _ => strokeWidth style
  end.

Definition rect_corners (b : _tpGLRect R) : list (tpVec2 R) :=
  [rmin b; mkVec2 (vx (rmin b)) (vy (rmax b)); mkVec2 (vx (rmax b)) (vy (rmin b)); rmax b].

(** The default style with a stroke of width 2 (bevel joins, butt caps). *)
Definition wide_style : tpStyle R :=
  mkStyle (fill tpStyleMake) (stroke tpStyleMake) 2 (strokeCap tpStyleMake)
          (strokeJoin tpStyleMake) (fillRule tpStyleMake) [] 0
          (miterLimit tpStyleMake) (scaleStroke tpStyleMake).

Definition line_fill : list (tpVec2 R) := [mkVec2 0 0; mkVec2 10 0].
Definition line_joints : list tpBool := [tpFalse; tpTrue].
Definition line_contour : _tpGLRenderCacheContour := mkRcContour 0 2 0 0 tpFalse.

Definition line_soup : list (tpVec2 R) :=
  [mkVec2 10 (-1); mkVec2 0 (-1); mkVec2 0 1; mkVec2 0 1; mkVec2 10 1; mkVec2 10 (-1)].

(** The path of [tpPathMoveTo (0,0)] and [tpPathLineTo (10,0)]. *)
Definition line_path : _tpGLPath R :=
  let e := EmptyString in
  let p := snd (fst (tpPathMoveTo tpPathCreate 0 0 e)) in
  snd (fst (tpPathLineTo p 10 0 e)).

Definition empty_cache {F : Type} {A : Arith F} (style : tpStyle F) : _tpGLRenderCache F :=
  mkRenderCache [] [] [] _tpGLInitBounds None 0 0 0 style.

End RealStrokes.

(** A stand-in for the dashed stroker on inputs without dashes. *)
Definition no_dashes (F : Type) :
  _tpGLRenderCacheContour -> tpStyle F -> _tpGLDashStartState F ->
  list (tpVec2 F) -> list tpBool -> option (_tpGLRenderCacheContour * list (tpVec2 F)) :=
  fun _ _ _ _ _ => None.
Arguments no_dashes : clear implicits.


(** The binary32 path of [tpPathMoveTo (0,0)] and [tpPathLineTo (0,0)]: a line
    to the current position. *)
Definition zero_line_path : _tpGLPath b32 :=
  let e := EmptyString in
  let p := snd (fst (tpPathMoveTo tpPathCreate c0 c0 e)) in
  snd (fst (tpPathLineTo p c0 c0 e)).

(** The default style with a dash array and a dash offset. *)
Section RealDashes.
Local Open Scope R_scope.
Definition dashed_style (dashes : list R) (offset : R) : tpStyle R :=
  mkStyle (fill tpStyleMake) (stroke tpStyleMake) (strokeWidth tpStyleMake)
          (strokeCap tpStyleMake) (strokeJoin tpStyleMake) (fillRule tpStyleMake)
          dashes offset (miterLimit tpStyleMake) (scaleStroke tpStyleMake).

End RealDashes.

(** ** Measures for the termination of the flattener *)

(** Every edge of the control polygon of [c] is at most [d] long, in each
    coordinate. *)
Definition small (c : _tpGLCurve R) (d : R) : Prop :=
  (Rabs (vx (h0 c) - vx (p0 c)) <= d /\ Rabs (vy (h0 c) - vy (p0 c)) <= d
   /\ Rabs (vx (h1 c) - vx (h0 c)) <= d /\ Rabs (vy (h1 c) - vy (h0 c)) <= d
   /\ Rabs (vx (p1 c) - vx (h1 c)) <= d /\ Rabs (vy (p1 c) - vy (h1 c)) <= d)%R.

(** A curve of level [n] is flat after at most [n] bisections. *)
Definition fits (n : nat) (c : _tpGLCurve R) : Prop :=
  small c (FLT_EPSILON * 2 ^ n)%R.

(** Turns of the loop that a stack of curves of the given levels needs at
    most. *)
Fixpoint cost (ns : list nat) : nat :=
  match ns with
  | [] => 0
  | n :: ns' => (2 ^ (n + 1) - 1) + cost ns'
  end.

(** ** The rest of the vector and matrix library *)

(** [tan], [asin] and [atan2] of <math.h>. *)
Class Libm2 (F : Type) : Type := {
  ftan : F -> F;
  fasin : F -> F;
  fatan2 : F -> F -> F
}.

(** [tpMat4]: the sixteen floats [v[0]] to [v[15]], column after column. *)
Record tpMat4 (F : Type) : Type := mkMat4 {
  m0 : F; m1 : F; m2 : F; m3 : F;
  m4 : F; m5 : F; m6 : F; m7 : F;
  m8 : F; m9 : F; m10 : F; m11 : F;
  m12 : F; m13 : F; m14 : F; m15 : F
}.

Section Vectors.
Context {F : Type} {A : Arith F}.
Local Open Scope tp_scope.

Definition tpColorMake (r g b a : F) : tpColor F := mkColor r g b a.

Definition tpVec2Mult (a b : tpVec2 F) : tpVec2 F :=
  mkVec2 (vx a * vx b) (vy a * vy b).

Definition tpVec2Div (a b : tpVec2 F) : tpVec2 F :=
  mkVec2 (vx a / vx b) (vy a / vy b).

Definition tpVec2LengthSquared (a : tpVec2 F) : F :=
  vx a * vx a + vy a * vy a.

Definition tpVec2Normalize (a : tpVec2 F) : tpVec2 F :=
  let s := c1 / tpVec2Length a in
  mkVec2 (vx a * s) (vy a * s).

Definition tpVec2DistanceSquared (a b : tpVec2 F) : F :=
  tpVec2LengthSquared (tpVec2Sub a b).

Definition tpMat2MakeScale (x y : F) : tpMat2 F := tpMat2Make x c0 c0 y.

Definition tpMat2Equals (a b : tpMat2 F) : tpBool :=
  (v0 a =? v0 b) && (v1 a =? v1 b) && (v2 a =? v2 b) && (v3 a =? v3 b).

Definition tpMat2Invert (m : tpMat2 F) : tpMat2 F :=
  let inv_det := c1 / (v0 m * v3 m - v1 m * v2 m) in
  mkMat2 (v3 m * inv_det) (- v1 m * inv_det) (- v2 m * inv_det) (v0 m * inv_det).

Definition tpTransformInvert (t : tpTransform F) : tpTransform F :=
  let m := tpMat2Invert (tm t) in
  mkTransform m (tpMat2MultVec2 m (tpVec2Make (- vx (tt t)) (- vy (tt t)))).

Definition tpTransformMakeTranslation (x y : F) : tpTransform F :=
  mkTransform tpMat2MakeIdentity (tpVec2Make x y).

Definition tpTransformMakeScale (x y : F) : tpTransform F :=
  mkTransform (tpMat2MakeScale x y) (tpVec2Make c0 c0).

Definition tpTransformEquals (a b : tpTransform F) : tpBool :=
  tpMat2Equals (tm a) (tm b) && tpVec2Equals (tt a) (tt b).

(** [tpMat4Make] takes the entries row after row and stores them column
    after column. *)
Definition tpMat4Make (a0 a1 a2 a3 a4 a5 a6 a7 a8 a9 a10 a11 a12 a13 a14 a15 : F)
  : tpMat4 F :=
  mkMat4 a0 a4 a8 a12 a1 a5 a9 a13 a2 a6 a10 a14 a3 a7 a11 a15.

Definition tpMat4MakeIdentity : tpMat4 F :=
  tpMat4Make c1 c0 c0 c0 c0 c1 c0 c0 c0 c0 c1 c0 c0 c0 c0 c1.

Definition tpMat4MakeOrtho (left right bottom top near far : F) : tpMat4 F :=
  let a := c2 / (right - left) in
  let b := c2 / (top - bottom) in
  let c := - c2 / (far - near) in
  let tx := - (right + left) / (right - left) in
  let ty := - (top + bottom) / (top - bottom) in
  let tz := - (far + near) / (far - near) in
  tpMat4Make a c0 c0 tx c0 b c0 ty c0 c0 c tz c0 c0 c0 c1.

Definition tpMat4MakeFrom2DTransform (t : tpTransform F) : tpMat4 F :=
  tpMat4Make (v0 (tm t)) (v2 (tm t)) c0 (vx (tt t))
             (v1 (tm t)) (v3 (tm t)) c0 (vy (tt t))
             c0 c0 c1 c0
             c0 c0 c0 c1.

Definition tpMat4Mult (a b : tpMat4 F) : tpMat4 F :=
  mkMat4
    (m0 b * m0 a + m1 b * m4 a + m2 b * m8 a + m3 b * m12 a)
    (m0 b * m1 a + m1 b * m5 a + m2 b * m9 a + m3 b * m13 a)
    (m0 b * m2 a + m1 b * m6 a + m2 b * m10 a + m3 b * m14 a)
    (m0 b * m3 a + m1 b * m7 a + m2 b * m11 a + m3 b * m15 a)
    (m4 b * m0 a + m5 b * m4 a + m6 b * m8 a + m7 b * m12 a)
    (m4 b * m1 a + m5 b * m5 a + m6 b * m9 a + m7 b * m13 a)
    (m4 b * m2 a + m5 b * m6 a + m6 b * m10 a + m7 b * m14 a)
    (m4 b * m3 a + m5 b * m7 a + m6 b * m11 a + m7 b * m15 a)
    (m8 b * m0 a + m9 b * m4 a + m10 b * m8 a + m11 b * m12 a)
    (m8 b * m1 a + m9 b * m5 a + m10 b * m9 a + m11 b * m13 a)
    (m8 b * m2 a + m9 b * m6 a + m10 b * m10 a + m11 b * m14 a)
    (m8 b * m3 a + m9 b * m7 a + m10 b * m11 a + m11 b * m15 a)
    (m12 b * m0 a + m13 b * m4 a + m14 b * m8 a + m15 b * m12 a)
    (m12 b * m1 a + m13 b * m5 a + m14 b * m9 a + m15 b * m13 a)
    (m12 b * m2 a + m13 b * m6 a + m14 b * m10 a + m15 b * m14 a)
    (m12 b * m3 a + m13 b * m7 a + m14 b * m11 a + m15 b * m15 a).

End Vectors.

Section Decomposition.
Context {F : Type} {A : Arith F} {L : Libm F} {L2 : Libm2 F}.
Local Open Scope tp_scope.

Definition tpMat2MakeSkew (x y : F) : tpMat2 F :=
  tpMat2Make c1 (ftan x) (ftan y) c1.

Definition tpTransformMakeSkew (x y : F) : tpTransform F :=
  mkTransform (tpMat2MakeSkew x y) (tpVec2Make c0 c0).

Definition tpTransformMakeRotation (angle : F) : tpTransform F :=
  mkTransform (tpMat2MakeRotation angle) (tpVec2Make c0 c0).

(** [tpMat2Decompose]: [*_outScale], [*_outSkew] and [*_outRotation] after
    the call, which returns 0. *)
Definition tpMat2Decompose (m : tpMat2 F) : tpVec2 F * tpVec2 F * F :=
  let a := v0 m in
  let b := v2 m in
  let c := v1 m in
  let d := v3 m in
  let det := a * d - b * c in
  if negb (a =? c0) || negb (b =? c0) then
    let r := fsqrt (a * a + b * b) in
    (mkVec2 r (det / r),
     mkVec2 (fatan2 (a * c + b * d) (r * r)) c0,
     facos (a / r) * (if b >? c0 then c1 else - c1))
  else if negb (c =? c0) || negb (d =? c0) then
    let s := fsqrt (c * c + d * d) in
    (mkVec2 (det / s) s,
     mkVec2 c0 (fatan2 (a * c + b * d) (s * s)),
     fasin (c / s) * (if d >? c0 then c1 else - c1))
  else
    (mkVec2 c0 c0, mkVec2 c0 c0, c0).

(** [tpTransformDecompose]: translation, scale, skew and rotation. *)
Definition tpTransformDecompose (t : tpTransform F)
  : tpVec2 F * tpVec2 F * tpVec2 F * F :=
  let '(scale, skew, rotation) := tpMat2Decompose (tm t) in
  (tt t, scale, skew, rotation).

End Decomposition.

(** The fields of [_tpGLContext] that hold the transform and the
    projection. *)
Record _tpGLTransformState (F : Type) : Type := mkTransformState {
  transform : tpTransform F;
  renderTransform : tpMat4 F;
  projection : tpMat4 F;
  transformProjection : tpMat4 F;
  transformScale : F;
  transformID : Z;
  projectionID : Z;
  bTransformProjDirty : tpBool
}.

Section ContextTransform.
Context {F : Type} {A : Arith F} {L : Libm F} {L2 : Libm2 F}.
Local Open Scope tp_scope.

Definition tpSetProjection (ctx : _tpGLTransformState F) (proj : tpMat4 F)
  : tpBool * _tpGLTransformState F :=
  (tpFalse,
   mkTransformState (transform ctx) (renderTransform ctx) proj (transformProjection ctx)
                    (transformScale ctx) (transformID ctx) (projectionID ctx + 1)%Z tpTrue).

Definition tpSetTransform (ctx : _tpGLTransformState F) (t : tpTransform F)
  : tpBool * _tpGLTransformState F :=
  if negb (tpTransformEquals t (transform ctx)) then
    let '(_, scale, _, _) := tpTransformDecompose t in
    (tpFalse,
     mkTransformState t (renderTransform ctx) (projection ctx) (transformProjection ctx)
                      (TARP_MAX (vx scale) (vy scale)) (transformID ctx + 1)%Z
                      (projectionID ctx) tpTrue)
  else (tpFalse, ctx).

Definition tpResetTransform (ctx : _tpGLTransformState F)
  : tpBool * _tpGLTransformState F :=
  (tpFalse,
   mkTransformState tpTransformMakeIdentity (renderTransform ctx) (projection ctx)
                    (transformProjection ctx) c1 (transformID ctx + 1)%Z
                    (projectionID ctx) tpTrue).

(** The block of [_tpGLCachePathImpl] that brings [transformProjection] up
    to date. *)
Definition update_transformProjection (ctx : _tpGLTransformState F)
  : _tpGLTransformState F :=
  if bTransformProjDirty ctx then
    let rt := tpMat4MakeFrom2DTransform (transform ctx) in
    mkTransformState (transform ctx) rt (projection ctx)
                     (tpMat4Mult (projection ctx) rt)
                     (transformScale ctx) (transformID ctx) (projectionID ctx) tpFalse
  else ctx.

End ContextTransform.

(** [tan] and [asin] of the real numbers; [atan2] is given. *)
Definition R_libm2 (atan2 : R -> R -> R) : Libm2 R := {|
  ftan := tan; fasin := asin; fatan2 := atan2
|}.

(** ** Parts of a curve, and points inside a rectangle *)

Section CurveParts.
Local Open Scope R_scope.

(** [d] is the part of [c] between the parameters [a] and [b]. *)
Definition subcurve (c d : _tpGLCurve R) (a b : R) : Prop :=
  forall s, cubic_point d s = cubic_point c (a + s * (b - a)).

(** The curves of [stack] are consecutive parts of [c] that reach from the
    parameter [a] to 1. *)
Fixpoint covers (c : _tpGLCurve R) (a : R) (stack : list (_tpGLCurve R)) : Prop :=
  match stack with
  | [] => a = 1
  | d :: below => exists b, a < b <= 1 /\ subcurve c d a b /\ covers c b below
  end.

(** The parameters [ts] ascend strictly from above [lo] and stay in the
    unit interval. *)
Fixpoint ascending (lo : R) (ts : list R) : Prop :=
  match ts with
  | [] => True
  | t :: ts' => lo < t <= 1 /\ ascending t ts'
  end.

Definition inside (b : _tpGLRect R) (v : tpVec2 R) : Prop :=
  vx (rmin b) <= vx v <= vx (rmax b) /\ vy (rmin b) <= vy v <= vy (rmax b).

(** [a] lies within [b]. *)
Definition within (a b : _tpGLRect R) : Prop :=
  vx (rmin b) <= vx (rmin a) /\ vy (rmin b) <= vy (rmin a)
  /\ vx (rmax a) <= vx (rmax b) /\ vy (rmax a) <= vy (rmax b).

End CurveParts.

Section RealBounds.
Local Open Scope R_scope.

(** The rectangle over the whole range of [float]. *)
Definition whole_range : _tpGLRect R :=
  mkRect (mkVec2 (- FLT_MAX) (- FLT_MAX)) (mkVec2 FLT_MAX FLT_MAX).

(** The coordinates of [b] are in the range of [float]. *)
Definition in_float_range (b : _tpGLRect R) : Prop :=
  - FLT_MAX <= vx (rmin b) /\ - FLT_MAX <= vy (rmin b)
  /\ vx (rmax b) <= FLT_MAX /\ vy (rmax b) <= FLT_MAX.

End RealBounds.

(** ** The rest of the builder API *)

Section PathBuilder2.
Context {F : Type} {A : Arith F} {L : Libm F}.
Local Open Scope tp_scope.

Definition TARP_KAPPA : F := fconst 55228474983 100000000000.

Definition tpPathContourCount (p : _tpGLPath F) : Z := Z.of_nat (length (contours p)).

Definition tpPathClear (p : _tpGLPath F) : tpBool * _tpGLPath F :=
  (tpFalse, mkPath [] (-1) tpTrue).

Definition tpPathAddSegment (p : _tpGLPath F) (h0x h0y px py h1x h1y : F)
  : tpBool * _tpGLPath F :=
  match _tpGLCurrentContour p with
  | Some c => _tpGLContourAddSegment p c h0x h0y px py h1x h1y
  | None =>
      let '(p', c) := _tpGLPathCreateNextContour p in
      _tpGLContourAddSegment p' c h0x h0y px py h1x h1y
  end.

(** [_tpGLPathAddSegmentsToCurrentContour] on the current contour [c] of
    [p]. *)
Definition _tpGLPathAddSegmentsToCurrentContour (p : _tpGLPath F) (c : _tpGLContour F)
    (segs : list (tpSegment F)) : tpBool * _tpGLPath F :=
  let segs' := segments c ++ segs in
  let c' := mkContour segs' tpTrue (bIsClosed c)
                      (Z.of_nat (length segs') - 1) (bounds c) in
  let p' := store_current p c' in
  (tpFalse, mkPath (contours p') (currentContourIndex p') tpTrue).

Definition tpPathAddSegments (p : _tpGLPath F) (segs : list (tpSegment F))
  : tpBool * _tpGLPath F :=
  match _tpGLCurrentContour p with
  | Some c => _tpGLPathAddSegmentsToCurrentContour p c segs
  | None =>
      let '(p', c) := _tpGLPathCreateNextContour p in
      _tpGLPathAddSegmentsToCurrentContour p' c segs
  end.

Definition tpPathAddContour (p : _tpGLPath F) (segs : list (tpSegment F))
    (bClosed : tpBool) (g_error : error_buffer) : tpBool * _tpGLPath F * error_buffer :=
  let '(p', c) := _tpGLPathCreateNextContour p in
  let '(ret, p'') := _tpGLPathAddSegmentsToCurrentContour p' c segs in
  if ret then (ret, p'', g_error)
  else if bClosed then tpPathClose p'' g_error
  else (tpFalse, p'', g_error).

(** The table [s_unitSegments] of [tpPathAddEllipse]. *)
Definition s_unitSegments : list (tpVec2 F) :=
  [ mkVec2 c1 c0; mkVec2 c0 (- TARP_KAPPA); mkVec2 c0 TARP_KAPPA;
    mkVec2 c0 c1; mkVec2 TARP_KAPPA c0; mkVec2 (- TARP_KAPPA) c0;
    mkVec2 (- c1) c0; mkVec2 c0 TARP_KAPPA; mkVec2 c0 (- TARP_KAPPA);
    mkVec2 c0 (- c1); mkVec2 (- TARP_KAPPA) c0; mkVec2 TARP_KAPPA c0 ].

(** The segment that one turn of the loop of [tpPathAddEllipse] makes from
    the three table entries [u], [uin] and [uout]. *)
Definition ellipse_segment (x y rw rh : F) (u uin uout : tpVec2 F) : tpSegment F :=
  let px := vx u * rw + x in
  let py := vy u * rh + y in
  tpSegmentMake (vx uin * rw + px) (vy uin * rh + py) px py
                (vx uout * rw + px) (vy uout * rh + py).

Fixpoint ellipse_segments (x y rw rh : F) (table : list (tpVec2 F))
  : list (tpSegment F) :=
  match table with
  | u :: uin :: uout :: table' =>
      ellipse_segment x y rw rh u uin uout :: ellipse_segments x y rw rh table'
  | _ => []
  end.

Definition tpPathAddEllipse (p : _tpGLPath F) (x y width height : F)
    (g_error : error_buffer) : tpBool * _tpGLPath F * error_buffer :=
  let '(p1, c) := _tpGLPathNextEmptyContour p in
  let rw := width * chalf in
  let rh := height * chalf in
  let segs := ellipse_segments x y rw rh s_unitSegments in
  let '(err, p2) := _tpGLContourAddSegments p1 c segs in
  if err then (err, p2, g_error)
  else
    let '(_, p3, e) := tpPathClose p2 g_error in
    (tpFalse, p3, e).

Definition tpPathAddCircle (p : _tpGLPath F) (x y r : F) (g_error : error_buffer)
  : tpBool * _tpGLPath F * error_buffer :=
  let dr := r * c2 in
  tpPathAddEllipse p x y dr dr g_error.

Definition tpPathAddRect (p : _tpGLPath F) (x y width height : F)
    (g_error : error_buffer) : tpBool * _tpGLPath F * error_buffer :=
  let '(p1, c) := _tpGLPathNextEmptyContour p in
  let tmpa := x + width in
  let tmpb := y + height in
  let segs :=
    [ tpSegmentMake x y x y x y;
      tpSegmentMake tmpa y tmpa y tmpa y;
      tpSegmentMake tmpa tmpb tmpa tmpb tmpa tmpb;
      tpSegmentMake x tmpb x tmpb x tmpb ] in
  let '(err, p2) := _tpGLContourAddSegments p1 c segs in
  if err then (err, p2, g_error)
  else
    let '(_, p3, e) := tpPathClose p2 g_error in
    (tpFalse, p3, e).

(** The paths that the commands of the builder API make from a new path.
    With [zero] set, [tpPathAddSegments] and [tpPathAddContour] are called
    with any number of segments, none included; without it, with one segment
    or more. *)
Inductive built (zero : bool) : _tpGLPath F -> Prop :=
| built_create : built zero tpPathCreate
| built_clear (p : _tpGLPath F) : built zero p -> built zero (snd (tpPathClear p))
| built_moveTo (p : _tpGLPath F) (x y : F) (e : error_buffer) :
    built zero p -> built zero (snd (fst (tpPathMoveTo p x y e)))
| built_lineTo (p : _tpGLPath F) (x y : F) (e : error_buffer) :
    built zero p -> built zero (snd (fst (tpPathLineTo p x y e)))
| built_cubicCurveTo (p : _tpGLPath F) (h0x h0y h1x h1y x y : F) (e : error_buffer) :
    built zero p -> built zero (snd (fst (tpPathCubicCurveTo p h0x h0y h1x h1y x y e)))
| built_quadraticCurveTo (p : _tpGLPath F) (hx hy x y : F) (e : error_buffer) :
    built zero p -> built zero (snd (fst (tpPathQuadraticCurveTo p hx hy x y e)))
| built_arcTo (p : _tpGLPath F) (rx ry rotx fl swfl x y : F) (e : error_buffer) :
    built zero p -> built zero (snd (fst (tpPathArcTo p rx ry rotx fl swfl x y e)))
| built_close (p : _tpGLPath F) (e : error_buffer) :
    built zero p -> built zero (snd (fst (tpPathClose p e)))
| built_addSegment (p : _tpGLPath F) (h0x h0y x y h1x h1y : F) :
    built zero p -> built zero (snd (tpPathAddSegment p h0x h0y x y h1x h1y))
| built_addSegments (p : _tpGLPath F) (segs : list (tpSegment F)) :
    built zero p -> (zero = false -> segs <> []) ->
    built zero (snd (tpPathAddSegments p segs))
| built_addContour (p : _tpGLPath F) (segs : list (tpSegment F)) (bClosed : tpBool)
    (e : error_buffer) :
    built zero p -> (zero = false -> segs <> []) ->
    built zero (snd (fst (tpPathAddContour p segs bClosed e)))
| built_addRect (p : _tpGLPath F) (x y w h : F) (e : error_buffer) :
    built zero p -> built zero (snd (fst (tpPathAddRect p x y w h e)))
| built_addEllipse (p : _tpGLPath F) (x y w h : F) (e : error_buffer) :
    built zero p -> built zero (snd (fst (tpPathAddEllipse p x y w h e)))
| built_addCircle (p : _tpGLPath F) (x y r : F) (e : error_buffer) :
    built zero p -> built zero (snd (fst (tpPathAddCircle p x y r e))).

(** The least number of segments of a contour of a path of [built zero]. *)
Definition least_segments (zero : bool) : nat := if zero then 0%nat else 1%nat.

(** A contour as the builder leaves it: [n] segments or more,
    [lastSegmentIndex] on the last one (-1 when there is none), and closed
    only with two segments or more. *)
Definition contour_ok (n : nat) (c : _tpGLContour F) : Prop :=
  (n <= length (segments c))%nat
  /\ lastSegmentIndex c = (Z.of_nat (length (segments c)) - 1)%Z
  /\ (bIsClosed c = tpTrue -> (2 <= length (segments c))%nat).

(** A path as the builder leaves it: the current contour, when there is one,
    is the last contour of the path and is open. *)
Definition path_ok (n : nat) (p : _tpGLPath F) : Prop :=
  Forall (contour_ok n) (contours p)
  /\ (currentContourIndex p = (-1)%Z
      \/ exists c, currentContourIndex p = (Z.of_nat (length (contours p)) - 1)%Z
                   /\ _tpGLCurrentContour p = Some c
                   /\ bIsClosed c = tpFalse).

(** The rectangle of [tpPathAddRect] as a contour, with the bounds [b]. *)
Definition rect_contour (x y w h : F) (b : option (_tpGLRect F)) : _tpGLContour F :=
  mkContour [ tpSegmentMake x y x y x y;
              tpSegmentMake (x + w) y (x + w) y (x + w) y;
              tpSegmentMake (x + w) (y + h) (x + w) (y + h) (x + w) (y + h);
              tpSegmentMake x (y + h) x (y + h) x (y + h) ]
            tpTrue tpTrue 3 b.

(** The path has no current contour, or the current contour holds a
    segment: [_tpGLPathNextEmptyContour] makes a new contour. *)
Definition starts_new_contour (p : _tpGLPath F) : Prop :=
  currentContourIndex p = (-1)%Z
  \/ exists c, _tpGLCurrentContour p = Some c /\ segments c <> [].

End PathBuilder2.

Section RealCircles.
Local Open Scope R_scope.

(** A segment of the circle around [(x, y)] with radius [r]: the position
    is on the circle, and the two handles lie on the tangent there, at the
    distance [TARP_KAPPA * r] on either side of the position. *)
Definition circle_segment (x y r : R) (s : tpSegment R) : Prop :=
  tpVec2Distance (position s) (mkVec2 x y) = r
  /\ tpVec2Distance (handleIn s) (position s) = TARP_KAPPA * r
  /\ tpVec2Distance (handleOut s) (position s) = TARP_KAPPA * r
  /\ tpVec2Dot (tpVec2Sub (handleOut s) (position s))
               (tpVec2Sub (position s) (mkVec2 x y)) = 0
  /\ tpVec2Add (handleIn s) (handleOut s) = tpVec2MultScalar (position s) 2.

End RealCircles.

(** ** The layout of a render cache *)

(** The ranges [off rc, off rc + cnt rc) of the render contours [rcs] follow
    one another from [a] to [b]. *)
Fixpoint chain (off cnt : _tpGLRenderCacheContour -> Z)
    (rcs : list _tpGLRenderCacheContour) (a b : Z) : Prop :=
  match rcs with
  | [] => a = b
  | rc :: rest => off rc = a /\ (0 <= cnt rc)%Z /\ chain off cnt rest (a + cnt rc)%Z b
  end.

(** The bounds stored in a contour lie within [b]. *)
Definition bounds_within (b : _tpGLRect R) (c : _tpGLContour R) : Prop :=
  exists bc, bounds c = Some bc /\ within bc b.

(** ** The contexts that clipping reaches *)

Section ClippingReach.
Context {F : Type} {A : Arith F}.
Variable _tpGLUpdateInternalPathCache :
  _tpGLPath F -> tpStyle F -> tpBool -> tpBool * option (_tpGLRenderCache F).

(** The contexts that calls of the clipping interface reach from a new
    context; a call that fails an assertion reaches none. *)
Inductive clip_reached : _tpGLContext F -> Prop :=
| reached_create : clip_reached tpContextCreate
| reached_begin_cache (ctx ctx' : _tpGLContext F) (cache : option (_tpGLRenderCache F))
    (r : tpBool) :
    clip_reached ctx ->
    tpBeginClippingFromRenderCache ctx cache = Some (r, ctx') ->
    clip_reached ctx'
| reached_begin_path (ctx ctx' : _tpGLContext F) (path : _tpGLPath F) (rule : tpFillRule)
    (r : tpBool) :
    clip_reached ctx ->
    tpBeginClippingWithFillRule _tpGLUpdateInternalPathCache ctx path rule = Some (r, ctx') ->
    clip_reached ctx'
| reached_end (ctx ctx' : _tpGLContext F) (r : tpBool) :
    clip_reached ctx ->
    tpEndClipping ctx = Some (r, ctx') ->
    clip_reached ctx'
| reached_reset (ctx : _tpGLContext F) :
    clip_reached ctx -> clip_reached (snd (tpResetClipping ctx)).

(** The plane that the next mask is written to when [depth] clips are
    open. *)
Definition plane_at_depth (depth : Z) : Z :=
  if Z.even depth then _kTpGLClippingStencilPlaneOne else _kTpGLClippingStencilPlaneTwo.

(** The assertion of [_tpGLDrawRenderCacheImpl] holds for [cache]. *)
Definition drawable (cache : _tpGLRenderCache F) : Prop :=
  cache_contours cache = [] \/ geometryCache cache <> [].

Definition clip_ok (ctx : _tpGLContext F) : Prop :=
  Z.of_nat (length (clippingStack ctx)) = TARP_GL_MAX_CLIPPING_STACK_DEPTH
  /\ (0 <= clippingStackDepth ctx <= TARP_GL_MAX_CLIPPING_STACK_DEPTH)%Z
  /\ currentClipStencilPlane ctx = plane_at_depth (clippingStackDepth ctx)
  /\ forall i, (0 <= i < clippingStackDepth ctx)%Z ->
       exists c, AtPtr (clippingStack ctx) i = Some (Some c) /\ drawable c.

End ClippingReach.

(** ** The ramp texture and the geometry of a gradient *)

Definition TARP_GL_RAMP_TEXTURE_SIZE : Z := 1024.

(** [_tpGLTextureVertex]. *)
Record _tpGLTextureVertex (F : Type) : Type := mkTextureVertex {
  vertex : tpVec2 F;
  tc : tpVec2 F
}.

Section GradientGeometry.
Context {F : Type} {A : Arith F} {L : Libm F}.
Local Open Scope tp_scope.

(** [(int)(stop->offset * (TARP_GL_RAMP_TEXTURE_SIZE - 1))], the pixel of
    the ramp at which a stop lies. *)
Definition ramp_index (stop : tpColorStop F) : Z :=
  ftoint (offset stop * fconst (TARP_GL_RAMP_TEXTURE_SIZE - 1) 1).

(** The loop over [j] of [_tpGLUpdateRampTexture], [count] pixels from pixel
    [j]. *)
Fixpoint ramp_span (count : nat) (j xStart diff : Z) (stop1 : tpColorStop F)
    (mixColor : tpColor F) (pixels : list (tpColor F)) : list (tpColor F) :=
  match count with
  | O => pixels
  | S count' =>
      let mixFact := fconst (j - xStart) 1 / fconst diff 1 in
      let pixels :=
        SetAt pixels j
          (mkColor (cr (color stop1) + cr mixColor * mixFact)
                   (cg (color stop1) + cg mixColor * mixFact)
                   (cb (color stop1) + cb mixColor * mixFact)
                   (ca (color stop1) + ca mixColor * mixFact)) in
      ramp_span count' (j + 1) xStart diff stop1 mixColor pixels
  end.

(** The loop over the stops from the second one on; [None] is a failed
    assertion. *)
Fixpoint ramp_stops_loop (rest : list (tpColorStop F)) (stop1 : tpColorStop F)
    (xStart : Z) (pixels : list (tpColor F)) : option (list (tpColor F)) :=
  match rest with
  | [] => Some pixels
  | stop2 :: rest' =>
      let xEnd := ramp_index stop2 in
      if (xStart >=? 0)%Z && (xStart <? TARP_GL_RAMP_TEXTURE_SIZE)%Z
         && (xEnd >=? 0)%Z && (xEnd <? TARP_GL_RAMP_TEXTURE_SIZE)%Z
         && (xStart <=? xEnd)%Z
      then
        let diff := (xEnd - xStart)%Z in
        let mixColor :=
          mkColor (cr (color stop2) - cr (color stop1))
                  (cg (color stop2) - cg (color stop1))
                  (cb (color stop2) - cb (color stop1))
                  (ca (color stop2) - ca (color stop1)) in
        ramp_stops_loop rest' stop2 xEnd
          (ramp_span (Z.to_nat diff) (xStart + 1) xStart diff stop1 mixColor pixels)
      else None
  end.

(** [_tpGLUpdateRampTexture]: the pixels that the function hands to
    [glTexSubImage1D]. *)
Definition _tpGLUpdateRampTexture (grad : _tpGLGradient F) : option (list (tpColor F)) :=
  let pixels := repeat (mkColor c0 c0 c0 c0) (Z.to_nat TARP_GL_RAMP_TEXTURE_SIZE) in
  match stops grad with
  | [] => Some pixels
  | stop1 :: rest => ramp_stops_loop rest stop1 0 (SetAt pixels 0 (color stop1))
  end.

(** [_tpGLGradientLinearGeometry]: the vertex array, [*_outVertexOffset] and
    [*_outVertexCount] after the call; [ctx_transform] is the transform of
    the context. *)
Definition _tpGLGradientLinearGeometry (ctx_transform : tpTransform F)
    (grad : _tpGLGradient F) (paintTransform : tpTransform F) (b : _tpGLRect F)
    (bIsScalingStroke : tpBool) (vertices : list (_tpGLTextureVertex F))
  : list (_tpGLTextureVertex F) * Z * Z :=
  let origin := tpTransformApply paintTransform (origin grad) in
  let dest := tpTransformApply paintTransform (destination grad) in
  let origin := if negb bIsScalingStroke then tpTransformApply ctx_transform origin
                else origin in
  let dest := if negb bIsScalingStroke then tpTransformApply ctx_transform dest
              else dest in
  let dir := tpVec2Sub dest origin in
  let len2 := tpVec2LengthSquared dir in
  let ndir := tpVec2MultScalar dir (c1 / len2) in
  let corner (v : tpVec2 F) :=
    let tmp := tpVec2Sub v origin in
    mkTextureVertex v (mkVec2 (tpVec2Dot tmp ndir) c0) in
  (vertices ++ [corner (rmin b);
                corner (tpVec2Make (vx (rmax b)) (vy (rmin b)));
                corner (rmax b);
                corner (tpVec2Make (vx (rmin b)) (vy (rmax b)))],
   Z.of_nat (length vertices), 4%Z).

(** [_tpLineUnitCircleIntersection]; [None] is the failed assertion. *)
Definition _tpLineUnitCircleIntersection (p0 p1 : tpVec2 F) : option F :=
  let p0_2 := tpVec2LengthSquared p0 in
  let p0p1 := tpVec2Dot p0 p1 in
  let p0_p1 := tpVec2Sub p0 p1 in
  let p0_p1_2 := tpVec2LengthSquared p0_p1 in
  let discriminant := (p0p1 - p0_2) * (p0p1 - p0_2) - p0_p1_2 * (p0_2 - c1) in
  if discriminant >=? c0
  then Some ((fsqrt discriminant - p0p1 + p0_2) / p0_p1_2)
  else None.

Definition _tpLerp (a b t : F) : F := a * (c1 - t) + b * t.

(** [_tpInvLerp]; [None] is the failed assertion. *)
Definition _tpInvLerp (a b x : F) : option F :=
  if negb (b - a =? c0) then Some ((x - a) / (b - a)) else None.

End GradientGeometry.

Section RealRamp.
Local Open Scope R_scope.

(** The color at [t] on the way from [a] to [b]. *)
Definition mix (a b : tpColor R) (t : R) : tpColor R :=
  mkColor (cr a + (cr b - cr a) * t) (cg a + (cg b - cg a) * t)
          (cb a + (cb b - cb a) * t) (ca a + (ca b - ca a) * t).

End RealRamp.

(** ** Positions in a dash pattern *)

Section RealDashPattern.
Local Open Scope R_scope.

(** The sum of the lengths [l]. *)
Definition dash_sum (l : list R) : R := fold_right Rplus 0 l.

(** The length of the pattern before dash [k]. *)
Definition dashes_before (dashes : list R) (k : nat) : R := dash_sum (firstn k dashes).

End RealDashPattern.

(** ** The reach of a stroke *)

Section RealStrokeReach.
Local Open Scope R_scope.

(** [v] lies within [w] of [p] in both coordinates. *)
Definition near (w : R) (p v : tpVec2 R) : Prop :=
  Rabs (vx v - vx p) <= w /\ Rabs (vy v - vy p) <= w.

(** [v] lies within [w] of a fill vertex of the contour. *)
Definition near_fill (w : R) (contour : _tpGLRenderCacheContour)
    (vertices : list (tpVec2 R)) (v : tpVec2 R) : Prop :=
  exists j p,
    (fillVertexOffset contour <= j < fillVertexOffset contour + fillVertexCount contour)%Z
    /\ AtPtr vertices j = Some p
    /\ near w p v.

(** [vs'] is [vs] followed by vertices that satisfy [Q]. *)
Definition all_appended (Q : tpVec2 R -> Prop) (vs vs' : list (tpVec2 R)) : Prop :=
  exists soup, vs' = vs ++ soup /\ Forall Q soup.

(** [r] has the length [h]. *)
Definition radius (h : R) (r : tpVec2 R) : Prop := vx r * vx r + vy r * vy r = h * h.

(** What the loop of the stroker knows of its locals before the edge
    [j, j + 1]: [h] is half the stroke width, [k] the reach of the stroke. *)
Definition stroke_inv (h k : R) (contour : _tpGLRenderCacheContour)
    (vertices : list (tpVec2 R)) (j : Z) (loc : @stroke_locals R) : Prop :=
  j <> fillVertexOffset contour ->
  (near_fill k contour vertices (sl_lePrev loc)
   /\ near_fill k contour vertices (sl_rePrev loc)
   /\ radius h (sl_perpPrev loc))
  /\ (rc_bIsClosed contour = true ->
      near_fill k contour vertices (sl_firstLe loc)
      /\ near_fill k contour vertices (sl_firstRe loc)
      /\ radius h (sl_firstPerp loc)).

End RealStrokeReach.

(** ** Two translations far from the origin (binary32) *)

(** 16777216 is two to the power 24: from there on binary32 numbers are
    two apart, and one half added to it is lost in the rounding. *)
Definition far_right : tpTransform b32 :=
  @tpTransformMakeTranslation b32 b32_arith (fconst 16777216 1) c0.
Definition far_left : tpTransform b32 :=
  @tpTransformMakeTranslation b32 b32_arith (fconst (-16777216) 1) c0.
Definition half_point : tpVec2 b32 := tpVec2Make chalf c0.

(** ** Stops outside the range 0-1 *)

(** [tpGradientAddColorStop] stores any offset: here the lowest stop, a red
    one, is at -1. *)
Definition low_stops : list (tpColorStop R) :=
  [ mkColorStop (mkColor 1 0 0 1) (-1);
    mkColorStop (mkColor 0 0 1 1) (1 / 2) ]%R.

(** ** The fill vertices of a contour, and a stroke with square caps *)

Section RealStrokeBounds.
Local Open Scope R_scope.

(** The range of the vertex array that holds the fill vertices of the
    contour. *)
Definition fill_vertices (contour : _tpGLRenderCacheContour)
    (vertices : list (tpVec2 R)) : list (tpVec2 R) :=
  firstn (Z.to_nat (fillVertexCount contour))
         (skipn (Z.to_nat (fillVertexOffset contour)) vertices).

(** The default style with a stroke of width 2 and square caps (bevel
    joins). *)
Definition square_style : tpStyle R :=
  mkStyle (fill tpStyleMake) (stroke tpStyleMake) 2 kTpStrokeCapSquare
          (strokeJoin tpStyleMake) (fillRule tpStyleMake) [] 0
          (miterLimit tpStyleMake) (scaleStroke tpStyleMake).

(** The line from (0,0) to (3,4), of length 5, and what the stroker makes
    of it with [square_style]: the cap at the start, the edge, the cap at the
    end. *)
Definition slant_fill : list (tpVec2 R) := [mkVec2 0 0; mkVec2 3 4].

Definition slant_soup : list (tpVec2 R) :=
  [ mkVec2 (-4 / 5) (3 / 5); mkVec2 (-7 / 5) (-1 / 5); mkVec2 (1 / 5) (-7 / 5);
    mkVec2 (1 / 5) (-7 / 5); mkVec2 (4 / 5) (-3 / 5); mkVec2 (-4 / 5) (3 / 5);
    mkVec2 (19 / 5) (17 / 5); mkVec2 (4 / 5) (-3 / 5); mkVec2 (-4 / 5) (3 / 5);
    mkVec2 (-4 / 5) (3 / 5); mkVec2 (11 / 5) (23 / 5); mkVec2 (19 / 5) (17 / 5);
    mkVec2 (11 / 5) (23 / 5); mkVec2 (14 / 5) (27 / 5); mkVec2 (22 / 5) (21 / 5);
    mkVec2 (22 / 5) (21 / 5); mkVec2 (19 / 5) (17 / 5); mkVec2 (11 / 5) (23 / 5) ].

End RealStrokeBounds.

(** ** The render cache of a path, built anew or from an old cache *)

Module Cache.
Section CachePath.
Context {F : Type} {A : Arith F} {L : Libm F}.
Local Open Scope tp_scope.

Variable _tpGLRenderCacheContourDashedStrokeGeometry :
  _tpGLRenderCacheContour -> tpStyle F -> _tpGLDashStartState F ->
  list (tpVec2 F) -> list tpBool ->
  option (_tpGLRenderCacheContour * list (tpVec2 F)).

(** The test [c->bDirty || !_oldCache->contours.count] of the loop of
    [_tpGLCachePathImpl]; [None] where it reads the old cache through a null
    pointer. *)
Definition flattens_anew (c : _tpGLContour F) (oldCache : option (_tpGLRenderCache F))
  : option bool :=
  if bDirty c then Some true
  else match oldCache with
       | Some old => Some (Z.of_nat (length (cache_contours old)) =? 0)%Z
       | None => None
       end.

(** The loop of [_tpGLCachePathImpl] over the contours of the path, from
    index [i] on: a contour that is dirty, or any contour when the old cache
    has no contours, is flattened; of the others the old fill vertices and
    joints are copied, and the bounds that the contour stores are merged.
    [rc] is the local of that name, which keeps what the turn before left in
    it; the buffers are [_ctx->tmpVertices], [_ctx->tmpJoints] and
    [_ctx->tmpRcContours].  [None] stands for a read outside the arrays of
    the old cache, or of bounds that no call has written. *)
Fixpoint flatten_contours (fuel : nat) (angleTolerance : F)
    (transform : option (tpTransform F)) (clearDirty : bool)
    (oldCache : option (_tpGLRenderCache F)) (i : Z)
    (cs done_cs : list (_tpGLContour F)) (rcs : list _tpGLRenderCacheContour)
    (vertices : list (tpVec2 F)) (joints : list tpBool) (b : _tpGLRect F)
    (rc : _tpGLRenderCacheContour) (uninit : tpVec2 F)
  : option (list (_tpGLContour F) * list _tpGLRenderCacheContour
            * list (tpVec2 F) * list tpBool * _tpGLRect F) :=
  match cs with
  | [] => Some (done_cs, rcs, vertices, joints, b)
  | c :: cs' =>
      match flattens_anew c oldCache with
      | None => None
      | Some true =>
          match _tpGLFlattenContour fuel c angleTolerance transform vertices joints b
                  rc uninit with
          | None => None
          | Some r =>
              let c' := fr_contour r in
              let c' :=
                if clearDirty
                then mkContour (segments c') tpFalse (bIsClosed c') (lastSegmentIndex c')
                               (bounds c')
                else c' in
              flatten_contours fuel angleTolerance transform clearDirty oldCache
                (i + 1)%Z cs' (done_cs ++ [c']) (rcs ++ [fr_outContour r])
                (fr_vertices r) (fr_joints r) (fr_mergeBounds r) (fr_outContour r) uninit
          end
      | Some false =>
          match oldCache with
          | None => None
          | Some old =>
              match AtPtr (cache_contours old) i with
              | None => None
              | Some rcc =>
                  let rc' :=
                    mkRcContour (Z.of_nat (length vertices)) (fillVertexCount rcc)
                                (strokeVertexOffset rc) (strokeVertexCount rc)
                                (bIsClosed c) in
                  match ArrayRange (geometryCache old) (fillVertexOffset rcc)
                          (fillVertexCount rcc),
                        ArrayRange (jointCache old) (fillVertexOffset rcc)
                          (fillVertexCount rcc),
                        bounds c with
                  | Some vs, Some js, Some cb =>
                      flatten_contours fuel angleTolerance transform clearDirty oldCache
                        (i + 1)%Z cs' (done_cs ++ [c]) (rcs ++ [rc'])
                        (vertices ++ vs) (joints ++ js) (_tpGLMergeBounds b cb) rc' uninit
                  | _, _, _ => None
                  end
              end
          end
      end
  end.

(** The block [if (_bGeometryDirty)] of [_tpGLCachePathImpl].  The buffers
    of the context are empty when it starts: [tpContextCreate] makes them so,
    and the swap at the end of the block leaves them the cleared arrays of
    the cache. *)
Definition geometry_block (fuel : nat) (ctx_transform : tpTransform F)
    (ctx_transformScale : F) (path : _tpGLPath F) (style : tpStyle F)
    (oldCache : option (_tpGLRenderCache F)) (cache : _tpGLRenderCache F)
    (bIsPathRenderCache bStrokeDirty : bool) (rc : _tpGLRenderCacheContour)
    (uninit : tpVec2 F)
  : option (_tpGLPath F * _tpGLRenderCache F) :=
  let bStyleHasStroke :=
    negb (paint_is_none (stroke style)) && (strokeWidth style >? c0) in
  let angleTolerance :=
    if negb (scaleStroke style) then fconst 15 100
    else fconst 15 100 / ctx_transformScale in
  let transform := if scaleStroke style then None else Some ctx_transform in
  match flatten_contours fuel angleTolerance transform
          (negb bStyleHasStroke && bIsPathRenderCache) oldCache 0
          (contours path) [] [] [] [] _tpGLInitBounds rc uninit with
  | None => None
  | Some (cs, rcs, vertices, joints, b) =>
      let path1 := mkPath cs (currentContourIndex path) (bPathGeometryDirty path) in
      let stroked :=
        if bStyleHasStroke then
          match _tpGLStroke _tpGLRenderCacheContourDashedStrokeGeometry fuel path1 rcs
                  bIsPathRenderCache (if bStrokeDirty then None else oldCache) style
                  vertices joints uninit with
          | None => None
          | Some (path2, rcs', vertices', n) =>
              Some (path2, rcs', vertices', Z.of_nat (length vertices), n)
          end
        else Some (path1, rcs, vertices, cache_strokeVertexOffset cache,
                   cache_strokeVertexCount cache) in
      match stroked with
      | None => None
      | Some (path2, rcs', vertices', soff, scount) =>
          Some (path2,
                _tpGLCacheBoundsGeometry
                  (mkRenderCache rcs' vertices' joints b (strokeBoundsCache cache)
                                 soff scount (boundsVertexOffset cache) style)
                  style)
      end
  end.

(** The block [if (_bStrokeDirty)] of [_tpGLCachePathImpl], which works on
    the cache in place: the old stroke and the bounds quad, or the bounds
    quad alone when [strokeVertexOffset] is 0, are removed from the geometry,
    and the stroke is made anew for every contour. *)
Definition stroke_block (fuel : nat) (path : _tpGLPath F) (style : tpStyle F)
    (cache : _tpGLRenderCache F) (bIsPathRenderCache : bool) (uninit : tpVec2 F)
  : option (_tpGLPath F * _tpGLRenderCache F) :=
  let bStyleHasStroke :=
    negb (paint_is_none (stroke style)) && (strokeWidth style >? c0) in
  if bStyleHasStroke then
    let count := Z.of_nat (length (geometryCache cache)) in
    let from :=
      if (cache_strokeVertexOffset cache =? 0)%Z then (count - 4)%Z
      else cache_strokeVertexOffset cache in
    match RemoveRange (geometryCache cache) from count with
    | None => None
    | Some geometry =>
        match _tpGLStroke _tpGLRenderCacheContourDashedStrokeGeometry fuel path
                (cache_contours cache) bIsPathRenderCache None style geometry
                (jointCache cache) uninit with
        | None => None
        | Some (path', rcs', vertices', n) =>
            Some (path',
                  _tpGLCacheBoundsGeometry
                    (mkRenderCache rcs' vertices' (jointCache cache) (boundsCache cache)
                                   (strokeBoundsCache cache)
                                   (Z.of_nat (length geometry)) n
                                   (boundsVertexOffset cache) style)
                    style)
        end
    end
  else
    Some (path,
          mkRenderCache (cache_contours cache) (geometryCache cache) (jointCache cache)
                        (boundsCache cache) (strokeBoundsCache cache)
                        (cache_strokeVertexOffset cache) 0 (boundsVertexOffset cache)
                        style).

(** [_tpGLCachePathImpl]: the path and [*_cache] after the call, which
    returns [tpFalse].  [oldCache] is [None] for a null pointer, and
    [bIsPathRenderCache] says whether [_cache] is the render cache of the
    path.  The copy of the clip caches of the context, the matrices and the
    gradient geometry are left out. *)
Definition _tpGLCachePathImpl (fuel : nat) (ctx_transform : tpTransform F)
    (ctx_transformScale : F) (path : _tpGLPath F) (style : tpStyle F)
    (oldCache : option (_tpGLRenderCache F)) (cache : _tpGLRenderCache F)
    (bIsPathRenderCache bGeometryDirty bStrokeDirty : bool)
    (rc : _tpGLRenderCacheContour) (uninit : tpVec2 F)
  : option (_tpGLPath F * _tpGLRenderCache F) :=
  match contours path with
  | [] =>
      Some (path, mkRenderCache [] [] [] (boundsCache cache) (strokeBoundsCache cache)
                    (cache_strokeVertexOffset cache) (cache_strokeVertexCount cache)
                    (boundsVertexOffset cache) (cache_style cache))
  | _ :: _ =>
      if bGeometryDirty then
        geometry_block fuel ctx_transform ctx_transformScale path style oldCache cache
          bIsPathRenderCache bStrokeDirty rc uninit
      else if bStrokeDirty then
        stroke_block fuel path style cache bIsPathRenderCache uninit
      else
        Some (path,
              mkRenderCache (cache_contours cache) (geometryCache cache)
                            (jointCache cache) (boundsCache cache)
                            (strokeBoundsCache cache) (cache_strokeVertexOffset cache)
                            (cache_strokeVertexCount cache) (boundsVertexOffset cache)
                            style)
  end.

End CachePath.
End Cache.

Section RealCache.
Local Open Scope R_scope.

(** The fill vertices that the cache holds for a contour of the path that is
    not dirty lie inside the bounds that the contour stores. *)
Definition clean_fill_in_bounds (cs : list (_tpGLContour R))
    (cache : _tpGLRenderCache R) : Prop :=
  forall i c rcc cb vs,
    AtPtr cs i = Some c -> bDirty c = tpFalse ->
    AtPtr (cache_contours cache) i = Some rcc ->
    bounds c = Some cb ->
    ArrayRange (geometryCache cache) (fillVertexOffset rcc) (fillVertexCount rcc)
    = Some vs ->
    Forall (inside cb) vs.

(** The fill range of the render contour [rcc], read from [vertices], lies
    inside the bounds that the contour [c] stores. *)
Definition fill_range_in_bounds (vertices : list (tpVec2 R)) (c : _tpGLContour R)
    (rcc : _tpGLRenderCacheContour) : Prop :=
  exists cb vs,
    bounds c = Some cb
    /\ ArrayRange vertices (fillVertexOffset rcc) (fillVertexCount rcc) = Some vs
    /\ Forall (inside cb) vs.

(** Every contour of the path has its render contour in the cache and stores
    bounds, and the fill vertices that the cache holds for it lie inside
    them. *)
Definition fill_in_bounds (cs : list (_tpGLContour R))
    (cache : _tpGLRenderCache R) : Prop :=
  Forall2 (fill_range_in_bounds (geometryCache cache)) cs (cache_contours cache).

End RealCache.

(** ** A line that was drawn once *)

Section RealDrawn.
Local Open Scope R_scope.

(** The render contour that the examples pass for the local [rc] of
    [_tpGLCachePathImpl], which the function does not initialise. *)
Definition blank_contour : _tpGLRenderCacheContour := mkRcContour 0 0 0 0 tpFalse.

(** [line_path] and its render cache after [_tpGLCachePathImpl] has built
    the cache with [wide_style]: the contour is not dirty any more and stores
    its bounds, and the cache holds two fill vertices, six stroke vertices
    and the bounds quad. *)
Definition drawn_path : _tpGLPath R :=
  mkPath [mkContour [tpSegmentMake 0 0 0 0 0 0; tpSegmentMake 10 0 10 0 10 0]
                    tpFalse tpFalse 1 (Some (aabb line_fill))]
         0 tpTrue.

Definition drawn_cache : _tpGLRenderCache R :=
  mkRenderCache [mkRcContour 0 2 2 6 tpFalse]
                (line_fill ++ line_soup ++ rect_corners (expand_rect (aabb line_fill) 2))
                line_joints (aabb line_fill) (Some (expand_rect (aabb line_fill) 2))
                2 6 8 wide_style.

(** The cache after a second call with [_bGeometryDirty] set and
    [_bStrokeDirty] not: fill and stroke are copied from the old cache, and
    the stroke range of the render contour is what [rc] held. *)
Definition copied_cache : _tpGLRenderCache R :=
  mkRenderCache [mkRcContour 0 2 0 0 tpFalse]
                (line_fill ++ line_soup ++ rect_corners (expand_rect (aabb line_fill) 2))
                line_joints (aabb line_fill) (Some (expand_rect (aabb line_fill) 2))
                2 6 8 wide_style.

End RealDrawn.

(** * Properties *)

Unset Implicit Arguments.

(** ** Transforms (real arithmetic) *)

Lemma vec2_eq (F : Type) (a b : tpVec2 F) :
  vx a = vx b -> vy a = vy b -> a = b.
Proof. destruct a, b; simpl; intros; subst; reflexivity. Qed.

(** C9.  Applying the combination of two affine transforms to a point is
    applying the second one and then the first one: over real arithmetic
    [tpTransformApply (tpTransformCombine A B) p] and
    [tpTransformApply A (tpTransformApply B p)] are the same point. *)
Theorem tpTransformApply_combine (a b : tpTransform R) (p : tpVec2 R) :
  tpTransformApply (tpTransformCombine a b) p
  = tpTransformApply a (tpTransformApply b p).
Proof.
  apply vec2_eq; simpl; ring.
Qed.

(** Over binary32 the two sides of C9 differ by more than [FLT_EPSILON]:
    the combination of the translations by 16777216 and by -16777216 is the
    identity and leaves the point (1/2, 0) where it is, while applying them
    one after the other rounds 1/2 - 16777216 to -16777216 and ends at the
    origin. *)
Lemma tpTransformApply_combine_rounds :
  tpTransformApply (tpTransformCombine far_right far_left) half_point
    = tpVec2Make chalf c0
  /\ tpTransformApply far_right (tpTransformApply far_left half_point)
    = tpVec2Make c0 c0
  /\ (FLT_EPSILON
      <? fabs (vx (tpTransformApply (tpTransformCombine far_right far_left)
                                    half_point)
               - vx (tpTransformApply far_right
                                      (tpTransformApply far_left half_point))))%tp
     = true.
Proof. vm_compute. repeat split. Qed.

(** ** The builder API *)

Section BuilderMisuse.
Context {F : Type} {A : Arith F} {L : Libm F}.

Lemma no_contour_started_create : no_contour_started (tpPathCreate (F := F)).
Proof. exact I. Qed.

(** The four curve commands refuse to run before a contour was started:
    they return [tpTrue], leave the path as it is and write the error
    buffer. *)
Lemma tpPathLineTo_misuse (p : _tpGLPath F) (x y : F) (e : error_buffer) :
  no_contour_started p ->
  tpPathLineTo p x y e = (tpTrue, p, must_start_contour "tpPathMoveTo").
Proof.
  unfold no_contour_started, tpPathLineTo.
  destruct (_tpGLCurrentContour p) as [c|]; [|reflexivity].
  intros ->. reflexivity.
Qed.

Lemma tpPathCubicCurveTo_misuse (p : _tpGLPath F) (a b c d x y : F) (e : error_buffer) :
  no_contour_started p ->
  tpPathCubicCurveTo p a b c d x y e = (tpTrue, p, must_start_contour "tpPathMoveTo").
Proof.
  unfold no_contour_started, tpPathCubicCurveTo.
  destruct (_tpGLCurrentContour p) as [k|]; [|reflexivity].
  intros ->. reflexivity.
Qed.

Lemma tpPathQuadraticCurveTo_misuse (p : _tpGLPath F) (a b x y : F) (e : error_buffer) :
  no_contour_started p ->
  tpPathQuadraticCurveTo p a b x y e = (tpTrue, p, must_start_contour "tpPathMoveTo").
Proof.
  unfold no_contour_started, tpPathQuadraticCurveTo.
  destruct (_tpGLCurrentContour p) as [k|]; [|reflexivity].
  intros ->. reflexivity.
Qed.

Lemma tpPathArcTo_misuse (p : _tpGLPath F) (rx ry rot fl sw x y : F) (e : error_buffer) :
  no_contour_started p ->
  tpPathArcTo p rx ry rot fl sw x y e = (tpTrue, p, must_start_contour "tpPathArcTo").
Proof.
  unfold no_contour_started, tpPathArcTo.
  destruct (_tpGLCurrentContour p) as [k|]; [|reflexivity].
  intros ->. reflexivity.
Qed.

Lemma tpPathClose_never_reports (p : _tpGLPath F) (e : error_buffer) :
  fst (fst (tpPathClose p e)) = tpFalse.
Proof.
  unfold tpPathClose.
  destruct (_tpGLCurrentContour p) as [c|]; [|reflexivity].
  destruct (1 <? Z.of_nat (length (segments c)))%Z; reflexivity.
Qed.

(** C3.  [tpPathClose] returns [tpFalse], the value for "no error", on every
    path; on a path without a current contour, as [tpPathCreate] returns it,
    it writes the error buffer, with a message that says it failed, and
    still returns [tpFalse].  [tpPathLineTo],
    [tpPathCubicCurveTo], [tpPathQuadraticCurveTo] and [tpPathArcTo] return
    [tpTrue] there (the four lemmas above). *)
Theorem tpPathClose_misuse (p : _tpGLPath F) (e : error_buffer) :
  fst (fst (tpPathClose p e)) = tpFalse
  /\ (_tpGLCurrentContour p = None ->
      tpPathClose p e
      = (tpFalse, p,
         "tpPathClose failed because the path has no contour or the current contour is empty."%string))
  /\ tpPathClose (tpPathCreate (F := F)) e
     = (tpFalse, tpPathCreate,
        "tpPathClose failed because the path has no contour or the current contour is empty."%string).
Proof.
  split; [apply tpPathClose_never_reports|].
  split; [|reflexivity].
  intros Hc. unfold tpPathClose. rewrite Hc. reflexivity.
Qed.

End BuilderMisuse.

(** What [tpPathQuadraticCurveTo] appends: the control point is written to
    the outgoing handle of the last segment and to the incoming handle of the
    new one, so the implied cubic has the control points [prev, h, h, p]. *)
Lemma tpPathQuadraticCurveTo_curve :
  exists c,
    _tpGLCurrentContour quad_demo = Some c
    /\ last_curve c
       = Some (mkCurve (mkVec2 0 0) (mkVec2 1 0) (mkVec2 1 0) (mkVec2 1 1))%R.
Proof. eexists; split; reflexivity. Qed.

(** C5.  The cubic that [tpPathQuadraticCurveTo] appends is not the
    quadratic Bezier curve through the control point: after
    [tpPathMoveTo (0,0)] and [tpPathQuadraticCurveTo] with control point
    [(1,0)] and end point [(1,1)], the appended cubic passes through
    [(7/8, 1/8)] at [t = 1/2], and the quadratic through [(3/4, 1/4)]. *)
Theorem tpPathQuadraticCurveTo_not_quadratic :
  exists c crv,
    _tpGLCurrentContour quad_demo = Some c
    /\ last_curve c = Some crv
    /\ cubic_point crv (1 / 2)%R = (mkVec2 (7 / 8) (1 / 8))%R
    /\ (quadratic_point (mkVec2 0 0) (mkVec2 1 0) (mkVec2 1 1) (1 / 2))%R
       = (mkVec2 (3 / 4) (1 / 4))%R
    /\ cubic_point crv (1 / 2)%R
       <> (quadratic_point (mkVec2 0 0) (mkVec2 1 0) (mkVec2 1 1) (1 / 2))%R.
Proof.
  do 2 eexists. split; [reflexivity|]. split; [reflexivity|].
  assert (Hc : cubic_point
                 (mkCurve (mkVec2 0 0) (mkVec2 1 0) (mkVec2 1 0) (mkVec2 1 1))%R (1 / 2)%R
               = (mkVec2 (7 / 8) (1 / 8))%R)
    by (apply vec2_eq; simpl; lra).
  assert (Hq : (quadratic_point (mkVec2 0 0) (mkVec2 1 0) (mkVec2 1 1) (1 / 2))%R
               = (mkVec2 (3 / 4) (1 / 4))%R)
    by (apply vec2_eq; simpl; lra).
  split; [exact Hc|]. split; [exact Hq|].
  change (cubic_point
            (mkCurve (mkVec2 0 0) (mkVec2 1 0) (mkVec2 1 0) (mkVec2 1 1))%R (1 / 2)%R
          <> (quadratic_point (mkVec2 0 0) (mkVec2 1 0) (mkVec2 1 1) (1 / 2))%R).
  rewrite Hc, Hq. intros H. apply (f_equal (@vx R)) in H. simpl in H. lra.
Qed.

(** ** Real arithmetic *)

Local Open Scope R_scope.

Lemma Rltb_true (a b : R) : Rltb a b = true <-> a < b.
Proof. unfold Rltb; destruct (Rlt_dec a b); split; intros; try easy. Qed.
Lemma Rltb_false (a b : R) : Rltb a b = false <-> b <= a.
Proof. unfold Rltb; destruct (Rlt_dec a b); split; intros; try easy; lra. Qed.
Lemma Rleb_true (a b : R) : Rleb a b = true <-> a <= b.
Proof. unfold Rleb; destruct (Rle_dec a b); split; intros; try easy. Qed.
Lemma Rleb_false (a b : R) : Rleb a b = false <-> b < a.
Proof. unfold Rleb; destruct (Rle_dec a b); split; intros; try easy; lra. Qed.
Lemma Reqb_true (a b : R) : Reqb a b = true <-> a = b.
Proof. unfold Reqb; destruct (Req_dec_T a b); split; intros; try easy. Qed.

Lemma TARP_MAX_R (a b : R) : TARP_MAX a b = Rmax a b.
Proof.
  unfold TARP_MAX, Rmax. simpl. unfold Rltb.
  destruct (Rlt_dec b a), (Rle_dec a b); try reflexivity; lra.
Qed.

Lemma TARP_MIN_R (a b : R) : TARP_MIN a b = Rmin a b.
Proof.
  unfold TARP_MIN, Rmin. simpl. unfold Rltb.
  destruct (Rlt_dec a b), (Rle_dec a b); try reflexivity; lra.
Qed.


(** ** The flattener: termination over the real numbers *)

Lemma Rabs_le_iff (x d : R) : Rabs x <= d <-> - d <= x <= d.
Proof.
  split; intros H.
  - unfold Rabs in H. destruct (Rcase_abs x); lra.
  - unfold Rabs. destruct (Rcase_abs x); lra.
Qed.

Lemma subdivide_small (c : _tpGLCurve R) (d : R) :
  small c d ->
  small (fst (_tpGLSubdivideCurve c chalf)) (d / 2)
  /\ small (snd (_tpGLSubdivideCurve c chalf)) (d / 2).
Proof.
  unfold small. rewrite !Rabs_le_iff. 
  destruct c as [[a1 a2] [b1 b2] [e1 e2] [f1 f2]]. simpl.
  intros H. repeat split; lra.
Qed.

Lemma FLT_EPSILON_pos : 0 < (FLT_EPSILON : R).
Proof. unfold FLT_EPSILON. simpl. lra. Qed.

Lemma IsClose_small (x y : R) :
  Rabs (x - y) <= FLT_EPSILON -> _tpGLIsClose x y FLT_EPSILON = true.
Proof.
  intros H. unfold _tpGLIsClose. rewrite !TARP_MAX_R.
  change (Rleb (Rabs (x - y)) (FLT_EPSILON * Rmax c1 (Rmax (Rabs x) (Rabs y))) = true).
  apply Rleb_true.
  assert (H1 : 1 <= Rmax c1 (Rmax (Rabs x) (Rabs y))).
  { eapply Rle_trans; [|apply Rmax_l]. unfold c1; simpl; lra. }
  pose proof FLT_EPSILON_pos. nra.
Qed.

Lemma small_flat (c : _tpGLCurve R) (tol : R) :
  small c FLT_EPSILON -> _tpGLIsCurveFlatEnough c tol = true.
Proof.
  intros (H1 & H2 & _ & _ & H5 & H6).
  unfold _tpGLIsCurveFlatEnough, _tpGLIsCurveLinear.
  rewrite !IsClose_small; try reflexivity; try assumption;
    rewrite Rabs_minus_sym; assumption.
Qed.

Lemma exists_level (c : _tpGLCurve R) : exists n : nat, small c (FLT_EPSILON * 2 ^ n).
Proof.
  set (M := Rabs (vx (h0 c) - vx (p0 c)) + Rabs (vy (h0 c) - vy (p0 c))
            + Rabs (vx (h1 c) - vx (h0 c)) + Rabs (vy (h1 c) - vy (h0 c))
            + Rabs (vx (p1 c) - vx (h1 c)) + Rabs (vy (p1 c) - vy (h1 c))).
  destruct (Pow_x_infinity 2 ltac:(rewrite Rabs_pos_eq; lra) (M / FLT_EPSILON)) as [N HN].
  exists N. specialize (HN N (le_n N)).
  rewrite Rabs_pos_eq in HN by (apply pow_le; lra).
  pose proof FLT_EPSILON_pos as He.
  assert (HM : M <= FLT_EPSILON * 2 ^ N).
  { apply Rge_le in HN. apply (Rmult_le_compat_l FLT_EPSILON) in HN; [|lra].
    unfold Rdiv in HN. rewrite <- Rmult_assoc, Rinv_r_simpl_m in HN; lra. }
  unfold small.
  pose proof (Rabs_pos (vx (h0 c) - vx (p0 c))).
  pose proof (Rabs_pos (vy (h0 c) - vy (p0 c))).
  pose proof (Rabs_pos (vx (h1 c) - vx (h0 c))).
  pose proof (Rabs_pos (vy (h1 c) - vy (h0 c))).
  pose proof (Rabs_pos (vx (p1 c) - vx (h1 c))).
  pose proof (Rabs_pos (vy (p1 c) - vy (h1 c))).
  unfold M in HM. repeat split; lra.
Qed.

Lemma flatten_step_stack {F : Type} {A : Arith F} (curve : _tpGLCurve F) (tol : F)
    (cl bl : bool) (st : flatten_state F) (current : _tpGLCurve F)
    (below : list (_tpGLCurve F)) :
  fs_stack st = current :: below ->
  fs_stack (flatten_step curve tol cl bl st)
  = if (Z.of_nat (length (current :: below)) - 1 <? TARP_MAX_CURVE_SUBDIVISIONS - 1)%Z
       && negb (_tpGLIsCurveFlatEnough current tol)
    then fst (_tpGLSubdivideCurve current chalf)
         :: snd (_tpGLSubdivideCurve current chalf) :: below
    else below.
Proof.
  intros E. unfold flatten_step. rewrite E.
  destruct ((Z.of_nat (length (current :: below)) - 1 <? TARP_MAX_CURVE_SUBDIVISIONS - 1)%Z
            && negb (_tpGLIsCurveFlatEnough current tol)); [reflexivity|].
  destruct (fs_bFirstCurve st); reflexivity.
Qed.

Lemma pow2_ge_1 (n : nat) : (1 <= 2 ^ n)%nat.
Proof. induction n; simpl; lia. Qed.

Lemma cost_cons (n : nat) (ns : list nat) :
  cost (n :: ns) = (2 ^ (n + 1) - 1 + cost ns)%nat.
Proof. reflexivity. Qed.

Lemma level_cost_pos (n : nat) : (1 <= 2 ^ (n + 1) - 1)%nat.
Proof. rewrite Nat.add_1_r, Nat.pow_succ_r'. pose proof (pow2_ge_1 n). lia. Qed.

Lemma level_cost_succ (m : nat) :
  (2 ^ (S m + 1) - 1 = 1 + (2 ^ (m + 1) - 1) + (2 ^ (m + 1) - 1))%nat.
Proof.
  rewrite !Nat.add_1_r, (Nat.pow_succ_r' 2 (S m)).
  pose proof (pow2_ge_1 (S m)). lia.
Qed.

Lemma flatten_loop_terminates (fuel : nat) :
  forall (curve : _tpGLCurve R) (tol : R) (cl bl : bool) (st : flatten_state R)
         (ns : list nat),
    Forall2 fits ns (fs_stack st) ->
    (cost ns <= fuel)%nat ->
    exists st', flatten_loop fuel curve tol cl bl st = Some st'.
Proof.
  induction fuel as [|fuel IH]; intros curve tol cl bl st ns Hfit Hcost.
  - destruct (fs_stack st) as [|current below] eqn:E.
    + exists st. simpl. rewrite E. reflexivity.
    + inversion Hfit as [|n c ns' cs Hn Hrest]; subst.
      rewrite cost_cons in Hcost. pose proof (level_cost_pos n). lia.
  - destruct (fs_stack st) as [|current below] eqn:E.
    + exists st. simpl. rewrite E. reflexivity.
    + simpl. rewrite E.
      inversion Hfit as [|n c ns' cs Hn Hrest]; subst.
      pose proof (flatten_step_stack curve tol cl bl st _ _ E) as Hs.
      destruct ((Z.of_nat (length (current :: below)) - 1 <? TARP_MAX_CURVE_SUBDIVISIONS - 1)%Z
                && negb (_tpGLIsCurveFlatEnough current tol)) eqn:Hc.
      * apply andb_true_iff in Hc. destruct Hc as [_ Hflat].
        apply negb_true_iff in Hflat.
        destruct n as [|m].
        { unfold fits in Hn. simpl in Hn. rewrite Rmult_1_r in Hn.
          rewrite (small_flat _ tol Hn) in Hflat. discriminate. }
        destruct (subdivide_small _ _ Hn) as [H1 H2].
        apply (IH curve tol cl bl _ (m :: m :: ns')).
        { rewrite Hs. constructor; [|constructor; [|assumption]]; unfold fits.
          - replace (FLT_EPSILON * 2 ^ m) with (FLT_EPSILON * 2 ^ S m / 2)
              by (simpl; field). exact H1.
          - replace (FLT_EPSILON * 2 ^ m) with (FLT_EPSILON * 2 ^ S m / 2)
              by (simpl; field). exact H2. }
        { rewrite cost_cons, level_cost_succ in Hcost. rewrite !cost_cons. lia. }
      * apply (IH curve tol cl bl _ ns').
        { rewrite Hs. assumption. }
        { rewrite cost_cons in Hcost. pose proof (level_cost_pos n). lia. }
Qed.

Lemma _tpGLFlattenCurve_terminates (curve : _tpGLCurve R) (tol : R)
    (cl bf bl : bool) (vs : list (tpVec2 R)) (js : list tpBool)
    (b : _tpGLRect R) (vc : Z) :
  exists fuel st', _tpGLFlattenCurve fuel curve tol cl bf bl vs js b vc = Some st'.
Proof.
  destruct (exists_level curve) as [n Hn].
  exists (cost [n]).
  apply (flatten_loop_terminates _ curve tol cl bl _ [n]); [|lia].
  constructor; [exact Hn | constructor].
Qed.

Section FlattenGeneric.
Context {F : Type} {A : Arith F}.

Lemma flatten_loop_done (fuel : nat) (curve : _tpGLCurve F) (tol : F) (cl bl : bool)
    (st : flatten_state F) :
  fs_stack st = [] -> flatten_loop fuel curve tol cl bl st = Some st.
Proof. intros E. destruct fuel; simpl; rewrite E; reflexivity. Qed.

Lemma flatten_loop_unfold (fuel : nat) (curve : _tpGLCurve F) (tol : F) (cl bl : bool)
    (st : flatten_state F) :
  fs_stack st <> [] ->
  flatten_loop (S fuel) curve tol cl bl st
  = flatten_loop fuel curve tol cl bl (flatten_step curve tol cl bl st).
Proof. intros E. simpl. destruct (fs_stack st); [contradiction|reflexivity]. Qed.

(** More fuel does not change a result. *)
Lemma flatten_loop_mono (fuel : nat) :
  forall (fuel' : nat) (curve : _tpGLCurve F) (tol : F) (cl bl : bool)
         (st st' : flatten_state F),
    (fuel <= fuel')%nat ->
    flatten_loop fuel curve tol cl bl st = Some st' ->
    flatten_loop fuel' curve tol cl bl st = Some st'.
Proof.
  induction fuel as [|fuel IH]; intros fuel' curve tol cl bl st st' Hle H.
  - simpl in H. destruct (fs_stack st) eqn:E; [|discriminate].
    rewrite flatten_loop_done; assumption.
  - destruct fuel' as [|fuel']; [lia|].
    simpl in H |- *. destruct (fs_stack st); [assumption|].
    apply IH; [lia|assumption].
Qed.

Lemma flatten_loop_det (fuel fuel' : nat) (curve : _tpGLCurve F) (tol : F)
    (cl bl : bool) (st a b : flatten_state F) :
  flatten_loop fuel curve tol cl bl st = Some a ->
  flatten_loop fuel' curve tol cl bl st = Some b -> a = b.
Proof.
  intros Ha Hb.
  apply (flatten_loop_mono _ (Nat.max fuel fuel')) in Ha; [|lia].
  apply (flatten_loop_mono _ (Nat.max fuel fuel')) in Hb; [|lia].
  congruence.
Qed.

End FlattenGeneric.

(** ** The flattener: what a curve appends *)

Lemma last_app_ne (T : Type) (l1 l2 : list T) (d : T) :
  l2 <> [] -> last (l1 ++ l2) d = last l2 d.
Proof.
  intros H. induction l1 as [|a l1 IH]; [reflexivity|].
  simpl. destruct (l1 ++ l2) eqn:E; [|exact IH].
  apply app_eq_nil in E. destruct E; contradiction.
Qed.

Section FlattenOutput.
Context {F : Type} {A : Arith F}.

Lemma flatten_step_depth (curve : _tpGLCurve F) (tol : F) (cl bl : bool)
    (st : flatten_state F) :
  (Z.of_nat (length (fs_stack st)) <= TARP_MAX_CURVE_SUBDIVISIONS)%Z ->
  (Z.of_nat (length (fs_stack (flatten_step curve tol cl bl st)))
   <= TARP_MAX_CURVE_SUBDIVISIONS)%Z.
Proof.
  intros H. destruct (fs_stack st) as [|current below] eqn:E.
  - unfold flatten_step. rewrite E. rewrite E. exact H.
  - rewrite (flatten_step_stack curve tol cl bl st _ _ E).
    destruct (Z.of_nat (length (current :: below)) - 1 <? TARP_MAX_CURVE_SUBDIVISIONS - 1)%Z
      eqn:Hd; simpl andb.
    + destruct (negb (_tpGLIsCurveFlatEnough current tol)).
      * apply Z.ltb_lt in Hd. simpl length in *. lia.
      * simpl length in *. lia.
    + simpl length in *. lia.
Qed.

Lemma flatten_iter_depth (n : nat) (curve : _tpGLCurve F) (tol : F) (cl bl : bool)
    (st : flatten_state F) :
  (Z.of_nat (length (fs_stack st)) <= TARP_MAX_CURVE_SUBDIVISIONS)%Z ->
  (Z.of_nat (length (fs_stack (Nat.iter n (flatten_step curve tol cl bl) st)))
   <= TARP_MAX_CURVE_SUBDIVISIONS)%Z.
Proof.
  intros H. induction n as [|n IH]; [exact H|].
  simpl. apply flatten_step_depth. exact IH.
Qed.

Lemma appended_refl (st : flatten_state F) : appended st st [] [].
Proof. constructor; simpl; rewrite ?app_nil_r; try reflexivity; lia. Qed.

Lemma appended_trans (a b c : flatten_state F) nv1 nj1 nv2 nj2 :
  appended a b nv1 nj1 -> appended b c nv2 nj2 ->
  appended a c (nv1 ++ nv2) (nj1 ++ nj2).
Proof.
  intros [V1 J1 L1 C1] [V2 J2 L2 C2]. constructor.
  - rewrite V2, V1, app_assoc. reflexivity.
  - rewrite J2, J1, app_assoc. reflexivity.
  - rewrite !length_app. lia.
  - rewrite C2, C1, length_app. lia.
Qed.

Lemma flatten_loop_output (fuel : nat) (curve : _tpGLCurve F) (tol : F) (cl bl : bool) :
  forall (st st' : flatten_state F) (d : _tpGLCurve F) (dv : tpVec2 F),
    flatten_loop fuel curve tol cl bl st = Some st' ->
    exists nv nj,
      appended st st' nv nj
      /\ (fs_stack st <> [] ->
          nv <> [] /\ last nv dv = p1 (last (fs_stack st) d))
      /\ (fs_stack st <> [] -> fs_bFirstCurve st = true ->
          exists v nv' nj',
            nv = p0 (hd d (fs_stack st)) :: v :: nv' /\ nj = tpFalse :: nj').
Proof.
  induction fuel as [|fuel IH]; intros st st' d dv H.
  - simpl in H. destruct (fs_stack st) eqn:E; [|discriminate].
    injection H as <-. exists [], []. split; [apply appended_refl|].
    split; intros; contradiction.
  - destruct (fs_stack st) as [|current below] eqn:E.
    + rewrite flatten_loop_done in H by assumption. injection H as <-.
      exists [], []. split; [apply appended_refl|]. split; intros; contradiction.
    + rewrite flatten_loop_unfold in H by (rewrite E; discriminate).
      pose proof (flatten_step_stack curve tol cl bl st _ _ E) as Hs.
      unfold flatten_step in H, Hs. rewrite E in H, Hs.
      destruct ((Z.of_nat (length (current :: below)) - 1 <? TARP_MAX_CURVE_SUBDIVISIONS - 1)%Z
                && negb (_tpGLIsCurveFlatEnough current tol)) eqn:Hc.
      * (* subdivision *)
        destruct (IH _ _ d dv H) as (nv & nj & Happ & Hlast & Hfirst).
        exists nv, nj. simpl in *. split.
        { destruct Happ; constructor; assumption. }
        split.
        { intros _. destruct (Hlast ltac:(discriminate)) as [Hne Hl].
          split; [assumption|]. rewrite Hl. destruct below; reflexivity. }
        { intros _ Hf. exact (Hfirst ltac:(discriminate) Hf). }
      * destruct (fs_bFirstCurve st) eqn:Hf.
        -- (* first emission *)
           destruct (IH _ _ d dv H) as (nv & nj & Happ & Hlast & _). simpl in *.
           exists ([p0 current; p1 current] ++ nv),
             ([tpFalse; tpVec2Equals (p1 current) (p1 curve) && negb bl] ++ nj).
           split.
           { destruct Happ as [V J Ln C]. simpl in *. constructor; simpl.
             - rewrite V, <- app_assoc. reflexivity.
             - rewrite J, <- app_assoc. reflexivity.
             - lia.
             - rewrite C. lia. }
           split.
           { intros _. split; [discriminate|].
             destruct below as [|b below'].
             - rewrite flatten_loop_done in H by reflexivity. injection H as <-.
               destruct Happ as [V _ _ _]. simpl in V.
               apply (f_equal (@length _)) in V. rewrite !length_app in V.
               destruct nv; [reflexivity|simpl in V; lia].
             - destruct (Hlast ltac:(discriminate)) as [Hne Hl].
               rewrite last_app_ne by assumption. exact Hl. }
           { intros _ _.
             exists (p1 current), nv,
               ((tpVec2Equals (p1 current) (p1 curve) && negb bl) :: nj).
             split; reflexivity. }
        -- (* later emissions *)
           destruct (IH _ _ d dv H) as (nv & nj & Happ & Hlast & _). simpl in *.
           exists ([p1 current] ++ nv),
             ([if cl then tpVec2Equals (p1 current) (p1 curve)
               else tpVec2Equals (p1 current) (p1 curve) && negb bl] ++ nj).
           split.
           { destruct Happ as [V J Ln C]. simpl in *. constructor; simpl.
             - rewrite V, <- app_assoc. reflexivity.
             - rewrite J, <- app_assoc. reflexivity.
             - lia.
             - rewrite C. lia. }
           split.
           { intros _. split; [discriminate|].
             destruct below as [|b below'].
             - rewrite flatten_loop_done in H by reflexivity. injection H as <-.
               destruct Happ as [V _ _ _]. simpl in V.
               apply (f_equal (@length _)) in V. rewrite !length_app in V.
               destruct nv; [reflexivity|simpl in V; lia].
             - destruct (Hlast ltac:(discriminate)) as [Hne Hl].
               rewrite last_app_ne by assumption. exact Hl. }
           { intros _ Hcontra. discriminate. }
Qed.
End FlattenOutput.

(** ** The flattener: what a contour appends *)

Lemma last_cons (T : Type) (l : list T) :
  forall a d : T, last (a :: l) d = last l a.
Proof.
  induction l as [|b l IH]; intros a d; [reflexivity|].
  change (last (a :: b :: l) d) with (last (b :: l) d).
  rewrite (IH b d), (IH b a). reflexivity.
Qed.

Section ContourOutput.
Context {F : Type} {A : Arith F}.

Lemma contour_curve_p1 (tr : option (tpTransform F)) (vl : bool) (ltp : tpVec2 F)
    (last cur : tpSegment F) :
  p1 (contour_curve tr vl ltp last cur) = apply_opt tr (position cur).
Proof. destruct tr; reflexivity. Qed.

Lemma contour_curve_p0 (tr : option (tpTransform F)) (ltp : tpVec2 F)
    (last cur : tpSegment F) :
  p0 (contour_curve tr false ltp last cur) = apply_opt tr (position last).
Proof. destruct tr; reflexivity. Qed.

Lemma _tpGLFlattenCurve_output (fuel : nat) (curve : _tpGLCurve F) (tol : F)
    (cl bf bl : bool) (vs : list (tpVec2 F)) (js : list tpBool)
    (b : _tpGLRect F) (vc : Z) (st' : flatten_state F) (dv : tpVec2 F) :
  _tpGLFlattenCurve fuel curve tol cl bf bl vs js b vc = Some st' ->
  exists nv nj,
    appended (mkFlatten [curve] bf vs js b vc) st' nv nj
    /\ nv <> [] /\ last nv dv = p1 curve
    /\ (bf = true -> exists v nv' nj', nv = p0 curve :: v :: nv' /\ nj = tpFalse :: nj').
Proof.
  intros H. unfold _tpGLFlattenCurve in H.
  destruct (flatten_loop_output _ _ _ _ _ _ _ curve dv H) as (nv & nj & Happ & Hl & Hf).
  exists nv, nj. simpl in *.
  destruct (Hl ltac:(discriminate)) as [Hne Hlast].
  split; [assumption|]. split; [assumption|]. split; [assumption|].
  intros ->. apply Hf; [discriminate|reflexivity].
Qed.

(** What the loop over the segments of a contour appends. *)
Lemma flatten_segments_output (rest : list (tpSegment F)) :
  forall (fuel : nat) (tol : F) (cl : bool) (tr : option (tpTransform F)) (j : Z)
         (lst : tpSegment F) (ltp : tpVec2 F) (st : flatten_state F)
         (lst' : tpSegment F) (ltp' : tpVec2 F) (st' : flatten_state F) (dv : tpVec2 F),
    flatten_segments fuel tol cl tr j lst rest ltp st = Some (lst', ltp', st') ->
    exists nv nj,
      appended st st' nv nj
      /\ lst' = last rest lst
      /\ (rest = [] -> nv = [])
      /\ (rest <> [] -> nv <> [] /\ last nv dv = apply_opt tr (position lst'))
      /\ (rest <> [] -> j = 1%Z ->
          exists v nv' nj',
            nv = apply_opt tr (position lst) :: v :: nv' /\ nj = tpFalse :: nj').
Proof.
  induction rest as [|cur rest IH];
    intros fuel tol cl tr j lst ltp st lst' ltp' st' dv H.
  - simpl in H. injection H as <- <- <-. exists [], [].
    split; [apply appended_refl|]. repeat split; try reflexivity; intros; contradiction.
  - simpl in H.
    set (curve := contour_curve tr (1 <? j)%Z ltp lst cur) in *.
    destruct (_tpGLFlattenCurve fuel curve tol cl (j =? 1)%Z tpFalse (fs_vertices st)
                (fs_joints st) (fs_bounds st) (fs_vertexCount st)) as [st1|] eqn:E1;
      [|discriminate].
    destruct (_tpGLFlattenCurve_output _ _ _ _ _ _ _ _ _ _ _ dv E1)
      as (nv1 & nj1 & Happ1 & Hne1 & Hlast1 & Hfirst1).
    destruct (IH _ _ _ _ _ _ _ _ _ _ _ dv H) as (nv2 & nj2 & Happ2 & Hl & Hnil & Hlast2 & _).
    exists (nv1 ++ nv2), (nj1 ++ nj2).
    split.
    { apply (appended_trans _ st1 _ _ _ _ _); [|assumption].
      destruct Happ1 as [V J Ln C]. simpl in *. constructor; assumption. }
    split.
    { rewrite Hl. symmetry. apply last_cons. }
    split; [discriminate|].
    split.
    { intros _. split.
      - intros E. apply app_eq_nil in E. destruct E; contradiction.
      - destruct rest as [|r rest'].
        + rewrite (Hnil eq_refl), app_nil_r, Hlast1. unfold curve.
          rewrite contour_curve_p1, Hl. reflexivity.
        + destruct (Hlast2 ltac:(discriminate)) as [Hne2 Hlast2'].
          rewrite last_app_ne by assumption. exact Hlast2'. }
    { intros _ ->. destruct (Hfirst1 eq_refl) as (v & nv' & nj' & -> & ->).
      exists v, (nv' ++ nv2), (nj' ++ nj2). unfold curve. simpl.
      rewrite contour_curve_p0. split; reflexivity. }
Qed.

End ContourOutput.

(** ** The flattener: contours over the real numbers *)

Section FuelGeneric.
Context {F : Type} {A : Arith F}.

Lemma flatten_segments_mono (rest : list (tpSegment F)) :
  forall (fuel fuel' : nat) (tol : F) (cl : bool) (tr : option (tpTransform F)) (j : Z)
         (lst : tpSegment F) (ltp : tpVec2 F) (st : flatten_state F)
         (x : tpSegment F * tpVec2 F * flatten_state F),
    (fuel <= fuel')%nat ->
    flatten_segments fuel tol cl tr j lst rest ltp st = Some x ->
    flatten_segments fuel' tol cl tr j lst rest ltp st = Some x.
Proof.
  induction rest as [|cur rest IH]; intros fuel fuel' tol cl tr j lst ltp st x Hle H.
  - exact H.
  - simpl in H |- *.
    destruct (_tpGLFlattenCurve fuel _ tol cl (j =? 1)%Z tpFalse (fs_vertices st)
                (fs_joints st) (fs_bounds st) (fs_vertexCount st)) as [st1|] eqn:E1;
      [|discriminate].
    unfold _tpGLFlattenCurve in E1 |- *.
    rewrite (flatten_loop_mono _ _ _ _ _ _ _ _ Hle E1).
    apply (IH _ _ _ _ _ _ _ _ _ _ Hle H).
Qed.

End FuelGeneric.

Lemma flatten_segments_terminates (rest : list (tpSegment R)) :
  forall (tol : R) (cl : bool) (tr : option (tpTransform R)) (j : Z)
         (lst : tpSegment R) (ltp : tpVec2 R) (st : flatten_state R),
  exists fuel x, flatten_segments fuel tol cl tr j lst rest ltp st = Some x.
Proof.
  induction rest as [|cur rest IH]; intros tol cl tr j lst ltp st.
  - exists O, (lst, ltp, st). reflexivity.
  - set (curve := contour_curve tr (1 <? j)%Z ltp lst cur).
    destruct (_tpGLFlattenCurve_terminates curve tol cl (j =? 1)%Z tpFalse (fs_vertices st)
                (fs_joints st) (fs_bounds st) (fs_vertexCount st)) as (f1 & st1 & E1).
    destruct (IH tol cl tr (j + 1)%Z cur
                 (match tr with Some _ => p1 curve | None => ltp end) st1)
      as (f2 & x & E2).
    exists (Nat.max f1 f2), x. simpl. fold curve.
    unfold _tpGLFlattenCurve in E1 |- *.
    rewrite (flatten_loop_mono _ (Nat.max f1 f2) _ _ _ _ _ _ (Nat.le_max_l _ _) E1).
    apply (flatten_segments_mono _ _ _ _ _ _ _ _ _ _ _ (Nat.le_max_r _ _) E2).
Qed.

Lemma tpVec2Distance_self (p : tpVec2 R) : tpVec2Distance p p = 0.
Proof.
  unfold tpVec2Distance, tpVec2Length, tpVec2Sub. simpl.
  replace ((vx p - vx p) * (vx p - vx p) + (vy p - vy p) * (vy p - vy p)) with 0 by ring.
  apply sqrt_0.
Qed.

(** The test of [_tpGLFlattenContour] for the closing curve. *)
Lemma closing_test_single (p : tpVec2 R) :
  Rltb FLT_EPSILON (tpVec2Distance p p) = false.
Proof.
  rewrite tpVec2Distance_self. apply Rltb_false. pose proof FLT_EPSILON_pos. lra.
Qed.

(** C2 (as amended).  Over real arithmetic [_tpGLFlattenContour] returns for
    every contour, and what it appends has these properties: one joint flag
    per vertex; the recorded offset and count are those of the appended
    vertices; the joint flag of the first appended vertex is false; at least
    two vertices are appended exactly when the contour has at least two
    segments; when the closing curve is flattened (the contour is closed and
    its first and last positions are more than [FLT_EPSILON] apart) the last
    appended vertex is the first one; otherwise the last appended vertex is
    the position of the last segment. *)
Theorem _tpGLFlattenContour_invariants (contour : _tpGLContour R) (tol : R)
    (tr : option (tpTransform R)) (outV : list (tpVec2 R)) (outJ : list tpBool)
    (mb : _tpGLRect R) (oc : _tpGLRenderCacheContour) (uninit : tpVec2 R) :
  exists fuel r nv nj,
    _tpGLFlattenContour fuel contour tol tr outV outJ mb oc uninit = Some r
    /\ fr_vertices r = outV ++ nv
    /\ fr_joints r = outJ ++ nj
    /\ length nv = length nj
    /\ fillVertexOffset (fr_outContour r) = Z.of_nat (length outV)
    /\ fillVertexCount (fr_outContour r) = Z.of_nat (length nv)
    /\ (forall j0 nj', nj = j0 :: nj' -> j0 = tpFalse)
    /\ ((2 <= length nv)%nat <-> (2 <= length (segments contour))%nat)
    /\ (closing_curve_needed contour = true ->
        forall d, last nv d = hd d nv)
    /\ (closing_curve_needed contour = false ->
        forall first s rest, segments contour = first :: s :: rest ->
        forall d, last nv d = apply_opt tr (position (last rest s))).
Proof.
  unfold _tpGLFlattenContour, closing_curve_needed.
  destruct (segments contour) as [|first rest] eqn:Es.
  - exists O. eexists. exists [], []. split; [reflexivity|]. simpl.
    rewrite !app_nil_r, andb_false_r.
    repeat split; try reflexivity; try discriminate; simpl; lia.
  - set (st0 := mkFlatten [] false outV outJ _tpGLInitBounds 0).
    destruct (flatten_segments_terminates rest tol (bIsClosed contour) tr 1 first uninit st0)
      as (f1 & [[lst ltp] st] & E1).
    destruct (flatten_segments_output _ _ _ _ _ _ _ _ _ _ _ _ uninit E1)
      as (nv1 & nj1 & Happ1 & Hl & Hnil & Hlast1 & Hfirst1).
    change (fltb FLT_EPSILON (tpVec2Distance (position first) (position (last rest first))))
      with (Rltb FLT_EPSILON (tpVec2Distance (position first) (position (last rest first)))).
    destruct (bIsClosed contour
              && Rltb FLT_EPSILON (tpVec2Distance (position first) (position (last rest first))))
      eqn:Hc.
    + (* a closing curve is flattened *)
      assert (Hrest : rest <> []).
      { intros ->. change (last [] first) with first in Hc.
        rewrite closing_test_single, andb_false_r in Hc.
        discriminate. }
      set (curve := contour_curve tr true ltp lst first).
      destruct (_tpGLFlattenCurve_terminates curve tol (bIsClosed contour) tpFalse tpTrue
                  (fs_vertices st) (fs_joints st) (fs_bounds st) (fs_vertexCount st))
        as (f2 & st2 & E2).
      destruct (_tpGLFlattenCurve_output _ _ _ _ _ _ _ _ _ _ _ uninit E2)
        as (nv2 & nj2 & Happ2 & Hne2 & _ & _).
      exists (Nat.max f1 f2). eexists. exists (nv1 ++ nv2), (nj1 ++ nj2).
      rewrite (flatten_segments_mono _ _ _ _ _ _ _ _ _ _ _ (Nat.le_max_l _ _) E1).
      change (fltb FLT_EPSILON (tpVec2Distance (position first) (position lst)))
        with (Rltb FLT_EPSILON (tpVec2Distance (position first) (position lst))).
      rewrite Hl, Hc. rewrite <- Hl.
      unfold _tpGLFlattenCurve in E2 |- *. subst curve.
      rewrite (flatten_loop_mono _ _ _ _ _ _ _ _ (Nat.le_max_r f1 f2) E2).
      split; [reflexivity|]. simpl.
      assert (Happ : appended st0 st2 (nv1 ++ nv2) (nj1 ++ nj2)).
      { apply (appended_trans _ st _ _ _ _ _ Happ1).
        destruct Happ2 as [V J Ln C]. constructor; assumption. }
      destruct Happ as [V J Ln C]. subst st0. simpl in V, J, C.
      destruct (Hfirst1 Hrest eq_refl) as (v & nv' & nj' & Hv & Hj).
      split; [exact V|]. split; [exact J|]. split; [exact Ln|].
      split; [reflexivity|]. split; [exact C|].
      split.
      { intros j0 nj0 H. rewrite Hj in H. simpl in H. injection H as <- _. reflexivity. }
      split.
      { rewrite Hv. destruct rest; [contradiction|]. simpl. split; intros; lia. }
      split; [|discriminate].
      intros _ d.
      rewrite last_app_ne by assumption.
      destruct (_tpGLFlattenCurve_output _ _ _ _ _ _ _ _ _ _ _ d E2)
        as (nv2' & nj2' & Happ2' & _ & Hlast2 & _).
      assert (nv2' = nv2).
      { destruct Happ2 as [V2 _ _ _], Happ2' as [V2' _ _ _]. simpl in V2, V2'.
        rewrite V2 in V2'. apply app_inv_head in V2'. symmetry. exact V2'. }
      subst nv2'. rewrite Hlast2. rewrite contour_curve_p1.
      rewrite Hv. reflexivity.
    + (* no closing curve *)
      exists f1. eexists. exists nv1, nj1.
      rewrite E1.
      change (fltb FLT_EPSILON (tpVec2Distance (position first) (position lst)))
        with (Rltb FLT_EPSILON (tpVec2Distance (position first) (position lst))).
      rewrite Hl, Hc.
      split; [reflexivity|]. simpl.
      destruct Happ1 as [V J Ln C]. subst st0. simpl in V, J, C.
      split; [exact V|]. split; [exact J|]. split; [exact Ln|].
      split; [reflexivity|]. split; [exact C|].
      destruct rest as [|s1 rest'].
      * rewrite (Hnil eq_refl) in *. destruct nj1; [|discriminate].
        split; [intros; discriminate|]. split; [simpl; split; intros; lia|].
        split; [discriminate|]. intros _ f0 s0 r0 Hs. discriminate.
      * destruct (Hfirst1 ltac:(discriminate) eq_refl) as (v & nv' & nj' & Hv & Hj).
        split.
        { intros j0 nj0 H. rewrite Hj in H. injection H as <- _. reflexivity. }
        split; [rewrite Hv; simpl; split; intros; lia|].
        split; [discriminate|].
        intros _ f0 s0 r0 Hs d. injection Hs as <- <- <-.
        destruct (flatten_segments_output _ _ _ _ _ _ _ _ _ _ _ _ d E1)
          as (nv1' & nj1' & [V' _ _ _] & _ & _ & Hlast' & _).
        simpl in V'. rewrite V in V'. apply app_inv_head in V'. subst nv1'.
        destruct (Hlast' ltac:(discriminate)) as [_ Hd]. rewrite Hd, Hl.
        rewrite last_cons. reflexivity.
Qed.

Section FlatCurves.
Context {F : Type} {A : Arith F}.

(** A curve that is flat enough is emitted at once. *)
Lemma _tpGLFlattenCurve_flat (fuel : nat) (curve : _tpGLCurve F) (tol : F)
    (cl bf bl : bool) (vs : list (tpVec2 F)) (js : list tpBool)
    (b : _tpGLRect F) (vc : Z) :
  _tpGLIsCurveFlatEnough curve tol = true ->
  _tpGLFlattenCurve (S fuel) curve tol cl bf bl vs js b vc
  = Some (flatten_step curve tol cl bl (mkFlatten [curve] bf vs js b vc))
  /\ fs_stack (flatten_step curve tol cl bl (mkFlatten [curve] bf vs js b vc)) = []
  /\ fs_vertices (flatten_step curve tol cl bl (mkFlatten [curve] bf vs js b vc))
     = vs ++ (if bf then [p0 curve; p1 curve] else [p1 curve]).
Proof.
  intros H.
  assert (Hs : fs_stack (flatten_step curve tol cl bl (mkFlatten [curve] bf vs js b vc)) = []).
  { rewrite (flatten_step_stack curve tol cl bl (mkFlatten [curve] bf vs js b vc)
               curve [] eq_refl), H, andb_false_r.
    reflexivity. }
  split; [|split; [exact Hs|]].
  - unfold _tpGLFlattenCurve. rewrite flatten_loop_unfold by discriminate.
    apply flatten_loop_done. exact Hs.
  - unfold flatten_step. simpl fs_stack. cbv iota. rewrite H, andb_false_r.
    simpl. destruct bf; reflexivity.
Qed.
End FlatCurves.

Lemma line_flat (c : _tpGLCurve R) (tol : R) :
  h0 c = p0 c -> h1 c = p1 c -> _tpGLIsCurveFlatEnough c tol = true.
Proof.
  intros E0 E1. unfold _tpGLIsCurveFlatEnough, _tpGLIsCurveLinear.
  rewrite E0, E1.
  rewrite !IsClose_small; try reflexivity;
    rewrite Rminus_diag, Rabs_R0; pose proof FLT_EPSILON_pos; lra.
Qed.

Lemma near_closed_path_contours :
  contours near_closed_path = [near_closed_contour].
Proof. reflexivity. Qed.

(** A contour whose segments are corners is flattened to its positions. *)
Lemma flatten_segments_corners (rest : list (tpSegment R)) :
  forall (fuel : nat) (tol : R) (cl : bool) (j : Z) (lst : tpSegment R)
         (ltp : tpVec2 R) (st : flatten_state R),
    Forall is_corner (lst :: rest) ->
    (1 <= j)%Z ->
    exists st',
      flatten_segments (S fuel) tol cl None j lst rest ltp st
      = Some (last rest lst, ltp, st')
      /\ fs_vertices st'
         = fs_vertices st
           ++ match rest with
              | [] => []
              | _ :: _ => if (j =? 1)%Z then position lst :: map (@position R) rest
                          else map (@position R) rest
              end.
Proof.
  induction rest as [|cur rest IH]; intros fuel tol cl j lst ltp st Hc Hj.
  - exists st. split; [reflexivity|]. rewrite app_nil_r. reflexivity.
  - inversion Hc as [|? ? [_ Hout] Hc']; subst.
    pose proof Hc' as Hc''. inversion Hc'' as [|? ? [Hin _] _]; subst.
    set (curve := contour_curve None (1 <? j)%Z ltp lst cur).
    assert (Hflat : _tpGLIsCurveFlatEnough curve tol = true).
    { apply line_flat; unfold curve; simpl; assumption. }
    destruct (_tpGLFlattenCurve_flat fuel curve tol cl (j =? 1)%Z tpFalse (fs_vertices st)
                (fs_joints st) (fs_bounds st) (fs_vertexCount st) Hflat)
      as (E1 & _ & V1).
    destruct (IH fuel tol cl (j + 1)%Z cur ltp
                (flatten_step curve tol cl tpFalse
                   (mkFlatten [curve] (j =? 1)%Z (fs_vertices st) (fs_joints st)
                              (fs_bounds st) (fs_vertexCount st)))
                Hc' ltac:(lia)) as (st' & E2 & V2).
    exists st'. split.
    + cbn [flatten_segments]. fold curve. rewrite E1. rewrite E2.
      rewrite last_cons. reflexivity.
    + rewrite V2, V1, <- app_assoc. f_equal.
      replace (j + 1 =? 1)%Z with false by (symmetry; apply Z.eqb_neq; lia).
      unfold curve. simpl.
      destruct (j =? 1)%Z, rest; reflexivity.
Qed.

Lemma near_closed_distance :
  tpVec2Distance (mkVec2 0 0) (mkVec2 0 (1 / 16777216)) = 1 / 16777216.
Proof.
  unfold tpVec2Distance, tpVec2Length, tpVec2Sub. simpl.
  replace ((0 - 0) * (0 - 0) + (0 - 1 / 16777216) * (0 - 1 / 16777216))
    with ((1 / 16777216) * (1 / 16777216)) by field.
  apply sqrt_square. lra.
Qed.

(** C2, the claim as it is written, fails: the closed contour
    [near_closed_contour] is flattened to three vertices, the last of which
    is not the first. *)
Lemma flatten_closed_last_differs :
  exists r,
    _tpGLFlattenContour 1 near_closed_contour (15 / 100) None [] []
      _tpGLInitBounds (mkRcContour 0 0 0 0 false) (mkVec2 0 0) = Some r
    /\ bIsClosed near_closed_contour = true
    /\ fr_vertices r = [mkVec2 0 0; mkVec2 1 0; mkVec2 0 (1 / 16777216)]
    /\ last (fr_vertices r) (mkVec2 0 0) <> hd (mkVec2 0 0) (fr_vertices r).
Proof.
  unfold _tpGLFlattenContour, near_closed_contour.
  cbn [segments bIsClosed].
  match goal with
  | |- context [flatten_segments 1 ?tol ?cl None 1 ?lst ?rest ?ltp ?st] =>
      destruct (flatten_segments_corners rest 0 tol cl 1 lst ltp st) as (st' & E & V)
  end.
  { repeat constructor. }
  { lia. }
  rewrite E.
  unfold tpSegmentMake, tpVec2Make. cbn [last position andb].
  change (fltb FLT_EPSILON (tpVec2Distance (mkVec2 0 0) (mkVec2 0 (1 / 16777216))))
    with (Rltb FLT_EPSILON (tpVec2Distance (mkVec2 0 0) (mkVec2 0 (1 / 16777216)))).
  rewrite near_closed_distance.
  replace (Rltb FLT_EPSILON (1 / 16777216)) with false
    by (symmetry; apply Rltb_false; unfold FLT_EPSILON; simpl; lra).
  eexists. split; [reflexivity|]. split; [reflexivity|].
  cbn [fr_vertices]. rewrite V. cbn.
  split; [reflexivity|].
  intros H. apply (f_equal (@vy R)) in H. simpl in H. lra.
Qed.

(** ** The flattener: termination and the subdivision stack *)

Lemma subdivide_bisects (c : _tpGLCurve R) (s : R) :
  cubic_point (fst (_tpGLSubdivideCurve c chalf)) s = cubic_point c (s / 2)
  /\ cubic_point (snd (_tpGLSubdivideCurve c chalf)) s = cubic_point c ((1 + s) / 2).
Proof.
  destruct c as [[a1 a2] [b1 b2] [e1 e2] [f1 f2]].
  split; apply vec2_eq; simpl; field.
Qed.

Section FlattenSteps.
Context {F : Type} {A : Arith F}.

Lemma flatten_step_subdivides (curve : _tpGLCurve F) (tol : F) (cl bl : bool)
    (st : flatten_state F) (current : _tpGLCurve F) (below : list (_tpGLCurve F)) :
  fs_stack st = current :: below ->
  (Z.of_nat (length (fs_stack st)) < TARP_MAX_CURVE_SUBDIVISIONS)%Z ->
  _tpGLIsCurveFlatEnough current tol = false ->
  fs_stack (flatten_step curve tol cl bl st)
  = fst (_tpGLSubdivideCurve current chalf)
    :: snd (_tpGLSubdivideCurve current chalf) :: below
  /\ fs_vertices (flatten_step curve tol cl bl st) = fs_vertices st.
Proof.
  intros E Hd Hf. unfold flatten_step. rewrite E in *.
  replace (Z.of_nat (length (current :: below)) - 1 <? TARP_MAX_CURVE_SUBDIVISIONS - 1)%Z
    with true by (symmetry; apply Z.ltb_lt; lia).
  rewrite Hf. split; reflexivity.
Qed.

Lemma flatten_step_emits (curve : _tpGLCurve F) (tol : F) (cl bl : bool)
    (st : flatten_state F) (current : _tpGLCurve F) (below : list (_tpGLCurve F)) :
  fs_stack st = current :: below ->
  (Z.of_nat (length (fs_stack st)) = TARP_MAX_CURVE_SUBDIVISIONS
   \/ _tpGLIsCurveFlatEnough current tol = true) ->
  fs_stack (flatten_step curve tol cl bl st) = below
  /\ fs_vertices (flatten_step curve tol cl bl st)
     = fs_vertices st
       ++ (if fs_bFirstCurve st then [p0 current; p1 current] else [p1 current]).
Proof.
  intros E H. unfold flatten_step. rewrite E in *.
  assert (Hc : (Z.of_nat (length (current :: below)) - 1 <? TARP_MAX_CURVE_SUBDIVISIONS - 1)%Z
               && negb (_tpGLIsCurveFlatEnough current tol) = false).
  { destruct H as [H|H].
    - replace (Z.of_nat (length (current :: below)) - 1 <? TARP_MAX_CURVE_SUBDIVISIONS - 1)%Z
        with false by (symmetry; apply Z.ltb_ge; lia).
      reflexivity.
    - rewrite H. apply andb_false_r. }
  rewrite Hc. destruct (fs_bFirstCurve st); split; reflexivity.
Qed.
End FlattenSteps.

(** C8 (as amended).  Over real arithmetic, for every cubic curve and every
    tolerance: the loop of [_tpGLFlattenCurve] ends, with an empty stack; the
    stack never holds more than 16 curves; a curve that is not flat enough is
    replaced, while fewer than 16 curves are stacked, by its two halves, the
    left one on top and the right one in the frame of the curve; the halves
    are those of the bisection at [t = 1/2] (the left half traces the curve
    on [0, 1/2], the right half on [1/2, 1]); and with 16 curves stacked the
    current curve is emitted as it is. *)
Theorem _tpGLFlattenCurve_terminates_bounded (curve : _tpGLCurve R) (tol : R)
    (cl bf bl : bool) (vs : list (tpVec2 R)) (js : list tpBool)
    (b : _tpGLRect R) (vc : Z) :
  (exists fuel st',
      _tpGLFlattenCurve fuel curve tol cl bf bl vs js b vc = Some st'
      /\ fs_stack st' = [])
  /\ (forall n,
        (Z.of_nat (length (fs_stack (Nat.iter n (flatten_step curve tol cl bl)
                                       (mkFlatten [curve] bf vs js b vc))))
         <= 16)%Z)
  /\ (forall st current below,
        fs_stack st = current :: below ->
        (Z.of_nat (length (fs_stack st)) < 16)%Z ->
        _tpGLIsCurveFlatEnough current tol = false ->
        fs_stack (flatten_step curve tol cl bl st)
        = fst (_tpGLSubdivideCurve current chalf)
          :: snd (_tpGLSubdivideCurve current chalf) :: below
        /\ fs_vertices (flatten_step curve tol cl bl st) = fs_vertices st)
  /\ (forall c s,
        cubic_point (fst (_tpGLSubdivideCurve c chalf)) s = cubic_point c (s / 2)
        /\ cubic_point (snd (_tpGLSubdivideCurve c chalf)) s
           = cubic_point c ((1 + s) / 2))
  /\ (forall st current below,
        fs_stack st = current :: below ->
        Z.of_nat (length (fs_stack st)) = 16%Z ->
        fs_stack (flatten_step curve tol cl bl st) = below
        /\ fs_vertices (flatten_step curve tol cl bl st)
           = fs_vertices st
             ++ (if fs_bFirstCurve st then [p0 current; p1 current] else [p1 current])).
Proof.
  split.
  { destruct (_tpGLFlattenCurve_terminates curve tol cl bf bl vs js b vc)
      as (fuel & st' & E).
    exists fuel, st'. split; [exact E|].
    unfold _tpGLFlattenCurve in E. revert E.
    generalize (mkFlatten [curve] bf vs js b vc).
    induction fuel as [|fuel IH]; intros st E; simpl in E.
    - destruct (fs_stack st) eqn:Es; [|discriminate]. injection E as <-. exact Es.
    - destruct (fs_stack st) eqn:Es; [injection E as <-; exact Es|].
      apply (IH _ E). }
  split.
  { intros n. apply flatten_iter_depth. simpl. unfold TARP_MAX_CURVE_SUBDIVISIONS. lia. }
  split.
  { intros st current below E Hd Hf.
    apply (flatten_step_subdivides curve tol cl bl st current below E Hd Hf). }
  split; [apply subdivide_bisects|].
  intros st current below E Hd.
  apply (flatten_step_emits curve tol cl bl st current below E). left. exact Hd.
Qed.

(** In binary32 a curve of NaN coordinates is never flat enough, and the
    loop of [_tpGLFlattenCurve] never empties its stack. *)
Lemma nan_curve_not_flat (tol : b32) : _tpGLIsCurveFlatEnough nan_curve tol = false.
Proof. reflexivity. Qed.

Lemma nan_curve_subdivide :
  _tpGLSubdivideCurve nan_curve chalf = (nan_curve, nan_curve).
Proof. vm_compute. reflexivity. Qed.

Lemma nan_loop_diverges (fuel : nat) :
  forall (curve : _tpGLCurve b32) (tol : b32) (cl bl : bool) (st : flatten_state b32) (k : nat),
    fs_stack st = repeat nan_curve (S k) ->
    flatten_loop fuel curve tol cl bl st = None.
Proof.
  induction fuel as [|fuel IH]; intros curve tol cl bl st k E.
  - simpl. rewrite E. reflexivity.
  - rewrite flatten_loop_unfold by (rewrite E; discriminate).
    pose proof (flatten_step_stack curve tol cl bl st nan_curve (repeat nan_curve k) E) as Hs.
    rewrite nan_curve_not_flat, nan_curve_subdivide in Hs. simpl fst in Hs. simpl snd in Hs.
    destruct (Z.of_nat (length (nan_curve :: repeat nan_curve k)) - 1
              <? TARP_MAX_CURVE_SUBDIVISIONS - 1)%Z eqn:Hd; simpl in Hs.
    + apply (IH curve tol cl bl _ (S k)). exact Hs.
    + apply Z.ltb_ge in Hd. cbn [length] in Hd. rewrite repeat_length in Hd.
      unfold TARP_MAX_CURVE_SUBDIVISIONS in Hd.
      destruct k as [|k']; [simpl in Hd; lia|].
      apply (IH curve tol cl bl _ k'). exact Hs.
Qed.

(** C8, the claim as it is written, fails on the arithmetic of the C code:
    on the binary32 curve whose coordinates are NaN the loop of
    [_tpGLFlattenCurve] does not end, whatever the tolerance. *)
Lemma _tpGLFlattenCurve_nan_diverges :
  exists (curve : _tpGLCurve b32),
    forall (tol : b32) (fuel : nat) (cl bf bl : bool) (vs : list (tpVec2 b32))
           (js : list tpBool) (b : _tpGLRect b32) (vc : Z),
      _tpGLFlattenCurve fuel curve tol cl bf bl vs js b vc = None.
Proof.
  exists nan_curve. intros. unfold _tpGLFlattenCurve.
  apply (nan_loop_diverges fuel nan_curve tol cl bl _ 0%nat). reflexivity.
Qed.

(** ** The stroker and the bounds of a cache *)

Lemma line_length : sqrt ((10 - 0) * (10 - 0) + (0 - 0) * (0 - 0)) = 10.
Proof.
  replace ((10 - 0) * (10 - 0) + (0 - 0) * (0 - 0)) with (10 * 10) by ring.
  apply sqrt_square. lra.
Qed.

Ltac step_R :=
  cbn -[Rplus Rminus Rmult Rdiv Ropp sqrt IZR Pos.to_nat];
  change (Pos.to_nat 1) with 1%nat;
  cbn -[Rplus Rminus Rmult Rdiv Ropp sqrt IZR Pos.to_nat].

Lemma line_stroke (fuel : nat) :
  _tpGLRenderCacheContourContinousStrokeGeometry fuel line_contour wide_style
    line_fill line_joints (mkVec2 0 0)
  = Some (mkRcContour 0 2 2 6 tpFalse, line_fill ++ line_soup).
Proof.
  unfold _tpGLRenderCacheContourContinousStrokeGeometry, line_contour, wide_style,
    line_fill, line_joints.
  step_R.
  unfold tpVec2NormalizeSelf, tpVec2Length, tpVec2Sub, tpVec2Add, _tpGLPushQuad,
    tpVec2MultScalar.
  step_R.
  rewrite line_length.
  unfold line_soup. apply f_equal. apply f_equal. cbn [app].
  repeat match goal with
         | |- _ :: _ = _ :: _ =>
             apply f_equal2;
             [first [reflexivity | apply vec2_eq; cbn [vx vy]; field]|]
         end.
  reflexivity.
Qed.

Ltac Rmin_max :=
  rewrite ?TARP_MIN_R, ?TARP_MAX_R;
  repeat match goal with
         | |- context [Rmin ?a ?b] =>
             first [rewrite (Rmin_left a b) by (unfold FLT_MAX; simpl; lra)
                   |rewrite (Rmin_right a b) by (unfold FLT_MAX; simpl; lra)]
         | |- context [Rmax ?a ?b] =>
             first [rewrite (Rmax_left a b) by (unfold FLT_MAX; simpl; lra)
                   |rewrite (Rmax_right a b) by (unfold FLT_MAX; simpl; lra)]
         end.

Lemma line_fill_bounds : aabb line_fill = mkRect (mkVec2 0 0) (mkVec2 10 0).
Proof.
  unfold aabb, line_fill, _tpGLInitBounds. cbn [fold_left].
  unfold _tpGLEvaluatePointForBounds. cbn [vx vy rmin rmax].
  Rmin_max. reflexivity.
Qed.

Lemma line_soup_bounds : aabb line_soup = mkRect (mkVec2 0 (-1)) (mkVec2 10 1).
Proof.
  unfold aabb, line_soup, _tpGLInitBounds. cbn [fold_left].
  unfold _tpGLEvaluatePointForBounds. cbn [vx vy rmin rmax].
  Rmin_max. reflexivity.
Qed.

Lemma line_path_contours :
  contours line_path
  = [mkContour [tpSegmentMake 0 0 0 0 0 0; tpSegmentMake 10 0 10 0 10 0]
               tpTrue tpFalse 1 None].
Proof. reflexivity. Qed.

Lemma Reqb_refl (a : R) : Reqb a a = true.
Proof. apply Reqb_true. reflexivity. Qed.

Lemma line_flatten (vs : list (tpVec2 R)) (js : list tpBool) (mb : _tpGLRect R)
    (oc : _tpGLRenderCacheContour) (u : tpVec2 R) (tol : R) (d : tpBool) (l : Z)
    (bo : option (_tpGLRect R)) :
  exists r,
    _tpGLFlattenContour 1
      (mkContour [tpSegmentMake 0 0 0 0 0 0; tpSegmentMake 10 0 10 0 10 0] d tpFalse l bo)
      tol None vs js mb oc u = Some r
    /\ fr_vertices r = vs ++ line_fill
    /\ fr_joints r = js ++ line_joints
    /\ fr_outContour r
       = mkRcContour (Z.of_nat (length vs)) 2 (strokeVertexOffset oc)
                     (strokeVertexCount oc) tpFalse
    /\ fr_contour r
       = mkContour [tpSegmentMake 0 0 0 0 0 0; tpSegmentMake 10 0 10 0 10 0] d tpFalse l
                   (Some (aabb line_fill))
    /\ fr_mergeBounds r = _tpGLMergeBounds mb (aabb line_fill).
Proof.
  unfold _tpGLFlattenContour. cbn [segments bIsClosed flatten_segments andb].
  set (curve := contour_curve None (1 <? 1)%Z u (tpSegmentMake 0 0 0 0 0 0)
                  (tpSegmentMake 10 0 10 0 10 0)).
  assert (Hflat : _tpGLIsCurveFlatEnough curve tol = true)
    by (apply line_flat; reflexivity).
  unfold _tpGLFlattenCurve.
  rewrite flatten_loop_unfold by discriminate.
  unfold flatten_step. cbn [fs_stack fs_bFirstCurve fs_vertices fs_joints fs_bounds
                            fs_vertexCount length Z.eqb].
  rewrite Hflat, andb_false_r.
  rewrite flatten_loop_done by reflexivity.
  eexists. split; [reflexivity|].
  cbn [fr_vertices fr_joints fr_outContour fr_contour fr_mergeBounds fs_vertices
       fs_joints fs_bounds fs_vertexCount lastSegmentIndex bDirty bIsClosed segments].
  repeat split.
  unfold line_joints, curve. cbn. unfold tpVec2Equals. cbn.
  change (feqb 10 10) with (Reqb 10 10). change (feqb 0 0) with (Reqb 0 0).
  rewrite !Reqb_refl. reflexivity.
Qed.

Lemma cover_quad_at_end (T : Type) (g q : list T) :
  firstn (length q) (skipn (Z.to_nat (Z.of_nat (length g))) (g ++ q)) = q.
Proof.
  rewrite Nat2Z.id, skipn_app, skipn_all, Nat.sub_diag. simpl.
  apply firstn_all.
Qed.

Lemma _tpGLCacheBoundsGeometry_stroke (cache : _tpGLRenderCache R) (style : tpStyle R) :
  paint_is_none (stroke style) = false ->
  let c' := _tpGLCacheBoundsGeometry cache style in
  boundsCache c' = boundsCache cache
  /\ strokeBoundsCache c' = Some (expand_rect (boundsCache cache) (stroke_adder style))
  /\ firstn 4 (skipn (Z.to_nat (boundsVertexOffset c')) (geometryCache c'))
     = rect_corners (expand_rect (boundsCache cache) (stroke_adder style)).
Proof.
  intros Hs. unfold _tpGLCacheBoundsGeometry. rewrite Hs. cbn [negb].
  assert (Hadd : (match strokeJoin style with
                  | kTpStrokeJoinMiter => fmul (fmul (miterLimit style) (strokeWidth style)) chalf
                  | _ => strokeWidth style
                  end) = stroke_adder style).
  { unfold stroke_adder. destruct (strokeJoin style); try reflexivity.
    unfold chalf. cbn [fmul fconst R_arith]. field. }
  rewrite Hadd. cbn [boundsCache strokeBoundsCache boundsVertexOffset geometryCache].
  split; [reflexivity|]. split; [reflexivity|].
  apply (cover_quad_at_end _ (geometryCache cache)
           (rect_corners (expand_rect (boundsCache cache) (stroke_adder style)))).
Qed.

(** ** The stroker on an edge of length zero (binary32) *)

Lemma b32_sub_diag (x : b32) :
  b32_is_finite x = true -> fsub x x = S754_zero false.
Proof.
  destruct x as [s| s | |s m e]; simpl; try discriminate; intros _.
  - destruct s; reflexivity.
  - unfold SFsub. rewrite Z.sub_diag. reflexivity.
Qed.

Lemma b32_normalize_zero_edge (p : tpVec2 b32) :
  b32_is_finite (vx p) = true -> b32_is_finite (vy p) = true ->
  tpVec2Length (tpVec2Sub p p) = S754_zero false
  /\ fdiv c1 (tpVec2Length (tpVec2Sub p p)) = S754_infinity false
  /\ tpVec2NormalizeSelf (tpVec2Sub p p) = nan_point.
Proof.
  intros Hx Hy. unfold tpVec2NormalizeSelf, tpVec2Length, tpVec2Sub.
  cbn [vx vy]. rewrite (b32_sub_diag _ Hx), (b32_sub_diag _ Hy).
  repeat split; vm_compute; reflexivity.
Qed.

(** C10.  In binary32 the stroker divides by the length of an edge without
    a test: for every finite vertex [p] the edge from [p] to [p] has length
    zero and [tpVec2NormalizeSelf] turns its direction into NaN; and the
    path that [tpPathMoveTo (0,0)] and [tpPathLineTo (0,0)] build, cached
    with the default style, gets a fill polyline of two equal vertices and
    six stroke vertices whose coordinates are all NaN. *)
Theorem zero_length_edge_not_finite
    (sinf cosf acosf : b32 -> b32) (fmodf : b32 -> b32 -> b32) (toint : b32 -> Z)
    (dashed : _tpGLRenderCacheContour -> tpStyle b32 -> _tpGLDashStartState b32 ->
              list (tpVec2 b32) -> list tpBool ->
              option (_tpGLRenderCacheContour * list (tpVec2 b32))) :
  (forall p : tpVec2 b32,
      b32_is_finite (vx p) = true -> b32_is_finite (vy p) = true ->
      tpVec2Length (tpVec2Sub p p) = S754_zero false
      /\ tpVec2NormalizeSelf (tpVec2Sub p p) = nan_point)
  /\ exists p' c',
      @_tpGLCachePathImpl b32 b32_arith (b32_libm sinf cosf acosf fmodf toint) dashed
        1 tpTransformMakeIdentity c1 zero_line_path tpStyleMake (empty_cache tpStyleMake)
        true (mkVec2 c0 c0) = Some (p', c')
      /\ cache_contours c' = [mkRcContour 0 2 2 6 tpFalse]
      /\ firstn 2 (geometryCache c') = [mkVec2 c0 c0; mkVec2 c0 c0]
      /\ firstn 6 (skipn 2 (geometryCache c')) = repeat nan_point 6
      /\ Forall (fun v => b32_is_finite (vx v) = false /\ b32_is_finite (vy v) = false)
                (firstn 6 (skipn 2 (geometryCache c'))).
Proof.
  split.
  - intros p Hx Hy. destruct (b32_normalize_zero_edge p Hx Hy) as (H1 & _ & H3).
    split; assumption.
  - eexists. eexists. split; [vm_compute; reflexivity|].
    split; [reflexivity|]. split; [reflexivity|]. split; [reflexivity|].
    repeat constructor.
Qed.

(** ** The dash start state *)

Lemma Rtrunc_IZR (z : Z) : Rtrunc (IZR z) = z.
Proof.
  unfold Rtrunc. destruct (Rle_dec 0 (IZR z)) as [H|H].
  - symmetry. apply Int_part_spec. lra.
  - rewrite <- opp_IZR. rewrite <- (Int_part_spec (IZR (- z)) (- z)) by lra. lia.
Qed.

Lemma Rfmod_whole_period : Rfmod (-15) 15 = 0.
Proof.
  unfold Rfmod. replace (-15 / 15) with (IZR (-1)) by (simpl; field).
  rewrite Rtrunc_IZR. simpl. ring.
Qed.

(** C6.  With the dash array [10, 5] and the dash offset [-15], one whole
    period backwards, the block of [_tpGLStroke] ends with
    [startDashIndex = dashCount = 2] and reads [dashArray[2]], outside the
    array, for the start length.  (The offset [+15] gives index 0, "on" and
    length 10, as the offset 0 does: the lemma after this one.) *)
Theorem dash_start_full_period_rewind (fuel : nat) :
  dash_start_state fuel (dashed_style [10; 5] (-15)) = ReadOutside 2
  /\ dashCount (dashed_style [10; 5] (-15)) = 2%Z.
Proof.
  split; [|reflexivity].
  unfold dash_start_state, dashed_style.
  cbn [dashOffset dashArray fold_left dashCount length Z.of_nat].
  change (feqb (-15) c0) with (Reqb (-15) (0 / 1)).
  replace (Reqb (-15) (0 / 1)) with false
    by (symmetry; unfold Reqb; destruct (Req_dec_T (-15) (0 / 1)); [lra|reflexivity]).
  change (fadd (fadd c0 10) 5) with (0 / 1 + 10 + 5).
  change (fleb (0 / 1 + 10 + 5) (fabs (-15))) with (Rleb (0 / 1 + 10 + 5) (Rabs (-15))).
  replace (Rleb (0 / 1 + 10 + 5) (Rabs (-15))) with true
    by (symmetry; apply Rleb_true; rewrite Rabs_left by lra; lra).
  change (ffmod (-15) (0 / 1 + 10 + 5)) with (Rfmod (-15) (0 / 1 + 10 + 5)).
  replace (0 / 1 + 10 + 5) with 15 by field.
  rewrite Rfmod_whole_period.
  change (fltb c0 (-15)) with (Rltb (0 / 1) (-15)).
  replace (Rltb (0 / 1) (-15)) with false by (symmetry; apply Rltb_false; lra).
  change (fneg 0) with (- 0). rewrite Ropp_0.
  assert (Hb : dash_backward fuel [10; 5] 0 2 = Done (0, 2%Z)).
  { destruct fuel; simpl;
      change (Rltb (0 / 1) 0) with (Rltb (0 / 1) 0);
      replace (Rltb (0 / 1) 0) with false by (symmetry; apply Rltb_false; lra);
      reflexivity. }
  change (Z.pos (Pos.of_succ_nat 1)) with 2%Z.
  rewrite Hb. reflexivity.
Qed.

Lemma Rfmod_whole_period_pos : Rfmod 15 15 = 0.
Proof.
  unfold Rfmod. replace (15 / 15) with (IZR 1) by (simpl; field).
  rewrite Rtrunc_IZR. simpl. ring.
Qed.

(** The forward branch handles an offset of one whole period: the start
    state is that of offset zero. *)
Lemma dash_start_full_period_advance (fuel : nat) :
  dash_start_state (S fuel) (dashed_style [10; 5] 15) = Done (mkDashStart 0 tpTrue 10).
Proof.
  unfold dash_start_state, dashed_style.
  cbn [dashOffset dashArray fold_left dashCount length Z.of_nat].
  change (feqb 15 c0) with (Reqb 15 (0 / 1)).
  replace (Reqb 15 (0 / 1)) with false
    by (symmetry; unfold Reqb; destruct (Req_dec_T 15 (0 / 1)); [lra|reflexivity]).
  change (fadd (fadd c0 10) 5) with (0 / 1 + 10 + 5).
  change (fleb (0 / 1 + 10 + 5) (fabs 15)) with (Rleb (0 / 1 + 10 + 5) (Rabs 15)).
  replace (Rleb (0 / 1 + 10 + 5) (Rabs 15)) with true
    by (symmetry; apply Rleb_true; rewrite Rabs_right by lra; lra).
  change (ffmod 15 (0 / 1 + 10 + 5)) with (Rfmod 15 (0 / 1 + 10 + 5)).
  replace (0 / 1 + 10 + 5) with 15 by field.
  rewrite Rfmod_whole_period_pos.
  change (fltb c0 15) with (Rltb (0 / 1) 15).
  replace (Rltb (0 / 1) 15) with true by (symmetry; apply Rltb_true; lra).
  change (fneg 0) with (- 0). rewrite Ropp_0.
  assert (Hf : dash_forward (S fuel) [10; 5] 0 0 = Done (10, 1%Z)).
  { cbn [dash_forward].
    change (fleb 0 c0) with (Rleb 0 (0 / 1)).
    replace (Rleb 0 (0 / 1)) with true by (symmetry; apply Rleb_true; lra).
    change (AtPtr [10; 5] 0) with (Some 10). cbv iota.
    change (fadd 0 10) with (0 + 10). rewrite Rplus_0_l.
    destruct fuel; cbn [dash_forward];
      change (fleb 10 c0) with (Rleb 10 (0 / 1));
      replace (Rleb 10 (0 / 1)) with false by (symmetry; apply Rleb_false; lra);
      reflexivity. }
  rewrite Hf. reflexivity.
Qed.

(** ** Gradient stops *)

Lemma c0_R : @c0 R _ = 0.
Proof. unfold c0; cbn; lra. Qed.

Lemma c1_R : @c1 R _ = 1.
Proof. unfold c1; cbn; lra. Qed.

Lemma existsb_offset (x : R) (l : list (tpColorStop R)) :
  existsb (fun s => feqb x (offset s)) l = true <-> In x (map (@offset R) l).
Proof.
  rewrite existsb_exists, in_map_iff. split.
  - intros [s [Hs He]]. apply Reqb_true in He. exists s. auto.
  - intros [s [He Hs]]. exists s. split; [exact Hs|]. apply Reqb_true. auto.
Qed.

Section QsortR.

Lemma qsort_insert_perm (x : tpColorStop R) (l : list (tpColorStop R)) :
  Permutation (qsort_insert _tpGLColorStopComp x l) (x :: l).
Proof.
  induction l as [|y l IH]; simpl; [apply Permutation_refl|].
  destruct (_tpGLColorStopComp x y <? 0)%Z; [apply Permutation_refl|].
  eapply Permutation_trans; [apply perm_skip, IH|apply perm_swap].
Qed.

Lemma qsort_perm (l : list (tpColorStop R)) :
  Permutation (qsort _tpGLColorStopComp l) l.
Proof.
  induction l as [|x l IH]; simpl; [apply Permutation_refl|].
  eapply Permutation_trans; [apply qsort_insert_perm|apply perm_skip, IH].
Qed.

Lemma comp_negative (a b : tpColorStop R) :
  (_tpGLColorStopComp a b <? 0)%Z = true <-> offset a < offset b.
Proof.
  unfold _tpGLColorStopComp. change (fltb (offset a) (offset b)) with (Rltb (offset a) (offset b)).
  destruct (Rltb (offset a) (offset b)) eqn:E.
  - apply Rltb_true in E. split; auto.
  - apply Rltb_false in E. split; [discriminate|lra].
Qed.

Lemma qsort_insert_sorted (x : tpColorStop R) (l : list (tpColorStop R)) :
  ~ In (offset x) (map (@offset R) l) ->
  StronglySorted by_offset l ->
  StronglySorted by_offset (qsort_insert _tpGLColorStopComp x l).
Proof.
  induction l as [|y l IH]; intros Hn Hs; simpl.
  - constructor; constructor.
  - destruct (_tpGLColorStopComp x y <? 0)%Z eqn:E.
    + apply comp_negative in E. constructor; [exact Hs|].
      constructor; [exact E|].
      apply StronglySorted_inv in Hs. destruct Hs as [_ Hy].
      rewrite Forall_forall in *. intros z Hz. specialize (Hy z Hz).
      unfold by_offset in *. lra.
    + assert (Hxy : offset y < offset x).
      { destruct (Rlt_dec (offset x) (offset y)) as [Hlt|Hge].
        - apply comp_negative in Hlt. congruence.
        - destruct (Req_dec_T (offset x) (offset y)) as [He|Hne].
          + exfalso. apply Hn. simpl. left. auto.
          + lra. }
      apply StronglySorted_inv in Hs. destruct Hs as [Hl Hy].
      constructor.
      * apply IH; [|exact Hl]. intro Hi. apply Hn. simpl. right. exact Hi.
      * rewrite Forall_forall in *. intros z Hz.
        apply (Permutation_in _ (qsort_insert_perm x l)) in Hz.
        destruct Hz as [->|Hz]; [exact Hxy|apply Hy, Hz].
Qed.

Lemma qsort_sorted (l : list (tpColorStop R)) :
  NoDup (map (@offset R) l) ->
  StronglySorted by_offset (qsort _tpGLColorStopComp l).
Proof.
  induction l as [|x l IH]; intros Hn; simpl; [constructor|].
  simpl in Hn. apply NoDup_cons_iff in Hn. destruct Hn as [Hx Hn].
  apply qsort_insert_sorted; [|apply IH, Hn].
  intro Hi. apply Hx.
  apply (Permutation_in _ (Permutation_map (@offset R) (qsort_perm l))) in Hi.
  exact Hi.
Qed.

End QsortR.

(** The order [qsort] leaves is the only one: two arrangements of the same
    stops, both ascending by offset, are equal. *)
Lemma sorted_stops_unique (l l' : list (tpColorStop R)) :
  Permutation l l' ->
  StronglySorted by_offset l -> StronglySorted by_offset l' -> l = l'.
Proof.
  revert l'. induction l as [|x l IH]; intros l' Hp Hs Hs'.
  - apply Permutation_nil in Hp. symmetry. exact Hp.
  - destruct l' as [|x' l'].
    { apply Permutation_sym, Permutation_nil in Hp. discriminate. }
    apply StronglySorted_inv in Hs. destruct Hs as [Hl Hx].
    apply StronglySorted_inv in Hs'. destruct Hs' as [Hl' Hx'].
    rewrite Forall_forall in Hx, Hx'.
    assert (Hxx : x = x').
    { assert (H1 : In x (x' :: l')).
      { apply (Permutation_in _ Hp). left. reflexivity. }
      assert (H2 : In x' (x :: l)).
      { apply (Permutation_in _ (Permutation_sym Hp)). left. reflexivity. }
      destruct H1 as [H1|H1]; [symmetry; exact H1|].
      destruct H2 as [H2|H2]; [exact H2|].
      specialize (Hx x' H2). specialize (Hx' x H1). unfold by_offset in *. lra. }
    subst x'. f_equal. apply IH; [|exact Hl|exact Hl'].
    apply Permutation_cons_inv in Hp. exact Hp.
Qed.

(** What the loop that removes duplicates leaves in [tmpColorStops] and in
    the two flags. *)
Lemma remove_duplicates_spec (rest : list (tpColorStop R)) :
  forall (tmp : list (tpColorStop R)) (bs be : tpBool),
  NoDup (map (@offset R) tmp) ->
  exists tmp' bs' be',
    remove_duplicates rest tmp bs be = (tmp', bs', be')
    /\ NoDup (map (@offset R) tmp')
    /\ (forall s, In s tmp' -> In s tmp \/ (In s rest /\ 0 <= offset s <= 1))
    /\ (forall s, In s tmp \/ (In s rest /\ 0 <= offset s <= 1) ->
                  In (offset s) (map (@offset R) tmp'))
    /\ (bs' = true <-> bs = true \/ In 0 (map (@offset R) rest))
    /\ (be' = true <-> be = true \/ In 1 (map (@offset R) rest)).
Proof.
  induction rest as [|cur rest IH]; intros tmp bs be Hnd.
  - exists tmp, bs, be. simpl. split; [reflexivity|]. split; [exact Hnd|].
    split; [intros s Hs; left; exact Hs|].
    split; [intros s [Hs|[[] _]]; apply in_map; exact Hs|].
    split; (split; [intros H; left; exact H|intros [H|[]]; exact H]).
  - cbn [remove_duplicates].
    match goal with
    | |- context [remove_duplicates rest ?t ?a ?b] =>
        set (tmp1 := t); set (bs1 := a); set (be1 := b)
    end.
    assert (Hbs1 : bs1 = true <-> bs = true \/ offset cur = 0).
    { subst bs1. change (feqb (offset cur) c0) with (Reqb (offset cur) c0).
      rewrite c0_R. destruct (Reqb (offset cur) 0) eqn:E.
      - apply Reqb_true in E. unfold tpTrue. tauto.
      - assert (offset cur <> 0) by (intro H; apply Reqb_true in H; congruence).
        tauto. }
    assert (Hbe1 : be1 = true <-> be = true \/ offset cur = 1).
    { subst be1. change (feqb (offset cur) c0) with (Reqb (offset cur) c0).
      change (feqb (offset cur) c1) with (Reqb (offset cur) c1).
      rewrite c0_R, c1_R. destruct (Reqb (offset cur) 0) eqn:E.
      - apply Reqb_true in E. split; [tauto|]. intros [H|H]; [exact H|lra].
      - destruct (Reqb (offset cur) 1) eqn:E1.
        + apply Reqb_true in E1. unfold tpTrue. tauto.
        + assert (offset cur <> 1) by (intro H; apply Reqb_true in H; congruence).
          tauto. }
    assert (Htmp1 : (tmp1 = tmp ++ [cur] /\ ~ In (offset cur) (map (@offset R) tmp)
                     /\ 0 <= offset cur <= 1)
                    \/ (tmp1 = tmp /\ (In (offset cur) (map (@offset R) tmp)
                                       \/ ~ 0 <= offset cur <= 1))).
    { subst tmp1.
      change (fleb c0 (offset cur)) with (Rleb c0 (offset cur)).
      change (fleb (offset cur) c1) with (Rleb (offset cur) c1).
      rewrite c0_R, c1_R.
      destruct (existsb (fun s => feqb (offset cur) (offset s)) tmp) eqn:Ee.
      - right. split; [reflexivity|]. left. apply existsb_offset. exact Ee.
      - assert (Hni : ~ In (offset cur) (map (@offset R) tmp)).
        { intro Hi. apply existsb_offset in Hi. congruence. }
        simpl negb. simpl andb.
        destruct (Rleb 0 (offset cur)) eqn:E0; simpl andb.
        + destruct (Rleb (offset cur) 1) eqn:E1.
          * apply Rleb_true in E0, E1. left. auto.
          * apply Rleb_false in E1. right. split; [reflexivity|]. right. lra.
        + apply Rleb_false in E0. right. split; [reflexivity|]. right. lra. }
    clearbody bs1 be1 tmp1.
    assert (Hnd1 : NoDup (map (@offset R) tmp1)).
    { destruct Htmp1 as [[-> [Hni _]]|[-> _]]; [|exact Hnd].
      rewrite map_app. simpl.
      apply Permutation_NoDup with (l := offset cur :: map (@offset R) tmp).
      - apply Permutation_cons_append.
      - constructor; assumption. }
    destruct (IH tmp1 bs1 be1 Hnd1) as [tmp' [bs' [be' [He [Hn' [Hin [Hout [Hs He']]]]]]]].
    exists tmp', bs', be'. split; [exact He|]. split; [exact Hn'|].
    split; [|split; [|split]].
    + intros s Hs'. destruct (Hin s Hs') as [H|[H Hr]].
      * destruct Htmp1 as [[-> [_ Hr]]|[-> _]]; [|left; exact H].
        apply in_app_or in H. destruct H as [H|[<-|[]]]; [left; exact H|].
        right. split; [left; reflexivity|exact Hr].
      * right. split; [right; exact H|exact Hr].
    + intros s [Hs'|[[<-|Hs'] Hr]].
      * apply Hout. left. destruct Htmp1 as [[-> _]|[-> _]]; [|exact Hs'].
        apply in_or_app. left. exact Hs'.
      * destruct Htmp1 as [[-> _]|[-> [Hi|Hnr]]].
        -- apply Hout. left. apply in_or_app. right. left. reflexivity.
        -- apply in_map_iff in Hi. destruct Hi as [t [Ht Hi]]. rewrite <- Ht.
           apply Hout. left. exact Hi.
        -- contradiction.
      * apply Hout. right. split; assumption.
    + rewrite Hs, Hbs1. simpl. intuition.
    + rewrite He', Hbe1. simpl. intuition.
Qed.

Lemma LastPtr_last (T : Type) (l : list T) (d : T) :
  l <> [] -> LastPtr l = Some (last l d).
Proof.
  intros Hl. unfold LastPtr, AtPtr.
  destruct l as [|x l]; [contradiction|].
  assert (Hlen : (Z.of_nat (length (x :: l)) - 1 = Z.of_nat (length l))%Z).
  { simpl length. lia. }
  rewrite Hlen, Nat2Z.id.
  replace ((0 <=? Z.of_nat (length l))%Z && (Z.of_nat (length l) <? Z.of_nat (length (x :: l)))%Z)
    with true.
  2:{ symmetry. apply andb_true_iff. split; [apply Z.leb_le|apply Z.ltb_lt]; simpl length; lia. }
  clear Hl Hlen. revert x d. induction l as [|y l IH]; intros x d; [reflexivity|].
  change (nth_error (x :: y :: l) (length (y :: l))) with (nth_error (y :: l) (length l)).
  change (last (x :: y :: l) d) with (last (y :: l) d).
  apply IH.
Qed.

Lemma AtPtr_head (T : Type) (x : T) (l : list T) : AtPtr (x :: l) 0 = Some x.
Proof.
  unfold AtPtr.
  replace ((0 <=? 0)%Z && (0 <? Z.of_nat (length (x :: l)))%Z) with true; [reflexivity|].
  symmetry. apply andb_true_iff. split; [apply Z.leb_le|apply Z.ltb_lt]; simpl length; lia.
Qed.

Section FinalizeGeneric.
Context {F : Type} {A : Arith F}.

(** The result of [_tpGLFinalizeColorStops] when the loop kept a stop. *)
Lemma _tpGLFinalizeColorStops_kept (grad : _tpGLGradient F)
    (tmp : list (tpColorStop F)) (bs be : tpBool) (f : tpColorStop F)
    (sorted : list (tpColorStop F)) :
  stops grad <> [] ->
  remove_duplicates (stops grad) [] tpFalse tpFalse = (tmp, bs, be) ->
  qsort _tpGLColorStopComp tmp = f :: sorted ->
  _tpGLFinalizeColorStops grad =
  Some (with_stops grad
          ((if bs then [] else [mkColorStop (color f) c0])
           ++ (f :: sorted)
           ++ (if be then [] else [mkColorStop (color (last sorted f)) c1]))).
Proof.
  intros Hne Hrd Hq. unfold _tpGLFinalizeColorStops.
  destruct (stops grad) as [|s0 l0] eqn:Hs; [contradiction|].
  rewrite Hrd, Hq.
  rewrite (LastPtr_last _ (f :: sorted) f) by discriminate.
  rewrite AtPtr_head, last_cons.
  unfold with_stops.
  destruct bs, be; cbn [negb orb app]; try reflexivity.
  rewrite app_nil_r. reflexivity.
Qed.

End FinalizeGeneric.

Lemma sorted_app (T : Type) (lt : T -> T -> Prop) (l1 l2 : list T) :
  StronglySorted lt l1 -> StronglySorted lt l2 ->
  (forall x y, In x l1 -> In y l2 -> lt x y) ->
  StronglySorted lt (l1 ++ l2).
Proof.
  intros H1 H2 H. induction l1 as [|a l1 IH]; [exact H2|].
  apply StronglySorted_inv in H1. destruct H1 as [H1 Ha].
  simpl. constructor.
  - apply IH; [exact H1|]. intros x y Hx Hy. apply H; [right; exact Hx|exact Hy].
  - apply Forall_app. split; [exact Ha|].
    apply Forall_forall. intros y Hy. apply H; [left; reflexivity|exact Hy].
Qed.

Lemma sorted_offsets (l : list (tpColorStop R)) :
  StronglySorted by_offset l -> StronglySorted Rlt (map (@offset R) l).
Proof.
  induction 1 as [|a l Hl IH Ha]; simpl; constructor; [exact IH|].
  apply Forall_map. exact Ha.
Qed.

Lemma sorted_NoDup (l : list R) : StronglySorted Rlt l -> NoDup l.
Proof.
  induction 1 as [|a l Hl IH Ha]; constructor; [|exact IH].
  intro Hi. rewrite Forall_forall in Ha. specialize (Ha a Hi). lra.
Qed.

Lemma sorted_last (f : tpColorStop R) (l : list (tpColorStop R)) :
  StronglySorted by_offset (f :: l) ->
  In (last l f) (f :: l)
  /\ forall s, In s (f :: l) -> offset s <= offset (last l f).
Proof.
  revert f. induction l as [|g l IH]; intros f Hs.
  - simpl. split; [left; reflexivity|]. intros s [<-|[]]. lra.
  - apply StronglySorted_inv in Hs. destruct Hs as [Hl Hf].
    destruct (IH g Hl) as [Hin Hle].
    rewrite <- (last_cons _ l g f) in Hin, Hle.
    change (last (g :: l) f) with (last (f :: g :: l) f) in *.
    rewrite (last_cons _ (g :: l) f f) in *.
    split; [right; exact Hin|].
    intros s [<-|Hs]; [|apply Hle, Hs].
    rewrite Forall_forall in Hf. specialize (Hf _ Hin). unfold by_offset in Hf. lra.
Qed.

(** C7.  On a gradient with at least one stop, all offsets in the range
    0-1, [_tpGLFinalizeColorStops] succeeds and leaves stops [out] such that:
    no two stops of [out] have the same offset; the offsets are strictly
    ascending; the first stop has offset 0 and the color of a stop of the
    input of lowest offset, and is that stop when the input has a stop at 0;
    the last stop has offset 1 and the color of a stop of the input of
    highest offset, and is that stop when the input has a stop at 1; every
    offset of the input occurs in [out], and apart from the first and the
    last every stop of [out] is a stop of the input. *)
Theorem _tpGLFinalizeColorStops_stops (grad : _tpGLGradient R) :
  stops grad <> [] ->
  Forall in_unit_range (stops grad) ->
  exists out first final lowest highest,
    _tpGLFinalizeColorStops grad = Some (with_stops grad out)
    /\ NoDup (map (@offset R) out)
    /\ StronglySorted Rlt (map (@offset R) out)
    /\ AtPtr out 0 = Some first /\ offset first = 0
    /\ LastPtr out = Some final /\ offset final = 1
    /\ In lowest (stops grad)
    /\ (forall s, In s (stops grad) -> offset lowest <= offset s)
    /\ color first = color lowest
    /\ (In 0 (map (@offset R) (stops grad)) -> first = lowest)
    /\ In highest (stops grad)
    /\ (forall s, In s (stops grad) -> offset s <= offset highest)
    /\ color final = color highest
    /\ (In 1 (map (@offset R) (stops grad)) -> final = highest)
    /\ (forall s, In s (stops grad) -> In (offset s) (map (@offset R) out))
    /\ (forall t, In t out -> In t (stops grad) \/ t = first \/ t = final).
Proof.
  intros Hne Hrange. rewrite Forall_forall in Hrange. unfold in_unit_range in Hrange.
  destruct (remove_duplicates_spec (stops grad) [] tpFalse tpFalse (NoDup_nil _))
    as [tmp [bs [be [He [Hnd [Hin [Hout [Hbs Hbe]]]]]]]].
  pose proof (qsort_perm tmp) as Hperm.
  pose proof (qsort_sorted tmp Hnd) as Hsorted.
  destruct (qsort _tpGLColorStopComp tmp) as [|f sorted] eqn:Hq.
  { exfalso. apply Permutation_nil in Hperm. subst tmp.
    destruct (stops grad) as [|s0 l0]; [contradiction|].
    apply (Hout s0). right. split; [left; reflexivity|].
    apply Hrange. left. reflexivity. }
  rewrite (_tpGLFinalizeColorStops_kept grad tmp bs be f sorted Hne He Hq).
  assert (Hmem : forall s, In s (f :: sorted) ->
                           In s (stops grad) /\ 0 <= offset s <= 1).
  { intros s Hs. apply (Permutation_in _ Hperm) in Hs.
    destruct (Hin s Hs) as [[]|H]. exact H. }
  assert (Hcover : forall s, In s (stops grad) ->
                             exists t, In t (f :: sorted) /\ offset t = offset s).
  { intros s Hs.
    assert (Hi : In (offset s) (map (@offset R) tmp)).
    { apply Hout. right. split; [exact Hs|apply Hrange, Hs]. }
    apply in_map_iff in Hi. destruct Hi as [t [Ht Hi]].
    exists t. split; [|exact Ht].
    apply (Permutation_in _ (Permutation_sym Hperm)). exact Hi. }
  assert (Hlow : forall s, In s (f :: sorted) -> offset f <= offset s).
  { apply StronglySorted_inv in Hsorted. destruct Hsorted as [_ Hf].
    rewrite Forall_forall in Hf. intros s [<-|Hs]; [lra|].
    specialize (Hf s Hs). unfold by_offset in Hf. lra. }
  destruct (sorted_last f sorted Hsorted) as [Hlast_in Hhigh].
  set (lst := last sorted f) in *.
  assert (Hstart : (bs = true /\ offset f = 0)
                   \/ (bs = false /\ forall s, In s (f :: sorted) -> 0 < offset s)).
  { destruct bs.
    - left. split; [reflexivity|].
      assert (H0 : In 0 (map (@offset R) (stops grad))).
      { assert (Ht : true = true) by reflexivity.
        apply Hbs in Ht. destruct Ht; [discriminate|assumption]. }
      apply in_map_iff in H0. destruct H0 as [s [Hs0 Hs]].
      destruct (Hcover s Hs) as [t [Ht Hts]].
      pose proof (Hlow t Ht). destruct (Hmem f (or_introl eq_refl)) as [_ Hr]. lra.
    - right. split; [reflexivity|]. intros s Hs.
      destruct (Hmem s Hs) as [Hs' Hr].
      destruct (Req_dec_T (offset s) 0) as [H0|H0]; [|lra].
      assert (false = true); [|discriminate].
      apply Hbs. right. rewrite <- H0. apply in_map. exact Hs'. }
  assert (Hend : (be = true /\ offset lst = 1)
                 \/ (be = false /\ forall s, In s (f :: sorted) -> offset s < 1)).
  { destruct be.
    - left. split; [reflexivity|].
      assert (H1 : In 1 (map (@offset R) (stops grad))).
      { assert (Ht : true = true) by reflexivity.
        apply Hbe in Ht. destruct Ht; [discriminate|assumption]. }
      apply in_map_iff in H1. destruct H1 as [s [Hs1 Hs]].
      destruct (Hcover s Hs) as [t [Ht Hts]].
      pose proof (Hhigh t Ht). destruct (Hmem lst Hlast_in) as [_ Hr]. lra.
    - right. split; [reflexivity|]. intros s Hs.
      destruct (Hmem s Hs) as [Hs' Hr].
      destruct (Req_dec_T (offset s) 1) as [H1|H1]; [|lra].
      assert (false = true); [|discriminate].
      apply Hbe. right. rewrite <- H1. apply in_map. exact Hs'. }
  set (a := if bs then [] else [mkColorStop (color f) c0]).
  set (b := if be then [] else [mkColorStop (color lst) c1]).
  exists (a ++ (f :: sorted) ++ b),
         (if bs then f else mkColorStop (color f) c0),
         (if be then lst else mkColorStop (color lst) c1),
         f, lst.
  assert (Ha : forall x y, In x a -> In y (f :: sorted) -> by_offset x y).
  { intros x y Hx Hy. subst a. destruct Hstart as [[-> _]|[-> H0]]; [destruct Hx|].
    destruct Hx as [<-|[]]. unfold by_offset. cbn [offset]. rewrite c0_R.
    apply H0, Hy. }
  assert (Hb : forall x y, In x (f :: sorted) -> In y b -> by_offset x y).
  { intros x y Hx Hy. subst b. destruct Hend as [[-> _]|[-> H1]]; [destruct Hy|].
    destruct Hy as [<-|[]]. unfold by_offset. cbn [offset]. rewrite c1_R.
    apply H1, Hx. }
  assert (Hab : forall x y, In x a -> In y b -> by_offset x y).
  { intros x y Hx Hy. specialize (Ha x f Hx (or_introl eq_refl)).
    specialize (Hb f y (or_introl eq_refl) Hy). unfold by_offset in *. lra. }
  assert (Hsa : StronglySorted by_offset a).
  { subst a. destruct bs; repeat constructor. }
  assert (Hsb : StronglySorted by_offset b).
  { subst b. destruct be; repeat constructor. }
  assert (Hall : StronglySorted by_offset (a ++ (f :: sorted) ++ b)).
  { apply sorted_app; [exact Hsa| |].
    - apply sorted_app; [exact Hsorted|exact Hsb|exact Hb].
    - intros x y Hx Hy. apply in_app_or in Hy. destruct Hy as [Hy|Hy].
      + apply Ha; assumption.
      + apply Hab; assumption. }
  apply sorted_offsets in Hall.
  split; [reflexivity|].
  split; [apply sorted_NoDup, Hall|].
  split; [exact Hall|].
  split; [subst a; destruct bs; apply AtPtr_head|].
  split; [destruct Hstart as [[-> H]|[-> _]]; [exact H|cbn [offset]; apply c0_R]|].
  split.
  { rewrite (LastPtr_last _ _ f).
    2:{ intro H. apply app_eq_nil in H. destruct H as [_ H].
        apply app_eq_nil in H. destruct H as [H _]. discriminate. }
    f_equal. rewrite last_app_ne by discriminate.
    subst b. destruct be.
    - rewrite app_nil_r. apply last_cons.
    - rewrite last_app_ne by discriminate. reflexivity. }
  split; [destruct Hend as [[-> H]|[-> _]]; [exact H|cbn [offset]; apply c1_R]|].
  split; [apply (Hmem f), or_introl, eq_refl|].
  split.
  { intros s Hs. destruct (Hcover s Hs) as [t [Ht <-]]. apply Hlow, Ht. }
  split; [destruct bs; reflexivity|].
  split.
  { intros H0. destruct Hstart as [[-> _]|[-> _]]; [reflexivity|].
    assert (false = true); [|discriminate]. apply Hbs. right. exact H0. }
  split; [apply (Hmem lst Hlast_in)|].
  split.
  { intros s Hs. destruct (Hcover s Hs) as [t [Ht <-]]. apply Hhigh, Ht. }
  split; [destruct be; reflexivity|].
  split.
  { intros H1. destruct Hend as [[-> _]|[-> _]]; [reflexivity|].
    assert (false = true); [|discriminate]. apply Hbe. right. exact H1. }
  split.
  { intros s Hs. destruct (Hcover s Hs) as [t [Ht <-]].
    apply in_map. apply in_or_app. right. apply in_or_app. left. exact Ht. }
  intros t Ht. apply in_app_or in Ht. destruct Ht as [Ht|Ht].
  - right. left. subst a. destruct bs; [destruct Ht|].
    destruct Ht as [<-|[]]. reflexivity.
  - apply in_app_or in Ht. destruct Ht as [Ht|Ht].
    + left. apply (Hmem t Ht).
    + right. right. subst b. destruct be; [destruct Ht|].
      destruct Ht as [<-|[]]. reflexivity.
Qed.

Lemma _tpGLFinalizeColorStops_stops_witness :
  stops (gradient_of ramp_stops) <> []
  /\ Forall in_unit_range (stops (gradient_of ramp_stops))
  /\ exists out first final lowest highest,
    _tpGLFinalizeColorStops (gradient_of ramp_stops)
    = Some (with_stops (gradient_of ramp_stops) out)
    /\ NoDup (map (@offset R) out)
    /\ StronglySorted Rlt (map (@offset R) out)
    /\ AtPtr out 0 = Some first /\ offset first = 0
    /\ LastPtr out = Some final /\ offset final = 1
    /\ In lowest (stops (gradient_of ramp_stops))
    /\ (forall s, In s (stops (gradient_of ramp_stops)) -> offset lowest <= offset s)
    /\ color first = color lowest
    /\ (In 0 (map (@offset R) (stops (gradient_of ramp_stops))) -> first = lowest)
    /\ In highest (stops (gradient_of ramp_stops))
    /\ (forall s, In s (stops (gradient_of ramp_stops)) -> offset s <= offset highest)
    /\ color final = color highest
    /\ (In 1 (map (@offset R) (stops (gradient_of ramp_stops))) -> final = highest)
    /\ (forall s, In s (stops (gradient_of ramp_stops)) -> In (offset s) (map (@offset R) out))
    /\ (forall t, In t out -> In t (stops (gradient_of ramp_stops)) \/ t = first \/ t = final).
Proof.
  assert (H1 : stops (gradient_of ramp_stops) <> []) by discriminate.
  assert (H2 : Forall in_unit_range (stops (gradient_of ramp_stops))).
  { repeat constructor; unfold in_unit_range; cbn [offset]; lra. }
  split; [exact H1|]. split; [exact H2|].
  exact (_tpGLFinalizeColorStops_stops (gradient_of ramp_stops) H1 H2).
Defined.

(** Outside the range 0-1 a stop is not kept; when no stop is kept, the
    color of the stop at 0 is read from the empty [tmpColorStops]. *)
Lemma _tpGLFinalizeColorStops_outside_range :
  _tpGLFinalizeColorStops (gradient_of [mkColorStop (mkColor 1 0 0 1) 2]) = None.
Proof.
  unfold _tpGLFinalizeColorStops, gradient_of.
  cbn [stops remove_duplicates offset existsb negb andb].
  change (feqb 2 c0) with (Reqb 2 c0). change (feqb 2 c1) with (Reqb 2 c1).
  change (fleb c0 2) with (Rleb c0 2). change (fleb 2 c1) with (Rleb 2 c1).
  rewrite c0_R, c1_R.
  replace (Rleb 2 1) with false by (symmetry; apply Rleb_false; lra).
  replace (Reqb 2 0) with false.
  2:{ symmetry. destruct (Reqb 2 0) eqn:E; [|reflexivity]. apply Reqb_true in E. lra. }
  replace (Reqb 2 1) with false.
  2:{ symmetry. destruct (Reqb 2 1) eqn:E; [|reflexivity]. apply Reqb_true in E. lra. }
  rewrite andb_false_r. reflexivity.
Qed.

Lemma Reqb_neq (a b : R) : a <> b -> Reqb a b = false.
Proof.
  intro H. destruct (Reqb a b) eqn:E; [|reflexivity].
  apply Reqb_true in E. contradiction.
Qed.

(** Without the limit of C7 to offsets between 0 and 1 the claim fails:
    of a red stop at -1 and a blue one at 1/2 the red one is dropped, and
    the stop put at 0 is blue, not the color of the lowest stop; of a single
    stop at 2 nothing is kept, and no list is produced. *)
Lemma _tpGLFinalizeColorStops_drops_lowest :
  _tpGLFinalizeColorStops (gradient_of low_stops)
  = Some (with_stops (gradient_of low_stops)
            [ mkColorStop (mkColor 0 0 1 1) c0;
              mkColorStop (mkColor 0 0 1 1) (1 / 2);
              mkColorStop (mkColor 0 0 1 1) c1 ])
  /\ _tpGLFinalizeColorStops (gradient_of [mkColorStop (mkColor 1 0 0 1) 2]) = None.
Proof.
  split; [|exact _tpGLFinalizeColorStops_outside_range].
  unfold _tpGLFinalizeColorStops, gradient_of, low_stops.
  cbn [stops remove_duplicates offset existsb negb andb].
  change (@feqb R R_arith) with Reqb. change (@fleb R R_arith) with Rleb.
  rewrite !c0_R, !c1_R.
  rewrite (Reqb_neq (-1) 0) by lra. rewrite (Reqb_neq (-1) 1) by lra.
  rewrite (Reqb_neq (1/2) 0) by lra. rewrite (Reqb_neq (1/2) 1) by lra.
  replace (Rleb 0 (-1)) with false by (symmetry; apply Rleb_false; lra).
  replace (Rleb 0 (1/2)) with true by (symmetry; apply Rleb_true; lra).
  replace (Rleb (1/2) 1) with true by (symmetry; apply Rleb_true; lra).
  cbn. reflexivity.
Qed.

(** ** Clipping *)

Lemma AtPtr_SetAt (T : Type) (l : list T) (i : Z) (x : T) :
  (0 <= i < Z.of_nat (length l))%Z -> AtPtr (SetAt l i x) i = Some x.
Proof.
  intros Hi. unfold AtPtr, SetAt.
  replace (0 <=? i)%Z with true by (symmetry; apply Z.leb_le; lia).
  assert (Hn : (Z.to_nat i < length l)%nat) by lia.
  assert (Hlen : forall (l : list T) n, length (set_nth l n x) = length l).
  { clear. induction l as [|y l IH]; intros [|n]; simpl; auto. }
  rewrite Hlen.
  replace (i <? Z.of_nat (length l))%Z with true by (symmetry; apply Z.ltb_lt; lia).
  cbn [andb]. clear Hi Hlen. revert Hn. generalize (Z.to_nat i). clear i.
  induction l as [|y l IH]; intros n Hn; simpl in Hn; [lia|].
  destruct n as [|n]; [reflexivity|]. simpl. apply IH. lia.
Qed.

Section ClippingGeneric.
Context {F : Type} {A : Arith F}.

(** Drawing a clip mask reports no error and writes none of the clipping
    fields of the context. *)
Lemma _tpGLDrawRenderCacheImpl_fields (ctx ctx' : _tpGLContext F)
    (cache : _tpGLRenderCache F) (r : tpBool) :
  _tpGLDrawRenderCacheImpl ctx cache = Some (r, ctx') ->
  r = tpFalse
  /\ clippingStack ctx' = clippingStack ctx
  /\ clippingStackDepth ctx' = clippingStackDepth ctx
  /\ currentClipStencilPlane ctx' = currentClipStencilPlane ctx
  /\ bCanSwapStencilPlanes ctx' = bCanSwapStencilPlanes ctx.
Proof.
  unfold _tpGLDrawRenderCacheImpl.
  destruct (cache_contours cache); [intros H; injection H as <- <-; auto|].
  destruct (geometryCache cache); [discriminate|].
  destruct (fillRule (cache_style cache)); intros H; injection H as <- <-; auto.
Qed.

Lemma _tpGLGenerateClippingMaskForRenderCache_begin (ctx ctx' : _tpGLContext F)
    (cache : option (_tpGLRenderCache F)) (r : tpBool) :
  _tpGLGenerateClippingMaskForRenderCache ctx cache tpFalse = Some (r, ctx') ->
  r = tpFalse
  /\ currentClipStencilPlane ctx' = other_clip_plane (currentClipStencilPlane ctx)
  /\ bCanSwapStencilPlanes ctx' = bCanSwapStencilPlanes ctx
  /\ clippingStackDepth ctx' = (clippingStackDepth ctx + 1)%Z
  /\ AtPtr (clippingStack ctx') (clippingStackDepth ctx) = Some cache.
Proof.
  unfold _tpGLGenerateClippingMaskForRenderCache.
  destruct cache as [c|]; [|discriminate].
  cbn [negb tpFalse].
  destruct ((0 <=? clippingStackDepth ctx)%Z
            && (clippingStackDepth ctx <? Z.of_nat (length (clippingStack ctx)))%Z) eqn:Hd;
    [|discriminate].
  apply andb_true_iff in Hd. destruct Hd as [H0 H1].
  apply Z.leb_le in H0. apply Z.ltb_lt in H1.
  match goal with
  | |- context [_tpGLDrawRenderCacheImpl ?c0 c] =>
      destruct (_tpGLDrawRenderCacheImpl c0 c) as [[dr cd]|] eqn:Hdraw; [|discriminate]
  end.
  apply _tpGLDrawRenderCacheImpl_fields in Hdraw.
  destruct Hdraw as [-> [Hs [Hdp [Hp Hc]]]].
  intros H. injection H as <- <-.
  cbn [currentClipStencilPlane bCanSwapStencilPlanes clippingStackDepth clippingStack
       set_clip_planes].
  rewrite Hs, Hdp, Hp, Hc.
  cbn [currentClipStencilPlane bCanSwapStencilPlanes clippingStackDepth clippingStack
       set_clippingStack gl].
  split; [reflexivity|]. split; [reflexivity|]. split; [reflexivity|].
  split; [reflexivity|]. apply AtPtr_SetAt. lia.
Qed.

(** On a cache that has its geometry, with room on the stack, the mask is
    generated. *)
Lemma _tpGLGenerateClippingMaskForRenderCache_succeeds (ctx : _tpGLContext F)
    (cache : _tpGLRenderCache F) :
  (0 <= clippingStackDepth ctx < Z.of_nat (length (clippingStack ctx)))%Z ->
  (cache_contours cache = [] \/ geometryCache cache <> []) ->
  exists ctx',
    _tpGLGenerateClippingMaskForRenderCache ctx (Some cache) tpFalse = Some (tpFalse, ctx').
Proof.
  intros Hd Hg. unfold _tpGLGenerateClippingMaskForRenderCache.
  cbn [negb tpFalse].
  replace ((0 <=? clippingStackDepth ctx)%Z
           && (clippingStackDepth ctx <? Z.of_nat (length (clippingStack ctx)))%Z)
    with true.
  2:{ symmetry. apply andb_true_iff. split; [apply Z.leb_le|apply Z.ltb_lt]; lia. }
  unfold _tpGLDrawRenderCacheImpl.
  destruct (cache_contours cache) as [|c0 cs]; [eexists; reflexivity|].
  destruct Hg as [Hg|Hg]; [discriminate|].
  destruct (geometryCache cache) as [|v vs]; [contradiction|].
  destruct (fillRule (cache_style cache)); eexists; reflexivity.
Qed.

End ClippingGeneric.

(** C1.  When [tpBeginClippingFromRenderCache], [tpBeginClipping] or
    [tpBeginClippingWithFillRule] returns without error, the current clip
    plane of the context is the other one of the two planes, the stack is one
    deeper, and [bCanSwapStencilPlanes] is what it was before the call: the
    call does not write the flag. *)
Theorem tpBeginClipping_planes (F : Type) (A : Arith F)
    (update : _tpGLPath F -> tpStyle F -> tpBool -> tpBool * option (_tpGLRenderCache F))
    (ctx ctx' : _tpGLContext F) :
  (exists cache, tpBeginClippingFromRenderCache ctx cache = Some (tpFalse, ctx'))
  \/ (exists path, tpBeginClipping update ctx path = Some (tpFalse, ctx'))
  \/ (exists path rule, tpBeginClippingWithFillRule update ctx path rule = Some (tpFalse, ctx')) ->
  currentClipStencilPlane ctx' = other_clip_plane (currentClipStencilPlane ctx)
  /\ (currentClipStencilPlane ctx = _kTpGLClippingStencilPlaneOne ->
      currentClipStencilPlane ctx' = _kTpGLClippingStencilPlaneTwo)
  /\ (currentClipStencilPlane ctx = _kTpGLClippingStencilPlaneTwo ->
      currentClipStencilPlane ctx' = _kTpGLClippingStencilPlaneOne)
  /\ bCanSwapStencilPlanes ctx' = bCanSwapStencilPlanes ctx
  /\ clippingStackDepth ctx' = (clippingStackDepth ctx + 1)%Z.
Proof.
  intros H.
  assert (Hgen : exists ctx0 cache,
             _tpGLGenerateClippingMaskForRenderCache ctx0 cache tpFalse = Some (tpFalse, ctx')
             /\ currentClipStencilPlane ctx0 = currentClipStencilPlane ctx
             /\ bCanSwapStencilPlanes ctx0 = bCanSwapStencilPlanes ctx
             /\ clippingStackDepth ctx0 = clippingStackDepth ctx).
  { assert (Hrule : forall path rule,
               tpBeginClippingWithFillRule update ctx path rule = Some (tpFalse, ctx') ->
               exists ctx0 cache,
                 _tpGLGenerateClippingMaskForRenderCache ctx0 cache tpFalse = Some (tpFalse, ctx')
                 /\ currentClipStencilPlane ctx0 = currentClipStencilPlane ctx
                 /\ bCanSwapStencilPlanes ctx0 = bCanSwapStencilPlanes ctx
                 /\ clippingStackDepth ctx0 = clippingStackDepth ctx).
    { intros path rule. unfold tpBeginClippingWithFillRule, _tpGLGenerateClippingMask.
      destruct (update path _ tpTrue) as [failed renderCache].
      destruct failed; [discriminate|]. intros Hg.
      exists (set_clippingStyle_fillRule ctx rule), renderCache.
      split; [exact Hg|]. auto. }
    destruct H as [[cache H]|[[path H]|[path [rule H]]]].
    - exists ctx, cache. auto.
    - apply (Hrule path kTpFillRuleEvenOdd). exact H.
    - apply (Hrule path rule). exact H. }
  destruct Hgen as [ctx0 [cache [Hg [Hp [Hc Hd]]]]].
  apply _tpGLGenerateClippingMaskForRenderCache_begin in Hg.
  destruct Hg as [_ [Hp' [Hc' [Hd' _]]]].
  rewrite Hp in Hp'. rewrite Hc in Hc'. rewrite Hd in Hd'.
  split; [exact Hp'|].
  split; [intros H1; rewrite Hp', H1; reflexivity|].
  split; [intros H2; rewrite Hp', H2; reflexivity|].
  split; [exact Hc'|exact Hd'].
Qed.


Lemma tpBeginClipping_planes_witness :
  ((exists cache, tpBeginClippingFromRenderCache tpContextCreate cache
                  = Some (tpFalse, clip_once))
   \/ (exists path, tpBeginClipping no_internal_cache tpContextCreate path
                    = Some (tpFalse, clip_once))
   \/ (exists path rule, tpBeginClippingWithFillRule no_internal_cache tpContextCreate path rule
                         = Some (tpFalse, clip_once)))
  /\ currentClipStencilPlane clip_once = _kTpGLClippingStencilPlaneTwo
  /\ bCanSwapStencilPlanes clip_once = tpTrue
  /\ clippingStackDepth clip_once = 1%Z.
Proof.
  assert (H : (exists cache, tpBeginClippingFromRenderCache tpContextCreate cache
                  = Some (tpFalse, clip_once))
   \/ (exists path, tpBeginClipping no_internal_cache tpContextCreate path
                    = Some (tpFalse, clip_once))
   \/ (exists path rule, tpBeginClippingWithFillRule no_internal_cache tpContextCreate path rule
                         = Some (tpFalse, clip_once))).
  { left. exists (Some triangle_cache). vm_compute. reflexivity. }
  split; [exact H|].
  destruct (tpBeginClipping_planes b32 b32_arith no_internal_cache tpContextCreate
              clip_once H) as [_ [H1 [_ [Hc Hd]]]].
  split; [apply H1; reflexivity|]. split; [exact Hc|exact Hd].
Defined.

(** C1, the claim as it is written, fails: after [tpContextCreate], two
    nested clips and [tpEndClipping], which swaps the planes back and clears
    [bCanSwapStencilPlanes], the next clip flips the plane and leaves the
    flag cleared. *)
Lemma tpBeginClipping_keeps_cleared_flag :
  exists c3 c4 : _tpGLContext b32,
    tpEndClipping (begin_from clip_once) = Some (tpFalse, c3)
    /\ bCanSwapStencilPlanes c3 = tpFalse
    /\ tpBeginClippingFromRenderCache c3 (Some triangle_cache) = Some (tpFalse, c4)
    /\ currentClipStencilPlane c4 = other_clip_plane (currentClipStencilPlane c3)
    /\ bCanSwapStencilPlanes c4 = tpFalse.
Proof.
  eexists. eexists.
  split; [vm_compute; reflexivity|].
  split; [vm_compute; reflexivity|].
  split; [vm_compute; reflexivity|].
  split; vm_compute; reflexivity.
Qed.

(** ** The vector and matrix library over the real numbers *)

Lemma mat2_eq (a b : tpMat2 R) :
  v0 a = v0 b -> v1 a = v1 b -> v2 a = v2 b -> v3 a = v3 b -> a = b.
Proof. destruct a, b; simpl; intros; subst; reflexivity. Qed.

Lemma transform_eq (a b : tpTransform R) : tm a = tm b -> tt a = tt b -> a = b.
Proof. destruct a, b; simpl; intros; subst; reflexivity. Qed.

Ltac real_ops :=
  cbn [vx vy v0 v1 v2 v3 tm tt fadd fsub fmul fdiv fneg fconst R_arith
       tpMat2Mult tpMat2Invert tpMat2MakeIdentity tpMat2Make tpMat2MultVec2
       tpTransformInvert tpTransformCombine tpTransformApply tpTransformMakeIdentity
       tpVec2Add tpVec2Sub tpVec2Make tpVec2MultScalar c0 c1 c2].

(** X1.  For a matrix with a determinant that is not zero, [tpMat2Invert]
    gives the inverse: the product with the matrix, on either side, is the
    identity of [tpMat2MakeIdentity]. *)
Theorem tpMat2Invert_inverse (m : tpMat2 R) :
  v0 m * v3 m - v1 m * v2 m <> 0 ->
  tpMat2Mult m (tpMat2Invert m) = tpMat2MakeIdentity
  /\ tpMat2Mult (tpMat2Invert m) m = tpMat2MakeIdentity.
Proof.
  intros Hdet. split; apply mat2_eq; unfold c0, c1; real_ops; field; exact Hdet.
Qed.

Lemma tpMat2Invert_inverse_witness :
  tpMat2Mult (tpMat2Make 2 1 1 1) (tpMat2Invert (tpMat2Make 2 1 1 1))
  = tpMat2MakeIdentity (F := R).
Proof.
  apply (tpMat2Invert_inverse (tpMat2Make 2 1 1 1)). simpl. lra.
Defined.

(** X2.  For a transform whose matrix has a determinant that is not zero,
    [tpTransformInvert] undoes [tpTransformApply] and is undone by it, and
    combined with the transform on either side it is
    [tpTransformMakeIdentity]. *)
Theorem tpTransformInvert_inverse (t : tpTransform R) (p : tpVec2 R) :
  v0 (tm t) * v3 (tm t) - v1 (tm t) * v2 (tm t) <> 0 ->
  tpTransformApply (tpTransformInvert t) (tpTransformApply t p) = p
  /\ tpTransformApply t (tpTransformApply (tpTransformInvert t) p) = p
  /\ tpTransformCombine (tpTransformInvert t) t = tpTransformMakeIdentity
  /\ tpTransformCombine t (tpTransformInvert t) = tpTransformMakeIdentity.
Proof.
  intros Hdet.
  split; [|split; [|split]].
  - apply vec2_eq; unfold c0, c1; real_ops; field; exact Hdet.
  - apply vec2_eq; unfold c0, c1; real_ops; field; exact Hdet.
  - apply transform_eq; [apply mat2_eq|apply vec2_eq]; unfold c0, c1; real_ops;
      field; exact Hdet.
  - apply transform_eq; [apply mat2_eq|apply vec2_eq]; unfold c0, c1; real_ops;
      field; exact Hdet.
Qed.

Lemma tpTransformInvert_inverse_witness :
  tpTransformApply (tpTransformInvert (tpTransformMake 2 1 5 1 1 7))
                   (tpTransformApply (tpTransformMake 2 1 5 1 1 7) (mkVec2 3 4))
  = mkVec2 3 4.
Proof.
  apply (tpTransformInvert_inverse (tpTransformMake 2 1 5 1 1 7) (mkVec2 3 4)).
  simpl. lra.
Defined.

(** X3.  [tpTransformCombine] is associative and
    [tpTransformMakeIdentity] is neutral for it on both sides. *)
Theorem tpTransformCombine_monoid (a b c : tpTransform R) :
  tpTransformCombine (tpTransformCombine a b) c
  = tpTransformCombine a (tpTransformCombine b c)
  /\ tpTransformCombine tpTransformMakeIdentity a = a
  /\ tpTransformCombine a tpTransformMakeIdentity = a.
Proof.
  split; [|split]; (apply transform_eq; [apply mat2_eq|apply vec2_eq]);
    unfold c0, c1; real_ops; field.
Qed.

Lemma mat4_eq (a b : tpMat4 R) :
  m0 a = m0 b -> m1 a = m1 b -> m2 a = m2 b -> m3 a = m3 b ->
  m4 a = m4 b -> m5 a = m5 b -> m6 a = m6 b -> m7 a = m7 b ->
  m8 a = m8 b -> m9 a = m9 b -> m10 a = m10 b -> m11 a = m11 b ->
  m12 a = m12 b -> m13 a = m13 b -> m14 a = m14 b -> m15 a = m15 b -> a = b.
Proof. destruct a, b; simpl; intros; subst; reflexivity. Qed.

Ltac real_mat4 :=
  apply mat4_eq; unfold c0, c1;
  cbn [m0 m1 m2 m3 m4 m5 m6 m7 m8 m9 m10 m11 m12 m13 m14 m15
       tpMat4Mult tpMat4Make tpMat4MakeIdentity tpMat4MakeFrom2DTransform
       tpTransformCombine tpTransformApply tpTransformMakeIdentity
       tpMat2Mult tpMat2MultVec2 tpMat2MakeIdentity tpMat2Make tpVec2Add tpVec2Make
       vx vy v0 v1 v2 v3 tm tt fadd fsub fmul fdiv fneg fconst R_arith];
  unfold c0, c1; cbn [fconst R_arith];
  field.

(** X4.  [tpMat4MakeFrom2DTransform] turns [tpTransformCombine] into
    [tpMat4Mult]: the product of the matrices of two transforms is the matrix
    of the combined transform, and the identity transform gives
    [tpMat4MakeIdentity]. *)
Theorem tpMat4MakeFrom2DTransform_combine (a b : tpTransform R) :
  tpMat4Mult (tpMat4MakeFrom2DTransform a) (tpMat4MakeFrom2DTransform b)
  = tpMat4MakeFrom2DTransform (tpTransformCombine a b)
  /\ tpMat4MakeFrom2DTransform tpTransformMakeIdentity = tpMat4MakeIdentity (F := R).
Proof.
  split; real_mat4.
Qed.

(** X5.  [tpMat4Mult] is associative and [tpMat4MakeIdentity] is neutral
    for it on both sides. *)
Theorem tpMat4Mult_monoid (a b c : tpMat4 R) :
  tpMat4Mult (tpMat4Mult a b) c = tpMat4Mult a (tpMat4Mult b c)
  /\ tpMat4Mult tpMat4MakeIdentity a = a
  /\ tpMat4Mult a tpMat4MakeIdentity = a.
Proof.
  split; [|split]; real_mat4.
Qed.

Lemma sin_cos_unit (a : R) : sin a * sin a + cos a * cos a = 1.
Proof. pose proof (sin2_cos2 a) as H. unfold Rsqr in H. exact H. Qed.

(** X6.  Rotations compose by adding their angles: the product of
    [tpMat2MakeRotation a] and [tpMat2MakeRotation b] is
    [tpMat2MakeRotation (a + b)], the rotation by 0 is the identity, the
    inverse of a rotation is the rotation by the opposite angle, and a
    rotation keeps the length of every vector. *)
Theorem tpMat2MakeRotation_compose (a b : R) (p : tpVec2 R) :
  tpMat2Mult (tpMat2MakeRotation a) (tpMat2MakeRotation b) = tpMat2MakeRotation (a + b)
  /\ tpMat2MakeRotation 0 = tpMat2MakeIdentity
  /\ tpMat2Invert (tpMat2MakeRotation a) = tpMat2MakeRotation (- a)
  /\ tpVec2Length (tpMat2MultVec2 (tpMat2MakeRotation a) p) = tpVec2Length p.
Proof.
  unfold tpMat2MakeRotation, tpMat2MakeIdentity, tpMat2Make, tpMat2Mult, tpMat2Invert,
    tpMat2MultVec2, tpVec2Length.
  cbn [fsin fcos R_libm vx vy v0 v1 v2 v3 fadd fsub fmul fdiv fneg fsqrt fconst R_arith].
  split; [|split; [|split]].
  - apply mat2_eq; cbn [v0 v1 v2 v3]; rewrite ?cos_plus, ?sin_plus; ring.
  - unfold c0, c1; cbn [fconst R_arith]. rewrite cos_0, sin_0.
    apply mat2_eq; cbn [v0 v1 v2 v3]; field.
  - unfold c1; cbn [fconst R_arith]. rewrite cos_neg, sin_neg.
    pose proof (sin_cos_unit a) as Hu.
    replace (cos a * cos a - sin a * - sin a) with 1 by lra.
    apply mat2_eq; cbn [v0 v1 v2 v3]; field.
  - f_equal.
    pose proof (sin_cos_unit a) as Hu.
    replace ((vx p * cos a + vy p * - sin a) * (vx p * cos a + vy p * - sin a)
             + (vx p * sin a + vy p * cos a) * (vx p * sin a + vy p * cos a))
      with ((vx p * vx p + vy p * vy p) * (sin a * sin a + cos a * cos a)) by ring.
    rewrite Hu. ring.
Qed.

Lemma sum_squares_pos (x y : R) : x <> 0 \/ y <> 0 -> 0 < x * x + y * y.
Proof. intros [H|H]; nra. Qed.

(** X7.  For a vector that is not zero, [tpVec2Normalize] returns a vector
    of length 1 that, scaled by the length of the input, is the input again;
    [tpVec2NormalizeSelf] computes the same vector, and its perpendicular is
    orthogonal to the input. *)
Theorem tpVec2Normalize_unit (p : tpVec2 R) :
  vx p <> 0 \/ vy p <> 0 ->
  tpVec2Length (tpVec2Normalize p) = 1
  /\ tpVec2MultScalar (tpVec2Normalize p) (tpVec2Length p) = p
  /\ tpVec2NormalizeSelf p = tpVec2Normalize p
  /\ tpVec2Dot (tpVec2Perp (tpVec2Normalize p)) p = 0.
Proof.
  intros Hp. pose proof (sum_squares_pos _ _ Hp) as Hpos.
  unfold tpVec2Normalize, tpVec2NormalizeSelf, tpVec2Length, tpVec2MultScalar,
    tpVec2Dot, tpVec2Perp, c1.
  cbn [vx vy fadd fsub fmul fdiv fneg fsqrt fconst R_arith].
  set (n := sqrt (vx p * vx p + vy p * vy p)).
  assert (Hn : 0 < n) by (apply sqrt_lt_R0; exact Hpos).
  assert (Hnn : n * n = vx p * vx p + vy p * vy p) by (apply sqrt_sqrt; lra).
  split; [|split; [|split]].
  - replace (vx p * (1 / 1 / n) * (vx p * (1 / 1 / n))
             + vy p * (1 / 1 / n) * (vy p * (1 / 1 / n)))
      with ((vx p * vx p + vy p * vy p) / (n * n)) by (field; lra).
    rewrite <- Hnn. replace (n * n / (n * n)) with 1 by (field; lra).
    apply sqrt_1.
  - apply vec2_eq; cbn [vx vy]; field; lra.
  - reflexivity.
  - field; lra.
Qed.

Lemma tpVec2Normalize_unit_witness :
  tpVec2Length (tpVec2Normalize (mkVec2 3 4)) = 1.
Proof.
  apply (tpVec2Normalize_unit (mkVec2 3 4)). left. simpl. lra.
Defined.

Lemma Reqb_false (a b : R) : Reqb a b = false <-> a <> b.
Proof.
  split.
  - intros H E. apply Reqb_true in E. congruence.
  - intros H. destruct (Reqb a b) eqn:E; [|reflexivity].
    apply Reqb_true in E. contradiction.
Qed.

Lemma tpTransformEquals_refl (t : tpTransform R) : tpTransformEquals t t = true.
Proof.
  unfold tpTransformEquals, tpMat2Equals, tpVec2Equals.
  cbn [feqb R_arith]. rewrite !Reqb_refl. reflexivity.
Qed.

Section RealContext.
Variable atan2 : R -> R -> R.

(** The scale that [tpMat2Decompose] reads off a matrix with a first row
    that is not zero. *)
Lemma tpMat2Decompose_scale (m : tpMat2 R) :
  v0 m <> 0 \/ v2 m <> 0 ->
  fst (fst (@tpMat2Decompose R R_arith R_libm (R_libm2 atan2) m))
  = mkVec2 (sqrt (v0 m * v0 m + v2 m * v2 m))
           ((v0 m * v3 m - v2 m * v1 m) / sqrt (v0 m * v0 m + v2 m * v2 m)).
Proof.
  intros H. unfold tpMat2Decompose.
  cbn [feqb R_arith]. unfold c0. cbn [fconst R_arith].
  replace (0 / 1) with 0 by field.
  replace (negb (Reqb (v0 m) 0) || negb (Reqb (v2 m) 0)) with true.
  2:{ symmetry. apply orb_true_iff.
      destruct H as [H|H]; [left|right]; apply negb_true_iff, Reqb_false; exact H. }
  reflexivity.
Qed.

(** X8.  [tpSetTransform] with a transform that differs from the current
    one and whose matrix is a rotation times a uniform scale [s > 0] stores
    the transform, sets [transformScale] to [s], increments [transformID] and
    marks the projection dirty. *)
Theorem tpSetTransform_scale (ctx : _tpGLTransformState R) (s angle x y : R) :
  0 < s ->
  tpTransformEquals
    (mkTransform (tpMat2Mult (tpMat2MakeRotation angle) (tpMat2MakeScale s s)) (mkVec2 x y))
    (transform ctx) = false ->
  exists ctx',
    @tpSetTransform R R_arith R_libm (R_libm2 atan2) ctx
      (mkTransform (tpMat2Mult (tpMat2MakeRotation angle) (tpMat2MakeScale s s))
                   (mkVec2 x y))
    = (tpFalse, ctx')
    /\ transform ctx'
       = mkTransform (tpMat2Mult (tpMat2MakeRotation angle) (tpMat2MakeScale s s))
                     (mkVec2 x y)
    /\ transformScale ctx' = s
    /\ transformID ctx' = (transformID ctx + 1)%Z
    /\ bTransformProjDirty ctx' = tpTrue.
Proof.
  intros Hs Hne.
  set (t := mkTransform _ _) in *.
  unfold tpSetTransform. rewrite Hne. cbn [negb].
  unfold tpTransformDecompose.
  pose proof (sin_cos_unit angle) as Hu.
  assert (Hm0 : v0 (tm t) = s * cos angle).
  { subst t. unfold tpMat2MakeRotation, tpMat2MakeScale, tpMat2Make, tpMat2Mult, c0.
    cbn [tm v0 v1 v2 v3 fsin fcos R_libm fadd fsub fmul fdiv fneg fconst R_arith]. field. }
  assert (Hm1 : v1 (tm t) = s * sin angle).
  { subst t. unfold tpMat2MakeRotation, tpMat2MakeScale, tpMat2Make, tpMat2Mult, c0.
    cbn [tm v0 v1 v2 v3 fsin fcos R_libm fadd fsub fmul fdiv fneg fconst R_arith]. field. }
  assert (Hm2 : v2 (tm t) = - (s * sin angle)).
  { subst t. unfold tpMat2MakeRotation, tpMat2MakeScale, tpMat2Make, tpMat2Mult, c0.
    cbn [tm v0 v1 v2 v3 fsin fcos R_libm fadd fsub fmul fdiv fneg fconst R_arith]. field. }
  assert (Hm3 : v3 (tm t) = s * cos angle).
  { subst t. unfold tpMat2MakeRotation, tpMat2MakeScale, tpMat2Make, tpMat2Mult, c0.
    cbn [tm v0 v1 v2 v3 fsin fcos R_libm fadd fsub fmul fdiv fneg fconst R_arith]. field. }
  assert (Hrow : v0 (tm t) <> 0 \/ v2 (tm t) <> 0).
  { rewrite Hm0, Hm2.
    destruct (Req_dec_T (cos angle) 0) as [Hc|Hc].
    - right. rewrite Hc in Hu. assert (sin angle <> 0) by nra. nra.
    - left. nra. }
  pose proof (tpMat2Decompose_scale (tm t) Hrow) as Hd.
  destruct (@tpMat2Decompose R R_arith R_libm (R_libm2 atan2) (tm t))
    as [[scale skew] rotation].
  cbn [fst] in Hd. subst scale.
  eexists. split; [reflexivity|].
  cbn [transform transformScale transformID bTransformProjDirty vx vy].
  split; [reflexivity|]. split; [|split; reflexivity].
  rewrite Hm0, Hm1, Hm2, Hm3.
  assert (Hr : sqrt (s * cos angle * (s * cos angle)
                     + - (s * sin angle) * - (s * sin angle)) = s).
  { replace (s * cos angle * (s * cos angle) + - (s * sin angle) * - (s * sin angle))
      with (s * s * (sin angle * sin angle + cos angle * cos angle)) by ring.
    rewrite Hu, Rmult_1_r. apply sqrt_square. lra. }
  rewrite Hr.
  replace ((s * cos angle * (s * cos angle) - - (s * sin angle) * (s * sin angle)) / s)
    with (s * (sin angle * sin angle + cos angle * cos angle)) by (field; lra).
  rewrite Hu, Rmult_1_r.
  unfold TARP_MAX. destruct (fltb s s); reflexivity.
Qed.

(** X9.  Setting the same transform twice in a row changes nothing the
    second time: the context, with its [transformID], stays as the first call
    left it. *)
Theorem tpSetTransform_twice (ctx : _tpGLTransformState R) (t : tpTransform R) :
  @tpSetTransform R R_arith R_libm (R_libm2 atan2)
    (snd (@tpSetTransform R R_arith R_libm (R_libm2 atan2) ctx t)) t
  = (tpFalse, snd (@tpSetTransform R R_arith R_libm (R_libm2 atan2) ctx t)).
Proof.
  unfold tpSetTransform at 2 3.
  destruct (tpTransformEquals t (transform ctx)) eqn:He; cbn [negb].
  - cbn [snd]. unfold tpSetTransform. rewrite He. reflexivity.
  - destruct (@tpTransformDecompose R R_arith R_libm (R_libm2 atan2) t)
      as [[[tr scale] skew] rotation].
    cbn [snd]. unfold tpSetTransform. cbn [transform].
    rewrite tpTransformEquals_refl. reflexivity.
Qed.

End RealContext.

Lemma tpSetTransform_scale_witness :
  exists ctx',
    @tpSetTransform R R_arith R_libm (R_libm2 (fun _ _ => 0))
      (mkTransformState tpTransformMakeIdentity tpMat4MakeIdentity tpMat4MakeIdentity
                        tpMat4MakeIdentity 1 0 0 tpFalse)
      (mkTransform (tpMat2Mult (tpMat2MakeRotation 0) (tpMat2MakeScale 2 2)) (mkVec2 0 0))
    = (tpFalse, ctx')
    /\ transformScale ctx' = 2.
Proof.
  destruct (tpSetTransform_scale (fun _ _ => 0)
              (mkTransformState tpTransformMakeIdentity tpMat4MakeIdentity
                 tpMat4MakeIdentity tpMat4MakeIdentity 1 0 0 tpFalse) 2 0 0 0)
    as [ctx' [H1 [_ [H2 _]]]].
  - lra.
  - unfold tpTransformEquals, tpMat2Equals, tpTransformMakeIdentity, tpMat2MakeIdentity,
      tpMat2MakeRotation, tpMat2MakeScale, tpMat2Make, tpMat2Mult, c0, c1.
    cbn [transform tm tt v0 v1 v2 v3 fsin fcos R_libm feqb fadd fsub fmul fdiv fneg
         fconst R_arith].
    rewrite cos_0, sin_0.
    replace (Reqb (2 * 1 + 0 / 1 * - 0) (1 / 1)) with false; [reflexivity|].
    symmetry. apply Reqb_false. lra.
  - exists ctx'. split; assumption.
Defined.

(** ** Subdivision and the points of a flattened curve *)

(** X10.  [_tpGLSubdivideCurve] at any parameter [t] splits the cubic at
    [t]: the first curve runs over the parameters [0..t] of the input, the
    second over [t..1], they meet at the point of parameter [t], and they
    keep the end points of the input. *)
Theorem _tpGLSubdivideCurve_parts (c : _tpGLCurve R) (t s : R) :
  cubic_point (fst (_tpGLSubdivideCurve c t)) s = cubic_point c (s * t)
  /\ cubic_point (snd (_tpGLSubdivideCurve c t)) s = cubic_point c (t + s * (1 - t))
  /\ p0 (fst (_tpGLSubdivideCurve c t)) = p0 c
  /\ p1 (fst (_tpGLSubdivideCurve c t)) = cubic_point c t
  /\ p0 (snd (_tpGLSubdivideCurve c t)) = cubic_point c t
  /\ p1 (snd (_tpGLSubdivideCurve c t)) = p1 c.
Proof.
  destruct c as [[a1 a2] [b1 b2] [e1 e2] [f1 f2]].
  split; [|split; [|split; [|split; [|split]]]];
    try reflexivity; apply vec2_eq; simpl; field.
Qed.

Lemma cubic_point_0 (c : _tpGLCurve R) : cubic_point c 0 = p0 c.
Proof. destruct c as [[a1 a2] [b1 b2] [e1 e2] [f1 f2]]. apply vec2_eq; simpl; ring. Qed.

Lemma cubic_point_1 (c : _tpGLCurve R) : cubic_point c 1 = p1 c.
Proof. destruct c as [[a1 a2] [b1 b2] [e1 e2] [f1 f2]]. apply vec2_eq; simpl; ring. Qed.

Lemma subcurve_whole (c : _tpGLCurve R) : subcurve c c 0 1.
Proof. intros s. f_equal. ring. Qed.

Lemma subcurve_halves (c d : _tpGLCurve R) (a b : R) :
  subcurve c d a b ->
  subcurve c (fst (_tpGLSubdivideCurve d chalf)) a ((a + b) / 2)
  /\ subcurve c (snd (_tpGLSubdivideCurve d chalf)) ((a + b) / 2) b.
Proof.
  intros H. split; intros s.
  - destruct (subdivide_bisects d s) as [H1 _]. rewrite H1, H. f_equal. field.
  - destruct (subdivide_bisects d s) as [_ H2]. rewrite H2, H. f_equal. field.
Qed.

Lemma ascending_weaken (lo lo' : R) (ts : list R) :
  lo' <= lo -> ascending lo ts -> ascending lo' ts.
Proof. destruct ts as [|t ts]; simpl; [auto|]. intros H [H1 H2]. split; [lra|exact H2]. Qed.

(** The vertices that the loop appends are points of the curve, at
    parameters that ascend to 1. *)
Lemma flatten_loop_on_curve (fuel : nat) (c : _tpGLCurve R) (tol : R) (cl bl : bool) :
  forall (st st' : flatten_state R) (a : R),
    flatten_loop fuel c tol cl bl st = Some st' ->
    covers c a (fs_stack st) ->
    exists ts,
      fs_vertices st'
      = fs_vertices st
        ++ (if fs_bFirstCurve st then
              match fs_stack st with [] => [] | _ :: _ => [cubic_point c a] end
            else [])
        ++ map (cubic_point c) ts
      /\ ascending a ts
      /\ (fs_stack st <> [] -> last ts 0 = 1).
Proof.
  induction fuel as [|fuel IH]; intros st st' a H Hc.
  - simpl in H. destruct (fs_stack st) eqn:E; [|discriminate].
    injection H as <-. exists [].
    destruct (fs_bFirstCurve st); simpl; rewrite ?app_nil_r;
      (split; [reflexivity|split; [exact I|intros; contradiction]]).
  - destruct (fs_stack st) as [|current below] eqn:E.
    + rewrite flatten_loop_done in H by assumption. injection H as <-.
      exists []. destruct (fs_bFirstCurve st); simpl; rewrite ?app_nil_r;
        (split; [reflexivity|split; [exact I|intros; contradiction]]).
    + rewrite flatten_loop_unfold in H by (rewrite E; discriminate).
      simpl in Hc. destruct Hc as [b [Hab [Hsub Hbelow]]].
      unfold flatten_step in H. rewrite E in H.
      destruct ((Z.of_nat (length (current :: below)) - 1 <? TARP_MAX_CURVE_SUBDIVISIONS - 1)%Z
                && negb (_tpGLIsCurveFlatEnough current tol)) eqn:Hd.
      * destruct (subcurve_halves c current a b Hsub) as [Hl Hr].
        destruct (IH _ _ a H) as [ts [Hv [Hasc Hlast]]].
        { cbn [fs_stack covers]. exists ((a + b) / 2). split; [lra|]. split; [exact Hl|].
          exists b. split; [lra|]. split; [exact Hr|exact Hbelow]. }
        cbn [fs_stack fs_vertices fs_bFirstCurve] in Hv, Hlast.
        exists ts. split; [exact Hv|]. split; [exact Hasc|].
        intros _. apply Hlast. discriminate.
      * assert (Hp0 : p0 current = cubic_point c a).
        { rewrite <- cubic_point_0, Hsub. f_equal. ring. }
        assert (Hp1 : p1 current = cubic_point c b).
        { rewrite <- cubic_point_1, Hsub. f_equal. ring. }
        destruct (fs_bFirstCurve st) eqn:Hf.
        -- destruct (IH _ _ b H Hbelow) as [ts [Hv [Hasc Hlast]]].
           cbn [fs_stack fs_vertices fs_bFirstCurve] in Hv, Hlast.
           exists (b :: ts). split.
           { rewrite Hv, Hp0, Hp1. cbn [app map]. rewrite <- app_assoc. reflexivity. }
           split; [split; [exact Hab|exact Hasc]|].
           intros _. destruct below as [|d below'].
           ++ rewrite flatten_loop_done in H by reflexivity. injection H as <-.
              cbn [fs_vertices] in Hv.
              assert (Hts : ts = []).
              { apply (f_equal (@length _)) in Hv. rewrite !length_app, length_map in Hv.
                simpl in Hv. destruct ts; [reflexivity|simpl in Hv; lia]. }
              subst ts. simpl in Hbelow. simpl. exact Hbelow.
           ++ specialize (Hlast ltac:(discriminate)).
              destruct ts as [|t ts']; [simpl in Hlast; lra|].
              change (last (b :: t :: ts') 0) with (last (t :: ts') 0). exact Hlast.
        -- destruct (IH _ _ b H Hbelow) as [ts [Hv [Hasc Hlast]]].
           cbn [fs_stack fs_vertices fs_bFirstCurve] in Hv, Hlast.
           exists (b :: ts). split.
           { rewrite Hv, Hp1. cbn [app map]. rewrite <- app_assoc. reflexivity. }
           split; [split; [exact Hab|exact Hasc]|].
           intros _. destruct below as [|d below'].
           ++ rewrite flatten_loop_done in H by reflexivity. injection H as <-.
              cbn [fs_vertices] in Hv.
              assert (Hts : ts = []).
              { apply (f_equal (@length _)) in Hv. rewrite !length_app, length_map in Hv.
                simpl in Hv. destruct ts; [reflexivity|simpl in Hv; lia]. }
              subst ts. simpl in Hbelow. simpl. exact Hbelow.
           ++ specialize (Hlast ltac:(discriminate)).
              destruct ts as [|t ts']; [simpl in Hlast; lra|].
              change (last (b :: t :: ts') 0) with (last (t :: ts') 0). exact Hlast.
Qed.

(** X11.  Over the real numbers [_tpGLFlattenCurve] returns, and the
    vertices it appends are points of the curve: after the start point (for
    the first curve only) come the points at parameters that ascend strictly
    within (0, 1] and end at 1, the end point of the curve. *)
Theorem _tpGLFlattenCurve_on_curve (curve : _tpGLCurve R) (tol : R)
    (cl bf bl : bool) (vs : list (tpVec2 R)) (js : list tpBool)
    (b : _tpGLRect R) (vc : Z) :
  exists fuel st' ts,
    _tpGLFlattenCurve fuel curve tol cl bf bl vs js b vc = Some st'
    /\ fs_vertices st'
       = vs ++ (if bf then [p0 curve] else []) ++ map (cubic_point curve) ts
    /\ ascending 0 ts
    /\ last ts 0 = 1.
Proof.
  destruct (_tpGLFlattenCurve_terminates curve tol cl bf bl vs js b vc) as [fuel [st' H]].
  exists fuel, st'.
  destruct (flatten_loop_on_curve fuel curve tol cl bl _ st' 0 H) as [ts [Hv [Ha Hl]]].
  { cbn [fs_stack covers]. exists 1. split; [lra|]. split; [apply subcurve_whole|reflexivity]. }
  exists ts. cbn [fs_stack fs_vertices fs_bFirstCurve] in Hv, Hl.
  rewrite cubic_point_0 in Hv.
  split; [exact H|]. split; [exact Hv|]. split; [exact Ha|].
  apply Hl. discriminate.
Qed.

(** ** The bounds that the flattener records *)

Lemma within_refl (a : _tpGLRect R) : within a a.
Proof. unfold within. lra. Qed.

Lemma within_trans (a b c : _tpGLRect R) : within a b -> within b c -> within a c.
Proof. unfold within. intros. lra. Qed.

Lemma inside_within (a b : _tpGLRect R) (v : tpVec2 R) :
  inside a v -> within a b -> inside b v.
Proof. unfold inside, within. intros. lra. Qed.

Lemma _tpGLEvaluatePointForBounds_R (p : tpVec2 R) (b : _tpGLRect R) :
  _tpGLEvaluatePointForBounds p b
  = mkRect (mkVec2 (Rmin (vx p) (vx (rmin b))) (Rmin (vy p) (vy (rmin b))))
           (mkVec2 (Rmax (vx p) (vx (rmax b))) (Rmax (vy p) (vy (rmax b)))).
Proof. unfold _tpGLEvaluatePointForBounds. rewrite !TARP_MIN_R, !TARP_MAX_R. reflexivity. Qed.

Lemma evaluate_inside (p : tpVec2 R) (b : _tpGLRect R) :
  inside (_tpGLEvaluatePointForBounds p b) p
  /\ within b (_tpGLEvaluatePointForBounds p b).
Proof.
  rewrite _tpGLEvaluatePointForBounds_R. unfold inside, within. cbn [rmin rmax vx vy].
  pose proof (Rmin_l (vx p) (vx (rmin b))). pose proof (Rmin_r (vx p) (vx (rmin b))).
  pose proof (Rmin_l (vy p) (vy (rmin b))). pose proof (Rmin_r (vy p) (vy (rmin b))).
  pose proof (Rmax_l (vx p) (vx (rmax b))). pose proof (Rmax_r (vx p) (vx (rmax b))).
  pose proof (Rmax_l (vy p) (vy (rmax b))). pose proof (Rmax_r (vy p) (vy (rmax b))).
  lra.
Qed.

Lemma merge_within (a b : _tpGLRect R) :
  within a (_tpGLMergeBounds a b) /\ within b (_tpGLMergeBounds a b).
Proof.
  unfold _tpGLMergeBounds. rewrite !_tpGLEvaluatePointForBounds_R.
  unfold within. cbn [rmin rmax vx vy].
  split.
  - pose proof (Rmin_r (vx (rmax b)) (Rmin (vx (rmin b)) (vx (rmin a)))).
    pose proof (Rmin_r (vx (rmin b)) (vx (rmin a))).
    pose proof (Rmin_r (vy (rmax b)) (Rmin (vy (rmin b)) (vy (rmin a)))).
    pose proof (Rmin_r (vy (rmin b)) (vy (rmin a))).
    pose proof (Rmax_r (vx (rmax b)) (Rmax (vx (rmin b)) (vx (rmax a)))).
    pose proof (Rmax_r (vx (rmin b)) (vx (rmax a))).
    pose proof (Rmax_r (vy (rmax b)) (Rmax (vy (rmin b)) (vy (rmax a)))).
    pose proof (Rmax_r (vy (rmin b)) (vy (rmax a))).
    lra.
  - pose proof (Rmin_r (vx (rmax b)) (Rmin (vx (rmin b)) (vx (rmin a)))).
    pose proof (Rmin_l (vx (rmin b)) (vx (rmin a))).
    pose proof (Rmin_r (vy (rmax b)) (Rmin (vy (rmin b)) (vy (rmin a)))).
    pose proof (Rmin_l (vy (rmin b)) (vy (rmin a))).
    pose proof (Rmax_l (vx (rmax b)) (Rmax (vx (rmin b)) (vx (rmax a)))).
    pose proof (Rmax_l (vy (rmax b)) (Rmax (vy (rmin b)) (vy (rmax a)))).
    lra.
Qed.

Lemma Forall_inside_within (a b : _tpGLRect R) (vs : list (tpVec2 R)) :
  within a b -> Forall (inside a) vs -> Forall (inside b) vs.
Proof.
  intros Hw H. apply Forall_forall. rewrite Forall_forall in H.
  intros v Hv. apply (inside_within a b); [apply H, Hv|exact Hw].
Qed.

(** One call of the loop widens the bounds, and the vertices it appends lie
    in the bounds it leaves. *)
Lemma flatten_loop_bounds (fuel : nat) (c : _tpGLCurve R) (tol : R) (cl bl : bool) :
  forall (st st' : flatten_state R),
    flatten_loop fuel c tol cl bl st = Some st' ->
    exists nv,
      fs_vertices st' = fs_vertices st ++ nv
      /\ within (fs_bounds st) (fs_bounds st')
      /\ Forall (inside (fs_bounds st')) nv.
Proof.
  induction fuel as [|fuel IH]; intros st st' H.
  - simpl in H. destruct (fs_stack st) eqn:E; [|discriminate].
    injection H as <-. exists []. rewrite app_nil_r.
    split; [reflexivity|]. split; [apply within_refl|constructor].
  - destruct (fs_stack st) as [|current below] eqn:E.
    + rewrite flatten_loop_done in H by assumption. injection H as <-.
      exists []. rewrite app_nil_r.
      split; [reflexivity|]. split; [apply within_refl|constructor].
    + rewrite flatten_loop_unfold in H by (rewrite E; discriminate).
      unfold flatten_step in H. rewrite E in H.
      destruct ((Z.of_nat (length (current :: below)) - 1 <? TARP_MAX_CURVE_SUBDIVISIONS - 1)%Z
                && negb (_tpGLIsCurveFlatEnough current tol)).
      * destruct (IH _ _ H) as [nv [Hv [Hw Hin]]].
        cbn [fs_vertices fs_bounds] in Hv, Hw. exists nv. auto.
      * destruct (fs_bFirstCurve st).
        -- destruct (IH _ _ H) as [nv [Hv [Hw Hin]]].
           cbn [fs_vertices fs_bounds] in Hv, Hw.
           destruct (evaluate_inside (p0 current) (fs_bounds st)) as [Hi0 Hw0].
           destruct (evaluate_inside (p1 current)
                       (_tpGLEvaluatePointForBounds (p0 current) (fs_bounds st)))
             as [Hi1 Hw1].
           exists ([p0 current; p1 current] ++ nv).
           split; [rewrite Hv, <- app_assoc; reflexivity|].
           split; [apply (within_trans _ _ _ Hw0), (within_trans _ _ _ Hw1), Hw|].
           apply Forall_app. split; [|exact Hin].
           constructor; [|constructor; [|constructor]].
           ++ apply (inside_within _ _ _ Hi0), (within_trans _ _ _ Hw1), Hw.
           ++ apply (inside_within _ _ _ Hi1), Hw.
        -- destruct (IH _ _ H) as [nv [Hv [Hw Hin]]].
           cbn [fs_vertices fs_bounds] in Hv, Hw.
           destruct (evaluate_inside (p1 current) (fs_bounds st)) as [Hi1 Hw1].
           exists ([p1 current] ++ nv).
           split; [rewrite Hv, <- app_assoc; reflexivity|].
           split; [apply (within_trans _ _ _ Hw1), Hw|].
           apply Forall_app. split; [|exact Hin].
           constructor; [|constructor].
           apply (inside_within _ _ _ Hi1), Hw.
Qed.

Lemma flatten_segments_bounds (rest : list (tpSegment R)) :
  forall (fuel : nat) (tol : R) (cl : bool) (tr : option (tpTransform R)) (j : Z)
         (lst : tpSegment R) (ltp : tpVec2 R) (st : flatten_state R)
         (x : tpSegment R * tpVec2 R * flatten_state R),
    flatten_segments fuel tol cl tr j lst rest ltp st = Some x ->
    exists nv,
      fs_vertices (snd x) = fs_vertices st ++ nv
      /\ within (fs_bounds st) (fs_bounds (snd x))
      /\ Forall (inside (fs_bounds (snd x))) nv.
Proof.
  induction rest as [|cur rest IH]; intros fuel tol cl tr j lst ltp st x H.
  - simpl in H. injection H as <-. exists []. cbn [snd]. rewrite app_nil_r.
    split; [reflexivity|]. split; [apply within_refl|constructor].
  - simpl in H.
    destruct (_tpGLFlattenCurve fuel _ tol cl (j =? 1)%Z tpFalse (fs_vertices st)
                (fs_joints st) (fs_bounds st) (fs_vertexCount st)) as [st1|] eqn:E1;
      [|discriminate].
    unfold _tpGLFlattenCurve in E1.
    destruct (flatten_loop_bounds _ _ _ _ _ _ _ E1) as [nv1 [Hv1 [Hw1 Hin1]]].
    cbn [fs_vertices fs_bounds] in Hv1, Hw1.
    destruct (IH _ _ _ _ _ _ _ _ _ H) as [nv2 [Hv2 [Hw2 Hin2]]].
    exists (nv1 ++ nv2).
    split; [rewrite Hv2, Hv1, app_assoc; reflexivity|].
    split; [apply (within_trans _ _ _ Hw1), Hw2|].
    apply Forall_app. split; [|exact Hin2].
    apply (Forall_inside_within _ _ _ Hw2 Hin1).
Qed.

Lemma _tpGLFlattenContour_terminates (contour : _tpGLContour R) (tol : R)
    (tr : option (tpTransform R)) (outV : list (tpVec2 R)) (outJ : list tpBool)
    (mb : _tpGLRect R) (oc : _tpGLRenderCacheContour) (uninit : tpVec2 R) :
  exists fuel r, _tpGLFlattenContour fuel contour tol tr outV outJ mb oc uninit = Some r.
Proof.
  unfold _tpGLFlattenContour.
  destruct (segments contour) as [|first rest]; [exists O; eexists; reflexivity|].
  set (st0 := mkFlatten [] false outV outJ _tpGLInitBounds 0).
  destruct (flatten_segments_terminates rest tol (bIsClosed contour) tr 1 first uninit st0)
    as (f1 & [[lst ltp] st] & E1).
  destruct (_tpGLFlattenCurve_terminates (contour_curve tr true ltp lst first) tol
              (bIsClosed contour) tpFalse tpTrue
              (fs_vertices st) (fs_joints st) (fs_bounds st) (fs_vertexCount st))
    as (f2 & st2 & E2).
  exists (Nat.max f1 f2).
  rewrite (flatten_segments_mono _ _ _ _ _ _ _ _ _ _ _ (Nat.le_max_l _ _) E1).
  unfold _tpGLFlattenCurve in E2 |- *.
  rewrite (flatten_loop_mono _ _ _ _ _ _ _ _ (Nat.le_max_r f1 f2) E2).
  destruct (bIsClosed contour && _); eexists; reflexivity.
Qed.

(** X12.  Over the real numbers [_tpGLFlattenContour] returns, every vertex
    it appends lies inside the bounds it stores in the contour and inside the
    merged bounds it returns, and the merged bounds contain the bounds that
    were passed in. *)
Theorem _tpGLFlattenContour_bounds (contour : _tpGLContour R) (tol : R)
    (tr : option (tpTransform R)) (outV : list (tpVec2 R)) (outJ : list tpBool)
    (mb : _tpGLRect R) (oc : _tpGLRenderCacheContour) (uninit : tpVec2 R) :
  exists fuel r nv b,
    _tpGLFlattenContour fuel contour tol tr outV outJ mb oc uninit = Some r
    /\ fr_vertices r = outV ++ nv
    /\ bounds (fr_contour r) = Some b
    /\ Forall (inside b) nv
    /\ Forall (inside (fr_mergeBounds r)) nv
    /\ within mb (fr_mergeBounds r).
Proof.
  destruct (_tpGLFlattenContour_terminates contour tol tr outV outJ mb oc uninit)
    as [fuel [r H]].
  exists fuel, r. pose proof H as Hres. unfold _tpGLFlattenContour in H.
  assert (Hfin : forall st nv,
             fs_vertices st = outV ++ nv ->
             Forall (inside (fs_bounds st)) nv ->
             Forall (inside (fs_bounds st)) nv
             /\ Forall (inside (_tpGLMergeBounds mb (fs_bounds st))) nv
             /\ within mb (_tpGLMergeBounds mb (fs_bounds st))).
  { intros st nv _ Hin. destruct (merge_within mb (fs_bounds st)) as [Ha Hb].
    split; [exact Hin|]. split; [|exact Ha].
    apply (Forall_inside_within _ _ _ Hb Hin). }
  destruct (segments contour) as [|first rest].
  - injection H as <-. exists [], _tpGLInitBounds. cbn [fr_vertices fr_contour
      fr_mergeBounds bounds fs_vertices fs_bounds]. rewrite app_nil_r.
    split; [exact Hres|]. split; [reflexivity|]. split; [reflexivity|].
    split; [constructor|]. split; [constructor|].
    apply (merge_within mb _tpGLInitBounds).
  - destruct (flatten_segments _ tol (bIsClosed contour) tr 1 first rest uninit _)
      as [[[lst ltp] st]|] eqn:E1; [|discriminate].
    destruct (flatten_segments_bounds _ _ _ _ _ _ _ _ _ _ E1) as [nv1 [Hv1 [Hw1 Hin1]]].
    cbn [snd fs_vertices fs_bounds] in Hv1, Hw1, Hin1.
    destruct (bIsClosed contour && _).
    + destruct (_tpGLFlattenCurve _ _ tol (bIsClosed contour) tpFalse tpTrue _ _ _ _)
        as [st2|] eqn:E2; [|discriminate].
      injection H as <-.
      unfold _tpGLFlattenCurve in E2.
      destruct (flatten_loop_bounds _ _ _ _ _ _ _ E2) as [nv2 [Hv2 [Hw2 Hin2]]].
      cbn [fs_vertices fs_bounds] in Hv2, Hw2.
      exists (nv1 ++ nv2), (fs_bounds st2).
      cbn [fr_vertices fr_contour fr_mergeBounds bounds].
      assert (Hv : fs_vertices st2 = outV ++ nv1 ++ nv2).
      { rewrite Hv2, Hv1, app_assoc. reflexivity. }
      split; [exact Hres|]. split; [exact Hv|]. split; [reflexivity|].
      apply (Hfin st2 (nv1 ++ nv2) Hv).
      apply Forall_app. split; [|exact Hin2].
      apply (Forall_inside_within _ _ _ Hw2 Hin1).
    + injection H as <-. exists nv1, (fs_bounds st).
      cbn [fr_vertices fr_contour fr_mergeBounds bounds].
      split; [exact Hres|]. split; [exact Hv1|]. split; [reflexivity|].
      apply (Hfin st nv1 Hv1 Hin1).
Qed.

Lemma FLT_MAX_pos : 0 < @FLT_MAX R _.
Proof.
  unfold FLT_MAX. cbn [fconst R_arith].
  apply Rdiv_lt_0_compat; [apply IZR_lt; lia|lra].
Qed.

(** X13.  A contour with fewer than two segments appends no vertex and
    keeps the initial, inverted bounds [_tpGLInitBounds]; merging those into
    bounds within the range of [float] leaves the rectangle from
    [-FLT_MAX] to [FLT_MAX] in both coordinates. *)
Theorem _tpGLFlattenContour_no_vertex (fuel : nat) (contour : _tpGLContour R) (tol : R)
    (tr : option (tpTransform R)) (outV : list (tpVec2 R)) (outJ : list tpBool)
    (mb : _tpGLRect R) (oc : _tpGLRenderCacheContour) (uninit : tpVec2 R) :
  (length (segments contour) <= 1)%nat ->
  in_float_range mb ->
  exists r,
    _tpGLFlattenContour fuel contour tol tr outV outJ mb oc uninit = Some r
    /\ fr_vertices r = outV
    /\ fr_joints r = outJ
    /\ fillVertexCount (fr_outContour r) = 0%Z
    /\ bounds (fr_contour r) = Some _tpGLInitBounds
    /\ fr_mergeBounds r = whole_range.
Proof.
  intros Hlen [Hx0 [Hy0 [Hx1 Hy1]]].
  pose proof FLT_MAX_pos as Hpos.
  assert (Hmerge : _tpGLMergeBounds mb _tpGLInitBounds = whole_range).
  { unfold _tpGLMergeBounds, _tpGLInitBounds, whole_range.
    rewrite !_tpGLEvaluatePointForBounds_R. cbn [rmin rmax vx vy fneg R_arith].
    set (M := @FLT_MAX R _) in *.
    assert (Hmin : forall z, - M <= z -> Rmin (- M) (Rmin M z) = - M).
    { intros z Hz. unfold Rmin.
      destruct (Rle_dec M z); destruct (Rle_dec (- M) _); lra. }
    assert (Hmax : forall z, z <= M -> Rmax (- M) (Rmax M z) = M).
    { intros z Hz. unfold Rmax.
      destruct (Rle_dec M z); destruct (Rle_dec (- M) _); lra. }
    rewrite !Hmin, !Hmax by assumption. reflexivity. }
  unfold _tpGLFlattenContour.
  destruct (segments contour) as [|first [|second rest]]; [| |simpl in Hlen; lia].
  - eexists. split; [reflexivity|].
    cbn [fr_vertices fr_joints fr_outContour fr_contour fr_mergeBounds fillVertexCount
         bounds fs_vertices fs_joints fs_bounds fs_vertexCount].
    rewrite Hmerge. repeat (split; [reflexivity|]). reflexivity.
  - cbn [flatten_segments].
    change (fltb FLT_EPSILON (tpVec2Distance (position first) (position first)))
      with (Rltb FLT_EPSILON (tpVec2Distance (position first) (position first))).
    rewrite closing_test_single, andb_false_r.
    eexists. split; [reflexivity|].
    cbn [fr_vertices fr_joints fr_outContour fr_contour fr_mergeBounds fillVertexCount
         bounds fs_vertices fs_joints fs_bounds fs_vertexCount].
    rewrite Hmerge. repeat (split; [reflexivity|]). reflexivity.
Qed.

Lemma _tpGLFlattenContour_no_vertex_witness :
  exists r,
    _tpGLFlattenContour 0 (mkContour [tpSegmentMake 1 2 1 2 1 2] tpTrue tpFalse 0 None)
      (15 / 100) None [] [] _tpGLInitBounds (mkRcContour 0 0 0 0 tpFalse) (mkVec2 0 0)
    = Some r
    /\ fr_mergeBounds r = whole_range.
Proof.
  destruct (_tpGLFlattenContour_no_vertex 0
              (mkContour [tpSegmentMake 1 2 1 2 1 2] tpTrue tpFalse 0 None)
              (15 / 100) None [] [] _tpGLInitBounds (mkRcContour 0 0 0 0 tpFalse)
              (mkVec2 0 0)) as [r [H1 [_ [_ [_ [_ H2]]]]]].
  - simpl. lia.
  - pose proof FLT_MAX_pos. unfold in_float_range, _tpGLInitBounds.
    cbn [rmin rmax vx vy fneg R_arith]. lra.
  - exists r. split; assumption.
Defined.

(** ** The builder API: the paths it makes *)

Section ArrayFacts.
Context {T : Type}.

Lemma set_nth_length (l : list T) (n : nat) (x : T) :
  length (set_nth l n x) = length l.
Proof. revert n. induction l as [|y l IH]; intros [|n]; simpl; auto. Qed.

Lemma SetAt_length (l : list T) (i : Z) (x : T) : length (SetAt l i x) = length l.
Proof. unfold SetAt. destruct (0 <=? i)%Z; [apply set_nth_length|reflexivity]. Qed.

Lemma AtPtr_Some_range (l : list T) (i : Z) (x : T) :
  AtPtr l i = Some x -> (0 <= i < Z.of_nat (length l))%Z.
Proof.
  unfold AtPtr. destruct ((0 <=? i)%Z && (i <? Z.of_nat (length l))%Z) eqn:E;
    [|discriminate].
  apply andb_true_iff in E. destruct E as [E1 E2].
  apply Z.leb_le in E1. apply Z.ltb_lt in E2. intros _. lia.
Qed.

Lemma AtPtr_nth_error (l : list T) (i : Z) :
  (0 <= i < Z.of_nat (length l))%Z -> AtPtr l i = nth_error l (Z.to_nat i).
Proof.
  intros H. unfold AtPtr.
  replace ((0 <=? i)%Z && (i <? Z.of_nat (length l))%Z) with true; [reflexivity|].
  symmetry. apply andb_true_iff. split; [apply Z.leb_le|apply Z.ltb_lt]; lia.
Qed.

Lemma AtPtr_last_app (l : list T) (x : T) :
  AtPtr (l ++ [x]) (Z.of_nat (length l)) = Some x.
Proof.
  rewrite AtPtr_nth_error by (rewrite length_app; simpl; lia).
  rewrite Nat2Z.id, nth_error_app2 by lia. rewrite Nat.sub_diag. reflexivity.
Qed.

Lemma set_nth_last_app (l : list T) (x y : T) :
  set_nth (l ++ [x]) (length l) y = l ++ [y].
Proof. induction l as [|z l IH]; simpl; [reflexivity|]. rewrite IH. reflexivity. Qed.

Lemma SetAt_last_app (l : list T) (x y : T) :
  SetAt (l ++ [x]) (Z.of_nat (length l)) y = l ++ [y].
Proof.
  unfold SetAt. replace (0 <=? Z.of_nat (length l))%Z with true
    by (symmetry; apply Z.leb_le; lia).
  rewrite Nat2Z.id. apply set_nth_last_app.
Qed.

Lemma AtPtr_last_split (l : list T) (x : T) :
  AtPtr l (Z.of_nat (length l) - 1) = Some x -> exists l', l = l' ++ [x].
Proof.
  intros H. pose proof (AtPtr_Some_range _ _ _ H) as Hr.
  destruct (exists_last (l := l)) as [l' [y Hl]].
  { intros ->. simpl in Hr. lia. }
  subst l. exists l'. rewrite length_app in H. simpl in H.
  replace (Z.of_nat (length l' + 1) - 1)%Z with (Z.of_nat (length l')) in H by lia.
  rewrite AtPtr_last_app in H. injection H as ->. reflexivity.
Qed.

End ArrayFacts.

Lemma AtPtr_SetAt_other (T : Type) (l : list T) (i j : Z) (x : T) :
  i <> j -> AtPtr (SetAt l j x) i = AtPtr l i.
Proof.
  intros Hij. unfold AtPtr. rewrite SetAt_length.
  destruct ((0 <=? i)%Z && (i <? Z.of_nat (length l))%Z) eqn:E; [|reflexivity].
  apply andb_true_iff in E. destruct E as [E1 E2].
  apply Z.leb_le in E1. apply Z.ltb_lt in E2.
  unfold SetAt. destruct (0 <=? j)%Z eqn:Ej; [|reflexivity].
  apply Z.leb_le in Ej.
  assert (Hn : Z.to_nat i <> Z.to_nat j) by lia.
  revert Hn. generalize (Z.to_nat i) (Z.to_nat j). clear.
  induction l as [|y l IH]; intros n m Hn; [destruct m; reflexivity|].
  destruct m as [|m]; destruct n as [|n]; simpl; try reflexivity; try contradiction.
  apply IH. intros ->. contradiction.
Qed.

Section BuilderInvariant.
Context {F : Type} {A : Arith F} {L : Libm F}.
Variable n : nat.
Hypothesis Hn : (n <= 1)%nat.

(** The two shapes of a path that [path_ok] allows. *)
Lemma path_ok_shape (p : _tpGLPath F) :
  path_ok n p ->
  Forall (contour_ok n) (contours p)
  /\ ((currentContourIndex p = (-1)%Z /\ _tpGLCurrentContour p = None)
      \/ exists cs c,
           contours p = cs ++ [c]
           /\ currentContourIndex p = Z.of_nat (length cs)
           /\ _tpGLCurrentContour p = Some c
           /\ bIsClosed c = tpFalse
           /\ contour_ok n c).
Proof.
  intros [Hall Hcur]. split; [exact Hall|].
  destruct Hcur as [Hm|[c [Hi [Hc Ho]]]].
  - left. split; [exact Hm|]. unfold _tpGLCurrentContour. rewrite Hm. reflexivity.
  - right. pose proof Hc as Hc'. unfold _tpGLCurrentContour in Hc'.
    destruct (currentContourIndex p =? -1)%Z; [discriminate|].
    rewrite Hi in Hc'. destruct (AtPtr_last_split _ _ Hc') as [cs Hcs].
    exists cs, c. split; [exact Hcs|]. split.
    + rewrite Hi, Hcs, length_app. simpl. lia.
    + split; [exact Hc|]. split; [exact Ho|].
      rewrite Hcs in Hall. apply Forall_app in Hall. destruct Hall as [_ Hl].
      inversion Hl. assumption.
Qed.

(** A path whose last contour is current and open. *)
Lemma path_ok_current (cs : list (_tpGLContour F)) (c : _tpGLContour F) (d : tpBool) :
  Forall (contour_ok n) cs -> contour_ok n c -> bIsClosed c = tpFalse ->
  path_ok n (mkPath (cs ++ [c]) (Z.of_nat (length cs)) d).
Proof.
  intros Hcs Hc Ho. split.
  - cbn [contours]. apply Forall_app. split; [exact Hcs|]. constructor; [exact Hc|constructor].
  - right. exists c. cbn [contours currentContourIndex].
    split; [rewrite length_app; simpl; lia|]. split; [|exact Ho].
    unfold _tpGLCurrentContour. cbn [contours currentContourIndex].
    replace (Z.of_nat (length cs) =? -1)%Z with false by (symmetry; apply Z.eqb_neq; lia).
    apply AtPtr_last_app.
Qed.

Lemma path_ok_none (cs : list (_tpGLContour F)) (d : tpBool) :
  Forall (contour_ok n) cs -> path_ok n (mkPath cs (-1) d).
Proof. intros H. split; [exact H|]. left. reflexivity. Qed.

(** Segments appended to the current contour. *)
Lemma _tpGLContourAddSegments_current (cs : list (_tpGLContour F)) (c0 c : _tpGLContour F)
    (d : tpBool) (segs : list (tpSegment F)) :
  snd (_tpGLContourAddSegments (mkPath (cs ++ [c0]) (Z.of_nat (length cs)) d) c segs)
  = mkPath (cs ++ [mkContour (segments c ++ segs) tpTrue (bIsClosed c)
                             (Z.of_nat (length (segments c ++ segs)) - 1) (bounds c)])
           (Z.of_nat (length cs)) tpTrue.
Proof.
  unfold _tpGLContourAddSegments, store_current. cbn [snd contours currentContourIndex].
  rewrite SetAt_last_app. reflexivity.
Qed.

Lemma contour_ok_extend (c : _tpGLContour F) (segs : list (tpSegment F)) :
  bIsClosed c = tpFalse ->
  (n <= length (segments c ++ segs))%nat ->
  contour_ok n (mkContour (segments c ++ segs) tpTrue (bIsClosed c)
                          (Z.of_nat (length (segments c ++ segs)) - 1) (bounds c)).
Proof.
  intros Ho Hl. split; [exact Hl|]. split; [reflexivity|].
  cbn [bIsClosed]. rewrite Ho. discriminate.
Qed.

(** A new contour with its first segments. *)
Lemma path_ok_new_contour (p : _tpGLPath F) (segs : list (tpSegment F)) :
  Forall (contour_ok n) (contours p) -> (n <= length segs)%nat ->
  path_ok n (snd (_tpGLContourAddSegments (fst (_tpGLPathCreateNextContour p))
                    (snd (_tpGLPathCreateNextContour p)) segs)).
Proof.
  intros Hall Hs. unfold _tpGLPathCreateNextContour. cbn [fst snd].
  rewrite _tpGLContourAddSegments_current. cbn [segments bIsClosed bounds app].
  apply path_ok_current; [exact Hall| |reflexivity].
  split; [exact Hs|]. split; [reflexivity|discriminate].
Qed.

(** Segments appended to the current contour of a path of the builder. *)
Lemma path_ok_extend (p : _tpGLPath F) (c c' : _tpGLContour F)
    (segs : list (tpSegment F)) :
  path_ok n p -> _tpGLCurrentContour p = Some c ->
  bIsClosed c' = tpFalse -> (n <= length (segments c' ++ segs))%nat ->
  path_ok n (snd (_tpGLContourAddSegments p c' segs)).
Proof.
  intros Hok Hc Ho Hl.
  destruct (path_ok_shape p Hok) as [Hall [[_ Hnone]|[cs [c1 [Hcs [Hi [Hc1 [Ho1 Hok1]]]]]]]].
  - congruence.
  - destruct p as [contours0 cur d]. cbn [contours currentContourIndex] in *. subst.
    rewrite _tpGLContourAddSegments_current.
    apply Forall_app in Hall. destruct Hall as [Hcs _].
    apply path_ok_current; [exact Hcs|apply contour_ok_extend; assumption|exact Ho].
Qed.

(** An empty current contour is the one that [_tpGLPathNextEmptyContour]
    returns; otherwise it makes a new one. *)
Lemma _tpGLPathNextEmptyContour_ok (p : _tpGLPath F) (segs : list (tpSegment F)) :
  path_ok n p -> (n <= length segs)%nat ->
  path_ok n (snd (_tpGLContourAddSegments (fst (_tpGLPathNextEmptyContour p))
                    (snd (_tpGLPathNextEmptyContour p)) segs)).
Proof.
  intros Hok Hs.
  destruct (path_ok_shape p Hok) as [Hall Hcur].
  pose proof (path_ok_new_contour p segs Hall Hs) as Hnew.
  unfold _tpGLPathNextEmptyContour.
  destruct Hcur as [[_ Hnone]|[cs [c1 [Hcs [Hi [Hc1 [Ho1 _]]]]]]].
  - rewrite Hnone. exact Hnew.
  - rewrite Hc1. destruct (segments c1) eqn:Es; [|exact Hnew].
    cbn [fst snd]. apply (path_ok_extend p c1 c1 _ Hok Hc1 Ho1).
    rewrite Es. exact Hs.
Qed.

Lemma set_last_handleOut_shape (c : _tpGLContour F) (h : tpVec2 F) :
  length (segments (set_last_handleOut c h)) = length (segments c)
  /\ bIsClosed (set_last_handleOut c h) = bIsClosed c.
Proof.
  unfold set_last_handleOut. destruct (AtPtr (segments c) (lastSegmentIndex c)).
  - cbn [segments bIsClosed]. rewrite SetAt_length. split; reflexivity.
  - split; reflexivity.
Qed.

Lemma store_current_current (p : _tpGLPath F) (c c' : _tpGLContour F) :
  _tpGLCurrentContour p = Some c ->
  _tpGLCurrentContour (store_current p c') = Some c'.
Proof.
  unfold _tpGLCurrentContour, store_current. cbn [contours currentContourIndex].
  destruct (currentContourIndex p =? -1)%Z; [discriminate|].
  intros H. apply AtPtr_Some_range in H. apply AtPtr_SetAt. exact H.
Qed.

Lemma store_current_ok (p : _tpGLPath F) (c c' : _tpGLContour F) :
  path_ok n p -> _tpGLCurrentContour p = Some c ->
  contour_ok n c' -> bIsClosed c' = tpFalse ->
  path_ok n (store_current p c').
Proof.
  intros Hok Hc Hok' Ho.
  destruct (path_ok_shape p Hok) as [Hall [[_ Hnone]|[cs [c1 [Hcs [Hi _]]]]]];
    [congruence|].
  destruct p as [contours0 cur d]. cbn [contours currentContourIndex] in *. subst.
  unfold store_current. cbn [contours currentContourIndex]. rewrite SetAt_last_app.
  apply Forall_app in Hall. destruct Hall as [Hcs _].
  apply path_ok_current; assumption.
Qed.

Lemma tpPathLineTo_ok (p : _tpGLPath F) (x y : F) (e : error_buffer) :
  path_ok n p -> path_ok n (snd (fst (tpPathLineTo p x y e))).
Proof.
  intros Hok. unfold tpPathLineTo.
  destruct (_tpGLCurrentContour p) as [c|] eqn:Hc; [|exact Hok].
  destruct (lastSegmentIndex c =? -1)%Z; [exact Hok|].
  cbn [fst snd]. unfold _tpGLContourAddSegment.
  destruct (path_ok_shape p Hok) as [_ [[_ Hnone]|[cs [c1 [_ [_ [Hc1 [Ho1 _]]]]]]]];
    [congruence|].
  assert (c1 = c) by congruence. subst c1.
  apply (path_ok_extend p c c _ Hok Hc Ho1). rewrite length_app. simpl. lia.
Qed.

Lemma tpPathCubicCurveTo_ok (p : _tpGLPath F) (h0x h0y h1x h1y x y : F)
    (e : error_buffer) :
  path_ok n p -> path_ok n (snd (fst (tpPathCubicCurveTo p h0x h0y h1x h1y x y e))).
Proof.
  intros Hok. unfold tpPathCubicCurveTo.
  destruct (_tpGLCurrentContour p) as [c|] eqn:Hc; [|exact Hok].
  destruct (lastSegmentIndex c =? -1)%Z; [exact Hok|].
  cbn [fst snd]. unfold _tpGLContourAddSegment.
  destruct (path_ok_shape p Hok) as [_ [[_ Hnone]|[cs [c1 [_ [_ [Hc1 [Ho1 Hok1]]]]]]]];
    [congruence|].
  assert (c1 = c) by congruence. subst c1.
  destruct (set_last_handleOut_shape c (tpVec2Make h0x h0y)) as [Hlen Hcl].
  set (c' := set_last_handleOut c (tpVec2Make h0x h0y)) in *.
  assert (Ho' : bIsClosed c' = tpFalse) by congruence.
  apply (path_ok_extend (store_current p c') c' c' _).
  - apply (store_current_ok p c c' Hok Hc); [|exact Ho'].
    destruct Hok1 as [H1 [H2 H3]]. split; [lia|]. split.
    + subst c'. unfold set_last_handleOut.
      destruct (AtPtr (segments c) (lastSegmentIndex c)); cbn [lastSegmentIndex segments];
        rewrite ?SetAt_length; exact H2.
    + rewrite Ho'. discriminate.
  - apply (store_current_current p c c' Hc).
  - exact Ho'.
  - rewrite length_app. simpl. lia.
Qed.

Lemma tpPathQuadraticCurveTo_ok (p : _tpGLPath F) (hx hy x y : F) (e : error_buffer) :
  path_ok n p -> path_ok n (snd (fst (tpPathQuadraticCurveTo p hx hy x y e))).
Proof.
  intros Hok.
  change (tpPathQuadraticCurveTo p hx hy x y e)
    with (tpPathCubicCurveTo p hx hy hx hy x y e).
  apply tpPathCubicCurveTo_ok. exact Hok.
Qed.

Lemma tpPathClose_ok (p : _tpGLPath F) (e : error_buffer) :
  path_ok n p -> path_ok n (snd (fst (tpPathClose p e))).
Proof.
  intros Hok. unfold tpPathClose.
  destruct (_tpGLCurrentContour p) as [c|] eqn:Hc; [|exact Hok].
  destruct (1 <? Z.of_nat (length (segments c)))%Z eqn:Hl; [|exact Hok].
  apply Z.ltb_lt in Hl. cbn [fst snd].
  destruct (path_ok_shape p Hok) as [Hall [[_ Hnone]|[cs [c1 [Hcs [Hi [Hc1 [_ Hok1]]]]]]]];
    [congruence|].
  assert (c1 = c) by congruence. subst c1.
  destruct p as [contours0 cur d]. cbn [contours currentContourIndex] in *. subst.
  unfold store_current. cbn [contours currentContourIndex]. rewrite SetAt_last_app.
  apply path_ok_none. apply Forall_app in Hall. destruct Hall as [Hcs _].
  apply Forall_app. split; [exact Hcs|]. constructor; [|constructor].
  destruct Hok1 as [H1 [H2 _]]. split; [exact H1|]. split; [exact H2|].
  intros _. cbn [segments]. lia.
Qed.

Lemma arc_loop_ok (k : nat) :
  forall (i ndivs : Z) (a1 da rx ry kappa : F) (t : F * F * F * F * F * F)
         (prev : F * F * F * F) (p : _tpGLPath F) (e : error_buffer),
    path_ok n p ->
    path_ok n (snd (fst (arc_loop k i ndivs a1 da rx ry kappa t prev p e))).
Proof.
  induction k as [|k IH]; intros i ndivs a1 da rx ry kappa t prev p e Hok; [exact Hok|].
  cbn [arc_loop].
  destruct (nsvg__xformPoint _ _ t) as [x y].
  destruct (nsvg__xformVec _ _ t) as [tanx tany].
  destruct prev as [[[px py] ptanx] ptany].
  destruct (0 <? i)%Z.
  - pose proof (tpPathCubicCurveTo_ok p (fadd px ptanx) (fadd py ptany) (fsub x tanx)
                  (fsub y tany) x y e Hok) as Hc.
    destruct (tpPathCubicCurveTo p _ _ _ _ x y e) as [[ret p'] e'].
    cbn [fst snd] in Hc. destruct ret; [exact Hc|]. apply IH. exact Hc.
  - apply IH. exact Hok.
Qed.

Lemma tpPathArcTo_ok (p : _tpGLPath F) (rx ry rotx fl swfl x y : F) (e : error_buffer) :
  path_ok n p -> path_ok n (snd (fst (tpPathArcTo p rx ry rotx fl swfl x y e))).
Proof.
  intros Hok. unfold tpPathArcTo.
  destruct (_tpGLCurrentContour p) as [c|]; [|exact Hok].
  destruct (lastSegmentIndex c =? -1)%Z; [exact Hok|].
  match goal with
  | |- context [if ?b then tpPathLineTo p x y e else _] => destruct b
  end; [apply tpPathLineTo_ok; exact Hok|].
  match goal with
  | |- context [let '(_, _) := ?b in _] => destruct b
  end.
  apply arc_loop_ok. exact Hok.
Qed.

Lemma tpPathMoveTo_ok (p : _tpGLPath F) (x y : F) (e : error_buffer) :
  path_ok n p -> path_ok n (snd (fst (tpPathMoveTo p x y e))).
Proof.
  intros Hok. unfold tpPathMoveTo.
  pose proof (_tpGLPathNextEmptyContour_ok p [tpSegmentMake x y x y x y] Hok Hn) as H.
  destruct (_tpGLPathNextEmptyContour p) as [p' c]. exact H.
Qed.

Lemma tpPathAddSegment_ok (p : _tpGLPath F) (h0x h0y x y h1x h1y : F) :
  path_ok n p -> path_ok n (snd (tpPathAddSegment p h0x h0y x y h1x h1y)).
Proof.
  intros Hok. unfold tpPathAddSegment.
  destruct (_tpGLCurrentContour p) as [c|] eqn:Hc.
  - unfold _tpGLContourAddSegment.
    destruct (path_ok_shape p Hok) as [_ [[_ Hnone]|[cs [c1 [_ [_ [Hc1 [Ho1 _]]]]]]]];
      [congruence|].
    assert (c1 = c) by congruence. subst c1.
    apply (path_ok_extend p c c _ Hok Hc Ho1). rewrite length_app. simpl. lia.
  - destruct Hok as [Hall _].
    pose proof (path_ok_new_contour p [tpSegmentMake h0x h0y x y h1x h1y] Hall Hn) as H.
    destruct (_tpGLPathCreateNextContour p) as [p' c]. exact H.
Qed.

Lemma _tpGLPathAddSegmentsToCurrentContour_eq (p : _tpGLPath F) (c : _tpGLContour F)
    (segs : list (tpSegment F)) :
  _tpGLPathAddSegmentsToCurrentContour p c segs = _tpGLContourAddSegments p c segs.
Proof. reflexivity. Qed.

Lemma tpPathAddSegments_ok (p : _tpGLPath F) (segs : list (tpSegment F)) :
  path_ok n p -> (n <= length segs)%nat -> path_ok n (snd (tpPathAddSegments p segs)).
Proof.
  intros Hok Hs. unfold tpPathAddSegments.
  destruct (_tpGLCurrentContour p) as [c|] eqn:Hc.
  - rewrite _tpGLPathAddSegmentsToCurrentContour_eq.
    destruct (path_ok_shape p Hok) as [_ [[_ Hnone]|[cs [c1 [_ [_ [Hc1 [Ho1 _]]]]]]]];
      [congruence|].
    assert (c1 = c) by congruence. subst c1.
    apply (path_ok_extend p c c _ Hok Hc Ho1). rewrite length_app. lia.
  - destruct Hok as [Hall _].
    pose proof (path_ok_new_contour p segs Hall Hs) as H.
    destruct (_tpGLPathCreateNextContour p) as [p' c].
    rewrite _tpGLPathAddSegmentsToCurrentContour_eq. exact H.
Qed.

Lemma tpPathAddContour_ok (p : _tpGLPath F) (segs : list (tpSegment F))
    (bClosed : tpBool) (e : error_buffer) :
  path_ok n p -> (n <= length segs)%nat ->
  path_ok n (snd (fst (tpPathAddContour p segs bClosed e))).
Proof.
  intros [Hall _] Hs. unfold tpPathAddContour.
  pose proof (path_ok_new_contour p segs Hall Hs) as H.
  destruct (_tpGLPathCreateNextContour p) as [p' c].
  rewrite _tpGLPathAddSegmentsToCurrentContour_eq.
  cbn [fst snd] in H.
  destruct (_tpGLContourAddSegments p' c segs) as [ret p2]. cbn [snd] in H.
  destruct ret; [exact H|]. destruct bClosed; [|exact H].
  apply tpPathClose_ok. exact H.
Qed.

Lemma tpPathAddRect_ok (p : _tpGLPath F) (x y w h : F) (e : error_buffer) :
  path_ok n p -> path_ok n (snd (fst (tpPathAddRect p x y w h e))).
Proof.
  intros Hok. unfold tpPathAddRect.
  set (segs := [tpSegmentMake x y x y x y; _; _; _]).
  pose proof (_tpGLPathNextEmptyContour_ok p segs Hok ltac:(simpl; lia)) as H.
  destruct (_tpGLPathNextEmptyContour p) as [p1 c]. cbn [fst snd] in H.
  destruct (_tpGLContourAddSegments p1 c segs) as [err p2]. cbn [snd] in H.
  destruct err; [exact H|].
  pose proof (tpPathClose_ok p2 e H) as Hc.
  destruct (tpPathClose p2 e) as [[r p3] e3]. exact Hc.
Qed.

Lemma tpPathAddEllipse_ok (p : _tpGLPath F) (x y w h : F) (e : error_buffer) :
  path_ok n p -> path_ok n (snd (fst (tpPathAddEllipse p x y w h e))).
Proof.
  intros Hok. unfold tpPathAddEllipse.
  set (segs := ellipse_segments x y (fmul w chalf) (fmul h chalf) s_unitSegments).
  pose proof (_tpGLPathNextEmptyContour_ok p segs Hok ltac:(simpl; lia)) as H.
  destruct (_tpGLPathNextEmptyContour p) as [p1 c]. cbn [fst snd] in H.
  destruct (_tpGLContourAddSegments p1 c segs) as [err p2]. cbn [snd] in H.
  destruct err; [exact H|].
  pose proof (tpPathClose_ok p2 e H) as Hc.
  destruct (tpPathClose p2 e) as [[r p3] e3]. exact Hc.
Qed.

End BuilderInvariant.

Section BuilderCommands.
Context {F : Type} {A : Arith F} {L : Libm F}.

Lemma least_segments_le (zero : bool) : (least_segments zero <= 1)%nat.
Proof. destruct zero; simpl; lia. Qed.

Lemma least_segments_added (zero : bool) (segs : list (tpSegment F)) :
  (zero = false -> segs <> []) -> (least_segments zero <= length segs)%nat.
Proof.
  destruct zero; simpl; intros H; [lia|].
  destruct segs; [exfalso; apply (H eq_refl); reflexivity|simpl; lia].
Qed.

(** Every path that the commands of the builder make is as [path_ok]
    says. *)
Lemma built_ok (zero : bool) (p : _tpGLPath F) :
  built zero p -> path_ok (least_segments zero) p.
Proof.
  pose proof (least_segments_le zero) as Hn.
  induction 1 as [|p Hb IH|p x y e Hb IH|p x y e Hb IH|p h0x h0y h1x h1y x y e Hb IH
                  |p hx hy x y e Hb IH|p rx ry rotx fl swfl x y e Hb IH|p e Hb IH
                  |p h0x h0y x y h1x h1y Hb IH|p segs Hb IH Hs|p segs bClosed e Hb IH Hs
                  |p x y w h e Hb IH|p x y w h e Hb IH|p x y r e Hb IH].
  - apply path_ok_none. constructor.
  - apply path_ok_none. constructor.
  - apply tpPathMoveTo_ok; assumption.
  - apply tpPathLineTo_ok; assumption.
  - apply tpPathCubicCurveTo_ok; assumption.
  - apply tpPathQuadraticCurveTo_ok; assumption.
  - apply tpPathArcTo_ok; assumption.
  - apply tpPathClose_ok; assumption.
  - apply tpPathAddSegment_ok; assumption.
  - apply tpPathAddSegments_ok; try assumption. apply least_segments_added, Hs.
  - apply tpPathAddContour_ok; try assumption. apply least_segments_added, Hs.
  - apply tpPathAddRect_ok; assumption.
  - apply tpPathAddEllipse_ok; assumption.
  - unfold tpPathAddCircle. apply tpPathAddEllipse_ok; assumption.
Qed.

(** X14.  Take a path made from [tpPathCreate] by [tpPathClear],
    [tpPathMoveTo], [tpPathLineTo], [tpPathCubicCurveTo],
    [tpPathQuadraticCurveTo], [tpPathArcTo], [tpPathClose],
    [tpPathAddSegment], [tpPathAddSegments], [tpPathAddContour],
    [tpPathAddRect], [tpPathAddEllipse] and [tpPathAddCircle], in any order
    and with any arguments, calls that fail included.  Each of its contours
    has [lastSegmentIndex] at its number of segments minus one and is closed
    only with two segments or more; the current contour is none or the last
    contour of the path, and a current contour is open.  When moreover no
    call of [tpPathAddSegments] or [tpPathAddContour] passed an empty list
    of segments ([zero] is false), each contour has at least one segment and
    the [lastSegmentIndex] of a current contour reads a segment of the
    array. *)
Theorem built_path_invariant (zero : bool) (p : _tpGLPath F) :
  built zero p ->
  Forall (contour_ok 0) (contours p)
  /\ (currentContourIndex p = (-1)%Z
      \/ currentContourIndex p = (tpPathContourCount p - 1)%Z
         /\ exists c, _tpGLCurrentContour p = Some c)
  /\ (forall c, _tpGLCurrentContour p = Some c -> bIsClosed c = tpFalse)
  /\ (zero = false ->
      Forall (contour_ok 1) (contours p)
      /\ forall c, _tpGLCurrentContour p = Some c ->
                   exists s, AtPtr (segments c) (lastSegmentIndex c) = Some s).
Proof.
  intros Hb. pose proof (built_ok zero p Hb) as Hok.
  destruct (path_ok_shape _ (least_segments_le zero) p Hok) as [Hall Hcur].
  split.
  { apply (Forall_impl _ (P := contour_ok (least_segments zero))); [|exact Hall].
    intros c (_ & H2 & H3). split; [lia|]. split; assumption. }
  unfold tpPathContourCount.
  destruct Hcur as [[Hm Hnone]|[cs [c1 [Hcs [Hi [Hc1 [Ho1 [Hn1 [Hl1 _]]]]]]]]].
  - split; [left; exact Hm|]. split; [intros c Hc; congruence|].
    intros ->. split; [exact Hall|]. intros c Hc. congruence.
  - split.
    { right. split; [rewrite Hi, Hcs, length_app; simpl; lia|]. exists c1. exact Hc1. }
    split; [intros c Hc; congruence|].
    intros ->. split; [exact Hall|].
    intros c Hc. assert (c = c1) by congruence. subst c.
    rewrite Hl1.
    destruct (exists_last (l := segments c1)) as [l' [s Hs]].
    { intros E. rewrite E in Hn1. simpl in Hn1. lia. }
    exists s. rewrite Hs, length_app. simpl.
    replace (Z.of_nat (length l' + 1) - 1)%Z with (Z.of_nat (length l')) by lia.
    apply AtPtr_last_app.
Qed.

(** With no segment [tpPathAddContour] leaves an empty contour, which is
    the current one. *)
Lemma tpPathAddContour_no_segment (bClosed : tpBool) (e : error_buffer) :
  contours (snd (fst (tpPathAddContour (F := F) tpPathCreate [] bClosed e)))
  = [mkContour [] tpTrue tpFalse (-1) None]
  /\ currentContourIndex (snd (fst (tpPathAddContour (F := F) tpPathCreate [] bClosed e)))
     = 0%Z.
Proof. destruct bClosed; split; reflexivity. Qed.

Lemma _tpGLPathNextEmptyContour_new (p : _tpGLPath F) :
  starts_new_contour p ->
  _tpGLPathNextEmptyContour p = _tpGLPathCreateNextContour p.
Proof.
  unfold _tpGLPathNextEmptyContour. intros [Hm|[c [Hc Hs]]].
  - unfold _tpGLCurrentContour. rewrite Hm. reflexivity.
  - rewrite Hc. destruct (segments c); [contradiction|reflexivity].
Qed.

Lemma _tpGLPathNextEmptyContour_reuse (p : _tpGLPath F) (c : _tpGLContour F) :
  _tpGLCurrentContour p = Some c -> segments c = [] ->
  _tpGLPathNextEmptyContour p = (p, c).
Proof.
  unfold _tpGLPathNextEmptyContour. intros -> ->. reflexivity.
Qed.

Lemma set_nth_twice (T : Type) (l : list T) (i : nat) (x y : T) :
  set_nth (set_nth l i x) i y = set_nth l i y.
Proof.
  revert i. induction l as [|z l IH]; intros [|i]; simpl; try reflexivity.
  rewrite IH. reflexivity.
Qed.

Lemma SetAt_twice (T : Type) (l : list T) (i : Z) (x y : T) :
  SetAt (SetAt l i x) i y = SetAt l i y.
Proof.
  unfold SetAt. destruct (0 <=? i)%Z; [apply set_nth_twice|reflexivity].
Qed.

Lemma _tpGLCurrentContour_index (p : _tpGLPath F) (c : _tpGLContour F) :
  _tpGLCurrentContour p = Some c ->
  (0 <= currentContourIndex p < Z.of_nat (length (contours p)))%Z
  /\ AtPtr (contours p) (currentContourIndex p) = Some c.
Proof.
  unfold _tpGLCurrentContour. destruct (currentContourIndex p =? -1)%Z; [discriminate|].
  intros H. split; [apply (AtPtr_Some_range _ _ _ H)|exact H].
Qed.

(** [tpPathClose] on a current contour of two segments or more. *)
Lemma tpPathClose_current (p : _tpGLPath F) (c : _tpGLContour F) (e : error_buffer) :
  _tpGLCurrentContour p = Some c -> (2 <= length (segments c))%nat ->
  tpPathClose p e
  = (tpFalse,
     mkPath (SetAt (contours p) (currentContourIndex p)
                   (mkContour (segments c) tpTrue tpTrue (lastSegmentIndex c) (bounds c)))
            (-1) tpTrue,
     e).
Proof.
  intros Hc Hl. unfold tpPathClose. rewrite Hc.
  replace (1 <? Z.of_nat (length (segments c)))%Z with true
    by (symmetry; apply Z.ltb_lt; lia).
  reflexivity.
Qed.

(** A closed contour added through [_tpGLPathNextEmptyContour],
    [_tpGLContourAddSegments] and [tpPathClose], as a new contour. *)
Lemma add_closed_contour_new (p : _tpGLPath F) (segs : list (tpSegment F))
    (e : error_buffer) :
  starts_new_contour p -> (2 <= length segs)%nat ->
  tpPathClose (snd (_tpGLContourAddSegments (fst (_tpGLPathNextEmptyContour p))
                      (snd (_tpGLPathNextEmptyContour p)) segs)) e
  = (tpFalse,
     mkPath (contours p
             ++ [mkContour segs tpTrue tpTrue (Z.of_nat (length segs) - 1) None])
            (-1) tpTrue,
     e).
Proof.
  intros Hnew Hl. rewrite (_tpGLPathNextEmptyContour_new p Hnew).
  unfold _tpGLPathCreateNextContour. cbn [fst snd].
  rewrite _tpGLContourAddSegments_current. cbn [segments bIsClosed bounds app].
  unfold tpPathClose, _tpGLCurrentContour. cbn [contours currentContourIndex].
  replace (Z.of_nat (length (contours p)) =? -1)%Z with false
    by (symmetry; apply Z.eqb_neq; lia).
  rewrite AtPtr_last_app. cbn [segments lastSegmentIndex bounds].
  replace (1 <? Z.of_nat (length segs))%Z with true by (symmetry; apply Z.ltb_lt; lia).
  unfold store_current. cbn [fst snd contours currentContourIndex].
  rewrite SetAt_last_app. reflexivity.
Qed.

(** The same in an empty current contour, which is filled in place. *)
Lemma add_closed_contour_reuse (p : _tpGLPath F) (c : _tpGLContour F)
    (segs : list (tpSegment F)) (e : error_buffer) :
  _tpGLCurrentContour p = Some c -> segments c = [] -> (2 <= length segs)%nat ->
  tpPathClose (snd (_tpGLContourAddSegments (fst (_tpGLPathNextEmptyContour p))
                      (snd (_tpGLPathNextEmptyContour p)) segs)) e
  = (tpFalse,
     mkPath (SetAt (contours p) (currentContourIndex p)
                   (mkContour segs tpTrue tpTrue (Z.of_nat (length segs) - 1) (bounds c)))
            (-1) tpTrue,
     e).
Proof.
  intros Hc Hs Hl. rewrite (_tpGLPathNextEmptyContour_reuse p c Hc Hs).
  cbn [fst snd]. unfold _tpGLContourAddSegments. rewrite Hs. cbn [app snd].
  set (c' := mkContour segs tpTrue (bIsClosed c) (Z.of_nat (length segs) - 1) (bounds c)).
  assert (Hc' : _tpGLCurrentContour
                  (mkPath (contours (store_current p c'))
                          (currentContourIndex (store_current p c')) tpTrue) = Some c').
  { apply (store_current_current p c c' Hc). }
  rewrite (tpPathClose_current _ c' e Hc') by exact Hl.
  unfold store_current. cbn [contours currentContourIndex].
  rewrite SetAt_twice. reflexivity.
Qed.

(** X15.  [tpPathAddRect] returns [tpFalse], leaves the error buffer as it
    is and the path without a current contour.  On a path that has no
    current contour (the index is -1), or whose current contour holds a
    segment, it appends one closed contour with the four corners of the
    rectangle as segments (handles on the positions) after the contours that
    were there.  On a path whose current contour is empty it writes the four
    segments to that contour, closes it, and leaves the other contours as
    they are. *)
Theorem tpPathAddRect_contour (p : _tpGLPath F) (x y w h : F) (e : error_buffer) :
  (starts_new_contour p ->
   tpPathAddRect p x y w h e
   = (tpFalse, mkPath (contours p ++ [rect_contour x y w h None]) (-1) tpTrue, e))
  /\ (forall c,
        _tpGLCurrentContour p = Some c -> segments c = [] ->
        tpPathAddRect p x y w h e
        = (tpFalse,
           mkPath (SetAt (contours p) (currentContourIndex p)
                         (rect_contour x y w h (bounds c)))
                  (-1) tpTrue,
           e)).
Proof.
  unfold tpPathAddRect, rect_contour.
  set (segs := [tpSegmentMake x y x y x y; _; _; _]).
  split.
  - intros Hnew.
    pose proof (add_closed_contour_new p segs e Hnew ltac:(simpl; lia)) as H.
    destruct (_tpGLPathNextEmptyContour p) as [p1 c]. cbn [fst snd] in H.
    destruct (_tpGLContourAddSegments p1 c segs) as [err p2] eqn:E.
    assert (err = tpFalse) by (unfold _tpGLContourAddSegments in E; congruence).
    subst err. cbn [snd] in H. rewrite H. reflexivity.
  - intros c0 Hc Hs.
    pose proof (add_closed_contour_reuse p c0 segs e Hc Hs ltac:(simpl; lia)) as H.
    destruct (_tpGLPathNextEmptyContour p) as [p1 c]. cbn [fst snd] in H.
    destruct (_tpGLContourAddSegments p1 c segs) as [err p2] eqn:E.
    assert (err = tpFalse) by (unfold _tpGLContourAddSegments in E; congruence).
    subst err. cbn [snd] in H. rewrite H. reflexivity.
Qed.

Lemma tpPathAddEllipse_new (p : _tpGLPath F) (x y w h : F) (e : error_buffer) :
  starts_new_contour p ->
  tpPathAddEllipse p x y w h e
  = (tpFalse,
     mkPath (contours p
             ++ [mkContour (ellipse_segments x y (fmul w chalf) (fmul h chalf)
                              s_unitSegments)
                           tpTrue tpTrue 3 None])
            (-1) tpTrue,
     e).
Proof.
  intros Hnew. unfold tpPathAddEllipse.
  set (segs := ellipse_segments x y (fmul w chalf) (fmul h chalf) s_unitSegments).
  pose proof (add_closed_contour_new p segs e Hnew ltac:(simpl; lia)) as H.
  destruct (_tpGLPathNextEmptyContour p) as [p1 c]. cbn [fst snd] in H.
  destruct (_tpGLContourAddSegments p1 c segs) as [err p2] eqn:E.
  assert (err = tpFalse) by (unfold _tpGLContourAddSegments in E; congruence).
  subst err. cbn [snd] in H. rewrite H. reflexivity.
Qed.

Lemma tpPathAddEllipse_reuse (p : _tpGLPath F) (c : _tpGLContour F) (x y w h : F)
    (e : error_buffer) :
  _tpGLCurrentContour p = Some c -> segments c = [] ->
  tpPathAddEllipse p x y w h e
  = (tpFalse,
     mkPath (SetAt (contours p) (currentContourIndex p)
               (mkContour (ellipse_segments x y (fmul w chalf) (fmul h chalf)
                             s_unitSegments)
                          tpTrue tpTrue 3 (bounds c)))
            (-1) tpTrue,
     e).
Proof.
  intros Hc Hs. unfold tpPathAddEllipse.
  set (segs := ellipse_segments x y (fmul w chalf) (fmul h chalf) s_unitSegments).
  pose proof (add_closed_contour_reuse p c segs e Hc Hs ltac:(simpl; lia)) as H.
  destruct (_tpGLPathNextEmptyContour p) as [p1 c1]. cbn [fst snd] in H.
  destruct (_tpGLContourAddSegments p1 c1 segs) as [err p2] eqn:E.
  assert (err = tpFalse) by (unfold _tpGLContourAddSegments in E; congruence).
  subst err. cbn [snd] in H. rewrite H. reflexivity.
Qed.

(** X16.  On a path whose current contour has two segments or more,
    [tpPathClose] returns [tpFalse], leaves the error buffer as it is, marks
    that contour closed and dirty without touching its segments or the other
    contours, and leaves the path without a current contour, with as many
    contours as before: a [tpPathLineTo] that follows returns [tpTrue] with
    the message to start a contour, and a [tpPathMoveTo] that follows starts
    a new contour, the last of the path, with its one segment. *)
Theorem tpPathClose_ends_contour (p : _tpGLPath F) (c : _tpGLContour F)
    (e : error_buffer) :
  _tpGLCurrentContour p = Some c -> (2 <= length (segments c))%nat ->
  exists p',
    tpPathClose p e = (tpFalse, p', e)
    /\ _tpGLCurrentContour p' = None
    /\ contours p'
       = SetAt (contours p) (currentContourIndex p)
               (mkContour (segments c) tpTrue tpTrue (lastSegmentIndex c) (bounds c))
    /\ AtPtr (contours p') (currentContourIndex p)
       = Some (mkContour (segments c) tpTrue tpTrue (lastSegmentIndex c) (bounds c))
    /\ (forall i, i <> currentContourIndex p ->
                  AtPtr (contours p') i = AtPtr (contours p) i)
    /\ tpPathContourCount p' = tpPathContourCount p
    /\ (forall x y e',
          tpPathLineTo p' x y e' = (tpTrue, p', must_start_contour "tpPathMoveTo"))
    /\ (forall x y e',
          exists p'' c',
            tpPathMoveTo p' x y e' = (tpFalse, p'', e')
            /\ tpPathContourCount p'' = (tpPathContourCount p + 1)%Z
            /\ currentContourIndex p'' = tpPathContourCount p
            /\ _tpGLCurrentContour p'' = Some c'
            /\ segments c' = [tpSegmentMake x y x y x y]).
Proof.
  intros Hc Hl.
  destruct (_tpGLCurrentContour_index p c Hc) as [Hr Hat].
  set (c' := mkContour (segments c) tpTrue tpTrue (lastSegmentIndex c) (bounds c)).
  set (cs' := SetAt (contours p) (currentContourIndex p) c').
  exists (mkPath cs' (-1) tpTrue).
  assert (Hnone : _tpGLCurrentContour (mkPath cs' (-1) tpTrue) = None) by reflexivity.
  assert (Hlen : length cs' = length (contours p)) by apply SetAt_length.
  split; [apply tpPathClose_current; assumption|].
  split; [exact Hnone|]. split; [reflexivity|].
  split; [apply AtPtr_SetAt; exact Hr|].
  split; [intros i Hi; apply AtPtr_SetAt_other; exact Hi|].
  split; [unfold tpPathContourCount; cbn [contours]; rewrite Hlen; reflexivity|].
  split.
  { intros x y e'. unfold tpPathLineTo. rewrite Hnone. reflexivity. }
  intros x y e'. unfold tpPathMoveTo, _tpGLPathNextEmptyContour. rewrite Hnone.
  unfold _tpGLPathCreateNextContour, _tpGLContourAddSegment.
  pose proof (_tpGLContourAddSegments_current cs'
                (mkContour [] tpTrue tpFalse (-1) None)
                (mkContour [] tpTrue tpFalse (-1) None) tpTrue
                [tpSegmentMake x y x y x y]) as Hadd.
  cbn [contours bPathGeometryDirty].
  destruct (_tpGLContourAddSegments _ _ _) as [ret p2] eqn:E.
  assert (ret = tpFalse) by (unfold _tpGLContourAddSegments in E; congruence).
  subst ret. cbn [snd] in Hadd. subst p2.
  eexists. eexists. split; [reflexivity|].
  split.
  { unfold tpPathContourCount. cbn [contours]. rewrite !length_app, Hlen. simpl. lia. }
  split.
  { unfold tpPathContourCount. cbn [currentContourIndex]. rewrite Hlen. reflexivity. }
  split.
  { unfold _tpGLCurrentContour. cbn [contours currentContourIndex].
    replace (Z.of_nat (length cs') =? -1)%Z with false
      by (symmetry; apply Z.eqb_neq; lia).
    apply AtPtr_last_app. }
  reflexivity.
Qed.

End BuilderCommands.

Lemma built_line_path : built (L := R_libm) false line_path.
Proof. unfold line_path. apply built_lineTo, built_moveTo, built_create. Qed.

Lemma built_path_invariant_witness :
  Forall (contour_ok 1) (contours line_path)
  /\ (forall c, _tpGLCurrentContour line_path = Some c -> bIsClosed c = tpFalse).
Proof.
  destruct (built_path_invariant (L := R_libm) false line_path built_line_path)
    as (_ & _ & Hopen & Hone).
  split; [apply (Hone eq_refl)|exact Hopen].
Defined.

Lemma tpPathAddRect_contour_witness :
  tpPathAddRect line_path 0 0 2 1 EmptyString
  = (tpFalse, mkPath (contours line_path ++ [rect_contour 0 0 2 1 None]) (-1) tpTrue,
     EmptyString)
  /\ tpPathAddRect (snd (fst (tpPathAddContour (F := R) tpPathCreate [] tpFalse EmptyString)))
       0 0 2 1 EmptyString
     = (tpFalse, mkPath [rect_contour 0 0 2 1 None] (-1) tpTrue, EmptyString).
Proof.
  split.
  - apply (proj1 (tpPathAddRect_contour line_path 0 0 2 1 EmptyString)).
    right. eexists. split; [reflexivity|]. discriminate.
  - exact (proj2 (tpPathAddRect_contour
                    (snd (fst (tpPathAddContour (F := R) tpPathCreate [] tpFalse
                                 EmptyString)))
                    0 0 2 1 EmptyString)
                 (mkContour [] tpTrue tpFalse (-1) None) eq_refl eq_refl).
Defined.

Lemma tpPathClose_ends_contour_witness :
  exists p',
    tpPathClose line_path EmptyString = (tpFalse, p', EmptyString)
    /\ _tpGLCurrentContour p' = None.
Proof.
  destruct (tpPathClose_ends_contour line_path
              (mkContour [tpSegmentMake 0 0 0 0 0 0; tpSegmentMake 10 0 10 0 10 0]
                         tpTrue tpFalse 1%Z None)
              EmptyString)
    as [p' [H1 [H2 _]]].
  - reflexivity.
  - simpl. lia.
  - exists p'. split; assumption.
Defined.


(** ** The circle of [tpPathAddCircle] *)

Lemma sqrt_of_square (v e : R) : 0 <= v -> e = v * v -> sqrt e = v.
Proof. intros Hv ->. apply sqrt_square. exact Hv. Qed.

Lemma TARP_KAPPA_pos : 0 < @TARP_KAPPA R _.
Proof.
  unfold TARP_KAPPA. cbn [fconst R_arith].
  apply Rdiv_lt_0_compat; apply IZR_lt; lia.
Qed.

(** X17.  Over the real numbers, [tpPathAddCircle] with a radius [r >= 0]
    makes one closed contour of four segments: each position is at distance
    [r] from the center, and the two handles of a segment lie on the tangent
    at the position, at distance [TARP_KAPPA * r] on either side of it.  On
    a path that has no current contour (the index is -1), or whose current
    contour holds a segment, the contour is appended after the contours that
    were there; on a path whose current contour is empty, the four segments
    are written to that contour.  Either way the call returns [tpFalse] and
    leaves the path without a current contour. *)
Theorem tpPathAddCircle_on_circle (p : _tpGLPath R) (x y r : R) (e : error_buffer) :
  0 <= r ->
  exists segs,
    length segs = 4%nat
    /\ Forall (circle_segment x y r) segs
    /\ (starts_new_contour p ->
        tpPathAddCircle p x y r e
        = (tpFalse,
           mkPath (contours p ++ [mkContour segs tpTrue tpTrue 3 None]) (-1) tpTrue, e))
    /\ (forall c,
          _tpGLCurrentContour p = Some c -> segments c = [] ->
          tpPathAddCircle p x y r e
          = (tpFalse,
             mkPath (SetAt (contours p) (currentContourIndex p)
                           (mkContour segs tpTrue tpTrue 3 (bounds c)))
                    (-1) tpTrue,
             e)).
Proof.
  intros Hr. unfold tpPathAddCircle.
  exists (ellipse_segments x y (fmul (fmul r c2) chalf) (fmul (fmul r c2) chalf)
            s_unitSegments).
  split; [reflexivity|].
  split.
  { pose proof TARP_KAPPA_pos as Hk.
    unfold s_unitSegments, ellipse_segments, ellipse_segment, tpSegmentMake, tpVec2Make.
    assert (Hkr : 0 <= TARP_KAPPA * r) by nra.
    repeat constructor;
      unfold circle_segment, tpVec2Distance, tpVec2Length, tpVec2Sub, tpVec2Dot, tpVec2Add,
        tpVec2MultScalar, c0, c1, c2, chalf;
      cbn [handleIn handleOut position vx vy fadd fsub fmul fdiv fneg fsqrt fconst R_arith];
      try (apply sqrt_of_square; [assumption|field]);
      try (apply vec2_eq; cbn [vx vy]; field);
      try field. }
  split.
  - intros Hnew. apply tpPathAddEllipse_new. exact Hnew.
  - intros c Hc Hs. apply tpPathAddEllipse_reuse; assumption.
Qed.

Lemma tpPathAddCircle_on_circle_witness :
  (exists segs,
     length segs = 4%nat
     /\ Forall (circle_segment 0 0 1) segs
     /\ tpPathAddCircle line_path 0 0 1 EmptyString
        = (tpFalse,
           mkPath (contours line_path ++ [mkContour segs tpTrue tpTrue 3 None]) (-1)
                  tpTrue,
           EmptyString))
  /\ (exists segs,
        length segs = 4%nat
        /\ Forall (circle_segment 0 0 1) segs
        /\ tpPathAddCircle
             (snd (fst (tpPathAddContour (F := R) tpPathCreate [] tpFalse EmptyString)))
             0 0 1 EmptyString
           = (tpFalse, mkPath [mkContour segs tpTrue tpTrue 3 None] (-1) tpTrue,
              EmptyString)).
Proof.
  split.
  - destruct (tpPathAddCircle_on_circle line_path 0 0 1 EmptyString)
      as (segs & Hl & Hc & Hnew & _); [lra|].
    exists segs. split; [exact Hl|]. split; [exact Hc|].
    apply Hnew. right. eexists. split; [reflexivity|]. discriminate.
  - destruct (tpPathAddCircle_on_circle
                (snd (fst (tpPathAddContour (F := R) tpPathCreate [] tpFalse EmptyString)))
                0 0 1 EmptyString)
      as (segs & Hl & Hc & _ & Hfill); [lra|].
    exists segs. split; [exact Hl|]. split; [exact Hc|].
    exact (Hfill (mkContour [] tpTrue tpFalse (-1) None) eq_refl eq_refl).
Defined.


(** ** The stroker: what it appends *)

Section StrokeSoup.
Context {F : Type} {A : Arith F} {L : Libm F}.

(** [vs'] is [vs] followed by whole triangles. *)
Lemma soup_refl (vs : list (tpVec2 F)) :
  exists soup k, vs = vs ++ soup /\ length soup = (3 * k)%nat.
Proof. exists [], 0%nat. rewrite app_nil_r. split; reflexivity. Qed.

Lemma soup_trans (vs vs1 vs2 : list (tpVec2 F)) :
  (exists soup k, vs1 = vs ++ soup /\ length soup = (3 * k)%nat) ->
  (exists soup k, vs2 = vs1 ++ soup /\ length soup = (3 * k)%nat) ->
  exists soup k, vs2 = vs ++ soup /\ length soup = (3 * k)%nat.
Proof.
  intros [s1 [k1 [H1 L1]]] [s2 [k2 [H2 L2]]].
  exists (s1 ++ s2), (k1 + k2)%nat. split.
  - rewrite H2, H1, app_assoc. reflexivity.
  - rewrite length_app. lia.
Qed.

Lemma soup_triangle (vs : list (tpVec2 F)) (a b c : tpVec2 F) :
  exists soup k, _tpGLPushTriangle vs a b c = vs ++ soup /\ length soup = (3 * k)%nat.
Proof. exists [a; b; c], 1%nat. split; reflexivity. Qed.

Lemma soup_quad (vs : list (tpVec2 F)) (a b c d : tpVec2 F) :
  exists soup k, _tpGLPushQuad vs a b c d = vs ++ soup /\ length soup = (3 * k)%nat.
Proof. exists [a; b; c; c; d; a], 2%nat. split; reflexivity. Qed.

Lemma circle_sector_loop_soup (fuel : nat) :
  forall (rot : tpMat2 F) (center r r1 lst : tpVec2 F) (vs : list (tpVec2 F))
         (lst' : tpVec2 F) (vs' : list (tpVec2 F)),
    circle_sector_loop fuel rot center r r1 lst vs = Some (lst', vs') ->
    exists soup k, vs' = vs ++ soup /\ length soup = (3 * k)%nat.
Proof.
  induction fuel as [|fuel IH]; intros rot center r r1 lst vs lst' vs' H; [discriminate|].
  cbn [circle_sector_loop] in H.
  destruct (fltb (tpVec2Cross (tpMat2MultVec2 rot r) r1) c0).
  - injection H as _ <-. apply soup_refl.
  - apply IH in H. eapply soup_trans; [apply soup_triangle|exact H].
Qed.

Lemma _tpGLMakeCircleSector_soup (fuel : nat) (center r0 r1 : tpVec2 F) (lod : F)
    (vs vs' : list (tpVec2 F)) :
  _tpGLMakeCircleSector fuel center r0 r1 lod vs = Some vs' ->
  exists soup k, vs' = vs ++ soup /\ length soup = (3 * k)%nat.
Proof.
  unfold _tpGLMakeCircleSector.
  destruct (circle_sector_loop fuel _ center r0 r1 _ vs) as [[lst vs1]|] eqn:E;
    [|discriminate].
  intros H. injection H as <-. apply circle_sector_loop_soup in E.
  apply (soup_trans vs vs1 _ E), soup_triangle.
Qed.

Lemma _tpGLMakeJoin_soup (fuel : nat) (type : tpStrokeJoin)
    (p dir0 dir1 perp0 perp1 lePrev rePrev le re : tpVec2 F) (cross miterLimit : F)
    (vs : list (tpVec2 F)) (uninit : tpVec2 F) (vs' : list (tpVec2 F)) :
  _tpGLMakeJoin fuel type p dir0 dir1 perp0 perp1 lePrev rePrev le re cross miterLimit
    vs uninit = Some vs' ->
  exists soup k, vs' = vs ++ soup /\ length soup = (3 * k)%nat.
Proof.
  unfold _tpGLMakeJoin, _tpGLMakeJoinBevel, _tpGLMakeJoinMiter. destruct type.
  - destruct (fltb _ miterLimit).
    + destruct (fltb cross c0); intros H; injection H as <-; apply soup_quad.
    + intros H. injection H as <-. apply soup_triangle.
  - destruct (fltb cross c0); apply _tpGLMakeCircleSector_soup.
  - intros H. injection H as <-. apply soup_triangle.
Qed.

Lemma _tpGLMakeCap_soup (fuel : nat) (type : tpStrokeCap) (p dir perp le re : tpVec2 F)
    (bStart : tpBool) (vs vs' : list (tpVec2 F)) :
  _tpGLMakeCap fuel type p dir perp le re bStart vs = Some vs' ->
  exists soup k, vs' = vs ++ soup /\ length soup = (3 * k)%nat.
Proof.
  unfold _tpGLMakeCap, _tpGLMakeCapSquare. destruct type.
  - apply _tpGLMakeCircleSector_soup.
  - intros H. injection H as <-. apply soup_quad.
  - intros H. injection H as <-. apply soup_refl.
Qed.

Lemma stroke_edge_soup (fuel : nat) (contour : _tpGLRenderCacheContour)
    (style : tpStyle F) (halfSw : F) (j : Z) (loc : stroke_locals)
    (vs : list (tpVec2 F)) (js : list tpBool) (uninit : tpVec2 F)
    (loc' : stroke_locals) (vs' : list (tpVec2 F)) :
  stroke_edge fuel contour style halfSw j loc vs js uninit = Some (loc', vs') ->
  exists soup k, vs' = vs ++ soup /\ length soup = (3 * k)%nat.
Proof.
  unfold stroke_edge.
  destruct (AtPtr vs j) as [p0|]; [|discriminate].
  destruct (AtPtr vs (j + 1)) as [p1|]; [|discriminate].
  match goal with
  | |- match ?s with _ => _ end = _ -> _ =>
      assert (Hs : forall x, s = Some x ->
                   exists soup k, snd x = vs ++ soup /\ length soup = (3 * k)%nat);
      [|destruct s as [[[[[fd fp] fl] fr] vs1]|]; [|discriminate]]
  end.
  { intros x. destruct (j =? fillVertexOffset contour)%Z.
    - destruct (negb (rc_bIsClosed contour)).
      + destruct (_tpGLMakeCap fuel _ _ _ _ _ _ tpTrue vs) as [vs1|] eqn:E; [|discriminate].
        intros H. injection H as <-. cbn [snd]. apply (_tpGLMakeCap_soup _ _ _ _ _ _ _ _ _ _ E).
      + intros H. injection H as <-. cbn [snd]. apply soup_refl.
    - destruct (AtPtr js j) as [[|]|]; [| |discriminate].
      + destruct (_tpGLMakeJoin _ _ _ _ _ _ _ _ _ _ _ _ _ vs uninit) as [vs1|] eqn:E;
          [|discriminate].
        intros H. injection H as <-. cbn [snd].
        apply (_tpGLMakeJoin_soup _ _ _ _ _ _ _ _ _ _ _ _ _ _ _ _ E).
      + intros H. injection H as <-. cbn [snd]. apply soup_triangle. }
  specialize (Hs _ eq_refl). cbn [snd] in Hs.
  match goal with
  | |- match ?s with _ => _ end = _ -> _ =>
      assert (He : forall x, s = Some x ->
                   exists soup k, snd x = vs ++ soup /\ length soup = (3 * k)%nat);
      [|destruct s as [[fd' vs2]|]; [|discriminate]]
  end.
  { intros x.
    assert (Hq : exists soup k,
               _tpGLPushQuad vs1 (tpVec2Add p1 (mkVec2 (fmul (vy (tpVec2NormalizeSelf (tpVec2Sub p1 p0))) halfSw)
                                                      (fmul (fneg (vx (tpVec2NormalizeSelf (tpVec2Sub p1 p0)))) halfSw)))
                                 (tpVec2Add p0 (mkVec2 (fmul (vy (tpVec2NormalizeSelf (tpVec2Sub p1 p0))) halfSw)
                                                      (fmul (fneg (vx (tpVec2NormalizeSelf (tpVec2Sub p1 p0)))) halfSw)))
                                 (tpVec2Sub p0 (mkVec2 (fmul (vy (tpVec2NormalizeSelf (tpVec2Sub p1 p0))) halfSw)
                                                      (fmul (fneg (vx (tpVec2NormalizeSelf (tpVec2Sub p1 p0)))) halfSw)))
                                 (tpVec2Sub p1 (mkVec2 (fmul (vy (tpVec2NormalizeSelf (tpVec2Sub p1 p0))) halfSw)
                                                      (fmul (fneg (vx (tpVec2NormalizeSelf (tpVec2Sub p1 p0)))) halfSw)))
               = vs ++ soup /\ length soup = (3 * k)%nat).
    { apply (soup_trans vs vs1 _ Hs), soup_quad. }
    destruct ((j =? fillVertexOffset contour + fillVertexCount contour - 2)%Z
              || (fillVertexCount contour =? 2)%Z).
    - destruct (AtPtr js (j + 1)) as [jt|]; [|discriminate].
      destruct (jt && rc_bIsClosed contour).
      + destruct (_tpGLMakeJoin _ _ _ _ _ _ _ _ _ _ _ _ _ _ uninit) as [vs2|] eqn:E;
          [|discriminate].
        intros H. injection H as <-. cbn [snd].
        apply (soup_trans vs _ vs2 Hq).
        apply (_tpGLMakeJoin_soup _ _ _ _ _ _ _ _ _ _ _ _ _ _ _ _ E).
      + destruct (_tpGLMakeCap _ _ _ _ _ _ _ tpFalse _) as [vs2|] eqn:E; [|discriminate].
        intros H. injection H as <-. cbn [snd].
        apply (soup_trans vs _ vs2 Hq).
        apply (_tpGLMakeCap_soup _ _ _ _ _ _ _ _ _ _ E).
    - intros H. injection H as <-. cbn [snd]. exact Hq. }
  specialize (He _ eq_refl). cbn [snd] in He.
  intros H. injection H as _ <-. exact He.
Qed.

Lemma stroke_edges_soup (n : nat) :
  forall (fuel : nat) (contour : _tpGLRenderCacheContour) (style : tpStyle F) (halfSw : F)
         (j : Z) (loc : stroke_locals) (vs : list (tpVec2 F)) (js : list tpBool)
         (uninit : tpVec2 F) (vs' : list (tpVec2 F)),
    stroke_edges n fuel contour style halfSw j loc vs js uninit = Some vs' ->
    exists soup k, vs' = vs ++ soup /\ length soup = (3 * k)%nat.
Proof.
  induction n as [|n IH]; intros fuel contour style halfSw j loc vs js uninit vs' H.
  - injection H as <-. apply soup_refl.
  - cbn [stroke_edges] in H.
    destruct (stroke_edge fuel contour style halfSw j loc vs js uninit)
      as [[loc1 vs1]|] eqn:E; [|discriminate].
    apply stroke_edge_soup in E. apply IH in H.
    apply (soup_trans vs vs1 vs' E H).
Qed.

(** What [_tpGLRenderCacheContourContinousStrokeGeometry] appends: whole
    triangles, recorded as the stroke range of the contour. *)
Lemma continuous_stroke_appends (fuel : nat)
    (contour : _tpGLRenderCacheContour) (style : tpStyle F)
    (outVertices : list (tpVec2 F)) (outJoints : list tpBool) (uninit : tpVec2 F)
    (contour' : _tpGLRenderCacheContour) (vertices' : list (tpVec2 F)) :
  _tpGLRenderCacheContourContinousStrokeGeometry fuel contour style outVertices
    outJoints uninit = Some (contour', vertices') ->
  exists soup k,
    vertices' = outVertices ++ soup
    /\ length soup = (3 * k)%nat
    /\ strokeVertexOffset contour' = Z.of_nat (length outVertices)
    /\ strokeVertexCount contour' = Z.of_nat (length soup)
    /\ fillVertexOffset contour' = fillVertexOffset contour
    /\ fillVertexCount contour' = fillVertexCount contour
    /\ rc_bIsClosed contour' = rc_bIsClosed contour
    /\ ((fillVertexCount contour <= 1)%Z -> soup = []).
Proof.
  unfold _tpGLRenderCacheContourContinousStrokeGeometry.
  destruct (fillVertexCount contour <=? 1)%Z eqn:Hc.
  - intros H. injection H as <- <-. exists [], 0%nat. rewrite app_nil_r.
    cbn [strokeVertexOffset strokeVertexCount fillVertexOffset fillVertexCount
         rc_bIsClosed length]. repeat (split; [reflexivity|]). reflexivity.
  - apply Z.leb_gt in Hc.
    destruct (stroke_edges _ fuel contour style _ _ _ outVertices outJoints uninit)
      as [vs|] eqn:E; [|discriminate].
    intros H. injection H as <- <-.
    destruct (stroke_edges_soup _ _ _ _ _ _ _ _ _ _ _ E) as [soup [k [Hv Hl]]].
    exists soup, k. cbn [strokeVertexOffset strokeVertexCount fillVertexOffset
                         fillVertexCount rc_bIsClosed].
    split; [exact Hv|]. split; [exact Hl|]. split; [reflexivity|].
    split; [rewrite Hv, length_app; lia|].
    repeat (split; [reflexivity|]). intros Hle. lia.
Qed.

End StrokeSoup.


(** ** The layout of a render cache *)

Lemma chain_app (off cnt : _tpGLRenderCacheContour -> Z)
    (l1 l2 : list _tpGLRenderCacheContour) (a b c : Z) :
  chain off cnt l1 a b -> chain off cnt l2 b c -> chain off cnt (l1 ++ l2) a c.
Proof.
  revert a. induction l1 as [|rc l1 IH]; intros a H1 H2; simpl in *.
  - subst. exact H2.
  - destruct H1 as [Ho [Hc Hr]]. split; [exact Ho|]. split; [exact Hc|].
    apply IH; assumption.
Qed.

Lemma chain_le (off cnt : _tpGLRenderCacheContour -> Z)
    (l : list _tpGLRenderCacheContour) (a b : Z) :
  chain off cnt l a b -> (a <= b)%Z.
Proof.
  revert a. induction l as [|rc l IH]; intros a H; simpl in H; [lia|].
  destruct H as [_ [Hc Hr]]. apply IH in Hr. lia.
Qed.

(** ** Ranges of an array *)

Section ArrayRanges.
Context {T : Type}.

Lemma ArrayRange_Some (src : list T) (from count : Z) (l : list T) :
  ArrayRange src from count = Some l ->
  (0 <= from)%Z /\ (0 <= count)%Z /\ (from + count <= Z.of_nat (length src))%Z
  /\ l = firstn (Z.to_nat count) (skipn (Z.to_nat from) src)
  /\ Z.of_nat (length l) = count.
Proof.
  unfold ArrayRange.
  destruct ((0 <=? from)%Z && (0 <=? count)%Z
            && (from + count <=? Z.of_nat (length src))%Z) eqn:E; [|discriminate].
  apply andb_true_iff in E. destruct E as [E E3].
  apply andb_true_iff in E. destruct E as [E1 E2].
  apply Z.leb_le in E1, E2, E3.
  intros H. injection H as <-.
  repeat (split; [assumption|]). split; [reflexivity|].
  rewrite length_firstn, length_skipn. lia.
Qed.

Lemma ArrayRange_middle (a m r : list T) :
  ArrayRange (a ++ m ++ r) (Z.of_nat (length a)) (Z.of_nat (length m)) = Some m.
Proof.
  unfold ArrayRange.
  replace ((0 <=? Z.of_nat (length a))%Z && (0 <=? Z.of_nat (length m))%Z
           && (Z.of_nat (length a) + Z.of_nat (length m)
               <=? Z.of_nat (length (a ++ m ++ r)))%Z) with true.
  2:{ symmetry. rewrite !length_app.
      apply andb_true_iff. split; [apply andb_true_iff; split|]; apply Z.leb_le; lia. }
  rewrite !Nat2Z.id, skipn_app, skipn_all, Nat.sub_diag. cbn [skipn app].
  rewrite firstn_app, firstn_all, Nat.sub_diag. cbn [firstn]. rewrite app_nil_r.
  reflexivity.
Qed.

Lemma ArrayRange_app (src more : list T) (from count : Z) (l : list T) :
  ArrayRange src from count = Some l -> ArrayRange (src ++ more) from count = Some l.
Proof.
  intros H. destruct (ArrayRange_Some _ _ _ _ H) as (H1 & H2 & H3 & -> & _).
  unfold ArrayRange.
  replace ((0 <=? from)%Z && (0 <=? count)%Z
           && (from + count <=? Z.of_nat (length (src ++ more)))%Z) with true.
  2:{ symmetry. rewrite length_app.
      apply andb_true_iff. split; [apply andb_true_iff; split|]; apply Z.leb_le; lia. }
  f_equal. rewrite skipn_app, firstn_app.
  replace (Z.to_nat count - length (skipn (Z.to_nat from) src))%nat with 0%nat
    by (rewrite length_skipn; lia).
  cbn [firstn]. rewrite app_nil_r. reflexivity.
Qed.

Lemma AtPtr_cons_0 (x : T) (l : list T) : AtPtr (x :: l) 0 = Some x.
Proof. reflexivity. Qed.

Lemma AtPtr_cons_succ (x : T) (l : list T) (j : Z) :
  (0 <= j)%Z -> AtPtr (x :: l) (j + 1) = AtPtr l j.
Proof.
  intros Hj. unfold AtPtr. cbn [length].
  replace (0 <=? j + 1)%Z with true by (symmetry; apply Z.leb_le; lia).
  replace (0 <=? j)%Z with true by (symmetry; apply Z.leb_le; lia).
  cbn [andb].
  destruct (j <? Z.of_nat (length l))%Z eqn:E.
  - replace (j + 1 <? Z.of_nat (S (length l)))%Z with true
      by (symmetry; apply Z.ltb_lt; apply Z.ltb_lt in E; lia).
    replace (Z.to_nat (j + 1)) with (S (Z.to_nat j)) by lia. reflexivity.
  - replace (j + 1 <? Z.of_nat (S (length l)))%Z with false
      by (symmetry; apply Z.ltb_ge; apply Z.ltb_ge in E; lia).
    reflexivity.
Qed.

End ArrayRanges.

Section CacheLayout.
Context {F : Type} {A : Arith F} {L : Libm F}.

Lemma _tpGLFlattenContour_appends (fuel : nat) (contour : _tpGLContour F) (tol : F)
    (tr : option (tpTransform F)) (outV : list (tpVec2 F)) (outJ : list tpBool)
    (mb : _tpGLRect F) (oc : _tpGLRenderCacheContour) (uninit : tpVec2 F)
    (r : flatten_result) :
  _tpGLFlattenContour fuel contour tol tr outV outJ mb oc uninit = Some r ->
  exists nv nj,
    fr_vertices r = outV ++ nv
    /\ fr_joints r = outJ ++ nj
    /\ length nv = length nj
    /\ fillVertexOffset (fr_outContour r) = Z.of_nat (length outV)
    /\ fillVertexCount (fr_outContour r) = Z.of_nat (length nv)
    /\ strokeVertexOffset (fr_outContour r) = strokeVertexOffset oc
    /\ strokeVertexCount (fr_outContour r) = strokeVertexCount oc.
Proof.
  unfold _tpGLFlattenContour.
  destruct (segments contour) as [|first rest] eqn:Es.
  - intros H. injection H as <-. exists [], [].
    cbn [fr_vertices fr_joints fr_outContour fr_contour fillVertexOffset fillVertexCount
         strokeVertexOffset strokeVertexCount fs_vertices fs_joints fs_vertexCount
         segments length].
    rewrite !app_nil_r. repeat split; reflexivity.
  - set (st0 := mkFlatten [] false outV outJ _tpGLInitBounds 0).
    destruct (flatten_segments fuel tol (bIsClosed contour) tr 1 first rest uninit st0)
      as [[[lst ltp] st]|] eqn:E1; [|discriminate].
    destruct (flatten_segments_output _ _ _ _ _ _ _ _ _ _ _ _ uninit E1)
      as (nv1 & nj1 & [V1 J1 L1 C1] & _).
    cbn [fs_vertices fs_joints fs_vertexCount st0] in V1, J1, C1.
    destruct (bIsClosed contour && _).
    + destruct (_tpGLFlattenCurve fuel _ tol (bIsClosed contour) tpFalse tpTrue _ _ _ _)
        as [st2|] eqn:E2; [|discriminate].
      destruct (_tpGLFlattenCurve_output _ _ _ _ _ _ _ _ _ _ _ uninit E2)
        as (nv2 & nj2 & [V2 J2 L2 C2] & _).
      cbn [fs_vertices fs_joints fs_vertexCount] in V2, J2, C2.
      intros H. injection H as <-. exists (nv1 ++ nv2), (nj1 ++ nj2).
      cbn [fr_vertices fr_joints fr_outContour fr_contour fillVertexOffset fillVertexCount
           strokeVertexOffset strokeVertexCount segments].
      split; [rewrite V2, V1, app_assoc; reflexivity|].
      split; [rewrite J2, J1, app_assoc; reflexivity|].
      split; [rewrite !length_app; lia|].
      split; [reflexivity|].
      split; [rewrite C2, C1, length_app; lia|].
      split; reflexivity.
    + intros H. injection H as <-. exists nv1, nj1.
      cbn [fr_vertices fr_joints fr_outContour fr_contour fillVertexOffset fillVertexCount
           strokeVertexOffset strokeVertexCount segments].
      split; [exact V1|]. split; [exact J1|]. split; [exact L1|].
      split; [reflexivity|]. split; [rewrite C1; lia|].
      split; reflexivity.
Qed.

Lemma _tpGLFlattenContour_dirty (fuel : nat) (contour : _tpGLContour F) (tol : F)
    (tr : option (tpTransform F)) (outV : list (tpVec2 F)) (outJ : list tpBool)
    (mb : _tpGLRect F) (oc : _tpGLRenderCacheContour) (uninit : tpVec2 F)
    (r : flatten_result) :
  _tpGLFlattenContour fuel contour tol tr outV outJ mb oc uninit = Some r ->
  bDirty (fr_contour r) = bDirty contour.
Proof.
  unfold _tpGLFlattenContour.
  destruct (segments contour) as [|first rest].
  - intros H. injection H as <-. reflexivity.
  - destruct (flatten_segments fuel tol (bIsClosed contour) tr 1 first rest uninit _)
      as [[[lst ltp] st]|]; [|discriminate].
    destruct (bIsClosed contour && _).
    + destruct (_tpGLFlattenCurve fuel _ tol (bIsClosed contour) tpFalse tpTrue _ _ _ _)
        as [st2|]; [|discriminate].
      intros H. injection H as <-. reflexivity.
    + intros H. injection H as <-. reflexivity.
Qed.

(** The loop of [_tpGLCachePathImpl] over the contours: one render contour
    for each contour, with fill ranges that follow one another; the dirty
    flags stay when the loop does not clear them. *)
Lemma flatten_contours_layout (cs : list (_tpGLContour F)) :
  forall (fuel : nat) (tol : F) (tr : option (tpTransform F)) (clearDirty : bool)
         (old : option (_tpGLRenderCache F)) (i : Z)
         (done_cs : list (_tpGLContour F)) (rcs : list _tpGLRenderCacheContour)
         (vs : list (tpVec2 F)) (js : list tpBool) (b : _tpGLRect F)
         (rc : _tpGLRenderCacheContour) (uninit : tpVec2 F)
         (cs' : list (_tpGLContour F)) (rcs' : list _tpGLRenderCacheContour)
         (vs' : list (tpVec2 F)) (js' : list tpBool) (b' : _tpGLRect F),
    Cache.flatten_contours fuel tol tr clearDirty old i cs done_cs rcs vs js b rc uninit
    = Some (cs', rcs', vs', js', b') ->
    exists new nv nj,
      rcs' = rcs ++ new /\ vs' = vs ++ nv /\ js' = js ++ nj
      /\ length nv = length nj
      /\ length new = length cs
      /\ length cs' = (length done_cs + length cs)%nat
      /\ chain fillVertexOffset fillVertexCount new
               (Z.of_nat (length vs)) (Z.of_nat (length vs'))
      /\ (clearDirty = false ->
          map (@bDirty F) cs' = map (@bDirty F) (done_cs ++ cs)).
Proof.
  induction cs as [|c cs IH];
    intros fuel tol tr clearDirty old i done_cs rcs vs js b rc uninit cs' rcs' vs' js' b' H.
  - injection H as <- <- <- <- <-. exists [], [], [].
    rewrite !app_nil_r. simpl. repeat (split; [reflexivity|]).
    split; [lia|]. split; reflexivity.
  - cbn [Cache.flatten_contours] in H.
    destruct (Cache.flattens_anew c old) as [[|]|]; [| |discriminate].
    + destruct (_tpGLFlattenContour fuel c tol tr vs js b rc uninit) as [r|] eqn:E;
        [|discriminate].
      destruct (_tpGLFlattenContour_appends _ _ _ _ _ _ _ _ _ _ E)
        as (nv1 & nj1 & V1 & J1 & L1 & O1 & C1 & _ & _).
      pose proof (_tpGLFlattenContour_dirty _ _ _ _ _ _ _ _ _ _ E) as D1.
      apply IH in H.
      destruct H as (new & nv2 & nj2 & Hr & Hv & Hj & Hl & Hn & Hc & Hch & Hd).
      exists (fr_outContour r :: new), (nv1 ++ nv2), (nj1 ++ nj2).
      split; [rewrite Hr, <- app_assoc; reflexivity|].
      split; [rewrite Hv, V1, app_assoc; reflexivity|].
      split; [rewrite Hj, J1, app_assoc; reflexivity|].
      split; [rewrite !length_app; lia|].
      split; [simpl; lia|].
      split; [rewrite Hc, length_app; simpl; lia|].
      split.
      * cbn [chain]. split; [exact O1|]. split; [rewrite C1; lia|].
        rewrite C1. rewrite V1, length_app in Hch.
        replace (Z.of_nat (length vs) + Z.of_nat (length nv1))%Z
          with (Z.of_nat (length vs + length nv1)) by lia.
        exact Hch.
      * intros ->. rewrite (Hd eq_refl), <- app_assoc, !map_app. cbn [map app].
        rewrite D1. reflexivity.
    + destruct old as [old|]; [|discriminate].
      destruct (AtPtr (cache_contours old) i) as [rcc|]; [|discriminate].
      destruct (ArrayRange (geometryCache old) _ _) as [nv1|] eqn:E1; [|discriminate].
      destruct (ArrayRange (jointCache old) _ _) as [nj1|] eqn:E2; [|discriminate].
      destruct (bounds c) as [cb|]; [|discriminate].
      destruct (ArrayRange_Some _ _ _ _ E1) as (_ & R2 & _ & _ & R5).
      destruct (ArrayRange_Some _ _ _ _ E2) as (_ & _ & _ & _ & R6).
      apply IH in H.
      destruct H as (new & nv2 & nj2 & Hr & Hv & Hj & Hl & Hn & Hc & Hch & Hd).
      match type of Hr with
      | _ = (_ ++ [?x]) ++ _ => exists (x :: new), (nv1 ++ nv2), (nj1 ++ nj2)
      end.
      split; [rewrite Hr, <- app_assoc; reflexivity|].
      split; [rewrite Hv, app_assoc; reflexivity|].
      split; [rewrite Hj, app_assoc; reflexivity|].
      split; [rewrite !length_app; lia|].
      split; [simpl; lia|].
      split; [rewrite Hc, length_app; simpl; lia|].
      split.
      * cbn [chain fillVertexOffset fillVertexCount].
        split; [reflexivity|]. split; [exact R2|].
        rewrite length_app in Hch.
        replace (Z.of_nat (length vs) + fillVertexCount rcc)%Z
          with (Z.of_nat (length vs + length nv1)) by lia.
        exact Hch.
      * intros Hcd. rewrite (Hd Hcd), <- app_assoc. reflexivity.
Qed.

(** The loop of [_tpGLStroke] for a style without dashes: the stroke of a
    contour is made anew or copied from the old cache, and the count that
    the loop returns is the number of vertices it appends.  The stroke
    ranges of the render contours are written only where the stroke is made
    anew. *)
Lemma stroke_contours_layout
    (dashed : _tpGLRenderCacheContour -> tpStyle F -> _tpGLDashStartState F ->
              list (tpVec2 F) -> list tpBool ->
              option (_tpGLRenderCacheContour * list (tpVec2 F)))
    (rcs : list _tpGLRenderCacheContour) :
  forall (fuel : nat) (reb : tpBool) (old : option (_tpGLRenderCache F))
         (style : tpStyle F)
         (ds : option (_tpGLDashStartState F)) (i : Z) (cs done_cs : list (_tpGLContour F))
         (done_rcs : list _tpGLRenderCacheContour) (vs : list (tpVec2 F))
         (js : list tpBool) (count : Z) (uninit : tpVec2 F)
         (cs' : list (_tpGLContour F)) (rcs' : list _tpGLRenderCacheContour)
         (vs' : list (tpVec2 F)) (count' : Z) (a b : Z),
    dashArray style = [] ->
    stroke_contours dashed fuel reb old style ds i cs rcs done_cs done_rcs vs js count
      uninit = Some (cs', rcs', vs', count') ->
    chain fillVertexOffset fillVertexCount rcs a b ->
    exists new soup,
      rcs' = done_rcs ++ new /\ vs' = vs ++ soup
      /\ count' = (count + Z.of_nat (length soup))%Z
      /\ length new = length rcs
      /\ chain fillVertexOffset fillVertexCount new a b
      /\ Forall2 (fun rc rc' => fillVertexOffset rc' = fillVertexOffset rc
                                /\ fillVertexCount rc' = fillVertexCount rc) rcs new
      /\ map (@bounds F) cs' = map (@bounds F) (done_cs ++ cs)
      /\ (old = None \/ Forall (fun c => bDirty c = tpTrue) cs ->
          (exists k, length soup = (3 * k)%nat)
          /\ chain strokeVertexOffset strokeVertexCount new
                   (Z.of_nat (length vs)) (Z.of_nat (length vs'))).
Proof.
  induction rcs as [|rc rcs IH];
    intros fuel reb old style ds i cs done_cs done_rcs vs js count uninit cs' rcs' vs' count'
           a b Hd H Hch.
  - destruct cs; cbn [stroke_contours] in H; injection H as <- <- <- <-;
      exists [], [];
      rewrite !app_nil_r; simpl; (repeat (split; [reflexivity|]));
      (split; [lia|]); (split; [reflexivity|]); (split; [exact Hch|]);
      (split; [constructor|]);
      (split; [reflexivity|]); intros _; (split; [exists 0%nat; reflexivity|reflexivity]).
  - cbn [stroke_contours] in H. destruct cs as [|c cs]; [discriminate|].
    cbn [stroke_contours] in H.
    cbn [chain] in Hch. destruct Hch as [Ho [Hc Hrest]].
    destruct (bDirty c || match old with None => true | Some _ => false end) eqn:Er.
    + replace (dashCount style =? 0)%Z with true in H
        by (unfold dashCount; rewrite Hd; reflexivity).
      destruct (_tpGLRenderCacheContourContinousStrokeGeometry fuel rc style vs js uninit)
        as [[rc1 vs1]|] eqn:E; [|discriminate].
      destruct (continuous_stroke_appends _ _ _ _ _ _ _ _ E)
        as (soup1 & k1 & V1 & L1 & SO & SC & FO & FC & _).
      apply (IH _ _ _ _ _ _ _ _ _ _ _ _ _ _ _ _ _ (a + fillVertexCount rc)%Z b Hd) in H;
        [|exact Hrest].
      destruct H as (new & soup2 & Hr & Hv & Hcnt & Hn & Hf & Hsame & Hb & Hs).
      exists (rc1 :: new), (soup1 ++ soup2).
      split; [rewrite Hr, <- app_assoc; reflexivity|].
      split; [rewrite Hv, V1, app_assoc; reflexivity|].
      split; [rewrite Hcnt, SC, length_app; lia|].
      split; [simpl; lia|].
      split.
      { cbn [chain]. rewrite FO, FC. split; [exact Ho|]. split; [exact Hc|exact Hf]. }
      split; [constructor; [split; assumption|exact Hsame]|].
      split.
      { rewrite Hb, <- app_assoc, !map_app. cbn [map app]. destruct reb; reflexivity. }
      intros Hall.
      assert (Hall' : old = None \/ Forall (fun c => bDirty c = tpTrue) cs).
      { destruct Hall as [Hall|Hall]; [left; exact Hall|right].
        inversion Hall; assumption. }
      destruct (Hs Hall') as [[k2 Hk2] Hs2]. split.
      * exists (k1 + k2)%nat. rewrite length_app. lia.
      * cbn [chain]. split; [exact SO|]. split; [rewrite SC; lia|].
        rewrite SC. rewrite V1, length_app in Hs2.
        replace (Z.of_nat (length vs) + Z.of_nat (length soup1))%Z
          with (Z.of_nat (length vs + length soup1)) by lia.
        exact Hs2.
    + apply orb_false_iff in Er. destruct Er as [Ec Eo].
      destruct old as [old|]; [|discriminate].
      destruct (AtPtr (cache_contours old) i) as [orc|]; [|discriminate].
      destruct (ArrayRange (geometryCache old) _ _) as [copied|] eqn:E1; [|discriminate].
      destruct (ArrayRange_Some _ _ _ _ E1) as (_ & _ & _ & _ & R5).
      apply (IH _ _ _ _ _ _ _ _ _ _ _ _ _ _ _ _ _ (a + fillVertexCount rc)%Z b Hd) in H;
        [|exact Hrest].
      destruct H as (new & soup2 & Hr & Hv & Hcnt & Hn & Hf & Hsame & Hb & Hs).
      exists (rc :: new), (copied ++ soup2).
      split; [rewrite Hr, <- app_assoc; reflexivity|].
      split; [rewrite Hv, app_assoc; reflexivity|].
      split; [rewrite Hcnt, length_app; lia|].
      split; [simpl; lia|].
      split.
      { cbn [chain]. split; [exact Ho|]. split; [exact Hc|exact Hf]. }
      split; [constructor; [split; reflexivity|exact Hsame]|].
      split.
      { rewrite Hb, <- app_assoc. reflexivity. }
      intros [Hall|Hall]; [discriminate|].
      inversion Hall as [|? ? Hd1 _]; subst. rewrite Hd1 in Ec. discriminate.
Qed.

(** X18.  Take a call of [_tpGLCachePathImpl] with [_bGeometryDirty] set, on
    a path with at least one contour, for a style without dashes, whatever
    the old cache holds and whichever contours are dirty.  When the call
    returns, the geometry cache is the fill vertices, then the stroke
    vertices (none when the style has no visible stroke), then the four
    vertices of the bounds quad at [boundsVertexOffset].  There is one joint
    flag for each fill vertex and one render contour for each contour of the
    path, and the fill ranges of the render contours follow one another and
    cover exactly the fill vertices.  For a stroked style the cache records
    the range of the stroke vertices as [strokeVertexOffset] and
    [strokeVertexCount].  When moreover every stroke is made anew
    ([_bStrokeDirty] is set, the old cache is a null pointer, or every
    contour is dirty), the stroke vertices are whole triangles and the stroke
    ranges of the render contours follow one another and cover exactly the
    stroke vertices. *)
Theorem _tpGLCachePathImpl_layout
    (dashed : _tpGLRenderCacheContour -> tpStyle F -> _tpGLDashStartState F ->
              list (tpVec2 F) -> list tpBool ->
              option (_tpGLRenderCacheContour * list (tpVec2 F)))
    (fuel : nat) (ctx_transform : tpTransform F) (ctx_transformScale : F)
    (path : _tpGLPath F) (style : tpStyle F) (oldCache : option (_tpGLRenderCache F))
    (cache : _tpGLRenderCache F) (bIsPathRenderCache bStrokeDirty : bool)
    (rc : _tpGLRenderCacheContour) (uninit : tpVec2 F)
    (path' : _tpGLPath F) (cache' : _tpGLRenderCache F) :
  dashArray style = [] ->
  contours path <> [] ->
  Cache._tpGLCachePathImpl dashed fuel ctx_transform ctx_transformScale path style
    oldCache cache bIsPathRenderCache true bStrokeDirty rc uninit = Some (path', cache') ->
  exists fill soup quad,
    geometryCache cache' = fill ++ soup ++ quad
    /\ length quad = 4%nat
    /\ length (jointCache cache') = length fill
    /\ length (cache_contours cache') = length (contours path)
    /\ chain fillVertexOffset fillVertexCount (cache_contours cache')
             0 (Z.of_nat (length fill))
    /\ boundsVertexOffset cache' = Z.of_nat (length fill + length soup)
    /\ (if negb (paint_is_none (stroke style)) && (strokeWidth style >? c0)%tp
        then cache_strokeVertexOffset cache' = Z.of_nat (length fill)
             /\ cache_strokeVertexCount cache' = Z.of_nat (length soup)
             /\ (bStrokeDirty = true \/ oldCache = None
                 \/ Forall (fun c => bDirty c = tpTrue) (contours path) ->
                 (exists k, length soup = (3 * k)%nat)
                 /\ chain strokeVertexOffset strokeVertexCount (cache_contours cache')
                          (Z.of_nat (length fill))
                          (Z.of_nat (length fill + length soup)))
        else soup = []).
Proof.
  intros Hd Hne H. unfold Cache._tpGLCachePathImpl in H.
  destruct (contours path) as [|c cs] eqn:Ec; [contradiction|].
  unfold Cache.geometry_block in H. rewrite Ec in H.
  destruct (Cache.flatten_contours fuel _ _ _ oldCache 0 (c :: cs) [] [] [] []
              _tpGLInitBounds rc uninit)
    as [[[[[cs1 rcs] vertices] joints] b]|] eqn:Ef; [|discriminate].
  destruct (flatten_contours_layout _ _ _ _ _ _ _ _ _ _ _ _ _ _ _ _ _ _ _ Ef)
    as (new & nv & nj & Hr & Hv & Hj & Hl & Hn & _ & Hch & Hdirty).
  cbn [app length Z.of_nat] in Hr, Hv, Hj, Hch, Hdirty. subst rcs vertices joints.
  destruct (negb (paint_is_none (stroke style)) && (strokeWidth style >? c0)%tp) eqn:Es.
  - cbn [negb andb] in Hdirty. specialize (Hdirty eq_refl).
    destruct (_tpGLStroke dashed fuel _ new bIsPathRenderCache _ style nv nj uninit)
      as [[[[p2 rcs'] vertices'] n]|] eqn:E; [|discriminate].
    injection H as <- <-.
    unfold _tpGLStroke in E.
    match type of E with
    | match ?s with _ => _ end = _ => destruct s as [[[[cs2 rcs2] vs2] n2]|] eqn:E2
    end; [|discriminate].
    injection E as <- <- <- <-.
    destruct (stroke_contours_layout dashed _ _ _ _ _ _ _ _ _ _ _ _ _ _ _ _ _ _ _ _ Hd E2
                Hch)
      as (new2 & soup & Hr2 & Hv2 & Hc2 & Hn2 & Hf2 & _ & _ & Hs2).
    cbn [app] in Hr2. subst rcs2 vs2.
    assert (Hanew : bStrokeDirty = true \/ oldCache = None
                    \/ Forall (fun c => bDirty c = tpTrue) (c :: cs) ->
                    (exists k, length soup = (3 * k)%nat)
                    /\ chain strokeVertexOffset strokeVertexCount new2
                             (Z.of_nat (length nv)) (Z.of_nat (length nv + length soup))).
    { intros Hall. rewrite <- length_app. apply Hs2. cbn [contours].
      destruct Hall as [->|[->|Hall]]; [left; reflexivity| |].
      - left. destruct bStrokeDirty; reflexivity.
      - right. apply Forall_forall. intros x Hx.
        apply (in_map (@bDirty F)) in Hx. rewrite Hdirty in Hx.
        apply in_map_iff in Hx. destruct Hx as (y & Hy & Hin).
        rewrite Forall_forall in Hall. rewrite <- Hy. apply Hall, Hin. }
    unfold _tpGLCacheBoundsGeometry.
    cbn [geometryCache jointCache cache_contours boundsVertexOffset
         cache_strokeVertexOffset cache_strokeVertexCount boundsCache].
    destruct (negb (paint_is_none (stroke style)));
      cbn [geometryCache jointCache cache_contours boundsVertexOffset
           cache_strokeVertexOffset cache_strokeVertexCount];
      (eexists nv, soup, _;
       split; [rewrite <- app_assoc; reflexivity|];
       split; [reflexivity|];
       split; [symmetry; exact Hl|];
       split; [rewrite Hn2; exact Hn|];
       split; [exact Hf2|];
       split; [rewrite length_app; reflexivity|];
       split; [reflexivity|];
       split; [lia|exact Hanew]).
  - injection H as <- <-.
    unfold _tpGLCacheBoundsGeometry.
    cbn [geometryCache jointCache cache_contours boundsVertexOffset
         cache_strokeVertexOffset cache_strokeVertexCount boundsCache].
    destruct (negb (paint_is_none (stroke style)));
      cbn [geometryCache jointCache cache_contours boundsVertexOffset
           cache_strokeVertexOffset cache_strokeVertexCount];
      (eexists nv, [], _;
       split; [reflexivity|];
       split; [reflexivity|];
       split; [symmetry; exact Hl|];
       split; [exact Hn|];
       split; [exact Hch|];
       split; [cbn [length]; rewrite Nat.add_0_r; reflexivity|reflexivity]).
Qed.

End CacheLayout.

(** ** The bounds of a render cache *)

Lemma _tpGLFlattenContour_inside (fuel : nat) (contour : _tpGLContour R) (tol : R)
    (tr : option (tpTransform R)) (outV : list (tpVec2 R)) (outJ : list tpBool)
    (mb : _tpGLRect R) (oc : _tpGLRenderCacheContour) (uninit : tpVec2 R)
    (r : flatten_result) :
  _tpGLFlattenContour fuel contour tol tr outV outJ mb oc uninit = Some r ->
  exists nv b,
    fr_vertices r = outV ++ nv
    /\ bounds (fr_contour r) = Some b
    /\ Forall (inside b) nv
    /\ within b (fr_mergeBounds r)
    /\ Forall (inside (fr_mergeBounds r)) nv
    /\ within mb (fr_mergeBounds r).
Proof.
  intros H. unfold _tpGLFlattenContour in H.
  assert (Hfin : forall st nv,
             Forall (inside (fs_bounds st)) nv ->
             Forall (inside (fs_bounds st)) nv
             /\ within (fs_bounds st) (_tpGLMergeBounds mb (fs_bounds st))
             /\ Forall (inside (_tpGLMergeBounds mb (fs_bounds st))) nv
             /\ within mb (_tpGLMergeBounds mb (fs_bounds st))).
  { intros st nv Hin. destruct (merge_within mb (fs_bounds st)) as [Ha Hb].
    split; [exact Hin|]. split; [exact Hb|]. split; [|exact Ha].
    apply (Forall_inside_within _ _ _ Hb Hin). }
  destruct (segments contour) as [|first rest].
  - injection H as <-. exists [], _tpGLInitBounds. cbn [fr_vertices fr_contour
      fr_mergeBounds bounds fs_vertices fs_bounds]. rewrite app_nil_r.
    split; [reflexivity|]. split; [reflexivity|]. split; [constructor|].
    destruct (merge_within mb _tpGLInitBounds) as [Ha Hb].
    split; [exact Hb|]. split; [constructor|exact Ha].
  - destruct (flatten_segments _ tol (bIsClosed contour) tr 1 first rest uninit _)
      as [[[lst ltp] st]|] eqn:E1; [|discriminate].
    destruct (flatten_segments_bounds _ _ _ _ _ _ _ _ _ _ E1) as [nv1 [Hv1 [Hw1 Hin1]]].
    cbn [snd fs_vertices fs_bounds] in Hv1, Hw1, Hin1.
    destruct (bIsClosed contour && _).
    + destruct (_tpGLFlattenCurve _ _ tol (bIsClosed contour) tpFalse tpTrue _ _ _ _)
        as [st2|] eqn:E2; [|discriminate].
      injection H as <-.
      unfold _tpGLFlattenCurve in E2.
      destruct (flatten_loop_bounds _ _ _ _ _ _ _ E2) as [nv2 [Hv2 [Hw2 Hin2]]].
      cbn [fs_vertices fs_bounds] in Hv2, Hw2.
      exists (nv1 ++ nv2), (fs_bounds st2).
      cbn [fr_vertices fr_contour fr_mergeBounds bounds].
      split; [rewrite Hv2, Hv1, app_assoc; reflexivity|]. split; [reflexivity|].
      apply (Hfin st2 (nv1 ++ nv2)).
      apply Forall_app. split; [|exact Hin2].
      apply (Forall_inside_within _ _ _ Hw2 Hin1).
    + injection H as <-. exists nv1, (fs_bounds st).
      cbn [fr_vertices fr_contour fr_mergeBounds bounds].
      split; [exact Hv1|]. split; [reflexivity|].
      apply (Hfin st nv1 Hin1).
Qed.

Lemma bounds_within_weaken (a b : _tpGLRect R) (cs : list (_tpGLContour R)) :
  within a b -> Forall (bounds_within a) cs -> Forall (bounds_within b) cs.
Proof.
  intros Hw H. induction H as [|c cs [bc [Hb Hc]] _ IH]; constructor; [|exact IH].
  exists bc. split; [exact Hb|]. apply (within_trans _ _ _ Hc Hw).
Qed.

Lemma bounds_within_map (b : _tpGLRect R) (cs cs' : list (_tpGLContour R)) :
  map (@bounds R) cs' = map (@bounds R) cs ->
  Forall (bounds_within b) cs -> Forall (bounds_within b) cs'.
Proof.
  revert cs'. induction cs as [|c cs IH]; intros cs' Hm H.
  - destruct cs'; [constructor|discriminate].
  - destruct cs' as [|c' cs']; [constructor|].
    cbn [map] in Hm. injection Hm as Hc Hm.
    inversion H as [|? ? [bc [Hb Hw]] Hr]; subst.
    constructor; [|apply IH; assumption].
    exists bc. split; [rewrite Hc; exact Hb|exact Hw].
Qed.

Lemma fill_range_in_bounds_app (vs more : list (tpVec2 R)) (c : _tpGLContour R)
    (rcc : _tpGLRenderCacheContour) :
  fill_range_in_bounds vs c rcc -> fill_range_in_bounds (vs ++ more) c rcc.
Proof.
  intros (cb & l & Hb & Hr & Hin). exists cb, l.
  split; [exact Hb|]. split; [apply ArrayRange_app; exact Hr|exact Hin].
Qed.

Lemma fill_in_bounds_app (vs more : list (tpVec2 R)) (cs : list (_tpGLContour R))
    (rcs : list _tpGLRenderCacheContour) :
  Forall2 (fill_range_in_bounds vs) cs rcs ->
  Forall2 (fill_range_in_bounds (vs ++ more)) cs rcs.
Proof.
  intros H. induction H; constructor; [apply fill_range_in_bounds_app|]; assumption.
Qed.

(** The stroker leaves the bounds of the contours and the fill ranges of the
    render contours as they are. *)
Lemma fill_in_bounds_transfer (vs : list (tpVec2 R)) (cs : list (_tpGLContour R))
    (rcs : list _tpGLRenderCacheContour) :
  Forall2 (fill_range_in_bounds vs) cs rcs ->
  forall (cs' : list (_tpGLContour R)) (rcs' : list _tpGLRenderCacheContour),
    map (@bounds R) cs' = map (@bounds R) cs ->
    Forall2 (fun rc rc' => fillVertexOffset rc' = fillVertexOffset rc
                           /\ fillVertexCount rc' = fillVertexCount rc) rcs rcs' ->
    Forall2 (fill_range_in_bounds vs) cs' rcs'.
Proof.
  induction 1 as [|c rc cs rcs (cb & l & Hb & Hr & Hin) _ IH]; intros cs' rcs' Hm Hs.
  - destruct cs'; [|discriminate]. inversion Hs. constructor.
  - destruct cs' as [|c' cs']; [discriminate|].
    cbn [map] in Hm. injection Hm as Hc Hm.
    inversion Hs as [|? rc' ? rcs2 [Ho Hn] Hs']; subst.
    constructor; [|apply IH; assumption].
    exists cb, l. split; [rewrite Hc; exact Hb|]. rewrite Ho, Hn. split; assumption.
Qed.

Lemma Forall2_app_one (T U : Type) (P : T -> U -> Prop) (l1 : list T) (l2 : list U)
    (x : T) (y : U) :
  Forall2 P l1 l2 -> P x y -> Forall2 P (l1 ++ [x]) (l2 ++ [y]).
Proof. intros H1 H2. apply Forall2_app; [exact H1|]. constructor; [exact H2|constructor]. Qed.

(** The loop of [_tpGLCachePathImpl] over the contours: when the old fill
    vertices of the contours that are not dirty lie inside the bounds that
    these contours store, every vertex the loop appends lies inside the
    bounds it returns, and every contour it leaves stores bounds that hold
    the fill vertices of its render contour. *)
Lemma flatten_contours_bounds (cs : list (_tpGLContour R)) :
  forall (fuel : nat) (tol : R) (tr : option (tpTransform R)) (clearDirty : bool)
         (old : option (_tpGLRenderCache R)) (i : Z)
         (done_cs : list (_tpGLContour R)) (rcs : list _tpGLRenderCacheContour)
         (vs : list (tpVec2 R)) (js : list tpBool) (b : _tpGLRect R)
         (rc : _tpGLRenderCacheContour) (uninit : tpVec2 R)
         (cs' : list (_tpGLContour R)) (rcs' : list _tpGLRenderCacheContour)
         (vs' : list (tpVec2 R)) (js' : list tpBool) (b' : _tpGLRect R),
    (0 <= i)%Z ->
    (forall o j c rcc cb l,
        old = Some o -> (0 <= j)%Z ->
        AtPtr cs j = Some c -> bDirty c = tpFalse ->
        AtPtr (cache_contours o) (i + j) = Some rcc ->
        bounds c = Some cb ->
        ArrayRange (geometryCache o) (fillVertexOffset rcc) (fillVertexCount rcc) = Some l ->
        Forall (inside cb) l) ->
    Cache.flatten_contours fuel tol tr clearDirty old i cs done_cs rcs vs js b rc uninit
    = Some (cs', rcs', vs', js', b') ->
    exists nv new newr,
      vs' = vs ++ nv /\ cs' = done_cs ++ new /\ rcs' = rcs ++ newr
      /\ within b b'
      /\ Forall (inside b') nv
      /\ Forall (bounds_within b') new
      /\ Forall2 (fill_range_in_bounds vs') new newr.
Proof.
  induction cs as [|c cs IH];
    intros fuel tol tr clearDirty old i done_cs rcs vs js b rc uninit cs' rcs' vs' js' b'
           Hi Hold H.
  - injection H as <- <- <- <- <-. exists [], [], []. rewrite !app_nil_r.
    split; [reflexivity|]. split; [reflexivity|]. split; [reflexivity|].
    split; [apply within_refl|]. repeat split; constructor.
  - cbn [Cache.flatten_contours] in H.
    assert (Hold' : forall o j c1 rcc cb l,
               old = Some o -> (0 <= j)%Z ->
               AtPtr cs j = Some c1 -> bDirty c1 = tpFalse ->
               AtPtr (cache_contours o) (i + 1 + j) = Some rcc ->
               bounds c1 = Some cb ->
               ArrayRange (geometryCache o) (fillVertexOffset rcc) (fillVertexCount rcc)
               = Some l ->
               Forall (inside cb) l).
    { intros o j c1 rcc cb l Ho Hj Hc Hd Hr Hb Hl.
      apply (Hold o (j + 1)%Z c1 rcc cb l Ho); try assumption; try lia.
      - rewrite AtPtr_cons_succ by lia. exact Hc.
      - replace (i + (j + 1))%Z with (i + 1 + j)%Z by lia. exact Hr. }
    destruct (Cache.flattens_anew c old) as [[|]|] eqn:Ea; [| |discriminate].
    + destruct (_tpGLFlattenContour fuel c tol tr vs js b rc uninit) as [r|] eqn:E;
        [|discriminate].
      destruct (_tpGLFlattenContour_inside _ _ _ _ _ _ _ _ _ _ E)
        as (nv1 & bc & V1 & B1 & I0 & W1 & I1 & M1).
      destruct (_tpGLFlattenContour_appends _ _ _ _ _ _ _ _ _ _ E)
        as (nv1' & nj1 & V1' & _ & _ & O1 & C1 & _ & _).
      assert (nv1' = nv1) by (rewrite V1 in V1'; apply app_inv_head in V1'; congruence).
      subst nv1'.
      apply IH in H; [|lia|exact Hold'].
      destruct H as (nv2 & new & newr & Hv & Hc & Hr & Hw & Hin & Hb & Hf).
      match type of Hc with
      | _ = (_ ++ [?x]) ++ _ => exists (nv1 ++ nv2), (x :: new), (fr_outContour r :: newr)
      end.
      split; [rewrite Hv, V1, app_assoc; reflexivity|].
      split; [rewrite Hc, <- app_assoc; reflexivity|].
      split; [rewrite Hr, <- app_assoc; reflexivity|].
      split; [apply (within_trans _ _ _ M1 Hw)|].
      split.
      { apply Forall_app. split; [|exact Hin].
        apply (Forall_inside_within _ _ _ Hw I1). }
      split.
      { constructor; [|exact Hb].
        exists bc. split; [|apply (within_trans _ _ _ W1 Hw)].
        destruct clearDirty; [cbn [bounds]|]; exact B1. }
      constructor; [|exact Hf].
      exists bc, nv1. split; [destruct clearDirty; [cbn [bounds]|]; exact B1|].
      split; [|exact I0].
      rewrite O1, C1, Hv, V1, <- app_assoc. apply ArrayRange_middle.
    + destruct old as [o|]; [|discriminate].
      destruct (AtPtr (cache_contours o) i) as [rcc|] eqn:Er; [|discriminate].
      destruct (ArrayRange (geometryCache o) _ _) as [nv1|] eqn:E1; [|discriminate].
      destruct (ArrayRange (jointCache o) _ _) as [nj1|] eqn:E2; [|discriminate].
      destruct (bounds c) as [cb|] eqn:Eb; [|discriminate].
      assert (Hd : bDirty c = tpFalse).
      { unfold Cache.flattens_anew in Ea. destruct (bDirty c); [discriminate|reflexivity]. }
      assert (I0 : Forall (inside cb) nv1).
      { apply (Hold o 0%Z c rcc cb nv1 eq_refl); try assumption; try lia.
        - reflexivity.
        - rewrite Z.add_0_r. exact Er. }
      destruct (ArrayRange_Some _ _ _ _ E1) as (_ & _ & _ & _ & R5).
      destruct (merge_within b cb) as [Ma Mb].
      apply IH in H; [|lia|exact Hold'].
      destruct H as (nv2 & new & newr & Hv & Hc & Hr & Hw & Hin & Hb & Hf).
      match type of Hr with
      | _ = (_ ++ [?x]) ++ _ => exists (nv1 ++ nv2), (c :: new), (x :: newr)
      end.
      split; [rewrite Hv, app_assoc; reflexivity|].
      split; [rewrite Hc, <- app_assoc; reflexivity|].
      split; [rewrite Hr, <- app_assoc; reflexivity|].
      split; [apply (within_trans _ _ _ Ma Hw)|].
      split.
      { apply Forall_app. split; [|exact Hin].
        apply (Forall_inside_within _ _ _ (within_trans _ _ _ Mb Hw) I0). }
      split.
      { constructor; [|exact Hb].
        exists cb. split; [exact Eb|apply (within_trans _ _ _ Mb Hw)]. }
      constructor; [|exact Hf].
      exists cb, nv1. split; [exact Eb|]. split; [|exact I0].
      cbn [fillVertexOffset fillVertexCount]. rewrite <- R5, Hv, <- app_assoc.
      apply ArrayRange_middle.
Qed.

Lemma Forall2_AtPtr (T U : Type) (P : T -> U -> Prop) (l1 : list T) (l2 : list U) :
  Forall2 P l1 l2 ->
  forall (i : Z) (x : T) (y : U),
    AtPtr l1 i = Some x -> AtPtr l2 i = Some y -> P x y.
Proof.
  induction 1 as [|a b l1 l2 Hab _ IH]; intros i x y Hx Hy.
  - apply AtPtr_Some_range in Hx. simpl in Hx. lia.
  - pose proof (AtPtr_Some_range _ _ _ Hx) as Hr.
    destruct (Z.eq_dec i 0) as [->|Hi].
    + rewrite AtPtr_cons_0 in Hx. rewrite AtPtr_cons_0 in Hy. congruence.
    + replace i with (i - 1 + 1)%Z in Hx, Hy by lia.
      rewrite AtPtr_cons_succ in Hx by lia. rewrite AtPtr_cons_succ in Hy by lia.
      apply (IH _ _ _ Hx Hy).
Qed.

(** What a build leaves is what the next build asks for, for the contours
    that are left as they are. *)
Lemma fill_in_bounds_clean (cs : list (_tpGLContour R)) (cache : _tpGLRenderCache R) :
  fill_in_bounds cs cache -> clean_fill_in_bounds cs cache.
Proof.
  intros H i c rcc cb vs Hc _ Hr Hb Hl.
  destruct (Forall2_AtPtr _ _ _ _ _ H i c rcc Hc Hr) as (cb' & vs' & Hb' & Hl' & Hin).
  congruence.
Qed.

(** X19.  Over the real numbers, take a call of [_tpGLCachePathImpl] with
    [_bGeometryDirty] set, for a style without dashes, with an old cache
    that is a null pointer or holds, for every contour of the path that is
    not dirty, fill vertices that lie inside the bounds stored in that
    contour (nothing is asked of dirty contours).  When the call returns,
    every fill vertex of the geometry cache (the vertices before the stroke
    vertices, as many as there are joint flags) lies inside [boundsCache];
    every contour of the path stores bounds that lie within [boundsCache];
    and every contour has its render contour in the cache, whose fill
    vertices lie inside the bounds stored in the contour, so that the new
    cache is an old cache as the next call asks for it. *)
Theorem _tpGLCachePathImpl_fill_bounds
    (dashed : _tpGLRenderCacheContour -> tpStyle R -> _tpGLDashStartState R ->
              list (tpVec2 R) -> list tpBool ->
              option (_tpGLRenderCacheContour * list (tpVec2 R)))
    (fuel : nat) (ctx_transform : tpTransform R) (ctx_transformScale : R)
    (path : _tpGLPath R) (style : tpStyle R) (oldCache : option (_tpGLRenderCache R))
    (cache : _tpGLRenderCache R) (bIsPathRenderCache bStrokeDirty : bool)
    (rc : _tpGLRenderCacheContour) (uninit : tpVec2 R)
    (path' : _tpGLPath R) (cache' : _tpGLRenderCache R) :
  dashArray style = [] ->
  (forall old, oldCache = Some old -> clean_fill_in_bounds (contours path) old) ->
  Cache._tpGLCachePathImpl dashed fuel ctx_transform ctx_transformScale path style
    oldCache cache bIsPathRenderCache true bStrokeDirty rc uninit = Some (path', cache') ->
  Forall (inside (boundsCache cache'))
         (firstn (length (jointCache cache')) (geometryCache cache'))
  /\ Forall (bounds_within (boundsCache cache')) (contours path')
  /\ fill_in_bounds (contours path') cache'
  /\ clean_fill_in_bounds (contours path') cache'.
Proof.
  intros Hd Hold H.
  assert (Hmain : Forall (inside (boundsCache cache'))
                         (firstn (length (jointCache cache')) (geometryCache cache'))
                  /\ Forall (bounds_within (boundsCache cache')) (contours path')
                  /\ fill_in_bounds (contours path') cache');
    [|destruct Hmain as (H1 & H2 & H3);
      repeat (split; [assumption|]); apply fill_in_bounds_clean; exact H3].
  unfold Cache._tpGLCachePathImpl in H.
  destruct (contours path) as [|c cs] eqn:Ec.
  { injection H as <- <-. cbn [geometryCache jointCache length firstn]. rewrite Ec.
    split; [constructor|]. split; constructor. }
  unfold Cache.geometry_block in H. rewrite Ec in H.
  destruct (Cache.flatten_contours fuel _ _ _ oldCache 0 (c :: cs) [] [] [] []
              _tpGLInitBounds rc uninit)
    as [[[[[cs1 rcs] vertices] joints] b]|] eqn:Ef; [|discriminate].
  destruct (flatten_contours_layout _ _ _ _ _ _ _ _ _ _ _ _ _ _ _ _ _ _ _ Ef)
    as (new & nv & nj & Hr & Hv & Hj & Hl & Hn & _ & Hch & _).
  destruct (flatten_contours_bounds _ _ _ _ _ _ _ _ _ _ _ _ _ _ _ _ _ _ _
              (Z.le_refl 0)
              ltac:(intros o j c1 rcc cb l Ho Hj1; rewrite Z.add_0_l;
                    apply (Hold o Ho j c1 rcc cb l)) Ef)
    as (nv' & newc & newr & Hv' & Hc & Hr' & _ & Hin & Hb & Hf).
  cbn [app length Z.of_nat] in Hr, Hv, Hj, Hch, Hv', Hc, Hr'.
  subst rcs vertices joints cs1. subst nv'. subst newr.
  assert (Hcache : forall vs' rcs' soff scount soup,
             vs' = nv ++ soup ->
             let c' := _tpGLCacheBoundsGeometry
                         (mkRenderCache rcs' vs' nj b (strokeBoundsCache cache) soff scount
                                        (boundsVertexOffset cache) style) style in
             Forall (inside (boundsCache c'))
                    (firstn (length (jointCache c')) (geometryCache c'))
             /\ boundsCache c' = b
             /\ cache_contours c' = rcs'
             /\ exists quad, geometryCache c' = (nv ++ soup) ++ quad).
  { intros vs' rcs' soff scount soup ->. unfold _tpGLCacheBoundsGeometry.
    cbn [geometryCache jointCache boundsCache].
    destruct (negb (paint_is_none (stroke style)));
      cbn [geometryCache jointCache boundsCache cache_contours];
      (split; [|split; [reflexivity|split; [reflexivity|eexists; reflexivity]]]);
      rewrite <- Hl, <- app_assoc, firstn_app, firstn_all, Nat.sub_diag;
      cbn [firstn]; rewrite app_nil_r; exact Hin. }
  destruct (negb (paint_is_none (stroke style)) && (strokeWidth style >? c0)%tp) eqn:Es.
  - destruct (_tpGLStroke dashed fuel _ new bIsPathRenderCache _ style nv nj uninit)
      as [[[[p2 rcs'] vertices'] n]|] eqn:E; [|discriminate].
    injection H as <- <-.
    unfold _tpGLStroke in E.
    match type of E with
    | match ?s with _ => _ end = _ => destruct s as [[[[cs2 rcs2] vs2] n2]|] eqn:E2
    end; [|discriminate].
    injection E as <- <- <- <-.
    destruct (stroke_contours_layout dashed _ _ _ _ _ _ _ _ _ _ _ _ _ _ _ _ _ _ _ _ Hd E2
                Hch)
      as (new2 & soup & Hr2 & Hv2 & _ & _ & _ & Hsame & Hbs & _).
    cbn [app contours] in Hr2, Hbs. subst rcs2.
    destruct (Hcache vs2 new2 (Z.of_nat (length nv)) n2 soup Hv2)
      as (H1 & H2 & H3 & quad & H4).
    split; [exact H1|]. rewrite H2. cbn [contours].
    split; [apply (bounds_within_map _ _ _ Hbs Hb)|].
    unfold fill_in_bounds. rewrite H3, H4. cbn [contours].
    rewrite <- app_assoc. apply fill_in_bounds_app.
    apply (fill_in_bounds_transfer _ _ _ Hf _ _ Hbs Hsame).
  - injection H as <- <-.
    destruct (Hcache nv new (cache_strokeVertexOffset cache)
                (cache_strokeVertexCount cache) [] (eq_sym (app_nil_r nv)))
      as (H1 & H2 & H3 & quad & H4).
    split; [exact H1|]. rewrite H2. cbn [contours]. split; [exact Hb|].
    unfold fill_in_bounds. rewrite H3, H4. cbn [contours].
    rewrite <- app_assoc. apply fill_in_bounds_app. exact Hf.
Qed.

(** ** The first build, and a build from the cache of the first *)

Section FirstBuild.
Context {F : Type} {A : Arith F} {L : Libm F}.

Lemma _tpGLFlattenContour_outContour (fuel : nat) (contour : _tpGLContour F) (tol : F)
    (tr : option (tpTransform F)) (outV : list (tpVec2 F)) (outJ : list tpBool)
    (mb : _tpGLRect F) (oc oc' : _tpGLRenderCacheContour) (uninit : tpVec2 F) :
  strokeVertexOffset oc = strokeVertexOffset oc' ->
  strokeVertexCount oc = strokeVertexCount oc' ->
  _tpGLFlattenContour fuel contour tol tr outV outJ mb oc uninit
  = _tpGLFlattenContour fuel contour tol tr outV outJ mb oc' uninit.
Proof.
  intros H1 H2. unfold _tpGLFlattenContour. rewrite H1, H2. reflexivity.
Qed.

(** When every contour is flattened anew, the loop of the whole function is
    the loop of the first build. *)
Lemma flatten_contours_first (cs : list (_tpGLContour F)) :
  forall (fuel : nat) (tol : F) (tr : option (tpTransform F)) (clearDirty : bool)
         (old : option (_tpGLRenderCache F)) (i : Z)
         (done_cs : list (_tpGLContour F)) (rcs : list _tpGLRenderCacheContour)
         (vs : list (tpVec2 F)) (js : list tpBool) (b : _tpGLRect F)
         (rc : _tpGLRenderCacheContour) (uninit : tpVec2 F),
    Forall (fun c => Cache.flattens_anew c old = Some true) cs ->
    strokeVertexOffset rc = 0%Z -> strokeVertexCount rc = 0%Z ->
    Cache.flatten_contours fuel tol tr clearDirty old i cs done_cs rcs vs js b rc uninit
    = flatten_contours fuel tol tr clearDirty cs done_cs rcs vs js b uninit.
Proof.
  induction cs as [|c cs IH];
    intros fuel tol tr clearDirty old i done_cs rcs vs js b rc uninit Hall Ho Hc.
  - reflexivity.
  - inversion Hall as [|? ? Ha Hall']; subst.
    cbn [Cache.flatten_contours flatten_contours]. rewrite Ha.
    rewrite (_tpGLFlattenContour_outContour fuel c tol tr vs js b rc
               (mkRcContour 0 0 0 0 tpFalse) uninit Ho Hc).
    destruct (_tpGLFlattenContour fuel c tol tr vs js b (mkRcContour 0 0 0 0 tpFalse)
                uninit) as [r|] eqn:E; [|reflexivity].
    destruct (_tpGLFlattenContour_appends _ _ _ _ _ _ _ _ _ _ E)
      as (_ & _ & _ & _ & _ & _ & _ & SO & SC).
    apply IH; assumption.
Qed.

(** The first build of a cache: on a call with both flags set that flattens
    every contour anew (each one is dirty, or the old cache has no contour),
    the whole function is [_tpGLCachePathImpl] as embedded for the first
    build. *)
Lemma _tpGLCachePathImpl_first
    (dashed : _tpGLRenderCacheContour -> tpStyle F -> _tpGLDashStartState F ->
              list (tpVec2 F) -> list tpBool ->
              option (_tpGLRenderCacheContour * list (tpVec2 F)))
    (fuel : nat) (ctx_transform : tpTransform F) (ctx_transformScale : F)
    (path : _tpGLPath F) (style : tpStyle F) (oldCache : option (_tpGLRenderCache F))
    (cache : _tpGLRenderCache F) (bIsPathRenderCache : bool)
    (rc : _tpGLRenderCacheContour) (uninit : tpVec2 F) :
  Forall (fun c => Cache.flattens_anew c oldCache = Some true) (contours path) ->
  strokeVertexOffset rc = 0%Z -> strokeVertexCount rc = 0%Z ->
  Cache._tpGLCachePathImpl dashed fuel ctx_transform ctx_transformScale path style
    oldCache cache bIsPathRenderCache true true rc uninit
  = _tpGLCachePathImpl dashed fuel ctx_transform ctx_transformScale path style cache
      bIsPathRenderCache uninit.
Proof.
  intros Hall Ho Hc. unfold Cache._tpGLCachePathImpl, _tpGLCachePathImpl.
  destruct (contours path) as [|c cs] eqn:Ec; [reflexivity|].
  unfold Cache.geometry_block. rewrite Ec.
  rewrite flatten_contours_first by assumption. reflexivity.
Qed.

End FirstBuild.

Lemma line_merge_bounds :
  _tpGLMergeBounds _tpGLInitBounds (aabb line_fill) = aabb line_fill.
Proof.
  unfold _tpGLMergeBounds. rewrite line_fill_bounds.
  unfold _tpGLEvaluatePointForBounds, _tpGLInitBounds. cbn [vx vy rmin rmax].
  Rmin_max. reflexivity.
Qed.

Lemma wide_style_stroke :
  (negb (paint_is_none (stroke wide_style)) && (strokeWidth wide_style >? c0)%tp) = true.
Proof.
  change (paint_is_none (stroke wide_style)) with false. cbn [negb andb].
  change (fltb c0 (strokeWidth wide_style)) with (Rltb (0 / 1) 2).
  apply Rltb_true. lra.
Qed.

Lemma wide_style_bounds (cache : _tpGLRenderCache R) :
  _tpGLCacheBoundsGeometry cache wide_style
  = mkRenderCache (cache_contours cache)
      (geometryCache cache
       ++ rect_corners (expand_rect (boundsCache cache) 2))
      (jointCache cache) (boundsCache cache)
      (Some (expand_rect (boundsCache cache) 2))
      (cache_strokeVertexOffset cache) (cache_strokeVertexCount cache)
      (Z.of_nat (length (geometryCache cache))) (cache_style cache).
Proof.
  unfold _tpGLCacheBoundsGeometry.
  change (paint_is_none (stroke wide_style)) with false. cbn [negb].
  change (strokeJoin wide_style) with kTpStrokeJoinBevel. cbv iota.
  reflexivity.
Qed.

(** The first build of the cache of [line_path]. *)
Lemma line_first_build :
  Cache._tpGLCachePathImpl (no_dashes R) 1 tpTransformMakeIdentity 1 line_path wide_style
    None (empty_cache wide_style) true true true blank_contour (mkVec2 0 0)
  = Some (drawn_path, drawn_cache).
Proof.
  unfold Cache._tpGLCachePathImpl. rewrite line_path_contours.
  unfold Cache.geometry_block. rewrite line_path_contours, wide_style_stroke.
  cbn [Cache.flatten_contours]. unfold Cache.flattens_anew. cbn [bDirty negb andb].
  destruct (line_flatten [] [] _tpGLInitBounds blank_contour (mkVec2 0 0)
              (fconst 15 100 / 1) tpTrue 1 None)
    as (r & E & V & J & OC & C & MB).
  change (scaleStroke wide_style) with true. cbn [negb].
  change (@fdiv R R_arith) with Rdiv.
  rewrite E. rewrite V, J, OC, C, MB.
  cbn [app length Z.of_nat strokeVertexOffset strokeVertexCount segments bIsClosed
       lastSegmentIndex bounds blank_contour].
  change (if tpTrue then Some true else None) with (Some true).
  cbv beta iota zeta.
  unfold _tpGLStroke.
  change (dashCount wide_style =? 0)%Z with true.
  cbn [contours stroke_contours bDirty orb].
  change (dashCount wide_style =? 0)%Z with true. cbv iota.
  change (mkRcContour 0 2 0 0 tpFalse) with line_contour.
  rewrite line_stroke.
  cbn [stroke_contours app].
  change (tpTrue || true) with true. cbv beta iota zeta.
  rewrite wide_style_bounds, line_merge_bounds.
  cbn [cache_contours geometryCache jointCache boundsCache cache_strokeVertexOffset
       cache_strokeVertexCount cache_style segments bIsClosed lastSegmentIndex bounds
       strokeVertexCount contours currentContourIndex bPathGeometryDirty].
  unfold drawn_path, drawn_cache. rewrite <- app_assoc. reflexivity.
Qed.

(** A second call with [_bGeometryDirty] set and [_bStrokeDirty] not, on the
    path and the cache that the first build left: fill and stroke are copied
    from the old cache, which is the cache itself. *)
Lemma line_second_build :
  Cache._tpGLCachePathImpl (no_dashes R) 1 tpTransformMakeIdentity 1 drawn_path wide_style
    (Some drawn_cache) drawn_cache true true false blank_contour (mkVec2 0 0)
  = Some (drawn_path, copied_cache).
Proof.
  unfold Cache._tpGLCachePathImpl, Cache.geometry_block. rewrite wide_style_stroke.
  change (contours drawn_path)
    with [mkContour [tpSegmentMake 0 0 0 0 0 0; tpSegmentMake 10 0 10 0 10 0]
                    tpFalse tpFalse 1 (Some (aabb line_fill))].
  cbn [Cache.flatten_contours].
  unfold Cache.flattens_anew. cbn [bDirty negb andb].
  change (if tpFalse then Some true else ?x) with x.
  vm_compute (Z.of_nat (length (cache_contours drawn_cache)) =? 0)%Z. cbv iota.
  change (AtPtr (cache_contours drawn_cache) 0) with (Some (mkRcContour 0 2 2 6 tpFalse)).
  cbv iota. cbn [fillVertexOffset fillVertexCount bounds].
  change (ArrayRange (geometryCache drawn_cache) 0 2) with (Some line_fill).
  change (ArrayRange (jointCache drawn_cache) 0 2) with (Some line_joints).
  cbv iota.
  cbn [Cache.flatten_contours app length Z.of_nat strokeVertexOffset strokeVertexCount
       blank_contour bIsClosed].
  cbv beta iota zeta.
  unfold _tpGLStroke.
  change (dashCount wide_style =? 0)%Z with true. cbv iota.
  cbn [contours stroke_contours bDirty orb].
  change (tpFalse || false) with false. cbv iota.
  change (AtPtr (cache_contours drawn_cache) 0) with (Some (mkRcContour 0 2 2 6 tpFalse)).
  cbv iota. cbn [strokeVertexOffset strokeVertexCount].
  change (ArrayRange (geometryCache drawn_cache) 2 6) with (Some line_soup).
  cbv iota. cbn [stroke_contours app]. cbv beta iota zeta.
  rewrite wide_style_bounds, line_merge_bounds.
  cbn [cache_contours geometryCache jointCache boundsCache cache_strokeVertexOffset
       cache_strokeVertexCount cache_style strokeBoundsCache boundsVertexOffset
       contours currentContourIndex bPathGeometryDirty length app Z.of_nat].
  reflexivity.
Qed.

(** After that call the cache records the six stroke vertices from index 2
    on, but the stroke range of its render contour is the one that the local
    [rc] held: the stroke ranges of the render contours do not cover the
    stroke vertices when a stroke is copied. *)
Lemma copied_stroke_range :
  cache_strokeVertexOffset copied_cache = 2%Z
  /\ cache_strokeVertexCount copied_cache = 6%Z
  /\ map strokeVertexOffset (cache_contours copied_cache)
     = [strokeVertexOffset blank_contour]
  /\ map strokeVertexCount (cache_contours copied_cache)
     = [strokeVertexCount blank_contour]
  /\ ~ chain strokeVertexOffset strokeVertexCount (cache_contours copied_cache) 2 8.
Proof.
  repeat (split; [reflexivity|]). cbn. intros [H _]. discriminate.
Qed.

Lemma _tpGLCachePathImpl_layout_witness :
  (exists fill soup quad k,
     geometryCache drawn_cache = fill ++ soup ++ quad
     /\ length quad = 4%nat
     /\ length soup = (3 * k)%nat
     /\ chain fillVertexOffset fillVertexCount (cache_contours drawn_cache)
              0 (Z.of_nat (length fill))
     /\ chain strokeVertexOffset strokeVertexCount (cache_contours drawn_cache)
              (Z.of_nat (length fill)) (Z.of_nat (length fill + length soup)))
  /\ (exists fill soup quad,
        geometryCache copied_cache = fill ++ soup ++ quad
        /\ length quad = 4%nat
        /\ length (jointCache copied_cache) = length fill
        /\ chain fillVertexOffset fillVertexCount (cache_contours copied_cache)
                 0 (Z.of_nat (length fill))
        /\ cache_strokeVertexOffset copied_cache = Z.of_nat (length fill)
        /\ cache_strokeVertexCount copied_cache = Z.of_nat (length soup)).
Proof.
  split.
  - destruct (_tpGLCachePathImpl_layout (L := R_libm) (no_dashes R) 1
                tpTransformMakeIdentity 1 line_path wide_style None
                (empty_cache wide_style) true true blank_contour (mkVec2 0 0)
                drawn_path drawn_cache)
      as (fill & soup & quad & H1 & H2 & _ & _ & H5 & _ & H7).
    + reflexivity.
    + discriminate.
    + exact line_first_build.
    + rewrite wide_style_stroke in H7. destruct H7 as (_ & _ & H7).
      destruct (H7 (or_introl eq_refl)) as [[k Hk] Hs].
      exists fill, soup, quad, k. repeat (split; [assumption|]). assumption.
  - destruct (_tpGLCachePathImpl_layout (L := R_libm) (no_dashes R) 1
                tpTransformMakeIdentity 1 drawn_path wide_style (Some drawn_cache)
                drawn_cache true false blank_contour (mkVec2 0 0)
                drawn_path copied_cache)
      as (fill & soup & quad & H1 & H2 & H3 & _ & H5 & _ & H7).
    + reflexivity.
    + discriminate.
    + exact line_second_build.
    + rewrite wide_style_stroke in H7. destruct H7 as (H7 & H8 & _).
      exists fill, soup, quad. repeat (split; [assumption|]). assumption.
Defined.

Lemma _tpGLCachePathImpl_fill_bounds_witness :
  fill_in_bounds (contours drawn_path) drawn_cache
  /\ Forall (inside (boundsCache copied_cache))
            (firstn (length (jointCache copied_cache)) (geometryCache copied_cache))
  /\ fill_in_bounds (contours drawn_path) copied_cache.
Proof.
  destruct (_tpGLCachePathImpl_fill_bounds (no_dashes R) 1 tpTransformMakeIdentity 1
              line_path wide_style None (empty_cache wide_style) true true
              blank_contour (mkVec2 0 0) drawn_path drawn_cache)
    as (_ & _ & Hf1 & _).
  - reflexivity.
  - intros old H. discriminate.
  - exact line_first_build.
  - split; [exact Hf1|].
    destruct (_tpGLCachePathImpl_fill_bounds (no_dashes R) 1 tpTransformMakeIdentity 1
                drawn_path wide_style (Some drawn_cache) drawn_cache true false
                blank_contour (mkVec2 0 0) drawn_path copied_cache)
      as (H1 & _ & H3 & _).
    + reflexivity.
    + intros old H. injection H as <-. apply fill_in_bounds_clean. exact Hf1.
    + exact line_second_build.
    + split; assumption.
Defined.


(** ** The contexts that clipping reaches *)

Lemma plane_at_depth_succ (d : Z) :
  other_clip_plane (plane_at_depth d) = plane_at_depth (d + 1).
Proof.
  unfold plane_at_depth. rewrite Z.even_add. destruct (Z.even d); reflexivity.
Qed.

Lemma plane_at_depth_pred (d : Z) :
  other_clip_plane (plane_at_depth d) = plane_at_depth (d - 1).
Proof.
  unfold plane_at_depth. rewrite Z.even_sub. destruct (Z.even d); reflexivity.
Qed.

Section ClippingInvariant.
Context {F : Type} {A : Arith F}.
Variable update : _tpGLPath F -> tpStyle F -> tpBool -> tpBool * option (_tpGLRenderCache F).

Lemma _tpGLDrawRenderCacheImpl_drawable (ctx : _tpGLContext F) (cache : _tpGLRenderCache F) :
  _tpGLDrawRenderCacheImpl ctx cache <> None <-> drawable cache.
Proof.
  unfold _tpGLDrawRenderCacheImpl, drawable.
  destruct (cache_contours cache) as [|c cs].
  - split; [intros _; left; reflexivity|discriminate].
  - destruct (geometryCache cache) as [|v vs].
    + split; [intros H; contradiction|intros [H|H]; [discriminate|contradiction]].
    + split; [intros _; right; discriminate|].
      intros _. destruct (fillRule (cache_style cache)); discriminate.
Qed.

(** Drawing the mask of a slot again keeps the stack and flips the plane. *)
Lemma rebuild_mask (ctx : _tpGLContext F) (c : _tpGLRenderCache F) :
  drawable c ->
  exists ctx',
    _tpGLGenerateClippingMaskForRenderCache ctx (Some c) tpTrue = Some (tpFalse, ctx')
    /\ clippingStack ctx' = clippingStack ctx
    /\ clippingStackDepth ctx' = clippingStackDepth ctx
    /\ bCanSwapStencilPlanes ctx' = bCanSwapStencilPlanes ctx
    /\ currentClipStencilPlane ctx' = other_clip_plane (currentClipStencilPlane ctx).
Proof.
  intros Hd. unfold _tpGLGenerateClippingMaskForRenderCache. cbn [negb tpTrue].
  match goal with
  | |- context [_tpGLDrawRenderCacheImpl ?c0 c] =>
      destruct (_tpGLDrawRenderCacheImpl c0 c) as [[dr cd]|] eqn:Hdraw
  end.
  - apply _tpGLDrawRenderCacheImpl_fields in Hdraw.
    destruct Hdraw as [-> [Hs [Hdp [Hp Hc]]]].
    eexists. split; [reflexivity|].
    cbn [currentClipStencilPlane bCanSwapStencilPlanes clippingStackDepth clippingStack
         set_clip_planes].
    rewrite Hs, Hdp, Hp, Hc. cbn [currentClipStencilPlane bCanSwapStencilPlanes
      clippingStackDepth clippingStack gl]. repeat split; reflexivity.
  - exfalso. revert Hdraw. apply _tpGLDrawRenderCacheImpl_drawable. exact Hd.
Qed.

Lemma rebuild_clipping_masks_planes (count : nat) :
  forall (i : Z) (ctx : _tpGLContext F),
    (forall k, (i <= k < i + Z.of_nat count)%Z ->
       exists c, AtPtr (clippingStack ctx) k = Some (Some c) /\ drawable c) ->
    currentClipStencilPlane ctx = plane_at_depth i ->
    exists ctx',
      rebuild_clipping_masks count i ctx = Some ctx'
      /\ clippingStack ctx' = clippingStack ctx
      /\ clippingStackDepth ctx' = clippingStackDepth ctx
      /\ bCanSwapStencilPlanes ctx' = bCanSwapStencilPlanes ctx
      /\ currentClipStencilPlane ctx' = plane_at_depth (i + Z.of_nat count).
Proof.
  induction count as [|count IH]; intros i ctx Hs Hp.
  - exists ctx. cbn [rebuild_clipping_masks Z.of_nat]. rewrite Z.add_0_r. auto.
  - cbn [rebuild_clipping_masks].
    destruct (Hs i ltac:(lia)) as [c [Hc Hd]]. rewrite Hc.
    destruct (rebuild_mask ctx c Hd) as (ctx1 & E & S1 & D1 & C1 & P1). rewrite E.
    destruct (IH (i + 1)%Z ctx1) as (ctx2 & E2 & S2 & D2 & C2 & P2).
    + intros k Hk. rewrite S1. apply Hs. lia.
    + rewrite P1, Hp. apply plane_at_depth_succ.
    + exists ctx2. split; [exact E2|].
      rewrite S2, D2, C2, P2, S1, D1, C1.
      repeat (split; [reflexivity|]). f_equal. lia.
Qed.

Lemma tpContextCreate_ok : clip_ok (@tpContextCreate F A).
Proof.
  unfold clip_ok, tpContextCreate.
  cbn [clippingStack clippingStackDepth currentClipStencilPlane].
  rewrite repeat_length. split; [reflexivity|].
  split; [unfold TARP_GL_MAX_CLIPPING_STACK_DEPTH; lia|].
  split; [reflexivity|]. intros i Hi. lia.
Qed.

Lemma _tpGLGenerateClippingMaskForRenderCache_ok (ctx ctx' : _tpGLContext F)
    (cache : option (_tpGLRenderCache F)) (r : tpBool) :
  clip_ok ctx ->
  _tpGLGenerateClippingMaskForRenderCache ctx cache tpFalse = Some (r, ctx') ->
  clip_ok ctx'.
Proof.
  intros (Hl & Hd & Hp & Hs) H.
  unfold _tpGLGenerateClippingMaskForRenderCache in H.
  destruct cache as [c|]; [|discriminate]. cbn [negb tpFalse] in H.
  destruct ((0 <=? clippingStackDepth ctx)%Z
            && (clippingStackDepth ctx <? Z.of_nat (length (clippingStack ctx)))%Z) eqn:Hb;
    [|discriminate].
  apply andb_true_iff in Hb. destruct Hb as [H0 H1].
  apply Z.leb_le in H0. apply Z.ltb_lt in H1.
  match type of H with
  | context [_tpGLDrawRenderCacheImpl ?c0 c] =>
      destruct (_tpGLDrawRenderCacheImpl c0 c) as [[dr cd]|] eqn:Hdraw; [|discriminate]
  end.
  assert (Hdr : drawable c).
  { eapply _tpGLDrawRenderCacheImpl_drawable. rewrite Hdraw. discriminate. }
  apply _tpGLDrawRenderCacheImpl_fields in Hdraw.
  destruct Hdraw as [-> [Hs' [Hdp [Hp' Hc]]]].
  injection H as <- <-.
  unfold clip_ok.
  cbn [currentClipStencilPlane bCanSwapStencilPlanes clippingStackDepth clippingStack
       set_clip_planes].
  rewrite Hs', Hdp, Hp'.
  cbn [currentClipStencilPlane bCanSwapStencilPlanes clippingStackDepth clippingStack
       set_clippingStack gl].
  rewrite SetAt_length.
  split; [exact Hl|]. split; [lia|].
  split; [rewrite Hp; apply plane_at_depth_succ|].
  intros i Hi. destruct (Z.eq_dec i (clippingStackDepth ctx)) as [->|Hne].
  - exists c. split; [apply AtPtr_SetAt; lia|exact Hdr].
  - rewrite AtPtr_SetAt_other by exact Hne. apply Hs. lia.
Qed.

Lemma tpBeginClippingWithFillRule_ok (ctx ctx' : _tpGLContext F) (path : _tpGLPath F)
    (rule : tpFillRule) (r : tpBool) :
  clip_ok ctx ->
  tpBeginClippingWithFillRule update ctx path rule = Some (r, ctx') ->
  clip_ok ctx'.
Proof.
  intros Hok H. unfold tpBeginClippingWithFillRule, _tpGLGenerateClippingMask in H.
  assert (Hok' : clip_ok (set_clippingStyle_fillRule ctx rule)) by exact Hok.
  destruct (update path _ tpTrue) as [failed renderCache].
  destruct failed.
  - injection H as <- <-. exact Hok'.
  - apply (_tpGLGenerateClippingMaskForRenderCache_ok _ _ _ _ Hok' H).
Qed.

(** With a clip open on a context that keeps the invariant, [tpEndClipping]
    returns and keeps the invariant. *)
Lemma tpEndClipping_ok (ctx : _tpGLContext F) :
  clip_ok ctx -> (0 < clippingStackDepth ctx)%Z ->
  exists ctx',
    tpEndClipping ctx = Some (tpFalse, ctx')
    /\ clippingStackDepth ctx' = (clippingStackDepth ctx - 1)%Z
    /\ clippingStack ctx' = clippingStack ctx
    /\ clip_ok ctx'.
Proof.
  intros (Hl & Hd & Hp & Hs) Hpos. unfold tpEndClipping.
  replace (clippingStackDepth ctx =? 0)%Z with false by (symmetry; apply Z.eqb_neq; lia).
  cbn [clippingStackDepth set_clippingStack bCanSwapStencilPlanes currentClipStencilPlane
       clippingStack].
  destruct (clippingStackDepth ctx - 1 =? 0)%Z eqn:E1; cbn [negb].
  - apply Z.eqb_eq in E1. eexists. split; [reflexivity|].
    unfold clip_ok.
    cbn [clippingStackDepth clippingStack currentClipStencilPlane gl set_clip_planes
         set_clippingStack].
    split; [reflexivity|]. split; [reflexivity|].
    split; [exact Hl|]. split; [lia|]. split; [rewrite E1; reflexivity|].
    intros i Hi. lia.
  - apply Z.eqb_neq in E1. destruct (bCanSwapStencilPlanes ctx).
    + eexists. split; [reflexivity|].
      unfold clip_ok.
      cbn [clippingStackDepth clippingStack currentClipStencilPlane set_clip_planes
           set_clippingStack].
      split; [reflexivity|]. split; [reflexivity|].
      split; [exact Hl|]. split; [lia|].
      split; [rewrite Hp; apply plane_at_depth_pred|].
      intros i Hi. apply Hs. lia.
    + match goal with
      | |- context [rebuild_clipping_masks ?n 0 ?c] =>
          destruct (rebuild_clipping_masks_planes n 0 c) as (ctx2 & E & S2 & D2 & _ & P2)
      end.
      * cbn [clippingStack clippingStackDepth gl set_clip_planes set_clippingStack].
        intros k Hk.
        apply Hs. lia.
      * reflexivity.
      * cbn [clippingStack clippingStackDepth gl set_clip_planes set_clippingStack]
          in S2, D2, P2, E |- *.
        rewrite E. exists ctx2. split; [reflexivity|].
        split; [exact D2|]. split; [exact S2|].
        unfold clip_ok. rewrite S2, D2, P2.
        split; [exact Hl|]. split; [lia|].
        split; [f_equal; lia|].
        intros i Hi. apply Hs. lia.
Qed.

Lemma tpResetClipping_ok (ctx : _tpGLContext F) :
  clip_ok ctx -> clip_ok (snd (tpResetClipping ctx)).
Proof.
  intros (Hl & Hd & Hp & Hs). unfold clip_ok, tpResetClipping.
  cbn [snd clippingStackDepth clippingStack currentClipStencilPlane gl set_clip_planes
       set_clippingStack].
  split; [exact Hl|]. split; [unfold TARP_GL_MAX_CLIPPING_STACK_DEPTH; lia|].
  split; [reflexivity|]. intros i Hi. lia.
Qed.

Lemma clip_reached_ok (ctx : _tpGLContext F) : clip_reached update ctx -> clip_ok ctx.
Proof.
  induction 1 as [|ctx ctx' cache r _ IH H|ctx ctx' path rule r _ IH H
                  |ctx ctx' r _ IH H|ctx _ IH].
  - apply tpContextCreate_ok.
  - apply (_tpGLGenerateClippingMaskForRenderCache_ok _ _ _ _ IH H).
  - apply (tpBeginClippingWithFillRule_ok _ _ _ _ _ IH H).
  - destruct (Z.eq_dec (clippingStackDepth ctx) 0) as [E|E].
    + unfold tpEndClipping in H. rewrite E in H. discriminate.
    + destruct (tpEndClipping_ok ctx IH) as (ctx2 & E2 & _ & _ & Hok).
      { destruct IH as (_ & Hd & _). lia. }
      rewrite E2 in H. injection H as _ <-. exact Hok.
  - apply tpResetClipping_ok. exact IH.
Qed.

(** X20. On every context that calls of [tpBeginClipping],
    [tpBeginClippingWithFillRule], [tpBeginClippingFromRenderCache],
    [tpEndClipping] and [tpResetClipping] reach from a new context, the depth
    of the clipping stack is between 0 and [TARP_GL_MAX_CLIPPING_STACK_DEPTH],
    the current clip plane is plane one when the depth is even and plane two
    when it is odd, and [tpEndClipping] fails exactly when no clip is open:
    with a clip open it returns [tpFalse], takes one from the depth and
    leaves the slots of the stack as they are, also when it has to draw all
    the masks again. *)
Theorem clip_reached_invariant (ctx : _tpGLContext F) :
  clip_reached update ctx ->
  (0 <= clippingStackDepth ctx <= TARP_GL_MAX_CLIPPING_STACK_DEPTH)%Z
  /\ currentClipStencilPlane ctx
     = (if Z.even (clippingStackDepth ctx)
        then _kTpGLClippingStencilPlaneOne else _kTpGLClippingStencilPlaneTwo)
  /\ (clippingStackDepth ctx = 0%Z -> tpEndClipping ctx = None)
  /\ ((0 < clippingStackDepth ctx)%Z ->
      exists ctx',
        tpEndClipping ctx = Some (tpFalse, ctx')
        /\ clippingStackDepth ctx' = (clippingStackDepth ctx - 1)%Z
        /\ clippingStack ctx' = clippingStack ctx).
Proof.
  intros H. apply clip_reached_ok in H. pose proof H as (Hl & Hd & Hp & Hs).
  split; [exact Hd|]. split; [exact Hp|]. split.
  - intros E. unfold tpEndClipping. rewrite E. reflexivity.
  - intros Hpos. destruct (tpEndClipping_ok ctx H Hpos) as (ctx' & E & D & S & _).
    exists ctx'. auto.
Qed.

(** X21. On a context that the clipping interface reaches,
    [tpBeginClippingFromRenderCache] fails an assertion or writes outside
    [clippingStack] exactly when the cache is a null pointer, when
    [TARP_GL_MAX_CLIPPING_STACK_DEPTH] clips are open already, or when the
    cache has contours and no geometry; in every other case it returns
    [tpFalse] with the cache in the slot at the old depth. *)
Theorem tpBeginClippingFromRenderCache_fails (ctx : _tpGLContext F)
    (cache : option (_tpGLRenderCache F)) :
  clip_reached update ctx ->
  (tpBeginClippingFromRenderCache ctx cache = None
   <-> cache = None
       \/ clippingStackDepth ctx = TARP_GL_MAX_CLIPPING_STACK_DEPTH
       \/ exists c, cache = Some c /\ cache_contours c <> [] /\ geometryCache c = [])
  /\ (tpBeginClippingFromRenderCache ctx cache <> None ->
      exists ctx',
        tpBeginClippingFromRenderCache ctx cache = Some (tpFalse, ctx')
        /\ AtPtr (clippingStack ctx') (clippingStackDepth ctx) = Some cache).
Proof.
  intros H. apply clip_reached_ok in H. destruct H as (Hl & Hd & Hp & Hs).
  unfold tpBeginClippingFromRenderCache. split.
  - destruct cache as [c|]; [|split; [intros _; left; reflexivity|reflexivity]].
    destruct (Z.eq_dec (clippingStackDepth ctx) TARP_GL_MAX_CLIPPING_STACK_DEPTH) as [E|E].
    + split; [intros _; right; left; exact E|]. intros _.
      unfold _tpGLGenerateClippingMaskForRenderCache. cbn [negb tpFalse].
      replace (clippingStackDepth ctx <? Z.of_nat (length (clippingStack ctx)))%Z
        with false by (symmetry; apply Z.ltb_ge; lia).
      rewrite andb_false_r. reflexivity.
    + assert (Hr : (0 <= clippingStackDepth ctx < Z.of_nat (length (clippingStack ctx)))%Z)
        by lia.
      split.
      * intros Hn. right. right. exists c. split; [reflexivity|].
        destruct (cache_contours c) as [|x xs] eqn:Ec.
        -- destruct (_tpGLGenerateClippingMaskForRenderCache_succeeds ctx c Hr) as [ctx' E'].
           ++ left. exact Ec.
           ++ rewrite E' in Hn. discriminate.
        -- split; [discriminate|].
           destruct (geometryCache c) as [|v vs] eqn:Eg; [reflexivity|].
           destruct (_tpGLGenerateClippingMaskForRenderCache_succeeds ctx c Hr) as [ctx' E'].
           ++ right. rewrite Eg. discriminate.
           ++ rewrite E' in Hn. discriminate.
      * intros [Hc|[Hc|[c' [Hc [Hcc Hg]]]]]; [discriminate|contradiction|].
        injection Hc as <-.
        unfold _tpGLGenerateClippingMaskForRenderCache. cbn [negb tpFalse].
        destruct ((0 <=? clippingStackDepth ctx)%Z
                  && (clippingStackDepth ctx <? Z.of_nat (length (clippingStack ctx)))%Z);
          [|reflexivity].
        unfold _tpGLDrawRenderCacheImpl.
        destruct (cache_contours c); [contradiction|]. rewrite Hg. reflexivity.
  - intros Hn.
    destruct (_tpGLGenerateClippingMaskForRenderCache ctx cache tpFalse) as [[r ctx']|] eqn:E;
      [|contradiction].
    exists ctx'. apply _tpGLGenerateClippingMaskForRenderCache_begin in E.
    destruct E as (-> & _ & _ & _ & Hat). split; [reflexivity|exact Hat].
Qed.

End ClippingInvariant.

Lemma clip_reached_invariant_witness :
  currentClipStencilPlane (clip_once) = _kTpGLClippingStencilPlaneTwo
  /\ exists ctx', tpEndClipping clip_once = Some (tpFalse, ctx')
                  /\ clippingStackDepth ctx' = 0%Z.
Proof.
  assert (Hr : clip_reached no_internal_cache clip_once).
  { apply reached_begin_cache
      with (ctx := tpContextCreate) (cache := Some triangle_cache) (r := tpFalse).
    - apply reached_create.
    - vm_compute. reflexivity. }
  destruct (clip_reached_invariant no_internal_cache clip_once Hr)
    as (_ & Hp & _ & He).
  split; [exact Hp|].
  destruct He as (ctx' & E & D & _); [vm_compute; reflexivity|].
  exists ctx'. split; [exact E|exact D].
Defined.

Lemma tpBeginClippingFromRenderCache_fails_witness :
  tpBeginClippingFromRenderCache (@tpContextCreate b32 _) None = None.
Proof.
  apply (tpBeginClippingFromRenderCache_fails no_internal_cache tpContextCreate None).
  - apply reached_create.
  - left. reflexivity.
Defined.


(** ** The geometry of a gradient *)

(** X22. Over the real numbers [_tpInvLerp] undoes [_tpLerp] when the two
    ends differ, in both directions, and its assertion fails when they are
    equal. *)
Theorem _tpInvLerp_lerp (a b : R) :
  (a <> b ->
   (forall t, _tpInvLerp a b (_tpLerp a b t) = Some t)
   /\ (forall x, exists t, _tpInvLerp a b x = Some t /\ _tpLerp a b t = x))
  /\ (a = b -> forall x, _tpInvLerp a b x = None).
Proof.
  unfold _tpInvLerp, _tpLerp, c0, c1.
  cbn [feqb fadd fsub fmul fdiv fconst R_arith].
  replace (0 / 1) with 0 by field. replace (1 / 1) with 1 by field.
  split.
  - intros Hab. assert (Hd : b - a <> 0) by lra.
    rewrite (proj2 (Reqb_false _ _) Hd). cbn [negb]. split.
    + intros t. f_equal. field. exact Hd.
    + intros x. eexists. split; [reflexivity|]. field. exact Hd.
  - intros -> x. replace (b - b) with 0 by ring.
    unfold Reqb. destruct (Req_dec_T 0 0) as [_|H]; [reflexivity|contradiction].
Qed.

Lemma _tpInvLerp_lerp_witness :
  _tpInvLerp 2 4 (_tpLerp 2 4 (1 / 2)) = Some (1 / 2).
Proof.
  apply (_tpInvLerp_lerp 2 4). lra.
Defined.

(** X23. Over the real numbers, for two different points whose line meets
    the unit circle (the asserted discriminant is not negative),
    [_tpLineUnitCircleIntersection] returns a parameter [t] at which
    [tpVec2Lerp] of the two points lies on the unit circle, and no larger
    parameter gives a point on the unit circle. *)
Theorem _tpLineUnitCircleIntersection_on_circle (p0 p1 : tpVec2 R) :
  p0 <> p1 ->
  0 <= (tpVec2Dot p0 p1 - tpVec2LengthSquared p0)
       * (tpVec2Dot p0 p1 - tpVec2LengthSquared p0)
       - tpVec2LengthSquared (tpVec2Sub p0 p1) * (tpVec2LengthSquared p0 - 1) ->
  exists t,
    _tpLineUnitCircleIntersection p0 p1 = Some t
    /\ tpVec2LengthSquared (tpVec2Lerp p0 p1 t) = 1
    /\ forall t', tpVec2LengthSquared (tpVec2Lerp p0 p1 t') = 1 -> t' <= t.
Proof.
  destruct p0 as [x0 y0], p1 as [x1 y1]. intros Hne.
  unfold _tpLineUnitCircleIntersection, tpVec2Lerp, tpVec2LengthSquared, tpVec2Dot,
    tpVec2Sub, tpVec2Add, tpVec2MultScalar, c0, c1.
  cbn [vx vy fleb fadd fsub fmul fdiv fsqrt fconst R_arith].
  replace (0 / 1) with 0 by field. replace (1 / 1) with 1 by field.
  set (D := (x0 * x1 + y0 * y1 - (x0 * x0 + y0 * y0))
            * (x0 * x1 + y0 * y1 - (x0 * x0 + y0 * y0))
            - ((x0 - x1) * (x0 - x1) + (y0 - y1) * (y0 - y1))
              * (x0 * x0 + y0 * y0 - 1)).
  intros HD.
  set (a := (x0 - x1) * (x0 - x1) + (y0 - y1) * (y0 - y1)).
  assert (Ha : 0 < a).
  { subst a. apply sum_squares_pos.
    destruct (Req_dec x0 x1) as [Ex|Ex]; [|left; lra].
    destruct (Req_dec y0 y1) as [Ey|Ey]; [exfalso; apply Hne; congruence|right; lra]. }
  unfold Rleb. destruct (Rle_dec 0 D) as [_|H]; [|contradiction].
  eexists. split; [reflexivity|].
  pose proof (sqrt_sqrt D HD) as Hs. pose proof (sqrt_pos D) as Hs0.
  set (s := sqrt D) in *.
  set (b := x0 * x1 + y0 * y1 - (x0 * x0 + y0 * y0)) in *.
  assert (Hq : forall t,
             (x0 * (1 - t) + x1 * t) * (x0 * (1 - t) + x1 * t)
             + (y0 * (1 - t) + y1 * t) * (y0 * (1 - t) + y1 * t) - 1
             = (a * t + b) * (a * t + b) / a - D / a).
  { intros t. subst a b D. field. lra. }
  assert (Ht : a * ((s - (x0 * x1 + y0 * y1) + (x0 * x0 + y0 * y0)) / a) + b = s).
  { subst b. field. lra. }
  split.
  - apply Rminus_diag_uniq. rewrite Hq, Ht, Hs. field. lra.
  - intros t' H'. apply Rminus_diag_eq in H'. rewrite Hq in H'.
    assert (Hsq : (a * t' + b) * (a * t' + b) = D).
    { apply (Rmult_eq_reg_r (/ a)); [|apply Rinv_neq_0_compat; lra].
      unfold Rdiv in H'. lra. }
    assert (Hle : a * t' + b <= s) by nra.
    apply (Rmult_le_reg_l a); [exact Ha|].
    replace (a * ((s - (x0 * x1 + y0 * y1) + (x0 * x0 + y0 * y0)) / a))
      with (s - b) by (subst b; field; lra).
    lra.
Qed.

Lemma _tpLineUnitCircleIntersection_on_circle_witness :
  exists t,
    _tpLineUnitCircleIntersection (mkVec2 0 0) (mkVec2 2 0) = Some t
    /\ tpVec2LengthSquared (tpVec2Lerp (mkVec2 0 0) (mkVec2 2 0) t) = 1.
Proof.
  destruct (_tpLineUnitCircleIntersection_on_circle (mkVec2 0 0) (mkVec2 2 0))
    as (t & H1 & H2 & _).
  - intros H. injection H as H. lra.
  - unfold tpVec2Dot, tpVec2LengthSquared, tpVec2Sub.
    cbn [vx vy fadd fsub fmul R_arith]. lra.
  - exists t. split; assumption.
Defined.

(** X24. Over the real numbers, for a gradient whose origin and destination
    differ after the transforms, [_tpGLGradientLinearGeometry] appends the
    four corners of the bounds (min, max-x/min-y, max, min-x/max-y) and
    reports their offset and the count 4; the texture coordinate of each
    corner has [y = 0] and as [x] the parameter of the foot of the
    perpendicular from the corner onto the line from the origin to the
    destination: 0 at the origin, 1 at the destination. *)
Theorem _tpGLGradientLinearGeometry_projection (ctx_transform : tpTransform R)
    (grad : _tpGLGradient R) (paintTransform : tpTransform R) (b : _tpGLRect R)
    (bIsScalingStroke : tpBool) (vertices : list (_tpGLTextureVertex R))
    (o d : tpVec2 R) :
  o = (if bIsScalingStroke then tpTransformApply paintTransform (origin grad)
       else tpTransformApply ctx_transform
              (tpTransformApply paintTransform (origin grad))) ->
  d = (if bIsScalingStroke then tpTransformApply paintTransform (destination grad)
       else tpTransformApply ctx_transform
              (tpTransformApply paintTransform (destination grad))) ->
  o <> d ->
  exists t0 t1 t2 t3,
    _tpGLGradientLinearGeometry ctx_transform grad paintTransform b bIsScalingStroke
      vertices
    = (vertices ++ [mkTextureVertex (rmin b) (mkVec2 t0 0);
                    mkTextureVertex (mkVec2 (vx (rmax b)) (vy (rmin b))) (mkVec2 t1 0);
                    mkTextureVertex (rmax b) (mkVec2 t2 0);
                    mkTextureVertex (mkVec2 (vx (rmin b)) (vy (rmax b))) (mkVec2 t3 0)],
       Z.of_nat (length vertices), 4%Z)
    /\ Forall (fun v =>
                 tpVec2Dot (tpVec2Sub (vertex v) (tpVec2Lerp o d (vx (tc v))))
                           (tpVec2Sub d o) = 0
                 /\ (vertex v = o -> vx (tc v) = 0)
                 /\ (vertex v = d -> vx (tc v) = 1))
              [mkTextureVertex (rmin b) (mkVec2 t0 0);
               mkTextureVertex (mkVec2 (vx (rmax b)) (vy (rmin b))) (mkVec2 t1 0);
               mkTextureVertex (rmax b) (mkVec2 t2 0);
               mkTextureVertex (mkVec2 (vx (rmin b)) (vy (rmax b))) (mkVec2 t3 0)].
Proof.
  intros Ho Hd Hne.
  unfold _tpGLGradientLinearGeometry.
  replace (if negb bIsScalingStroke
           then tpTransformApply ctx_transform
                  (tpTransformApply paintTransform (origin grad))
           else tpTransformApply paintTransform (origin grad)) with o
    by (rewrite Ho; destruct bIsScalingStroke; reflexivity).
  replace (if negb bIsScalingStroke
           then tpTransformApply ctx_transform
                  (tpTransformApply paintTransform (destination grad))
           else tpTransformApply paintTransform (destination grad)) with d
    by (rewrite Hd; destruct bIsScalingStroke; reflexivity).
  clear Ho Hd. destruct o as [ox oy], d as [dx dy].
  assert (Hl : 0 < (dx - ox) * (dx - ox) + (dy - oy) * (dy - oy)).
  { apply sum_squares_pos.
    destruct (Req_dec dx ox) as [Ex|Ex]; [|left; lra].
    destruct (Req_dec dy oy) as [Ey|Ey]; [exfalso; apply Hne; congruence|right; lra]. }
  assert (Hc : forall v : tpVec2 R,
             let t := tpVec2Dot (tpVec2Sub v (mkVec2 ox oy))
                        (tpVec2MultScalar (tpVec2Sub (mkVec2 dx dy) (mkVec2 ox oy))
                           (c1 / tpVec2LengthSquared
                                   (tpVec2Sub (mkVec2 dx dy) (mkVec2 ox oy)))) in
             tpVec2Dot (tpVec2Sub v (tpVec2Lerp (mkVec2 ox oy) (mkVec2 dx dy) t))
                       (tpVec2Sub (mkVec2 dx dy) (mkVec2 ox oy)) = 0
             /\ (v = mkVec2 ox oy -> t = 0)
             /\ (v = mkVec2 dx dy -> t = 1)).
  { intros [x y]. unfold tpVec2Dot, tpVec2Sub, tpVec2Lerp, tpVec2Add, tpVec2MultScalar,
      tpVec2LengthSquared, c1.
    cbn [vx vy fadd fsub fmul fdiv fconst R_arith]. cbv zeta.
    split; [field; lra|].
    split; intros H; injection H as -> ->; field; lra. }
  do 4 eexists. unfold tpVec2Make, c0. cbn [fconst R_arith].
  replace (0 / 1) with 0 by field.
  split; [reflexivity|].
  repeat (constructor; [cbn [vertex tc vx]; apply Hc|]). constructor.
Qed.

Lemma _tpGLGradientLinearGeometry_projection_witness :
  exists t0 t1 t2 t3,
    _tpGLGradientLinearGeometry tpTransformMakeIdentity
      (gradient_of ramp_stops) tpTransformMakeIdentity
      (mkRect (mkVec2 0 0) (mkVec2 1 1)) tpTrue []
    = ([mkTextureVertex (mkVec2 0 0) (mkVec2 t0 0);
        mkTextureVertex (mkVec2 1 0) (mkVec2 t1 0);
        mkTextureVertex (mkVec2 1 1) (mkVec2 t2 0);
        mkTextureVertex (mkVec2 0 1) (mkVec2 t3 0)], 0%Z, 4%Z).
Proof.
  destruct (_tpGLGradientLinearGeometry_projection tpTransformMakeIdentity
              (gradient_of ramp_stops) tpTransformMakeIdentity
              (mkRect (mkVec2 0 0) (mkVec2 1 1)) tpTrue []
              (tpTransformApply tpTransformMakeIdentity (mkVec2 0 0))
              (tpTransformApply tpTransformMakeIdentity (mkVec2 1 0)))
    as (t0 & t1 & t2 & t3 & H & _).
  - reflexivity.
  - reflexivity.
  - unfold tpTransformApply, tpTransformMakeIdentity, tpMat2MakeIdentity, tpMat2Make,
      tpMat2MultVec2, tpVec2Add, tpVec2Make, c0, c1.
    cbn [tm tt v0 v1 v2 v3 vx vy fadd fmul fconst R_arith].
    intros E. injection E as E. lra.
  - exists t0, t1, t2, t3. exact H.
Defined.


(** ** The ramp texture *)

Lemma Rtrunc_bounds (a : R) : 0 <= a -> IZR (Rtrunc a) <= a < IZR (Rtrunc a) + 1.
Proof.
  intros Ha. unfold Rtrunc. destruct (Rle_dec 0 a) as [_|H]; [|contradiction].
  destruct (base_Int_part a) as [H1 H2]. lra.
Qed.

Lemma Rtrunc_mono (a b : R) : 0 <= a -> a <= b -> (Rtrunc a <= Rtrunc b)%Z.
Proof.
  intros Ha Hab. destruct (Rtrunc_bounds a Ha) as [A1 A2].
  destruct (Rtrunc_bounds b ltac:(lra)) as [B1 B2].
  assert (H : IZR (Rtrunc a) < IZR (Rtrunc b + 1)) by (rewrite plus_IZR; lra).
  apply lt_IZR in H. lia.
Qed.

Lemma ramp_index_R (s : tpColorStop R) : ramp_index s = Rtrunc (offset s * 1023).
Proof.
  unfold ramp_index, TARP_GL_RAMP_TEXTURE_SIZE.
  cbn [ftoint R_libm fmul fconst R_arith Z.sub Z.add Z.opp Z.pos_sub Pos.pred_double].
  f_equal. simpl. field.
Qed.

Lemma ramp_index_range (s : tpColorStop R) :
  in_unit_range s -> (0 <= ramp_index s <= 1023)%Z.
Proof.
  intros [H0 H1]. rewrite ramp_index_R.
  pose proof (Rtrunc_mono 0 (offset s * 1023) ltac:(lra) ltac:(lra)) as Ha.
  pose proof (Rtrunc_mono (offset s * 1023) 1023 ltac:(lra) ltac:(lra)) as Hb.
  rewrite (Rtrunc_IZR 0) in Ha. rewrite (Rtrunc_IZR 1023) in Hb. lia.
Qed.

Lemma ramp_index_mono (a b : tpColorStop R) :
  0 <= offset a -> offset a <= offset b -> (ramp_index a <= ramp_index b)%Z.
Proof.
  intros H0 Hab. rewrite !ramp_index_R. apply Rtrunc_mono; nra.
Qed.

Lemma ramp_index_start (s : tpColorStop R) : offset s = 0 -> ramp_index s = 0%Z.
Proof.
  intros H. rewrite ramp_index_R, H. rewrite <- (Rtrunc_IZR 0) at 2. f_equal. ring.
Qed.

Lemma ramp_index_end (s : tpColorStop R) : offset s = 1 -> ramp_index s = 1023%Z.
Proof.
  intros H. rewrite ramp_index_R, H. rewrite <- (Rtrunc_IZR 1023) at 2. f_equal. ring.
Qed.

Lemma ramp_index_before_end (s : tpColorStop R) :
  0 <= offset s < 1 -> (ramp_index s < 1023)%Z.
Proof.
  intros [H0 H1]. rewrite ramp_index_R.
  destruct (Rtrunc_bounds (offset s * 1023) ltac:(lra)) as [B1 _].
  apply lt_IZR. lra.
Qed.

(** The pixels after the loop over [j]: those of the span are mixed, the
    others are as before. *)
Lemma ramp_span_pixels (count : nat) :
  forall (j xStart diff : Z) (stop1 : tpColorStop R) (mixColor : tpColor R)
         (pixels : list (tpColor R)),
    (0 <= j)%Z -> (j + Z.of_nat count <= Z.of_nat (length pixels))%Z ->
    length (ramp_span count j xStart diff stop1 mixColor pixels) = length pixels
    /\ forall k,
         AtPtr (ramp_span count j xStart diff stop1 mixColor pixels) k
         = if ((j <=? k) && (k <? j + Z.of_nat count))%Z
           then Some (mkColor
                        (cr (color stop1) + cr mixColor * (IZR (k - xStart) / IZR diff))
                        (cg (color stop1) + cg mixColor * (IZR (k - xStart) / IZR diff))
                        (cb (color stop1) + cb mixColor * (IZR (k - xStart) / IZR diff))
                        (ca (color stop1) + ca mixColor * (IZR (k - xStart) / IZR diff)))
           else AtPtr pixels k.
Proof.
  induction count as [|count IH]; intros j xStart diff stop1 mixColor pixels Hj Hl.
  - cbn [ramp_span]. split; [reflexivity|]. intros k.
    replace ((j <=? k) && (k <? j + Z.of_nat 0))%Z with false; [reflexivity|].
    symmetry. apply andb_false_iff.
    destruct (Z.leb_spec j k); [right; apply Z.ltb_ge; lia|left; reflexivity].
  - cbn [ramp_span].
    match goal with
    | |- context [ramp_span count (j + 1) xStart diff stop1 mixColor ?p] => set (p1 := p)
    end.
    assert (Hl1 : length p1 = length pixels) by apply SetAt_length.
    destruct (IH (j + 1)%Z xStart diff stop1 mixColor p1 ltac:(lia) ltac:(lia))
      as [IHl IHk].
    split; [rewrite IHl; exact Hl1|].
    intros k. rewrite IHk.
    destruct (Z.eq_dec k j) as [->|Hne].
    + replace ((j + 1 <=? j) && (j <? j + 1 + Z.of_nat count))%Z with false
        by (symmetry; apply andb_false_iff; left; apply Z.leb_gt; lia).
      replace ((j <=? j) && (j <? j + Z.of_nat (S count)))%Z with true
        by (symmetry; apply andb_true_iff; split; [apply Z.leb_le|apply Z.ltb_lt]; lia).
      subst p1. rewrite AtPtr_SetAt by lia.
      cbn [fadd fmul fdiv fconst R_arith]. f_equal.
      replace (IZR (j - xStart) / IZR 1 / (IZR diff / IZR 1))
        with (IZR (j - xStart) / IZR diff); [reflexivity|].
      unfold Rdiv. rewrite Rinv_1, !Rmult_1_r. reflexivity.
    + replace ((j <=? k) && (k <? j + Z.of_nat (S count)))%Z
        with ((j + 1 <=? k) && (k <? j + 1 + Z.of_nat count))%Z.
      * destruct ((j + 1 <=? k) && (k <? j + 1 + Z.of_nat count))%Z; [reflexivity|].
        subst p1. apply AtPtr_SetAt_other. exact Hne.
      * destruct (Z.leb_spec (j + 1) k), (Z.leb_spec j k),
          (Z.ltb_spec k (j + 1 + Z.of_nat count)), (Z.ltb_spec k (j + Z.of_nat (S count)));
          try reflexivity; lia.
Qed.

Lemma ramp_stops_loop_pixels (rest : list (tpColorStop R)) :
  forall (stop1 : tpColorStop R) (xStart : Z) (pixels : list (tpColor R)),
    StronglySorted Rle (map (@offset R) (stop1 :: rest)) ->
    Forall in_unit_range (stop1 :: rest) ->
    xStart = ramp_index stop1 ->
    Z.of_nat (length pixels) = TARP_GL_RAMP_TEXTURE_SIZE ->
    exists pixels',
      ramp_stops_loop rest stop1 xStart pixels = Some pixels'
      /\ Z.of_nat (length pixels') = TARP_GL_RAMP_TEXTURE_SIZE
      /\ (forall k, (k <= xStart)%Z -> AtPtr pixels' k = AtPtr pixels k)
      /\ forall l1 s1 s2 l2 j,
           stop1 :: rest = l1 ++ s1 :: s2 :: l2 ->
           (ramp_index s1 < j <= ramp_index s2)%Z ->
           AtPtr pixels' j
           = Some (mix (color s1) (color s2)
                       (IZR (j - ramp_index s1) / IZR (ramp_index s2 - ramp_index s1))).
Proof.
  induction rest as [|stop2 rest IH]; intros stop1 xStart pixels Hsort Hrange Hx Hlen.
  - exists pixels. cbn [ramp_stops_loop]. split; [reflexivity|]. split; [exact Hlen|].
    split; [reflexivity|].
    intros l1 s1 s2 l2 j E. exfalso.
    apply (f_equal (@length _)) in E. rewrite length_app in E. simpl in E. lia.
  - cbn [ramp_stops_loop].
    inversion Hsort as [|? ? Hs2 Hall]; subst.
    inversion Hrange as [|? ? Hr1 Hr2]; subst.
    inversion Hr2 as [|? ? Hr Hr3]; subst.
    inversion Hall as [|? ? Hle _]; subst.
    pose proof (ramp_index_range stop1 Hr1) as H1.
    pose proof (ramp_index_range stop2 Hr) as H2.
    pose proof (ramp_index_mono stop1 stop2 (proj1 Hr1) Hle) as H12.
    unfold TARP_GL_RAMP_TEXTURE_SIZE in *.
    replace ((ramp_index stop1 >=? 0)%Z && (ramp_index stop1 <? 1024)%Z
             && (ramp_index stop2 >=? 0)%Z && (ramp_index stop2 <? 1024)%Z
             && (ramp_index stop1 <=? ramp_index stop2)%Z) with true.
    2:{ symmetry. rewrite !andb_true_iff.
        repeat split; try apply Z.geb_le; try apply Z.ltb_lt; try apply Z.leb_le; lia. }
    match goal with
    | |- context [ramp_stops_loop rest stop2 _ ?p] => set (p1 := p)
    end.
    assert (Hj0 : (0 <= ramp_index stop1 + 1)%Z) by lia.
    assert (Hj1 : (ramp_index stop1 + 1
                   + Z.of_nat (Z.to_nat (ramp_index stop2 - ramp_index stop1))
                   <= Z.of_nat (length pixels))%Z) by lia.
    destruct (ramp_span_pixels (Z.to_nat (ramp_index stop2 - ramp_index stop1))
                (ramp_index stop1 + 1) (ramp_index stop1)
                (ramp_index stop2 - ramp_index stop1) stop1
                (mkColor (cr (color stop2) - cr (color stop1))%tp
                         (cg (color stop2) - cg (color stop1))%tp
                         (cb (color stop2) - cb (color stop1))%tp
                         (ca (color stop2) - ca (color stop1))%tp) pixels
                Hj0 Hj1) as [Hl1 Hk1].
    fold p1 in Hl1, Hk1.
    assert (Hlen1 : Z.of_nat (length p1) = 1024%Z)
      by (rewrite Hl1; exact Hlen).
    destruct (IH stop2 (ramp_index stop2) p1 Hs2 Hr2 eq_refl Hlen1)
      as (pixels' & E & Hl' & Hkeep & Hmix).
    exists pixels'. split; [exact E|]. split; [exact Hl'|]. split.
    + intros k Hk. rewrite Hkeep by lia. rewrite Hk1.
      replace (ramp_index stop1 + 1 <=? k)%Z with false
        by (symmetry; apply Z.leb_gt; lia).
      reflexivity.
    + intros l1 s1 s2 l2 j El Hj. destruct l1 as [|s l1].
      * cbn [app] in El. injection El as <- <- <-.
        rewrite Hkeep by lia. rewrite Hk1.
        replace ((ramp_index stop1 + 1 <=? j)
                 && (j <? ramp_index stop1 + 1
                          + Z.of_nat (Z.to_nat (ramp_index stop2 - ramp_index stop1))))%Z
          with true
          by (symmetry; apply andb_true_iff; split; [apply Z.leb_le|apply Z.ltb_lt]; lia).
        reflexivity.
      * cbn [app] in El. injection El as <- El.
        apply (Hmix l1 s1 s2 l2 j El Hj).
Qed.

(** X25. Over the real numbers, on stops in the order of their offsets,
    all in the range 0-1 and the first one at 0 (as
    [_tpGLFinalizeColorStops] leaves them), the assertion of
    [_tpGLUpdateRampTexture] holds and the function fills a ramp of
    [TARP_GL_RAMP_TEXTURE_SIZE] pixels: pixel 0 has the color of the first
    stop, and between the pixels of two neighbouring stops the colors are
    interpolated linearly by the pixel index.  When the last stop is at 1,
    after more than one stop with different offsets, the last pixel has its
    color, so that the whole ramp is written. *)
Theorem _tpGLUpdateRampTexture_pixels (grad : _tpGLGradient R)
    (first : tpColorStop R) (rest : list (tpColorStop R)) :
  stops grad = first :: rest ->
  offset first = 0 ->
  StronglySorted Rlt (map (@offset R) (stops grad)) ->
  Forall in_unit_range (stops grad) ->
  exists pixels,
    _tpGLUpdateRampTexture grad = Some pixels
    /\ Z.of_nat (length pixels) = TARP_GL_RAMP_TEXTURE_SIZE
    /\ AtPtr pixels 0 = Some (color first)
    /\ (forall l1 s1 s2 l2 j,
          stops grad = l1 ++ s1 :: s2 :: l2 ->
          (ramp_index s1 < j <= ramp_index s2)%Z ->
          AtPtr pixels j
          = Some (mix (color s1) (color s2)
                      (IZR (j - ramp_index s1) / IZR (ramp_index s2 - ramp_index s1))))
    /\ (forall l1 s1 final,
          stops grad = l1 ++ [s1; final] -> offset final = 1 ->
          AtPtr pixels (TARP_GL_RAMP_TEXTURE_SIZE - 1) = Some (color final)).
Proof.
  intros Hst H0 Hsort Hrange. unfold _tpGLUpdateRampTexture. rewrite Hst in *.
  set (p0 := SetAt _ 0 (color first)).
  assert (Hlen : Z.of_nat (length p0) = TARP_GL_RAMP_TEXTURE_SIZE).
  { subst p0. rewrite SetAt_length, repeat_length. reflexivity. }
  assert (Hsort' : StronglySorted Rle (map (@offset R) (first :: rest))).
  { clear -Hsort. induction Hsort as [|a l _ IH Hall]; constructor; [exact IH|].
    revert Hall. apply Forall_impl. intros b Hb. lra. }
  destruct (ramp_stops_loop_pixels rest first 0 p0 Hsort' Hrange
              (eq_sym (ramp_index_start first H0)) Hlen)
    as (pixels & E & Hl & Hkeep & Hmix).
  exists pixels. split; [exact E|]. split; [exact Hl|].
  split.
  { rewrite Hkeep by lia. subst p0. apply AtPtr_SetAt. rewrite repeat_length.
    unfold TARP_GL_RAMP_TEXTURE_SIZE. lia. }
  split; [exact Hmix|].
  intros l1 s1 final El Hf1.
  assert (Hin1 : in_unit_range s1).
  { rewrite Forall_forall in Hrange. apply Hrange. rewrite El.
    apply in_or_app. right. left. reflexivity. }
  assert (Hlt : offset s1 < offset final).
  { rewrite El, map_app in Hsort. cbn [map] in Hsort.
    clear -Hsort. induction (map (@offset R) l1) as [|a l IH].
    - cbn [app] in Hsort. inversion Hsort as [|? ? _ Hall]; subst.
      inversion Hall; subst. assumption.
    - cbn [app] in Hsort. inversion Hsort; subst. apply IH. assumption. }
  pose proof (ramp_index_before_end s1 ltac:(destruct Hin1; lra)) as Hb.
  pose proof (ramp_index_range s1 Hin1) as Hr1.
  pose proof (ramp_index_end final Hf1) as He.
  rewrite (Hmix l1 s1 final [] (TARP_GL_RAMP_TEXTURE_SIZE - 1)%Z El)
    by (unfold TARP_GL_RAMP_TEXTURE_SIZE; lia).
  f_equal. rewrite He. unfold TARP_GL_RAMP_TEXTURE_SIZE.
  replace (1024 - 1 - ramp_index s1)%Z with (1023 - ramp_index s1)%Z by lia.
  assert (Hd : IZR (1023 - ramp_index s1) <> 0).
  { apply not_0_IZR. lia. }
  unfold mix. destruct (color s1) as [r1 g1 b1 a1], (color final) as [r2 g2 b2 a2].
  cbn [cr cg cb ca].
  f_equal; field; exact Hd.
Qed.

Lemma _tpGLUpdateRampTexture_pixels_witness :
  exists pixels,
    _tpGLUpdateRampTexture
      (gradient_of [mkColorStop (mkColor 1 0 0 1) 0; mkColorStop (mkColor 0 0 1 1) 1])
    = Some pixels
    /\ AtPtr pixels 0 = Some (mkColor 1 0 0 1)
    /\ AtPtr pixels 1023 = Some (mkColor 0 0 1 1).
Proof.
  destruct (_tpGLUpdateRampTexture_pixels
              (gradient_of [mkColorStop (mkColor 1 0 0 1) 0;
                            mkColorStop (mkColor 0 0 1 1) 1])
              (mkColorStop (mkColor 1 0 0 1) 0) [mkColorStop (mkColor 0 0 1 1) 1])
    as (pixels & E & _ & H0 & _ & H1).
  - reflexivity.
  - reflexivity.
  - cbn [stops gradient_of map offset].
    repeat constructor. lra.
  - cbn [stops gradient_of]. repeat constructor; cbn [offset]; lra.
  - exists pixels. split; [exact E|]. split; [exact H0|].
    apply (H1 [] (mkColorStop (mkColor 1 0 0 1) 0) (mkColorStop (mkColor 0 0 1 1) 1));
      reflexivity.
Defined.


(** ** Stops that are final already *)

Lemma NoDup_offsets_eq (l : list (tpColorStop R)) (s t : tpColorStop R) :
  NoDup (map (@offset R) l) -> In s l -> In t l -> offset s = offset t -> s = t.
Proof.
  induction l as [|a l IH]; intros Hnd Hs Ht He; [contradiction|].
  cbn [map] in Hnd. inversion Hnd as [|? ? Hna Hnd']; subst.
  destruct Hs as [->|Hs], Ht as [->|Ht].
  - reflexivity.
  - exfalso. apply Hna. rewrite He. apply in_map. exact Ht.
  - exfalso. apply Hna. rewrite <- He. apply in_map. exact Hs.
  - apply IH; assumption.
Qed.

(** X26. Over the real numbers [_tpGLFinalizeColorStops] leaves a gradient
    as it is when its stops are final already: in strictly ascending order of
    their offsets, all in the range 0-1, with a stop at 0 and a stop at 1. *)
Theorem _tpGLFinalizeColorStops_fixed (grad : _tpGLGradient R) :
  StronglySorted by_offset (stops grad) ->
  Forall in_unit_range (stops grad) ->
  In 0 (map (@offset R) (stops grad)) ->
  In 1 (map (@offset R) (stops grad)) ->
  _tpGLFinalizeColorStops grad = Some grad.
Proof.
  intros Hsort Hrange H0 H1.
  assert (Hne : stops grad <> []) by (intros E; rewrite E in H0; contradiction).
  pose proof (sorted_NoDup _ (sorted_offsets _ Hsort)) as Hnd.
  rewrite Forall_forall in Hrange. unfold in_unit_range in Hrange.
  destruct (remove_duplicates_spec (stops grad) [] tpFalse tpFalse (NoDup_nil _))
    as (tmp & bs & be & He & Hndt & Hin & Hout & Hbs & Hbe).
  assert (Hbs' : bs = true) by (apply Hbs; right; exact H0).
  assert (Hbe' : be = true) by (apply Hbe; right; exact H1).
  subst bs be.
  assert (Hsub : forall s, In s tmp -> In s (stops grad)).
  { intros s Hs. destruct (Hin s Hs) as [[]|[Hs' _]]. exact Hs'. }
  assert (Hperm : Permutation tmp (stops grad)).
  { apply NoDup_Permutation.
    - apply (NoDup_map_inv (@offset R)). exact Hndt.
    - apply (NoDup_map_inv (@offset R)). exact Hnd.
    - intros s. split; [apply Hsub|]. intros Hs.
      assert (Ho : In (offset s) (map (@offset R) tmp)).
      { apply Hout. right. split; [exact Hs|apply Hrange; exact Hs]. }
      apply in_map_iff in Ho. destruct Ho as (t & Et & Ht).
      rewrite <- (NoDup_offsets_eq (stops grad) t s Hnd (Hsub t Ht) Hs Et). exact Ht. }
  assert (Hq : qsort _tpGLColorStopComp tmp = stops grad).
  { apply sorted_stops_unique.
    - apply (Permutation_trans (qsort_perm tmp) Hperm).
    - apply qsort_sorted. exact Hndt.
    - exact Hsort. }
  destruct (stops grad) as [|f sorted] eqn:Es; [contradiction|].
  assert (Hne' : stops grad <> []) by (rewrite Es; discriminate).
  rewrite <- Es in He.
  rewrite (_tpGLFinalizeColorStops_kept grad tmp true true f sorted Hne' He Hq).
  cbn [app]. rewrite app_nil_r. rewrite <- Es.
  destruct grad. reflexivity.
Qed.

Lemma _tpGLFinalizeColorStops_fixed_witness :
  _tpGLFinalizeColorStops
    (gradient_of [mkColorStop (mkColor 1 0 0 1) 0; mkColorStop (mkColor 0 0 1 1) 1])
  = Some (gradient_of [mkColorStop (mkColor 1 0 0 1) 0; mkColorStop (mkColor 0 0 1 1) 1]).
Proof.
  apply _tpGLFinalizeColorStops_fixed.
  - cbn [stops gradient_of]. repeat constructor. unfold by_offset. cbn [offset]. lra.
  - cbn [stops gradient_of]. repeat constructor; cbn [offset]; lra.
  - cbn [stops gradient_of map offset]. left. reflexivity.
  - cbn [stops gradient_of map offset]. right. left. reflexivity.
Defined.


(** ** The start of a dash pattern *)

Lemma fold_left_dash_sum (l : list R) (a : R) : fold_left Rplus l a = a + dash_sum l.
Proof.
  revert a. induction l as [|d l IH]; intros a; unfold dash_sum; cbn [fold_left fold_right].
  - ring.
  - rewrite IH. unfold dash_sum. ring.
Qed.

Lemma dash_sum_app (l1 l2 : list R) : dash_sum (l1 ++ l2) = dash_sum l1 + dash_sum l2.
Proof.
  induction l1 as [|d l1 IH]; unfold dash_sum; cbn [app fold_right]; [ring|].
  unfold dash_sum in IH. rewrite IH. ring.
Qed.

Lemma dash_sum_pos (l : list R) : Forall (Rlt 0) l -> l <> [] -> 0 < dash_sum l.
Proof.
  intros H Hne. induction H as [|d l Hd Hl IH]; [contradiction|].
  unfold dash_sum; cbn [fold_right]. destruct l as [|e l].
  - cbn [fold_right]. lra.
  - assert (0 < dash_sum (e :: l)) by (apply IH; discriminate).
    unfold dash_sum in *. lra.
Qed.

Lemma AtPtr_middle (T : Type) (pre suf : list T) (d : T) :
  AtPtr (pre ++ d :: suf) (Z.of_nat (length pre)) = Some d.
Proof.
  rewrite AtPtr_nth_error by (rewrite length_app; cbn [length]; lia).
  rewrite Nat2Z.id, nth_error_app2 by lia. rewrite Nat.sub_diag. reflexivity.
Qed.

(** The loop that goes forward through the dashes stops in the first dash
    that ends after the offset. *)
Lemma dash_forward_run (suf : list R) :
  forall (pre : list R) (len : R) (fuel : nat),
    Forall (Rlt 0) suf -> (length suf <= fuel)%nat -> 0 < len + dash_sum suf ->
    exists k,
      (k <= length suf)%nat
      /\ dash_forward fuel (pre ++ suf) len (Z.of_nat (length pre))
         = Done (len + dash_sum (firstn k suf), Z.of_nat (length pre + k))
      /\ 0 < len + dash_sum (firstn k suf)
      /\ (k = 0%nat \/ len + dash_sum (firstn (k - 1) suf) <= 0).
Proof.
  assert (Hstop : forall fuel dashes len idx,
             0 < len -> dash_forward fuel dashes len idx = Done (len, idx)).
  { intros fuel dashes len idx Hl.
    destruct fuel; cbn [dash_forward]; unfold c0; cbn [fleb fconst R_arith];
      rewrite (proj2 (Rleb_false _ _)) by lra; reflexivity. }
  induction suf as [|d suf IH]; intros pre len fuel Hpos Hfuel Hsum.
  - unfold dash_sum in Hsum; cbn [fold_right] in Hsum. exists 0%nat.
    unfold dash_sum; cbn [firstn fold_right]. rewrite Nat.add_0_r, Rplus_0_r.
    split; [lia|]. split; [apply Hstop; lra|]. split; [lra|left; reflexivity].
  - destruct (Rle_dec len 0) as [Hle|Hgt].
    + destruct fuel as [|fuel]; [cbn [length] in Hfuel; lia|].
      inversion Hpos as [|? ? Hd Hpos']; subst.
      destruct (IH (pre ++ [d]) (len + d) fuel Hpos') as (k & Hk & E & Hl & Hprev).
      { cbn [length] in Hfuel. lia. }
      { unfold dash_sum in Hsum; cbn [fold_right] in Hsum. unfold dash_sum. lra. }
      exists (S k). split; [cbn [length]; lia|].
      cbn [dash_forward]. unfold c0. cbn [fleb fconst R_arith fadd].
      rewrite (proj2 (Rleb_true _ _)) by lra.
      rewrite AtPtr_middle.
      rewrite <- app_assoc, length_app in E. cbn [app length] in E.
      replace (Z.of_nat (length pre) + 1)%Z with (Z.of_nat (length pre + 1)) by lia.
      rewrite E. unfold dash_sum; cbn [firstn fold_right].
      split; [f_equal; f_equal; [unfold dash_sum; ring|lia]|].
      split; [unfold dash_sum in Hl; lra|].
      right. destruct Hprev as [->|Hprev].
      * unfold dash_sum; cbn [Nat.sub firstn fold_right]. lra.
      * destruct k as [|k]; [unfold dash_sum; cbn [Nat.sub firstn fold_right]; lra|].
        cbn [Nat.sub] in Hprev |- *. rewrite Nat.sub_0_r in Hprev.
        unfold dash_sum; cbn [firstn fold_right]. unfold dash_sum in Hprev. lra.
    + exists 0%nat. unfold dash_sum; cbn [firstn fold_right]. rewrite Nat.add_0_r, Rplus_0_r.
      split; [lia|]. split; [apply Hstop; lra|]. split; [lra|left; reflexivity].
Qed.

(** The loop that goes backward through the dashes stops in the last dash
    that begins at or before the offset. *)
Lemma dash_backward_run (pre : list R) :
  forall (suf : list R) (len : R) (fuel : nat),
    Forall (Rlt 0) pre -> (length pre <= fuel)%nat -> len - dash_sum pre <= 0 ->
    exists p1 p2,
      pre = p1 ++ p2
      /\ dash_backward fuel (pre ++ suf) len (Z.of_nat (length pre))
         = Done (len - dash_sum p2, Z.of_nat (length p1))
      /\ len - dash_sum p2 <= 0
      /\ (p2 = [] \/ 0 < len - dash_sum (tl p2)).
Proof.
  assert (Hstop : forall fuel dashes len idx,
             len <= 0 -> dash_backward fuel dashes len idx = Done (len, idx)).
  { intros fuel dashes len idx Hl.
    destruct fuel; cbn [dash_backward]; unfold c0; cbn [fltb fconst R_arith];
      rewrite (proj2 (Rltb_false _ _)) by lra; reflexivity. }
  induction pre as [|d q IH] using rev_ind; intros suf len fuel Hpos Hfuel Hsum.
  - unfold dash_sum in Hsum; cbn [fold_right] in Hsum. exists [], [].
    unfold dash_sum; cbn [fold_right app length]. rewrite Rminus_0_r.
    split; [reflexivity|]. split; [apply Hstop; lra|]. split; [lra|left; reflexivity].
  - destruct (Rlt_dec 0 len) as [Hgt|Hle].
    + rewrite length_app in Hfuel. cbn [length] in Hfuel.
      destruct fuel as [|fuel]; [lia|].
      apply Forall_app in Hpos. destruct Hpos as [Hq Hd].
      inversion Hd as [|? ? Hd0 _]; subst.
      rewrite dash_sum_app in Hsum. unfold dash_sum in Hsum; cbn [fold_right] in Hsum.
      destruct (IH (d :: suf) (len - d) fuel Hq ltac:(lia)) as (p1 & p2 & Ep & E & Hl & Hprev).
      { unfold dash_sum. lra. }
      exists p1, (p2 ++ [d]).
      split; [rewrite Ep, <- app_assoc; reflexivity|].
      cbn [dash_backward]. unfold c0. cbn [fltb fconst R_arith fsub].
      rewrite (proj2 (Rltb_true _ _)) by lra.
      rewrite length_app. cbn [length].
      replace (Z.of_nat (length q + 1) - 1)%Z with (Z.of_nat (length q)) by lia.
      rewrite <- app_assoc. cbn [app]. rewrite AtPtr_middle, E.
      rewrite dash_sum_app. unfold dash_sum; cbn [fold_right].
      split; [f_equal; f_equal; unfold dash_sum; ring|].
      split; [unfold dash_sum in Hl |- *; lra|].
      right. destruct p2 as [|x r].
      * unfold dash_sum; cbn [app tl fold_right]. lra.
      * cbn [app tl]. rewrite dash_sum_app. unfold dash_sum; cbn [fold_right].
        destruct Hprev as [Hprev|Hprev]; [discriminate|].
        cbn [tl] in Hprev. unfold dash_sum in Hprev |- *. lra.
    + exists (q ++ [d]), []. unfold dash_sum; cbn [fold_right]. rewrite app_nil_r, Rminus_0_r.
      split; [reflexivity|]. split; [apply Hstop; lra|]. split; [lra|left; reflexivity].
Qed.

Lemma Rfmod_nonneg (a b : R) :
  0 <= a -> 0 < b -> exists m : Z, Rfmod a b = a - IZR m * b /\ 0 <= Rfmod a b < b.
Proof.
  intros Ha Hb. unfold Rfmod. exists (Rtrunc (a / b)). split; [reflexivity|].
  assert (Hq : 0 <= a / b) by (apply Rmult_le_pos; [lra|left; apply Rinv_0_lt_compat; lra]).
  destruct (Rtrunc_bounds (a / b) Hq) as [H1 H2].
  set (t := IZR (Rtrunc (a / b))) in *.
  assert (Ea : a = a / b * b) by (field; lra).
  split.
  - assert (t * b <= a / b * b) by (apply Rmult_le_compat_r; lra). lra.
  - assert (a / b * b < (t + 1) * b) by (apply Rmult_lt_compat_r; lra). lra.
Qed.

Lemma Rfmod_nonpos (a b : R) :
  a <= 0 -> 0 < b -> exists m : Z, Rfmod a b = a - IZR m * b /\ - b < Rfmod a b <= 0.
Proof.
  intros Ha Hb. unfold Rfmod. exists (Rtrunc (a / b)). split; [reflexivity|].
  assert (Ea : a = a / b * b) by (field; lra).
  assert (Hq : a / b <= 0).
  { unfold Rdiv. rewrite <- (Rmult_0_l (/ b)).
    apply Rmult_le_compat_r; [left; apply Rinv_0_lt_compat; lra|exact Ha]. }
  unfold Rtrunc. destruct (Rle_dec 0 (a / b)) as [H0|H0].
  - assert (E0 : a / b = 0) by lra. rewrite E0 in *.
    destruct (base_Int_part 0) as [H1 H2].
    assert (Hi : Int_part 0 = 0%Z).
    { assert (IZR (Int_part 0) < IZR 1) by (simpl; lra).
      assert (IZR (-1) < IZR (Int_part 0)) by (simpl; lra).
      apply lt_IZR in H, H3. lia. }
    rewrite Hi. simpl. lra.
  - destruct (base_Int_part (- (a / b))) as [H1 H2].
    rewrite opp_IZR. set (t := IZR (Int_part (- (a / b)))) in *.
    split.
    + assert (- (a / b) * b < (t + 1) * b) by (apply Rmult_lt_compat_r; lra). lra.
    + assert (t * b <= - (a / b) * b) by (apply Rmult_le_compat_r; lra). lra.
Qed.

Lemma int_max_nonneg (z : Z) : (0 <= z)%Z -> int_max 0 z = z.
Proof. intros H. unfold int_max. destruct (Z.gtb_spec 0 z); lia. Qed.

(** X27. Over the real numbers, for a dash array of positive lengths and a
    dash offset that is not a negative whole multiple of the length of the
    pattern, the block of [_tpGLStroke] that computes the start of the
    dashes ends without a read outside the array, within as many turns as
    there are dashes.  It finds the dash in which the offset lies, reduced by
    whole pattern lengths to a position from 0 up to the pattern length: the
    start index is the index of that dash, the dash is on when the index is
    even, and the start length is what is left of that dash after the
    position. *)
Theorem dash_start_state_position (fuel : nat) (style : tpStyle R) :
  dashArray style <> [] ->
  Forall (Rlt 0) (dashArray style) ->
  (length (dashArray style) <= fuel)%nat ->
  (dashOffset style < 0 ->
   forall m : Z, dashOffset style <> IZR m * dash_sum (dashArray style)) ->
  exists (idx : nat) (m : Z) (pos : R),
    pos = dashOffset style - IZR m * dash_sum (dashArray style)
    /\ dash_start_state fuel style
       = Done (mkDashStart (Z.of_nat idx) (Z.rem (Z.of_nat idx) 2 =? 0)%Z
                           (dashes_before (dashArray style) (S idx) - pos))
    /\ (idx < length (dashArray style))%nat
    /\ dashes_before (dashArray style) idx <= pos
    /\ pos < dashes_before (dashArray style) (S idx).
Proof.
  intros Hne Hpos Hfuel Hmult.
  pose proof (dash_sum_pos _ Hpos Hne) as HP.
  unfold dash_start_state. unfold c0. cbn [feqb fltb fleb fabs fneg fconst R_arith].
  replace (0 / 1) with 0 by field.
  rewrite fold_left_dash_sum, Rplus_0_l.
  set (dashes := dashArray style) in *. set (P := dash_sum dashes) in *.
  destruct (Req_dec_T (dashOffset style) 0) as [E0|N0].
  - rewrite (proj2 (Reqb_true _ _) E0).
    destruct dashes as [|d rest] eqn:Ed; [contradiction|].
    exists 0%nat, 0%Z, 0. rewrite E0.
    split; [simpl; ring|].
    rewrite AtPtr_head. unfold dashes_before. unfold dash_sum; cbn [firstn fold_right length].
    split; [f_equal; f_equal; ring|].
    inversion Hpos; subst. split; [lia|]. split; lra.
  - rewrite (proj2 (Reqb_false _ _) N0).
    set (o := if Rleb P (Rabs (dashOffset style))
              then ffmod (dashOffset style) P else dashOffset style).
    destruct (Rlt_dec 0 (dashOffset style)) as [Hgt|Hle].
    + rewrite (proj2 (Rltb_true _ _) Hgt).
      assert (Ho : exists m : Z, o = dashOffset style - IZR m * P /\ 0 <= o < P).
      { subst o. destruct (Rle_dec P (Rabs (dashOffset style))) as [Hb|Hb].
        - rewrite (proj2 (Rleb_true _ _) Hb). cbn [ffmod R_libm].
          apply Rfmod_nonneg; lra.
        - rewrite (proj2 (Rleb_false _ _)) by lra.
          exists 0%Z. rewrite Rabs_right in Hb by lra. simpl. lra. }
      destruct Ho as (m & Eo & Hrange).
      destruct (dash_forward_run dashes [] (- o) fuel Hpos Hfuel) as (k & Hk & E & Hl & Hprev).
      { fold P. lra. }
      cbn [app length Z.of_nat Nat.add] in E. rewrite E.
      destruct k as [|k]; [unfold dash_sum in Hl; cbn [firstn fold_right] in Hl; lra|].
      destruct Hprev as [Hprev|Hprev]; [discriminate|].
      cbn [Nat.sub] in Hprev. rewrite Nat.sub_0_r in Hprev.
      exists k, m, o. split; [exact Eo|].
      rewrite int_max_nonneg by lia.
      replace (Z.of_nat (S k) - 1)%Z with (Z.of_nat k) by lia.
      unfold dashes_before.
      split; [f_equal; f_equal; ring|].
      split; [lia|]. split; lra.
    + rewrite (proj2 (Rltb_false _ _)) by lra.
      assert (Hneg : dashOffset style < 0) by lra.
      assert (Ho : exists m : Z, o = dashOffset style - IZR m * P /\ - P < o < 0).
      { subst o. destruct (Rle_dec P (Rabs (dashOffset style))) as [Hb|Hb].
        - rewrite (proj2 (Rleb_true _ _) Hb). cbn [ffmod R_libm].
          destruct (Rfmod_nonpos (dashOffset style) P ltac:(lra) HP) as (m & Em & Hr).
          exists m. split; [exact Em|]. split; [lra|].
          destruct Hr as [_ [Hr|Hr]]; [exact Hr|].
          exfalso. apply (Hmult Hneg m). fold dashes. fold P. lra.
        - rewrite (proj2 (Rleb_false _ _)) by lra.
          exists 0%Z. rewrite Rabs_left in Hb by lra. simpl. lra. }
      destruct Ho as (m & Eo & Hrange).
      destruct (dash_backward_run dashes [] (- o) fuel Hpos Hfuel)
        as (p1 & p2 & Ep & E & Hl & Hprev).
      { fold P. lra. }
      rewrite app_nil_r in E. unfold dashCount. fold dashes. rewrite E.
      destruct p2 as [|d r]; [unfold dash_sum in Hl; cbn [fold_right] in Hl; lra|].
      destruct Hprev as [Hprev|Hprev]; [discriminate|]. cbn [tl] in Hprev.
      rewrite int_max_nonneg by lia.
      assert (EP : P = dash_sum p1 + (d + dash_sum r)).
      { subst P. rewrite Ep, dash_sum_app. reflexivity. }
      exists (length p1), (m - 1)%Z, (P + o).
      split; [rewrite minus_IZR; lra|].
      rewrite Ep, AtPtr_middle. unfold dashes_before.
      replace (firstn (S (length p1)) (p1 ++ d :: r)) with (p1 ++ [d]).
      2:{ rewrite firstn_app, firstn_all2 by lia.
          replace (S (length p1) - length p1)%nat with 1%nat by lia. reflexivity. }
      replace (firstn (length p1) (p1 ++ d :: r)) with p1.
      2:{ rewrite firstn_app, firstn_all, Nat.sub_diag. cbn [firstn].
          rewrite app_nil_r. reflexivity. }
      rewrite dash_sum_app. unfold dash_sum in *; cbn [fold_right fadd R_arith] in *.
      split; [f_equal; f_equal; lra|].
      split; [rewrite length_app; cbn [length]; lia|]. split; lra.
Qed.

Lemma dash_start_state_position_witness :
  exists (idx : nat) (pos : R),
    dash_start_state 2 (dashed_style [10; 5] 12)
    = Done (mkDashStart (Z.of_nat idx) (Z.rem (Z.of_nat idx) 2 =? 0)%Z
                        (dashes_before [10; 5] (S idx) - pos))
    /\ dashes_before [10; 5] idx <= pos < dashes_before [10; 5] (S idx).
Proof.
  destruct (dash_start_state_position 2 (dashed_style [10; 5] 12))
    as (idx & m & pos & _ & E & _ & H1 & H2).
  - discriminate.
  - cbn [dashArray dashed_style]. repeat constructor; lra.
  - cbn [dashArray dashed_style length]. lia.
  - cbn [dashOffset dashed_style]. intros H. lra.
  - exists idx, pos. split; [exact E|]. split; assumption.
Defined.


(** ** The reach of a stroke *)

Lemma AtPtr_app_left (T : Type) (l s : list T) (i : Z) :
  (i < Z.of_nat (length l))%Z -> AtPtr (l ++ s) i = AtPtr l i.
Proof.
  intros Hi. unfold AtPtr. rewrite length_app.
  destruct (0 <=? i)%Z eqn:E0; [|reflexivity]. apply Z.leb_le in E0.
  replace (i <? Z.of_nat (length l + length s))%Z with true
    by (symmetry; apply Z.ltb_lt; lia).
  replace (i <? Z.of_nat (length l))%Z with true by (symmetry; apply Z.ltb_lt; lia).
  cbn [andb]. apply nth_error_app1. lia.
Qed.

Lemma Rabs_le_bounds (a b : R) : Rabs a <= b -> - b <= a <= b.
Proof.
  intros H. pose proof (Rle_abs a) as H1. pose proof (Rle_abs (- a)) as H2.
  rewrite Rabs_Ropp in H2. lra.
Qed.

Lemma all_appended_refl (Q : tpVec2 R -> Prop) (vs : list (tpVec2 R)) : all_appended Q vs vs.
Proof. exists []. rewrite app_nil_r. split; [reflexivity|constructor]. Qed.

Lemma all_appended_trans (Q : tpVec2 R -> Prop) (vs vs1 vs2 : list (tpVec2 R)) :
  all_appended Q vs vs1 -> all_appended Q vs1 vs2 -> all_appended Q vs vs2.
Proof.
  intros [s1 [H1 Q1]] [s2 [H2 Q2]]. exists (s1 ++ s2). split.
  - rewrite H2, H1, app_assoc. reflexivity.
  - apply Forall_app. split; assumption.
Qed.

Lemma all_appended_triangle (Q : tpVec2 R -> Prop) (vs : list (tpVec2 R)) (a b c : tpVec2 R) :
  Q a -> Q b -> Q c -> all_appended Q vs (_tpGLPushTriangle vs a b c).
Proof. intros Ha Hb Hc. exists [a; b; c]. split; [reflexivity|]. repeat constructor; assumption. Qed.

Lemma all_appended_quad (Q : tpVec2 R -> Prop) (vs : list (tpVec2 R)) (a b c d : tpVec2 R) :
  Q a -> Q b -> Q c -> Q d -> all_appended Q vs (_tpGLPushQuad vs a b c d).
Proof.
  intros Ha Hb Hc Hd. exists [a; b; c; c; d; a]. split; [reflexivity|].
  repeat constructor; assumption.
Qed.

Lemma radius_reach (h : R) (r : tpVec2 R) :
  0 <= h -> radius h r -> - h <= vx r <= h /\ - h <= vy r <= h.
Proof.
  unfold radius. intros Hh Hr.
  assert (Hx : vx r * vx r <= h * h) by nra.
  assert (Hy : vy r * vy r <= h * h) by nra.
  repeat split; nra.
Qed.

Lemma radius_flipped (h : R) (r : tpVec2 R) :
  radius h r -> radius h (tpVec2Make (- vx r) (- vy r))%tp.
Proof.
  unfold radius, tpVec2Make. cbn [vx vy fneg R_arith]. intros H.
  rewrite <- H. ring.
Qed.

Lemma radius_rotated (h a : R) (r : tpVec2 R) :
  radius h r -> radius h (tpMat2MultVec2 (tpMat2MakeRotation a) r).
Proof.
  unfold radius, tpMat2MultVec2, tpMat2MakeRotation, tpMat2Make.
  cbn [vx vy v0 v1 v2 v3 fadd fmul fneg fsin fcos R_arith R_libm]. intros H.
  pose proof (sin_cos_unit a) as Hu.
  replace ((vx r * cos a + vy r * - sin a) * (vx r * cos a + vy r * - sin a)
           + (vx r * sin a + vy r * cos a) * (vx r * sin a + vy r * cos a))
    with ((vx r * vx r + vy r * vy r) * (sin a * sin a + cos a * cos a)) by ring.
  rewrite Hu, H. ring.
Qed.

Lemma normalize_unit (v : tpVec2 R) :
  vx v <> 0 \/ vy v <> 0 -> radius 1 (tpVec2NormalizeSelf v).
Proof.
  intros Hv. pose proof (sum_squares_pos _ _ Hv) as Hn.
  unfold radius, tpVec2NormalizeSelf, tpVec2Length, c1.
  cbn [vx vy fadd fmul fdiv fsqrt fconst R_arith].
  set (n := vx v * vx v + vy v * vy v) in *.
  assert (Hs : 0 < sqrt n) by (apply sqrt_lt_R0; exact Hn).
  pose proof (sqrt_sqrt n ltac:(lra)) as Hq.
  replace (vx v * (1 / 1 / sqrt n) * (vx v * (1 / 1 / sqrt n))
           + vy v * (1 / 1 / sqrt n) * (vy v * (1 / 1 / sqrt n)))
    with (n / (sqrt n * sqrt n)) by (subst n; field; lra).
  rewrite Hq. field. lra.
Qed.

(** Half the stroke width is [h]; the stroke reaches [k] from the fill
    vertices, which is [h] or more, and twice [h] or more where a square cap
    is made. *)
Section Reach.
Variables h k : R.
Hypothesis Hh : 0 <= h.
Hypothesis Hk : h <= k.
Variable contour : _tpGLRenderCacheContour.
Variable orig : list (tpVec2 R).

Let Q := near_fill k contour orig.

Lemma reach_from (j : Z) (p d : tpVec2 R) :
  (fillVertexOffset contour <= j < fillVertexOffset contour + fillVertexCount contour)%Z ->
  AtPtr orig j = Some p ->
  - k <= vx d - vx p <= k -> - k <= vy d - vy p <= k ->
  Q d.
Proof.
  intros Hj Hp Hx Hy. exists j, p. split; [exact Hj|]. split; [exact Hp|].
  split; apply Rabs_le; assumption.
Qed.

Lemma circle_sector_loop_reach (fuel : nat) :
  forall (a : R) (center r r1 lst : tpVec2 R) (vs : list (tpVec2 R))
         (lst' : tpVec2 R) (vs' : list (tpVec2 R)),
    circle_sector_loop fuel (tpMat2MakeRotation a) center r r1 lst vs = Some (lst', vs') ->
    radius h r -> Q center -> Q lst ->
    (forall r, radius h r -> Q (tpVec2Add center r)) ->
    all_appended Q vs vs' /\ Q lst'.
Proof.
  induction fuel as [|fuel IH]; intros a center r r1 lst vs lst' vs' H Hr Hc Hl Hall;
    [discriminate|].
  cbn [circle_sector_loop] in H.
  pose proof (radius_rotated h a r Hr) as Hr'.
  destruct (fltb (tpVec2Cross (tpMat2MultVec2 (tpMat2MakeRotation a) r) r1) c0).
  - injection H as <- <-. split; [apply all_appended_refl|exact Hl].
  - apply IH in H; [|exact Hr'|exact Hc|apply Hall; exact Hr'|exact Hall].
    destruct H as [Ha Hl']. split; [|exact Hl'].
    eapply all_appended_trans; [|exact Ha].
    apply all_appended_triangle; [exact Hc|exact Hl|apply Hall; exact Hr'].
Qed.

Lemma _tpGLMakeCircleSector_reach (fuel : nat) (center r0 r1 : tpVec2 R) (lod : R)
    (vs vs' : list (tpVec2 R)) :
  _tpGLMakeCircleSector fuel center r0 r1 lod vs = Some vs' ->
  radius h r0 -> radius h r1 -> Q center ->
  (forall r, radius h r -> Q (tpVec2Add center r)) ->
  all_appended Q vs vs'.
Proof.
  unfold _tpGLMakeCircleSector. intros H Hr0 Hr1 Hc Hall.
  destruct (circle_sector_loop fuel _ center r0 r1 _ vs) as [[lst vs1]|] eqn:E;
    [|discriminate].
  injection H as <-.
  apply circle_sector_loop_reach in E; [|exact Hr0|exact Hc|apply Hall; exact Hr0|exact Hall].
  destruct E as [Ha Hl]. eapply all_appended_trans; [exact Ha|].
  apply all_appended_triangle; [exact Hc|exact Hl|apply Hall; exact Hr1].
Qed.

Lemma _tpGLMakeJoin_reach (fuel : nat) (type : tpStrokeJoin)
    (p dir0 dir1 perp0 perp1 lePrev rePrev le re : tpVec2 R) (cross miterLimit : R)
    (vs : list (tpVec2 R)) (uninit : tpVec2 R) (vs' : list (tpVec2 R)) :
  _tpGLMakeJoin fuel type p dir0 dir1 perp0 perp1 lePrev rePrev le re cross miterLimit
    vs uninit = Some vs' ->
  type <> kTpStrokeJoinMiter ->
  Q lePrev -> Q rePrev -> Q le -> Q re -> radius h perp0 -> radius h perp1 ->
  Q p -> (forall r, radius h r -> Q (tpVec2Add p r)) ->
  all_appended Q vs vs'.
Proof.
  unfold _tpGLMakeJoin, _tpGLMakeJoinBevel.
  intros H Ht Hlp Hrp Hle Hre H0 H1 Hp Hall. destruct type.
  - contradiction.
  - destruct (fltb cross c0).
    + apply (_tpGLMakeCircleSector_reach _ _ _ _ _ _ _ H); assumption.
    + apply (_tpGLMakeCircleSector_reach _ _ _ _ _ _ _ H);
        try assumption; apply radius_flipped; assumption.
  - injection H as <-. apply all_appended_triangle; [exact Hlp| |exact Hrp].
    match goal with |- context [if ?b then le else re] => destruct b end; assumption.
Qed.

Lemma _tpGLMakeCap_reach (fuel : nat) (type : tpStrokeCap) (p dir perp le re : tpVec2 R)
    (bStart : tpBool) (vs vs' : list (tpVec2 R)) :
  _tpGLMakeCap fuel type p dir perp le re bStart vs = Some vs' ->
  Q le -> Q re ->
  (type = kTpStrokeCapSquare -> Q (tpVec2Add re dir) /\ Q (tpVec2Add le dir)) ->
  radius h perp ->
  Q p -> (forall r, radius h r -> Q (tpVec2Add p r)) ->
  all_appended Q vs vs'.
Proof.
  unfold _tpGLMakeCap, _tpGLMakeCapSquare.
  intros H Hle Hre Hsq Hperp Hp Hall. destruct type.
  - apply (_tpGLMakeCircleSector_reach _ _ _ _ _ _ _ H);
      try assumption. apply radius_flipped. assumption.
  - destruct (Hsq eq_refl) as [Hrd Hld].
    injection H as <-. apply all_appended_quad; assumption.
  - injection H as <-. apply all_appended_refl.
Qed.

Lemma stroke_edge_reach (fuel : nat) (style : tpStyle R) (j : Z) (loc : @stroke_locals R)
    (s : list (tpVec2 R)) (js : list tpBool) (uninit : tpVec2 R)
    (loc' : @stroke_locals R) (vs' : list (tpVec2 R)) :
  strokeJoin style <> kTpStrokeJoinMiter ->
  (0 <= fillVertexOffset contour <= j)%Z ->
  (j + 1 < fillVertexOffset contour + fillVertexCount contour)%Z ->
  (fillVertexOffset contour + fillVertexCount contour <= Z.of_nat (length orig))%Z ->
  (forall p0 p1, AtPtr orig j = Some p0 -> AtPtr orig (j + 1) = Some p1 -> p0 <> p1) ->
  (strokeCap style = kTpStrokeCapSquare -> 2 * h <= k) ->
  stroke_inv h k contour orig j loc ->
  stroke_edge fuel contour style h j loc (orig ++ s) js uninit = Some (loc', vs') ->
  all_appended Q (orig ++ s) vs' /\ stroke_inv h k contour orig (j + 1) loc'.
Proof.
  intros Hjoin Hj0 Hj1 Hlen Hne Hsq Hinv H. unfold stroke_edge in H.
  rewrite !AtPtr_app_left in H by lia.
  destruct (AtPtr orig j) as [p0|] eqn:E0; [|discriminate].
  destruct (AtPtr orig (j + 1)) as [p1|] eqn:E1; [|discriminate].
  specialize (Hne p0 p1 eq_refl eq_refl).
  cbv zeta in H.
  set (dir := tpVec2NormalizeSelf (tpVec2Sub p1 p0)) in *.
  assert (Hdir : radius 1 dir).
  { apply normalize_unit. unfold tpVec2Sub. cbn [vx vy fsub R_arith].
    destruct p0 as [x0 y0], p1 as [x1 y1]. cbn [vx vy].
    destruct (Req_dec x1 x0) as [Ex|Ex]; [|left; lra].
    destruct (Req_dec y1 y0) as [Ey|Ey]; [|right; lra].
    exfalso. apply Hne. congruence. }
  set (perp := (mkVec2 (vy dir * h) (- vx dir * h))%tp) in *.
  set (fd0 := (tpVec2MultScalar dir (- c1 * h))%tp) in *.
  set (fp0 := (mkVec2 (vy fd0) (- vx fd0))%tp) in *.
  set (fd1 := tpVec2MultScalar dir h) in *.
  unfold radius in Hdir. replace (1 * 1) with 1 in Hdir by ring.
  assert (Hperp : radius h perp).
  { unfold radius, perp. cbn [vx vy fmul fneg R_arith].
    replace (vy dir * h * (vy dir * h) + - vx dir * h * (- vx dir * h))
      with ((vx dir * vx dir + vy dir * vy dir) * (h * h)) by ring.
    rewrite Hdir. ring. }
  assert (Hfd0 : radius h fd0).
  { unfold radius, fd0, tpVec2MultScalar, c1. cbn [vx vy fmul fneg fconst R_arith].
    replace (vx dir * (- (1 / 1) * h) * (vx dir * (- (1 / 1) * h))
             + vy dir * (- (1 / 1) * h) * (vy dir * (- (1 / 1) * h)))
      with ((vx dir * vx dir + vy dir * vy dir) * (h * h)) by field.
    rewrite Hdir. ring. }
  assert (Hfp0 : radius h fp0).
  { unfold radius in Hfd0 |- *. unfold fp0. cbn [vx vy fneg R_arith].
    rewrite <- Hfd0. ring. }
  assert (Hfd1 : radius h fd1).
  { unfold radius, fd1, tpVec2MultScalar. cbn [vx vy fmul R_arith].
    replace (vx dir * h * (vx dir * h) + vy dir * h * (vy dir * h))
      with ((vx dir * vx dir + vy dir * vy dir) * (h * h)) by ring.
    rewrite Hdir. ring. }
  clearbody fd1 fp0. clearbody fd0. clearbody perp. clearbody dir.
  destruct (radius_reach h perp Hh Hperp) as [Bpx Bpy].
  destruct (radius_reach h fd0 Hh Hfd0) as [B0x B0y].
  destruct (radius_reach h fd1 Hh Hfd1) as [B1x B1y].
  assert (R0 : (fillVertexOffset contour <= j
                < fillVertexOffset contour + fillVertexCount contour)%Z) by lia.
  assert (R1 : (fillVertexOffset contour <= j + 1
                < fillVertexOffset contour + fillVertexCount contour)%Z) by lia.
  assert (Qp0 : Q p0) by (apply (reach_from j p0 p0 R0 E0); lra).
  assert (Qp1 : Q p1) by (apply (reach_from (j + 1) p1 p1 R1 E1); lra).
  assert (Qall0 : forall r, radius h r -> Q (tpVec2Add p0 r)).
  { intros r Hr. destruct (radius_reach h r Hh Hr) as [Bx By].
    apply (reach_from j p0 _ R0 E0); unfold tpVec2Add; cbn [vx vy fadd R_arith]; lra. }
  assert (Qall1 : forall r, radius h r -> Q (tpVec2Add p1 r)).
  { intros r Hr. destruct (radius_reach h r Hh Hr) as [Bx By].
    apply (reach_from (j + 1) p1 _ R1 E1); unfold tpVec2Add; cbn [vx vy fadd R_arith]; lra. }
  assert (Qle0 : Q (tpVec2Add p0 perp)) by (apply Qall0; exact Hperp).
  assert (Qle1 : Q (tpVec2Add p1 perp)) by (apply Qall1; exact Hperp).
  assert (Qre0 : Q (tpVec2Sub p0 perp)).
  { apply (reach_from j p0 _ R0 E0); unfold tpVec2Sub; cbn [vx vy fsub R_arith]; lra. }
  assert (Qre1 : Q (tpVec2Sub p1 perp)).
  { apply (reach_from (j + 1) p1 _ R1 E1); unfold tpVec2Sub; cbn [vx vy fsub R_arith]; lra. }
  assert (Qc0 : strokeCap style = kTpStrokeCapSquare ->
                Q (tpVec2Add (tpVec2Sub p0 perp) fd0)
                /\ Q (tpVec2Add (tpVec2Add p0 perp) fd0)).
  { intros Hc. specialize (Hsq Hc).
    split; apply (reach_from j p0 _ R0 E0); unfold tpVec2Add, tpVec2Sub;
      cbn [vx vy fadd fsub R_arith]; lra. }
  assert (Qc1 : strokeCap style = kTpStrokeCapSquare ->
                Q (tpVec2Add (tpVec2Sub p1 perp) fd1)
                /\ Q (tpVec2Add (tpVec2Add p1 perp) fd1)).
  { intros Hc. specialize (Hsq Hc).
    split; apply (reach_from (j + 1) p1 _ R1 E1); unfold tpVec2Add, tpVec2Sub;
      cbn [vx vy fadd fsub R_arith]; lra. }
  match type of H with
  | match ?st with _ => _ end = _ =>
      assert (Hs : forall x, st = Some x ->
                   all_appended Q (orig ++ s) (snd x)
                   /\ (rc_bIsClosed contour = true ->
                       Q (snd (fst (fst x))) /\ Q (snd (fst x))
                       /\ radius h (snd (fst (fst (fst x))))));
      [|destruct st as [[[[[fd fp] fl] fr] vs1]|]; [|discriminate]]
  end.
  { intros x. destruct (j =? fillVertexOffset contour)%Z eqn:Ej.
    - destruct (rc_bIsClosed contour) eqn:Ec; cbn [negb].
      + intros Hx. injection Hx as <-. cbn [fst snd].
        split; [apply all_appended_refl|]. intros _. auto.
      + destruct (_tpGLMakeCap fuel _ _ _ _ _ _ tpTrue _) as [vs1|] eqn:E; [|discriminate].
        intros Hx. injection Hx as <-. cbn [fst snd].
        split; [|discriminate].
        apply (_tpGLMakeCap_reach _ _ _ _ _ _ _ _ _ _ E); assumption.
    - apply Z.eqb_neq in Ej. destruct (Hinv Ej) as [(Hlp & Hrp & Hpp) Hfirst].
      destruct (AtPtr js j) as [[|]|]; [| |discriminate].
      + destruct (_tpGLMakeJoin _ _ _ _ _ _ _ _ _ _ _ _ _ _ uninit) as [vs1|] eqn:E;
          [|discriminate].
        intros Hx. injection Hx as <-. cbn [fst snd].
        split; [|exact Hfirst].
        apply (_tpGLMakeJoin_reach _ _ _ _ _ _ _ _ _ _ _ _ _ _ _ _ E); assumption.
      + intros Hx. injection Hx as <-. cbn [fst snd].
        split; [|exact Hfirst].
        unfold _tpGLMakeJoinBevel. apply all_appended_triangle; [exact Hlp| |exact Hrp].
        match goal with |- context [if ?b then _ else _] => destruct b end; assumption. }
  specialize (Hs _ eq_refl). cbn [fst snd] in Hs. destruct Hs as [Hs1 Hfirst].
  assert (Hq : all_appended Q (orig ++ s)
                 (_tpGLPushQuad vs1 (tpVec2Add p1 perp) (tpVec2Add p0 perp)
                                (tpVec2Sub p0 perp) (tpVec2Sub p1 perp))).
  { apply (all_appended_trans _ _ _ _ Hs1). apply all_appended_quad; assumption. }
  match type of H with
  | match ?e with _ => _ end = _ =>
      assert (He : forall x, e = Some x -> all_appended Q (orig ++ s) (snd x));
      [|destruct e as [[fd' vs2]|]; [|discriminate]]
  end.
  { intros x.
    destruct ((j =? fillVertexOffset contour + fillVertexCount contour - 2)%Z
              || (fillVertexCount contour =? 2)%Z).
    - destruct (AtPtr js (j + 1)) as [jt|]; [|discriminate].
      destruct (jt && rc_bIsClosed contour) eqn:Ejt.
      + apply andb_true_iff in Ejt. destruct Ejt as [_ Ec].
        destruct (Hfirst Ec) as (Hfl & Hfr & Hfp).
        destruct (_tpGLMakeJoin _ _ _ _ _ _ _ _ _ _ _ _ _ _ uninit) as [vs2|] eqn:E;
          [|discriminate].
        intros Hx. injection Hx as <-. cbn [snd].
        apply (all_appended_trans _ _ _ _ Hq).
        apply (_tpGLMakeJoin_reach _ _ _ _ _ _ _ _ _ _ _ _ _ _ _ _ E); assumption.
      + destruct (_tpGLMakeCap _ _ _ _ _ _ _ tpFalse _) as [vs2|] eqn:E; [|discriminate].
        intros Hx. injection Hx as <-. cbn [snd].
        apply (all_appended_trans _ _ _ _ Hq).
        apply (_tpGLMakeCap_reach _ _ _ _ _ _ _ _ _ _ E); assumption.
    - intros Hx. injection Hx as <-. cbn [snd]. exact Hq. }
  specialize (He _ eq_refl). cbn [snd] in He.
  injection H as <- <-. split; [exact He|].
  intros _. cbn [sl_lePrev sl_rePrev sl_perpPrev sl_firstLe sl_firstRe sl_firstPerp].
  split; [|exact Hfirst]. auto.
Qed.

Lemma stroke_edges_reach (n : nat) :
  forall (fuel : nat) (style : tpStyle R) (j : Z) (loc : @stroke_locals R)
         (s : list (tpVec2 R)) (js : list tpBool) (uninit : tpVec2 R)
         (vs' : list (tpVec2 R)),
    strokeJoin style <> kTpStrokeJoinMiter ->
    (0 <= fillVertexOffset contour <= j)%Z ->
    (j + Z.of_nat n < fillVertexOffset contour + fillVertexCount contour)%Z ->
    (fillVertexOffset contour + fillVertexCount contour <= Z.of_nat (length orig))%Z ->
    (forall i p0 p1,
        (fillVertexOffset contour <= i)%Z ->
        (i + 1 < fillVertexOffset contour + fillVertexCount contour)%Z ->
        AtPtr orig i = Some p0 -> AtPtr orig (i + 1) = Some p1 -> p0 <> p1) ->
    (strokeCap style = kTpStrokeCapSquare -> 2 * h <= k) ->
    stroke_inv h k contour orig j loc ->
    stroke_edges n fuel contour style h j loc (orig ++ s) js uninit = Some vs' ->
    all_appended Q (orig ++ s) vs'.
Proof.
  induction n as [|n IH]; intros fuel style j loc s js uninit vs' Hjoin Hj0 Hj1 Hlen Hne
                                 Hsq Hinv H.
  - injection H as <-. apply all_appended_refl.
  - cbn [stroke_edges] in H.
    destruct (stroke_edge fuel contour style h j loc (orig ++ s) js uninit)
      as [[loc1 vs1]|] eqn:E; [|discriminate].
    apply stroke_edge_reach in E; try assumption; try lia.
    2:{ intros p0 p1. apply Hne; lia. }
    destruct E as [[s1 [Hv1 Hq1]] Hinv1]. rewrite Hv1, <- app_assoc in H.
    apply IH in H; try assumption; try lia.
    destruct H as [s2 [Hv2 Hq2]]. exists (s1 ++ s2).
    split; [rewrite Hv2, <- !app_assoc; reflexivity|].
    apply Forall_app. split; assumption.
Qed.

End Reach.

(** What [_tpGLRenderCacheContourContinousStrokeGeometry] appends lies
    within [k] of the fill vertices, for a [k] of half the stroke width or
    more, and of the whole stroke width or more when the caps are square. *)
Lemma continuous_stroke_reach (k : R) (fuel : nat)
    (contour : _tpGLRenderCacheContour) (style : tpStyle R)
    (outVertices : list (tpVec2 R)) (outJoints : list tpBool) (uninit : tpVec2 R)
    (contour' : _tpGLRenderCacheContour) (vertices' : list (tpVec2 R)) :
  0 <= strokeWidth style ->
  strokeWidth style / 2 <= k ->
  (strokeCap style = kTpStrokeCapSquare -> strokeWidth style <= k) ->
  strokeJoin style <> kTpStrokeJoinMiter ->
  (0 <= fillVertexOffset contour)%Z ->
  (fillVertexOffset contour + fillVertexCount contour
   <= Z.of_nat (length outVertices))%Z ->
  (forall i p0 p1,
      (fillVertexOffset contour <= i)%Z ->
      (i + 1 < fillVertexOffset contour + fillVertexCount contour)%Z ->
      AtPtr outVertices i = Some p0 -> AtPtr outVertices (i + 1) = Some p1 -> p0 <> p1) ->
  _tpGLRenderCacheContourContinousStrokeGeometry (L := R_libm) fuel contour style
    outVertices outJoints uninit = Some (contour', vertices') ->
  exists soup,
    vertices' = outVertices ++ soup
    /\ Forall (near_fill k contour outVertices) soup.
Proof.
  intros Hw Hk Hsq Hjoin Hoff Hlen Hne H.
  assert (Eh : (strokeWidth style * chalf)%tp = strokeWidth style / 2).
  { unfold chalf. cbn [fmul fconst R_arith]. field. }
  unfold _tpGLRenderCacheContourContinousStrokeGeometry in H.
  destruct (fillVertexCount contour <=? 1)%Z eqn:Hc.
  - injection H as _ <-. exists []. rewrite app_nil_r. split; [reflexivity|constructor].
  - apply Z.leb_gt in Hc.
    match type of H with
    | match ?e with _ => _ end = _ => destruct e as [vs|] eqn:E; [|discriminate]
    end.
    injection H as _ <-.
    rewrite <- (app_nil_r outVertices) in E at 1.
    apply (stroke_edges_reach _ k) in E; try assumption; try lia.
    + rewrite app_nil_r in E. exact E.
    + rewrite Eh. lra.
    + rewrite Eh. exact Hk.
    + intros Hc'. rewrite Eh. specialize (Hsq Hc'). lra.
    + intros Hj. contradiction.
Qed.

(** X28. Over the real numbers, for a stroke width that is not negative and
    a join other than the miter join, on a contour whose fill vertices lie in
    the vertex array with no two consecutive ones equal: every vertex that
    [_tpGLRenderCacheContourContinousStrokeGeometry] appends lies within the
    stroke width, in both coordinates, of a fill vertex of the contour.  So a
    rectangle that holds the fill vertices, widened by the amount that
    [_tpGLCacheBoundsGeometry] adds for the stroke, holds the whole stroke,
    for every cap. *)
Theorem _tpGLRenderCacheContourContinousStrokeGeometry_reach (fuel : nat)
    (contour : _tpGLRenderCacheContour) (style : tpStyle R)
    (outVertices : list (tpVec2 R)) (outJoints : list tpBool) (uninit : tpVec2 R)
    (contour' : _tpGLRenderCacheContour) (vertices' : list (tpVec2 R)) :
  0 <= strokeWidth style ->
  strokeJoin style <> kTpStrokeJoinMiter ->
  (0 <= fillVertexOffset contour)%Z ->
  (fillVertexOffset contour + fillVertexCount contour
   <= Z.of_nat (length outVertices))%Z ->
  (forall i p0 p1,
      (fillVertexOffset contour <= i)%Z ->
      (i + 1 < fillVertexOffset contour + fillVertexCount contour)%Z ->
      AtPtr outVertices i = Some p0 -> AtPtr outVertices (i + 1) = Some p1 -> p0 <> p1) ->
  _tpGLRenderCacheContourContinousStrokeGeometry (L := R_libm) fuel contour style
    outVertices outJoints uninit = Some (contour', vertices') ->
  exists soup,
    vertices' = outVertices ++ soup
    /\ Forall (near_fill (strokeWidth style) contour outVertices) soup
    /\ forall b : _tpGLRect R,
         (forall i p,
             (fillVertexOffset contour <= i
              < fillVertexOffset contour + fillVertexCount contour)%Z ->
             AtPtr outVertices i = Some p -> inside b p) ->
         Forall (inside (expand_rect b (stroke_adder style))) soup.
Proof.
  intros Hw Hjoin Hoff Hlen Hne H.
  assert (Hsoup : exists soup,
             vertices' = outVertices ++ soup
             /\ Forall (near_fill (strokeWidth style) contour outVertices) soup).
  { apply (continuous_stroke_reach (strokeWidth style) fuel contour style outVertices
             outJoints uninit contour' vertices'); try assumption; lra. }
  destruct Hsoup as [soup [Hv Hq]]. exists soup. split; [exact Hv|]. split; [exact Hq|].
  intros b Hb. apply (Forall_impl _ (P := near_fill (strokeWidth style) contour outVertices));
    [|exact Hq].
  intros v (i & p & Hi & Hp & Hx & Hy).
  destruct (Hb i p Hi Hp) as [[Bx0 Bx1] [By0 By1]].
  assert (Ea : stroke_adder style = strokeWidth style).
  { unfold stroke_adder. destruct (strokeJoin style); [contradiction|reflexivity|reflexivity]. }
  rewrite Ea. unfold inside, expand_rect. cbn [vx vy rmin rmax].
  apply Rabs_le_bounds in Hx. apply Rabs_le_bounds in Hy. repeat split; lra.
Qed.

Lemma _tpGLRenderCacheContourContinousStrokeGeometry_reach_witness :
  Forall (near_fill 2 line_contour line_fill) line_soup.
Proof.
  destruct (_tpGLRenderCacheContourContinousStrokeGeometry_reach 0%nat line_contour
              wide_style line_fill line_joints (mkVec2 0 0)
              (mkRcContour 0 2 2 6 tpFalse) (line_fill ++ line_soup))
    as (soup & Hv & Hq & _).
  - cbn [strokeWidth wide_style]. lra.
  - cbn [strokeJoin wide_style tpStyleMake]. discriminate.
  - cbn [fillVertexOffset line_contour]. lia.
  - cbn [fillVertexOffset fillVertexCount line_contour line_fill length]. lia.
  - cbn [fillVertexOffset fillVertexCount line_contour]. intros i p0 p1 H0 H1.
    assert (Ei : i = 0%Z) by lia. subst i.
    unfold AtPtr, line_fill. cbn. intros E0 E1 E. rewrite E in E0. rewrite <- E0 in E1.
    injection E1 as E1. lra.
  - apply line_stroke.
  - apply app_inv_head in Hv. rewrite Hv. exact Hq.
Defined.


(** ** The stroke and the fill bounds *)

Lemma aabb_from_inside (vs : list (tpVec2 R)) :
  forall b : _tpGLRect R,
    Forall (inside (fold_left (fun b v => _tpGLEvaluatePointForBounds v b) vs b)) vs
    /\ within b (fold_left (fun b v => _tpGLEvaluatePointForBounds v b) vs b).
Proof.
  induction vs as [|v vs IH]; intros b; cbn [fold_left].
  - split; [constructor|apply within_refl].
  - destruct (IH (_tpGLEvaluatePointForBounds v b)) as [Hall Hw].
    destruct (evaluate_inside v b) as [Hv Hb].
    split.
    + constructor; [|exact Hall]. apply (inside_within _ _ _ Hv Hw).
    + apply (within_trans _ _ _ Hb Hw).
Qed.

Lemma aabb_inside (vs : list (tpVec2 R)) : Forall (inside (aabb vs)) vs.
Proof. apply aabb_from_inside. Qed.

Lemma fill_vertices_In (contour : _tpGLRenderCacheContour) (vertices : list (tpVec2 R))
    (i : Z) (p : tpVec2 R) :
  (0 <= fillVertexOffset contour)%Z ->
  (fillVertexOffset contour <= i < fillVertexOffset contour + fillVertexCount contour)%Z ->
  AtPtr vertices i = Some p ->
  In p (fill_vertices contour vertices).
Proof.
  intros Hoff Hi Hp. pose proof (AtPtr_Some_range _ _ _ Hp) as Hr.
  rewrite (AtPtr_nth_error _ _ Hr) in Hp.
  unfold fill_vertices.
  apply (nth_error_In _ (Z.to_nat i - Z.to_nat (fillVertexOffset contour))).
  rewrite nth_error_firstn.
  replace (Z.to_nat i - Z.to_nat (fillVertexOffset contour)
           <? Z.to_nat (fillVertexCount contour))%nat with true
    by (symmetry; apply Nat.ltb_lt; lia).
  rewrite nth_error_skipn.
  replace (Z.to_nat (fillVertexOffset contour)
           + (Z.to_nat i - Z.to_nat (fillVertexOffset contour)))%nat
    with (Z.to_nat i) by lia.
  exact Hp.
Qed.

(** A vertex within [k] of a fill vertex lies in the fill bounds widened by
    [k]. *)
Lemma near_fill_inside (k : R) (contour : _tpGLRenderCacheContour)
    (vertices : list (tpVec2 R)) (b : _tpGLRect R) (v : tpVec2 R) :
  (0 <= fillVertexOffset contour)%Z ->
  within (aabb (fill_vertices contour vertices)) b ->
  near_fill k contour vertices v ->
  inside (expand_rect b k) v.
Proof.
  intros Hoff Hb (i & p & Hi & Hp & Hx & Hy).
  pose proof (aabb_inside (fill_vertices contour vertices)) as Hall.
  rewrite Forall_forall in Hall.
  specialize (Hall p (fill_vertices_In contour vertices i p Hoff Hi Hp)).
  apply (inside_within _ b) in Hall; [|exact Hb].
  destruct Hall as [[Bx0 Bx1] [By0 By1]].
  unfold inside, expand_rect. cbn [vx vy rmin rmax].
  apply Rabs_le_bounds in Hx. apply Rabs_le_bounds in Hy. repeat split; lra.
Qed.



Lemma slant_length : sqrt ((3 - 0) * (3 - 0) + (4 - 0) * (4 - 0)) = 5.
Proof.
  replace ((3 - 0) * (3 - 0) + (4 - 0) * (4 - 0)) with (5 * 5) by ring.
  apply sqrt_square. lra.
Qed.

Lemma slant_stroke (fuel : nat) :
  _tpGLRenderCacheContourContinousStrokeGeometry fuel line_contour square_style
    slant_fill line_joints (mkVec2 0 0)
  = Some (mkRcContour 0 2 2 18 tpFalse, slant_fill ++ slant_soup).
Proof.
  unfold _tpGLRenderCacheContourContinousStrokeGeometry, line_contour, square_style,
    slant_fill, line_joints.
  step_R.
  unfold tpVec2NormalizeSelf, tpVec2Length, tpVec2Sub, tpVec2Add, _tpGLPushQuad,
    tpVec2MultScalar.
  step_R.
  rewrite slant_length.
  unfold slant_soup. apply f_equal. apply f_equal. cbn [app].
  repeat match goal with
         | |- _ :: _ = _ :: _ =>
             apply f_equal2;
             [first [reflexivity | apply vec2_eq; cbn [vx vy]; field]|]
         end.
  reflexivity.
Qed.

Lemma slant_fill_bounds :
  aabb (fill_vertices line_contour slant_fill) = mkRect (mkVec2 0 0) (mkVec2 3 4).
Proof.
  unfold fill_vertices, aabb, slant_fill, line_contour, _tpGLInitBounds.
  cbn [fillVertexCount fillVertexOffset].
  change (Z.to_nat 2) with 2%nat. change (Z.to_nat 0) with 0%nat.
  cbn [firstn skipn fold_left].
  unfold _tpGLEvaluatePointForBounds. cbn [vx vy rmin rmax].
  Rmin_max. reflexivity.
Qed.



(** ** A round cap on an edge of length zero (binary32) *)

Lemma b32_nan_mul (x : b32) : fmul S754_nan x = S754_nan.
Proof. destruct x; reflexivity. Qed.

Lemma b32_mul_nan (x : b32) : fmul x S754_nan = S754_nan.
Proof. destruct x; reflexivity. Qed.

Lemma b32_rotate_nan (rot : tpMat2 b32) : tpMat2MultVec2 rot nan_point = nan_point.
Proof.
  unfold tpMat2MultVec2, nan_point. cbn [vx vy]. rewrite !b32_nan_mul. reflexivity.
Qed.

Lemma b32_cross_nan (r1 : tpVec2 b32) : fltb (tpVec2Cross nan_point r1) c0 = false.
Proof.
  unfold tpVec2Cross, nan_point. cbn [vx vy]. rewrite !b32_nan_mul. reflexivity.
Qed.

(** With a radius that is not a number the loop of [_tpGLMakeCircleSector]
    never takes its [break]. *)
Lemma circle_sector_loop_nan (fuel : nat) :
  forall (rot : tpMat2 b32) (center r1 lst : tpVec2 b32) (vs : list (tpVec2 b32)),
    circle_sector_loop fuel rot center nan_point r1 lst vs = None.
Proof.
  induction fuel as [|fuel IH]; intros rot center r1 lst vs; [reflexivity|].
  cbn [circle_sector_loop]. rewrite b32_rotate_nan, b32_cross_nan. apply IH.
Qed.

(** X29. In binary32, on an open contour whose first edge has length zero
    (two equal finite fill vertices), with the round cap, the stroker does
    not return: the direction of the edge is not a number, so the radius of
    the start cap is not a number, no rotated radius compares as past the
    end of the sector, and the loop of [_tpGLMakeCircleSector] never takes
    its [break], whatever the bound on its turns and whatever [sinf] and
    [cosf] return. *)
Theorem round_cap_zero_edge_never_returns
    (sinf cosf acosf : b32 -> b32) (fmodf : b32 -> b32 -> b32) (toint : b32 -> Z)
    (fuel : nat) (contour : _tpGLRenderCacheContour) (style : tpStyle b32)
    (outVertices : list (tpVec2 b32)) (outJoints : list tpBool) (uninit p : tpVec2 b32) :
  rc_bIsClosed contour = tpFalse ->
  (1 < fillVertexCount contour)%Z ->
  AtPtr outVertices (fillVertexOffset contour) = Some p ->
  AtPtr outVertices (fillVertexOffset contour + 1) = Some p ->
  b32_is_finite (vx p) = true -> b32_is_finite (vy p) = true ->
  strokeCap style = kTpStrokeCapRound ->
  @_tpGLRenderCacheContourContinousStrokeGeometry b32 b32_arith
    (b32_libm sinf cosf acosf fmodf toint) fuel contour style outVertices outJoints uninit
  = None.
Proof.
  intros Hopen Hcount E0 E1 Hx Hy Hcap.
  unfold _tpGLRenderCacheContourContinousStrokeGeometry.
  replace (fillVertexCount contour <=? 1)%Z with false by (symmetry; apply Z.leb_gt; lia).
  destruct (Z.to_nat (fillVertexCount contour - 1)) as [|n] eqn:En; [lia|].
  cbn [stroke_edges]. unfold stroke_edge. rewrite E0, E1, Z.eqb_refl, Hopen, Hcap.
  cbn [negb tpFalse].
  destruct (b32_normalize_zero_edge p Hx Hy) as (_ & _ & Hdir). rewrite Hdir.
  unfold _tpGLMakeCap, _tpGLMakeCircleSector, tpVec2MultScalar, nan_point.
  cbn [vx vy]. rewrite !b32_nan_mul. cbn [fneg b32_arith SFopp].
  fold nan_point. rewrite circle_sector_loop_nan. reflexivity.
Qed.

Lemma round_cap_zero_edge_never_returns_witness :
  @_tpGLRenderCacheContourContinousStrokeGeometry b32 b32_arith
    (b32_libm (fun x => x) (fun x => x) (fun x => x) (fun x _ => x) (fun _ => 0%Z))
    1000 (mkRcContour 0 2 0 0 tpFalse)
    (mkStyle (fill tpStyleMake) (stroke tpStyleMake) c1 kTpStrokeCapRound
             kTpStrokeJoinBevel kTpFillRuleEvenOdd [] c0 (fconst 4 1) tpTrue)
    [mkVec2 c0 c0; mkVec2 c0 c0] [tpFalse; tpTrue] (mkVec2 c0 c0)
  = None.
Proof.
  apply (round_cap_zero_edge_never_returns _ _ _ _ _ 1000 _ _ _ _ _ (mkVec2 c0 c0));
    reflexivity.
Defined.


(** ** The corner of a miter join *)

(** X30. Over the real numbers [_tpGLIntersectLines] finds the point where
    two lines meet: for directions that are not parallel it returns [tpTrue]
    and a point that lies on the line through [p0] along [d0] and on the
    line through [p1] along [d1], the only such point; for parallel
    directions it returns [tpFalse] and leaves the result as it was.
    [_tpGLMakeJoinMiter] does not look at the flag: its quad has that point
    as the corner between the two edges, and for parallel edges the value
    that its local had before the call. *)
Theorem _tpGLIntersectLines_meets (p0 d0 p1 d1 outResult : tpVec2 R) :
  (tpVec2Cross d0 d1 <> 0 ->
   exists q,
     _tpGLIntersectLines p0 d0 p1 d1 outResult = (tpTrue, q)
     /\ tpVec2Cross (tpVec2Sub q p0) d0 = 0
     /\ tpVec2Cross (tpVec2Sub q p1) d1 = 0
     /\ (forall q',
           tpVec2Cross (tpVec2Sub q' p0) d0 = 0 ->
           tpVec2Cross (tpVec2Sub q' p1) d1 = 0 -> q' = q)
     /\ forall (p : tpVec2 R) (cross : R) (vs : list (tpVec2 R)),
          _tpGLMakeJoinMiter p p0 p1 d0 d1 cross vs outResult
          = vs ++ [p; p0; q; q; p1; p])
  /\ (tpVec2Cross d0 d1 = 0 ->
      _tpGLIntersectLines p0 d0 p1 d1 outResult = (tpFalse, outResult)
      /\ forall (p : tpVec2 R) (cross : R) (vs : list (tpVec2 R)),
           _tpGLMakeJoinMiter p p0 p1 d0 d1 cross vs outResult
           = vs ++ [p; p0; outResult; outResult; p1; p]).
Proof.
  unfold _tpGLMakeJoinMiter, _tpGLPushQuad, _tpGLIntersectLines, c0.
  cbn [feqb fconst R_arith]. replace (0 / 1) with 0 by field.
  split; intros Hc.
  - rewrite (proj2 (Reqb_false _ _) Hc). eexists. split; [reflexivity|].
    destruct p0 as [x0 y0], d0 as [a0 b0], p1 as [x1 y1], d1 as [a1 b1].
    unfold tpVec2Cross, tpVec2Sub, tpVec2Add, tpVec2MultScalar in *.
    cbn [vx vy fadd fsub fmul fdiv R_arith snd] in *.
    split; [field; exact Hc|]. split; [field; exact Hc|].
    split; [|reflexivity].
    intros [x y]. cbn [vx vy]. intros H0 H1.
    assert (Ex : x = x0 + a0 * ((a1 * (y0 - y1) - b1 * (x0 - x1)) / (a0 * b1 - b0 * a1))).
    { apply (Rmult_eq_reg_r (a0 * b1 - b0 * a1)); [|exact Hc].
      replace ((x0 + a0 * ((a1 * (y0 - y1) - b1 * (x0 - x1)) / (a0 * b1 - b0 * a1)))
               * (a0 * b1 - b0 * a1))
        with (x0 * (a0 * b1 - b0 * a1) + a0 * (a1 * (y0 - y1) - b1 * (x0 - x1)))
        by (field; exact Hc).
      apply Rminus_diag_uniq.
      replace (x * (a0 * b1 - b0 * a1)
               - (x0 * (a0 * b1 - b0 * a1) + a0 * (a1 * (y0 - y1) - b1 * (x0 - x1))))
        with (a0 * ((x - x1) * b1 - (y - y1) * a1) - a1 * ((x - x0) * b0 - (y - y0) * a0))
        by ring.
      rewrite H0, H1. ring. }
    assert (Ey : y = y0 + b0 * ((a1 * (y0 - y1) - b1 * (x0 - x1)) / (a0 * b1 - b0 * a1))).
    { apply (Rmult_eq_reg_r (a0 * b1 - b0 * a1)); [|exact Hc].
      replace ((y0 + b0 * ((a1 * (y0 - y1) - b1 * (x0 - x1)) / (a0 * b1 - b0 * a1)))
               * (a0 * b1 - b0 * a1))
        with (y0 * (a0 * b1 - b0 * a1) + b0 * (a1 * (y0 - y1) - b1 * (x0 - x1)))
        by (field; exact Hc).
      apply Rminus_diag_uniq.
      replace (y * (a0 * b1 - b0 * a1)
               - (y0 * (a0 * b1 - b0 * a1) + b0 * (a1 * (y0 - y1) - b1 * (x0 - x1))))
        with (b0 * ((x - x1) * b1 - (y - y1) * a1) - b1 * ((x - x0) * b0 - (y - y0) * a0))
        by ring.
      rewrite H0, H1. ring. }
    rewrite Ex, Ey. reflexivity.
  - rewrite (proj2 (Reqb_true _ _) Hc). split; reflexivity.
Qed.
